(** * purrgram-llvm: a shallow embedding of the front end and the lowering engine

    The development follows the pipeline of the compiler:
    [Position] and [Token] (Token.py), the automatic semicolon insertion
    (Sanitizer.py), the lexer (Lexer.py), the Pratt parser (Parser.py), the
    scoped environment (Environment.py) and the lowering to LLVM IR
    (Compiler.py).  Python integers are [Z], Python strings are the byte
    strings of the Standard Library, [None] is [option], exceptions are an
    explicit outcome of every stateful operation. *)

From Stdlib Require Import ZArith List String Ascii Bool Lia DecimalString.
From stdpp Require Import gmap strings.
Import ListNotations.

Local Open Scope Z_scope.

(* ===================================================================== *)
(** * Python exceptions *)
(* ===================================================================== *)

(** The exceptions the modelled code can raise.  All of them but
    [SystemExit] derive from Python's [Exception] and are caught by
    [except Exception]. *)
Inductive PyExn : Type :=
| PyException (msg : string)
| NameError (msg : string)
| TypeError (msg : string)
| ValueError (msg : string)
| AttributeError (msg : string)
| KeyError (msg : string)
| IndexError (msg : string)
| RuntimeError (msg : string)
| NotImplementedError (msg : string)
| FileNotFoundError (msg : string)
| AssertionError (msg : string)
| CompilationError (msg : string)
| SystemExit (code : Z).

Definition is_Exception (e : PyExn) : bool :=
  match e with SystemExit _ => false | _ => true end.

(* ===================================================================== *)
(** * Position *)
(* ===================================================================== *)

Module Position.

(** Modelled from the spec: Position.py is not among the sources.  A
    position is [{byte_index, line (1-based), column (0-based), file_name,
    full_source_text}]; advancing over a newline increments the line and
    resets the column to 0, otherwise it increments the column; the byte
    index always moves by one.  Positions are values: [copy] is the
    identity. *)
Record t : Type := mk {
  idx : Z;
  ln : Z;
  col : Z;
  fn : string;
  ftxt : string
}.

Definition newline : ascii := "010"%char.

Definition advance (p : t) (current_char : option ascii) : t :=
  match current_char with
  | Some c =>
      if Ascii.eqb c newline
      then mk (idx p + 1) (ln p + 1) 0 (fn p) (ftxt p)
      else mk (idx p + 1) (ln p) (col p + 1) (fn p) (ftxt p)
  | None => mk (idx p + 1) (ln p) (col p + 1) (fn p) (ftxt p)
  end.

Definition copy (p : t) : t := p.

End Position.

(* ===================================================================== *)
(** * Tokens (Token.py) *)
(* ===================================================================== *)

Inductive TokenType : Type :=
| IDENT | INT | FLOAT | BOOL | STRING
| PLUS | MINUS | ASTERISK | SLASH | POW | MODULUS
| EQ | PLUS_EQ | MINUS_EQ | MUL_EQ | DIV_EQ | POW_EQ | MOD_EQ
| LPAREN | RPAREN | COLON | COMMA | SEMICOLON
| AND | OR | NOT | VAR | DEF | RETURN | IF | ELIF | ELSE
| TRUE | FALSE | WHILE | CONTINUE | BREAK | IMPORT | END
| TYPE
| ARROW | EOF | ILLEGAL
| GT | LT | GT_EQ | LT_EQ | NOT_EQ | EQ_EQ.

Definition TokenType_eq_dec (a b : TokenType) : {a = b} + {a <> b}.
Proof. decide equality. Defined.

Definition tt_eqb (a b : TokenType) : bool :=
  if TokenType_eq_dec a b then true else false.

(** Membership of a token type in a Python set or list literal. *)
Definition tt_in (a : TokenType) (l : list TokenType) : bool :=
  existsb (tt_eqb a) l.

(** The literal carried by a token: Python stores a [str] for most tokens,
    an [int] for INT, a [float] for FLOAT (kept as its decimal text, which
    determines the float) and [None] for EOF. *)
Inductive Literal : Type :=
| LNone
| LStr (s : string)
| LInt (n : Z)
| LFloat (digits : string).

Definition Literal_eq_dec (a b : Literal) : {a = b} + {a <> b}.
Proof. decide equality; try apply string_dec; apply Z.eq_dec. Defined.

(** [literal == s] for a Python string [s]. *)
Definition lit_is (l : Literal) (s : string) : bool :=
  match l with LStr s' => String.eqb s' s | _ => false end.

Record Token : Type := mkToken {
  type_ : TokenType;
  literal : Literal;
  pos_start : Position.t;
  pos_end : Position.t
}.

(** [Token(type_, literal, pos_start, pos_end)]: without [pos_end] the token
    ends one position after its start (the end is exclusive). *)
Definition Token_new (ty : TokenType) (lit : Literal)
    (ps : Position.t) (pe : option Position.t) : Token :=
  match pe with
  | Some e => mkToken ty lit (Position.copy ps) (Position.copy e)
  | None => mkToken ty lit (Position.copy ps)
              (Position.advance (Position.copy ps) None)
  end.

Definition KEYWORDS : list (string * TokenType) :=
  [ ("and", AND); ("or", OR); ("not", NOT); ("var", VAR); ("def", DEF);
    ("return", RETURN); ("if", IF); ("elif", ELIF); ("else", ELSE);
    ("true", TRUE); ("false", FALSE); ("while", WHILE);
    ("continue", CONTINUE); ("break", BREAK); ("import", IMPORT);
    ("end", END) ]%string.

Definition TYPE_KEYWORDS : list string :=
  [ "int"; "float"; "bool"; "str"; "void" ]%string.

Fixpoint assoc_get {A : Type} (k : string) (l : list (string * A)) : option A :=
  match l with
  | [] => None
  | (k', v) :: rest => if String.eqb k k' then Some v else assoc_get k rest
  end.

Definition lookup_ident (ident : string) : TokenType :=
  match assoc_get ident KEYWORDS with
  | Some ty => ty
  | None => if existsb (String.eqb ident) TYPE_KEYWORDS then TYPE else IDENT
  end.

(* ===================================================================== *)
(** * Error handler (Error.py) *)
(* ===================================================================== *)

Record Error : Type := mkError {
  err_pos_start : Position.t;
  err_pos_end : Position.t;
  error_name : string;
  details : string
}.

Record ErrorHandler : Type := mkHandler {
  errors : list Error;
  warnings : list Error;
  has_error : bool
}.

Definition ErrorHandler_new : ErrorHandler := mkHandler [] [] false.

Definition add_error (h : ErrorHandler) (ps pe : Position.t)
    (name det : string) : ErrorHandler :=
  mkHandler (errors h ++ [mkError ps pe name det]) (warnings h) true.

(* ===================================================================== *)
(** * Stateful computations that may raise *)
(* ===================================================================== *)

(** A method of a Python object is a function of the object's state; it
    returns a value and the new state, or raises an exception (the state
    mutated so far is kept: the object is shared), or runs out of the fuel
    that bounds the loops and the recursion of the model. *)
Inductive Outcome (S A : Type) : Type :=
| Ok (a : A) (s : S)
| Raise (e : PyExn) (s : S)
| OutOfFuel.

Arguments Ok {S A} a s.
Arguments Raise {S A} e s.
Arguments OutOfFuel {S A}.

Definition M (S A : Type) : Type := S -> Outcome S A.

Definition ret {S A : Type} (a : A) : M S A := fun s => Ok a s.

Definition bind {S A B : Type} (m : M S A) (k : A -> M S B) : M S B :=
  fun s =>
    match m s with
    | Ok a s' => k a s'
    | Raise e s' => Raise e s'
    | OutOfFuel => OutOfFuel
    end.

Definition raise {S A : Type} (e : PyExn) : M S A := fun s => Raise e s.

Definition get_state {S : Type} : M S S := fun s => Ok s s.

Definition put_state {S : Type} (s : S) : M S unit := fun _ => Ok tt s.

Definition modify {S : Type} (f : S -> S) : M S unit := fun s => Ok tt (f s).

Definition out_of_fuel {S A : Type} : M S A := fun _ => OutOfFuel.

(** [try: m except Exception as e: h e]. *)
Definition try_except {S A : Type} (m : M S A) (h : PyExn -> M S A) : M S A :=
  fun s =>
    match m s with
    | Ok a s' => Ok a s'
    | Raise e s' => if is_Exception e then h e s' else Raise e s'
    | OutOfFuel => OutOfFuel
    end.

Declare Scope monad_scope.
Delimit Scope monad_scope with monad.
Notation "x <- m ;; k" := (bind m (fun x => k))
  (at level 100, m at next level, right associativity) : monad_scope.
Notation "m ;;; k" := (bind m (fun _ => k))
  (at level 100, right associativity) : monad_scope.

(* ===================================================================== *)
(** * Python strings *)
(* ===================================================================== *)

Module PyStr.

Definition backslash : ascii := "092"%char.
Definition dquote : ascii := "034"%char.
Definition squote : ascii := "039"%char.
Definition NUL : ascii := "000"%char.
Definition BS : ascii := "008"%char.
Definition TAB : ascii := "009"%char.
Definition LF : ascii := "010"%char.
Definition VT : ascii := "011"%char.
Definition FF : ascii := "012"%char.
Definition CR : ascii := "013"%char.

Definition str1 (c : ascii) : string := String c EmptyString.
Definition str2 (c d : ascii) : string := String c (String d EmptyString).

(** [s.replace(old, new)] for a non-empty [old]: the occurrences of [old]
    are found from left to right and do not overlap.  [skip] counts the
    characters of a match that are still to be dropped. *)
Fixpoint replace_from (old new : string) (skip : nat) (s : string) : string :=
  match s with
  | EmptyString => EmptyString
  | String c s' =>
      match skip with
      | S k => replace_from old new k s'
      | O =>
          if String.prefix old s
          then String.append new
                 (replace_from old new (Nat.pred (String.length old)) s')
          else String c (replace_from old new O s')
      end
  end.

Definition replace (s old new : string) : string := replace_from old new O s.

Fixpoint endswith_char (s : string) (c : ascii) : bool :=
  match s with
  | EmptyString => false
  | String d EmptyString => Ascii.eqb d c
  | String _ s' => endswith_char s' c
  end.

(** [c in chars] for a one-character string [c]. *)
Definition char_in (c : ascii) (chars : string) : bool :=
  existsb (Ascii.eqb c) (list_ascii_of_string chars).

(** [int(s)] on a string of decimal digits. *)
Definition digit_value (c : ascii) : Z := Z.of_nat (nat_of_ascii c) - 48.

Fixpoint int_of_digits (acc : Z) (s : string) : Z :=
  match s with
  | EmptyString => acc
  | String c s' => int_of_digits (10 * acc + digit_value c) s'
  end.

End PyStr.
(* ===================================================================== *)
(** * Automatic semicolon insertion (Sanitizer.py) *)
(* ===================================================================== *)

Module Sanitizer.

(** The three set literals tested on [prev] and [cur], and the one of the
    final check. *)
Definition prev_closers : list TokenType :=
  [RPAREN; IDENT; STRING; INT; FLOAT; FALSE; TRUE].

Definition cur_starters : list TokenType :=
  [LPAREN; IDENT; STRING; INT; FLOAT; FALSE; TRUE; DEF; RETURN;
   IF; ELIF; ELSE; END; VAR; WHILE; BREAK; CONTINUE].

Definition after_return : list TokenType :=
  [BREAK; CONTINUE; DEF; ELIF; ELSE; END; IF; RETURN; VAR; WHILE].

Definition final_closers : list TokenType :=
  [RPAREN; IDENT; STRING; INT; FLOAT; BREAK; CONTINUE; FALSE; RETURN; TRUE].

(** One iteration of the first loop: the byte indices appended to
    [insert_positions] for the pair [(prev, cur)]. *)
Definition pair_positions (prev : option Token) (cur : Token) : list Z :=
  match prev with
  | Some p =>
      if negb (tt_eqb (type_ cur) EOF)
         && negb (Position.ln (pos_end p) =? Position.ln (pos_start cur))
      then
        if tt_in (type_ p) prev_closers then
          if tt_in (type_ cur) cur_starters
          then [Position.idx (pos_end p)] else []
        else if tt_in (type_ p) [BREAK; CONTINUE] then
          [Position.idx (pos_end p)]
        else if tt_eqb (type_ p) RETURN then
          if tt_in (type_ cur) after_return
          then [Position.idx (pos_end p)] else []
        else []
      else if tt_eqb (type_ cur) EOF then
        if tt_in (type_ p) final_closers
        then [Position.idx (pos_end p)] else []
      else []
  | None => []
  end.

(** The first loop, threading [prev]. *)
Fixpoint insert_positions (prev : option Token) (tokens : list Token) : list Z :=
  match tokens with
  | [] => []
  | cur :: rest => pair_positions prev cur ++ insert_positions (Some cur) rest
  end.

Definition semicolon_after (token : Token) : Token :=
  Token_new SEMICOLON (LStr ";")
    (Position.copy (pos_end token))
    (Some (Position.advance (Position.copy (pos_end token)) None)).

Definition mem_pos (x : Z) (s : list Z) : bool := existsb (Z.eqb x) s.

(** The second loop: every token is kept, followed by a semicolon when its
    end index is in the set. *)
Fixpoint reconstruct (s : list Z) (tokens : list Token) : list Token :=
  match tokens with
  | [] => []
  | token :: rest =>
      if mem_pos (Position.idx (pos_end token)) s
      then token :: semicolon_after token :: reconstruct s rest
      else token :: reconstruct s rest
  end.

Definition sanitize (tokens : list Token) : list Token :=
  reconstruct (insert_positions None tokens) tokens.

End Sanitizer.

(* ===================================================================== *)
(** * The insertion rule as the specification words it *)
(* ===================================================================== *)

Module AsiSpec.

(** The "expression-closer" set, the "statement-starter" set and the
    statement-starter keywords of the rule. *)
Definition expression_closer (ty : TokenType) : bool :=
  tt_in ty [RPAREN; IDENT; STRING; INT; FLOAT; TRUE; FALSE].

Definition statement_starter (ty : TokenType) : bool :=
  tt_in ty [LPAREN; IDENT; STRING; INT; FLOAT; TRUE; FALSE;
            DEF; RETURN; IF; ELIF; ELSE; END; VAR; WHILE; BREAK; CONTINUE].

Definition starter_keyword (ty : TokenType) : bool :=
  tt_in ty [DEF; RETURN; IF; ELIF; ELSE; END; VAR; WHILE; BREAK; CONTINUE].

(** A semicolon goes between [prev] and [cur] when [cur] is not EOF, [prev]
    ends on an earlier line than [cur] starts, and one of the three cases
    holds. *)
Definition asi_rule (prev cur : Token) : bool :=
  negb (tt_eqb (type_ cur) EOF)
  && (Position.ln (pos_end prev) <? Position.ln (pos_start cur))
  && ((expression_closer (type_ prev) && statement_starter (type_ cur))
      || tt_in (type_ prev) [BREAK; CONTINUE]
      || (tt_eqb (type_ prev) RETURN && starter_keyword (type_ cur))).

(** The final semicolon goes before EOF when the last other token is an
    expression closer, [break], [continue] or [return]. *)
Definition final_rule (last : Token) : bool :=
  expression_closer (type_ last) || tt_in (type_ last) [BREAK; CONTINUE; RETURN].

Definition is_final_eof (rest : list Token) : bool :=
  match rest with
  | [e] => tt_eqb (type_ e) EOF
  | _ => false
  end.

(** The token stream the rule describes: every token of the input in
    order, with a semicolon after [prev] exactly in the two situations
    above, and nothing else. *)
Fixpoint asi_spec (tokens : list Token) : list Token :=
  match tokens with
  | [] => []
  | prev :: rest =>
      match rest with
      | [] => [prev]
      | cur :: _ =>
          if asi_rule prev cur || (is_final_eof rest && final_rule prev)
          then prev :: Sanitizer.semicolon_after prev :: asi_spec rest
          else prev :: asi_spec rest
      end
  end.

(** ** The shape of a lexed token stream

    What the rule relies on in the streams the lexer produces: EOF is the
    last token and only the last; tokens do not overlap (a token ends
    before every later one starts); a token is not empty, except ILLEGAL
    ones which end where they start; lines grow with byte indices between
    neighbours. *)
Fixpoint eof_last (l : list Token) : bool :=
  match l with
  | [] => false
  | t :: r =>
      match r with
      | [] => tt_eqb (type_ t) EOF
      | _ :: _ => negb (tt_eqb (type_ t) EOF) && eof_last r
      end
  end.

Fixpoint ordered (l : list Token) : bool :=
  match l with
  | [] => true
  | t :: r =>
      forallb (fun u => Position.idx (pos_end t) <=? Position.idx (pos_start u)) r
      && ordered r
  end.

Definition width_ok (t : Token) : bool :=
  (Position.idx (pos_start t) <? Position.idx (pos_end t))
  || ((Position.idx (pos_start t) =? Position.idx (pos_end t))
      && tt_eqb (type_ t) ILLEGAL).

Definition neighbours_ok (t u : Token) : bool :=
  (Position.ln (pos_end t) <=? Position.ln (pos_start u))
  && implb (Position.idx (pos_end t) =? Position.idx (pos_start u))
           (Position.ln (pos_end t) =? Position.ln (pos_start u)).

Fixpoint lines_ok (l : list Token) : bool :=
  match l with
  | [] => true
  | t :: r =>
      match r with
      | [] => true
      | u :: _ => neighbours_ok t u && lines_ok r
      end
  end.

Definition lexer_shaped (l : list Token) : bool :=
  eof_last l && ordered l && forallb width_ok l && lines_ok l.

End AsiSpec.

(* ===================================================================== *)
(** * Decoding of string literals (Compiler.convert_string, first half) *)
(* ===================================================================== *)

Module Escapes.
Import PyStr.

(** The ten [string.replace] calls, in the order of the source. *)
Definition decode_escapes (s : string) : string :=
  let s := replace s (str2 backslash "n"%char) (str1 LF) in
  let s := replace s (str2 backslash "t"%char) (str1 TAB) in
  let s := replace s (str2 backslash "r"%char) (str1 CR) in
  let s := replace s (str2 backslash backslash) (str1 backslash) in
  let s := replace s (str2 backslash dquote) (str1 dquote) in
  let s := replace s (str2 backslash squote) (str1 squote) in
  let s := replace s (str2 backslash "0"%char) (str1 NUL) in
  let s := replace s (str2 backslash "b"%char) (str1 BS) in
  let s := replace s (str2 backslash "f"%char) (str1 FF) in
  let s := replace s (str2 backslash "v"%char) (str1 VT) in
  s.

(** The null terminator is added unless the text already ends with NUL. *)
Definition null_terminate (s : string) : string :=
  if negb (endswith_char s NUL) then String.append s (str1 NUL) else s.

(** The bytes stored for a string literal: [fmt.encode("utf8")]. *)
Definition literal_bytes (s : string) : string :=
  null_terminate (decode_escapes s).

(** ** The decoding as the specification words it

    Each escape sequence is translated into its single byte value: the text
    is read from left to right, a backslash together with the character
    after it forms one escape sequence. *)
Definition escape_value (c : ascii) : option ascii :=
  if Ascii.eqb c "n"%char then Some LF
  else if Ascii.eqb c "t"%char then Some TAB
  else if Ascii.eqb c "r"%char then Some CR
  else if Ascii.eqb c backslash then Some backslash
  else if Ascii.eqb c dquote then Some dquote
  else if Ascii.eqb c squote then Some squote
  else if Ascii.eqb c "0"%char then Some NUL
  else if Ascii.eqb c "b"%char then Some BS
  else if Ascii.eqb c "f"%char then Some FF
  else if Ascii.eqb c "v"%char then Some VT
  else None.

Fixpoint decode_spec (s : string) : string :=
  match s with
  | EmptyString => EmptyString
  | String c s' =>
      if Ascii.eqb c backslash then
        match s' with
        | String d s'' =>
            match escape_value d with
            | Some b => String b (decode_spec s'')
            | None => String c (decode_spec s')
            end
        | EmptyString => String c EmptyString
        end
      else String c (decode_spec s')
  end.

Definition literal_bytes_spec (s : string) : string :=
  null_terminate (decode_spec s).

End Escapes.

(* ===================================================================== *)
(** * Lexer (Lexer.py) *)
(* ===================================================================== *)

Module Lexer.
Import PyStr.
Local Open Scope monad_scope.

Record t : Type := mk {
  source_code : string;
  current_char : option ascii;
  position : Position.t;
  error_handler : ErrorHandler
}.

Definition WHITESPACE : string :=
  String " "%char (String TAB (String LF (String CR (String VT (String FF EmptyString))))).
Definition DIGITS : string := "0123456789"%string.
Definition LETTERS : string :=
  "abcdefghijklmnopqrstuvwxyzABCDEFGHIJKLMNOPQRSTUVWXYZ"%string.
Definition ALPHANUMERIC : string := String.append LETTERS DIGITS.

Definition str_len (s : string) : Z := Z.of_nat (String.length s).

(** [s[i]] for an index that may be negative (counted from the end). *)
Definition py_index (s : string) (i : Z) : option ascii :=
  if i <? 0 then
    if 0 <=? str_len s + i then String.get (Z.to_nat (str_len s + i)) s else None
  else String.get (Z.to_nat i) s.

Definition set_position (p : Position.t) (lx : t) : t :=
  mk (source_code lx) (current_char lx) p (error_handler lx).
Definition set_current_char (c : option ascii) (lx : t) : t :=
  mk (source_code lx) c (position lx) (error_handler lx).
Definition set_error_handler (h : ErrorHandler) (lx : t) : t :=
  mk (source_code lx) (current_char lx) (position lx) h.

Definition advance : M t unit :=
  lx <- get_state ;;
  let p := Position.advance (position lx) (current_char lx) in
  let c := if Position.idx p <? str_len (source_code lx)
           then py_index (source_code lx) (Position.idx p) else None in
  put_state (set_current_char c (set_position p lx)).

(** [Lexer(source_code, file_path, error_handler)]. *)
Definition new (source : string) (file_path : string)
    (handler : option ErrorHandler) : Outcome t unit :=
  advance (mk source None (Position.mk (-1) 1 0 file_path source)
              (match handler with Some h => h | None => ErrorHandler_new end)).

(** The errors are recorded with copies of the current position; the one
    of [_process_not_equals] is passed the position itself, its value at
    the time of the call is what is kept here. *)
Definition report (ps pe : Position.t) (name det : string) : M t unit :=
  modify (fun lx => set_error_handler (add_error (error_handler lx) ps pe name det) lx).

(** [_is_invalid_decimal_point]: the conjunction and the disjunction
    short-circuit; the last operand reads the name [DIGITS], which is bound
    neither in the method nor in the module (the constant is an attribute of
    the class), so evaluating it raises [NameError]. *)
Definition _is_invalid_decimal_point : M t bool :=
  lx <- get_state ;;
  match current_char lx with
  | Some "."%char =>
      if str_len (source_code lx) <=? Position.idx (position lx) + 1
      then ret true
      else raise (NameError "name 'DIGITS' is not defined")
  | _ => ret false
  end.

Definition _report_invalid_decimal_point : M t unit :=
  lx <- get_state ;;
  let start_pos := Position.copy (position lx) in
  let end_pos := Position.advance (Position.copy (position lx)) None in
  report start_pos end_pos "Lexical Error"
    "Invalid token: decimal point must be followed by a digit".

Definition _report_multiple_decimal_points (number_str : string) : M t unit :=
  lx <- get_state ;;
  let start_pos := Position.copy (position lx) in
  let end_pos := Position.advance (Position.copy (position lx)) None in
  report start_pos end_pos "Lexical Error"
    (String.append "Invalid number format: multiple decimal points in '"
       (String.append number_str ".'")).

Definition _report_unterminated_string (start_pos : Position.t) : M t unit :=
  lx <- get_state ;;
  let end_pos := Position.advance (Position.copy (position lx)) None in
  report start_pos end_pos "Lexical Error" "Unterminated string literal".

Definition _process_illegal_character : M t Token :=
  lx <- get_state ;;
  let illegal_char := current_char lx in
  let start_pos := Position.copy (position lx) in
  let end_pos := Position.advance (Position.copy (position lx)) None in
  report start_pos end_pos "Lexical Error"
    (String.append "Unrecognized character: '"
       (String.append (match illegal_char with
                       | Some c => str1 c
                       | None => "None"
                       end) "'")) ;;;
  let token := Token_new ILLEGAL
                 (match illegal_char with Some c => LStr (str1 c) | None => LNone end)
                 start_pos (Some (position lx)) in
  advance ;;;
  ret token.

Fixpoint _skip_whitespace (fuel : nat) : M t unit :=
  match fuel with
  | O => out_of_fuel
  | S f =>
      lx <- get_state ;;
      match current_char lx with
      | Some c => if char_in c WHITESPACE
                  then advance ;;; _skip_whitespace f
                  else ret tt
      | None => ret tt
      end
  end.

Fixpoint _skip_comment_loop (fuel : nat) : M t unit :=
  match fuel with
  | O => out_of_fuel
  | S f =>
      lx <- get_state ;;
      match current_char lx with
      | Some c => if Ascii.eqb c LF then ret tt
                  else advance ;;; _skip_comment_loop f
      | None => ret tt
      end
  end.

Definition _skip_comment (fuel : nat) : M t unit :=
  _skip_comment_loop fuel ;;; advance.

Fixpoint _identifier_loop (fuel : nat) (identifier : string) : M t string :=
  match fuel with
  | O => out_of_fuel
  | S f =>
      lx <- get_state ;;
      match current_char lx with
      | Some c =>
          if char_in c (String.append ALPHANUMERIC "_")
          then advance ;;; _identifier_loop f (String.append identifier (str1 c))
          else ret identifier
      | None => ret identifier
      end
  end.

Definition _process_identifier (fuel : nat) : M t Token :=
  lx <- get_state ;;
  let start_pos := Position.copy (position lx) in
  identifier <- _identifier_loop fuel EmptyString ;;
  lx' <- get_state ;;
  ret (Token_new (lookup_ident identifier) (LStr identifier) start_pos
         (Some (position lx'))).

Fixpoint _number_loop (fuel : nat) (decimal_count : Z) (number_str : string)
    : M t (Z * string) :=
  match fuel with
  | O => out_of_fuel
  | S f =>
      lx <- get_state ;;
      match current_char lx with
      | Some c =>
          if char_in c (String.append DIGITS ".") then
            if Ascii.eqb c "." then
              if decimal_count =? 0 then
                advance ;;;
                _number_loop f (decimal_count + 1) (String.append number_str (str1 c))
              else
                _report_multiple_decimal_points number_str ;;;
                ret (decimal_count, number_str)
            else
              advance ;;;
              _number_loop f decimal_count (String.append number_str (str1 c))
          else ret (decimal_count, number_str)
      | None => ret (decimal_count, number_str)
      end
  end.

(** [float(number_str)]: the text is kept; a lone point is no number. *)
Definition py_float (number_str : string) : option Literal :=
  if String.eqb number_str "." then None else Some (LFloat number_str).

Definition _process_number (fuel : nat) : M t Token :=
  lx <- get_state ;;
  let start_pos := Position.copy (position lx) in
  r <- _number_loop fuel 0 EmptyString ;;
  lx' <- get_state ;;
  if fst r =? 0 then
    ret (Token_new INT (LInt (int_of_digits 0 (snd r))) start_pos
           (Some (position lx')))
  else
    match py_float (snd r) with
    | Some v => ret (Token_new FLOAT v start_pos (Some (position lx')))
    | None => raise (ValueError "could not convert string to float")
    end.

Fixpoint _string_loop (fuel : nat) (string_content : string) : M t string :=
  match fuel with
  | O => out_of_fuel
  | S f =>
      lx <- get_state ;;
      match current_char lx with
      | Some c =>
          if Ascii.eqb c dquote then ret string_content
          else
            let string_content := String.append string_content (str1 c) in
            if Ascii.eqb c backslash then
              advance ;;;
              lx' <- get_state ;;
              match current_char lx' with
              | Some d =>
                  advance ;;;
                  _string_loop f (String.append string_content (str1 d))
              | None =>
                  raise (TypeError "can only concatenate str (not NoneType) to str")
              end
            else advance ;;; _string_loop f string_content
      | None => ret string_content
      end
  end.

Definition _process_string (fuel : nat) : M t Token :=
  lx <- get_state ;;
  let start_pos := Position.copy (position lx) in
  advance ;;;
  string_content <- _string_loop fuel EmptyString ;;
  lx' <- get_state ;;
  (match current_char lx' with
   | None => _report_unterminated_string start_pos
   | Some _ => advance
   end) ;;;
  lx'' <- get_state ;;
  ret (Token_new STRING (LStr string_content) start_pos (Some (position lx''))).

(** The operators of one or two characters.  [_process_plus_or_add_equals],
    [_process_slash_or_div_equals], [_process_modulus_or_mod_equals],
    [_process_equals], [_process_greater_than] and [_process_less_than] have
    the same body up to the two token types. *)
Definition _process_op_or_equals (single with_equals : TokenType) : M t Token :=
  lx <- get_state ;;
  let lit := match current_char lx with Some c => str1 c | None => EmptyString end in
  let start_pos := Position.copy (position lx) in
  advance ;;;
  lx' <- get_state ;;
  match current_char lx' with
  | Some "="%char =>
      advance ;;;
      lx'' <- get_state ;;
      ret (Token_new with_equals (LStr (String.append lit "=")) start_pos
             (Some (position lx'')))
  | _ => ret (Token_new single (LStr lit) start_pos (Some (position lx')))
  end.

Definition _process_plus_or_add_equals := _process_op_or_equals PLUS PLUS_EQ.
Definition _process_slash_or_div_equals := _process_op_or_equals SLASH DIV_EQ.
Definition _process_modulus_or_mod_equals := _process_op_or_equals MODULUS MOD_EQ.
Definition _process_equals := _process_op_or_equals EQ EQ_EQ.
Definition _process_greater_than := _process_op_or_equals GT GT_EQ.
Definition _process_less_than := _process_op_or_equals LT LT_EQ.

Definition _process_minus_or_arrow : M t Token :=
  lx <- get_state ;;
  let lit := match current_char lx with Some c => str1 c | None => EmptyString end in
  let start_pos := Position.copy (position lx) in
  advance ;;;
  lx' <- get_state ;;
  match current_char lx' with
  | Some ">"%char =>
      advance ;;;
      lx'' <- get_state ;;
      ret (Token_new ARROW (LStr (String.append lit ">")) start_pos
             (Some (position lx'')))
  | Some "="%char =>
      advance ;;;
      lx'' <- get_state ;;
      ret (Token_new MINUS_EQ (LStr (String.append lit "=")) start_pos
             (Some (position lx'')))
  | _ => ret (Token_new MINUS (LStr lit) start_pos (Some (position lx')))
  end.

Definition _process_asterisks : M t Token :=
  lx <- get_state ;;
  let lit := match current_char lx with Some c => str1 c | None => EmptyString end in
  let start_pos := Position.copy (position lx) in
  advance ;;;
  lx' <- get_state ;;
  match current_char lx' with
  | Some "*"%char =>
      advance ;;;
      lx'' <- get_state ;;
      match current_char lx'' with
      | Some "="%char =>
          advance ;;;
          lx3 <- get_state ;;
          ret (Token_new POW_EQ (LStr (String.append lit "*=")) start_pos
                 (Some (position lx3)))
      | _ => ret (Token_new POW (LStr (String.append lit "*")) start_pos
                    (Some (position lx'')))
      end
  | Some "="%char =>
      advance ;;;
      lx'' <- get_state ;;
      ret (Token_new MUL_EQ (LStr (String.append lit "=")) start_pos
             (Some (position lx'')))
  | _ => ret (Token_new ASTERISK (LStr lit) start_pos (Some (position lx')))
  end.

Definition _process_not_equals : M t Token :=
  lx <- get_state ;;
  let lit := match current_char lx with Some c => str1 c | None => EmptyString end in
  let start_pos := Position.copy (position lx) in
  advance ;;;
  lx' <- get_state ;;
  match current_char lx' with
  | Some "="%char =>
      advance ;;;
      lx'' <- get_state ;;
      ret (Token_new NOT_EQ (LStr (String.append lit "=")) start_pos
             (Some (position lx'')))
  | _ =>
      report start_pos (position lx') "Lexical error"
        "Invalid token: '!' must be followed by '='" ;;;
      ret (Token_new ILLEGAL (LStr lit) start_pos (Some (position lx')))
  end.

(** A delimiter of one character: the token ends one position after its
    start. *)
Definition single_char (ty : TokenType) (c : ascii) : M t Token :=
  lx <- get_state ;;
  let token := Token_new ty (LStr (str1 c)) (position lx) None in
  advance ;;;
  ret token.

(** One iteration of the loop of [tokenize] on the current character [c]:
    the token appended, if any. *)
Definition tokenize_step (fuel : nat) (c : ascii) : M t (option Token) :=
  if char_in c WHITESPACE then _skip_whitespace fuel ;;; ret None
  else if Ascii.eqb c "#" then _skip_comment fuel ;;; ret None
  else if char_in c (String.append LETTERS "_") then
    tok <- _process_identifier fuel ;; ret (Some tok)
  else if char_in c (String.append DIGITS ".") then
    invalid <- _is_invalid_decimal_point ;;
    if invalid then
      _report_invalid_decimal_point ;;;
      advance ;;;
      ret None
    else tok <- _process_number fuel ;; ret (Some tok)
  else if Ascii.eqb c dquote then tok <- _process_string fuel ;; ret (Some tok)
  else if Ascii.eqb c "+" then tok <- _process_plus_or_add_equals ;; ret (Some tok)
  else if Ascii.eqb c "-" then tok <- _process_minus_or_arrow ;; ret (Some tok)
  else if Ascii.eqb c "*" then tok <- _process_asterisks ;; ret (Some tok)
  else if Ascii.eqb c "/" then tok <- _process_slash_or_div_equals ;; ret (Some tok)
  else if Ascii.eqb c "%" then tok <- _process_modulus_or_mod_equals ;; ret (Some tok)
  else if Ascii.eqb c "=" then tok <- _process_equals ;; ret (Some tok)
  else if Ascii.eqb c ":" then tok <- single_char COLON c ;; ret (Some tok)
  else if Ascii.eqb c "(" then tok <- single_char LPAREN c ;; ret (Some tok)
  else if Ascii.eqb c ")" then tok <- single_char RPAREN c ;; ret (Some tok)
  else if Ascii.eqb c "," then tok <- single_char COMMA c ;; ret (Some tok)
  else if Ascii.eqb c ";" then tok <- single_char SEMICOLON c ;; ret (Some tok)
  else if Ascii.eqb c ">" then tok <- _process_greater_than ;; ret (Some tok)
  else if Ascii.eqb c "<" then tok <- _process_less_than ;; ret (Some tok)
  else if Ascii.eqb c "!" then tok <- _process_not_equals ;; ret (Some tok)
  else tok <- _process_illegal_character ;; ret (Some tok).

Fixpoint tokenize_loop (fuel : nat) (tokens : list Token) : M t (list Token) :=
  match fuel with
  | O => out_of_fuel
  | S f =>
      lx <- get_state ;;
      match current_char lx with
      | None => ret tokens
      | Some c =>
          r <- tokenize_step f c ;;
          match r with
          | Some tok => tokenize_loop f (tokens ++ [tok])
          | None => tokenize_loop f tokens
          end
      end
  end.

Definition tokenize (fuel : nat) : M t (list Token) :=
  tokens <- tokenize_loop fuel [] ;;
  lx <- get_state ;;
  ret (tokens ++ [Token_new EOF LNone (position lx) None]).

(** Every iteration of every loop consumes a character: the length of the
    source, plus one for the last test, bounds them all. *)
Definition fuel_for (source : string) : nat := S (S (String.length source)).

(** [Lexer(source, file_path).tokenize()], with the lexer it leaves. *)
Definition lex (source file_path : string) : Outcome t (list Token) :=
  match new source file_path None with
  | Ok _ lx => tokenize (fuel_for source) lx
  | Raise e lx => Raise e lx
  | OutOfFuel => OutOfFuel
  end.

End Lexer.

(* ===================================================================== *)
(** * Abstract syntax (AST.py) *)
(* ===================================================================== *)

(** The fields of a node hold what the parser stores in them: the literal
    of a token ([str], [int] or [float]), a Python [bool], another node or
    [None]. *)
Local Unset Elimination Schemes.

Inductive Expression : Type :=
| IntegerLiteral (value : Literal)
| FloatLiteral (value : Literal)
| IdentifierLiteral (value : Literal)
| BooleanLiteral (value : bool)
| StringLiteral (value : Literal)
| PrefixExpression (operator : Literal) (right_node : option Expression)
| InfixExpression (left_node : option Expression) (operator : Literal)
    (right_node : option Expression)
| CallExpression (function : option Expression) (args : list (option Expression)).

Record FunctionParameter : Type := mkParam {
  param_name : Literal;
  param_value_type : Literal
}.

Inductive Statement : Type :=
| ExpressionStatement (expr : option Expression)
| VarStatement (name : option Expression) (value : option Expression)
    (value_type : Literal)
| AssignStatement (ident : option Expression) (operator : Literal)
    (right_value : option Expression)
| IfStatement (condition : option Expression)
    (body : list (option Statement)) (else_body : list (option Statement))
| WhileStatement (condition : option Expression) (body : list (option Statement))
| BreakStatement
| ContinueStatement
| ImportStatement (file_path : Literal)
| FunctionStatement (parameters : list FunctionParameter)
    (body : list (option Statement)) (name : option Expression)
    (return_type : Literal)
| ReturnStatement (return_value : option Expression).

Local Set Elimination Schemes.

Record Program : Type := mkProgram { statements : list Statement }.

(** [str(token_type)], as it appears in the messages of the parser. *)
Definition tt_name (ty : TokenType) : string :=
  String.append "TokenType."
    match ty with
    | IDENT => "IDENT" | INT => "INT" | FLOAT => "FLOAT" | BOOL => "BOOL"
    | STRING => "STRING" | PLUS => "PLUS" | MINUS => "MINUS"
    | ASTERISK => "ASTERISK" | SLASH => "SLASH" | POW => "POW"
    | MODULUS => "MODULUS" | EQ => "EQ" | PLUS_EQ => "PLUS_EQ"
    | MINUS_EQ => "MINUS_EQ" | MUL_EQ => "MUL_EQ" | DIV_EQ => "DIV_EQ"
    | POW_EQ => "POW_EQ" | MOD_EQ => "MOD_EQ" | LPAREN => "LPAREN"
    | RPAREN => "RPAREN" | COLON => "COLON" | COMMA => "COMMA"
    | SEMICOLON => "SEMICOLON" | AND => "AND" | OR => "OR" | NOT => "NOT"
    | VAR => "VAR" | DEF => "DEF" | RETURN => "RETURN" | IF => "IF"
    | ELIF => "ELIF" | ELSE => "ELSE" | TRUE => "TRUE" | FALSE => "FALSE"
    | WHILE => "WHILE" | CONTINUE => "CONTINUE" | BREAK => "BREAK"
    | IMPORT => "IMPORT" | END => "END" | TYPE => "TYPE" | ARROW => "ARROW"
    | EOF => "EOF" | ILLEGAL => "ILLEGAL" | GT => "GT" | LT => "LT"
    | GT_EQ => "GT_EQ" | LT_EQ => "LT_EQ" | NOT_EQ => "NOT_EQ"
    | EQ_EQ => "EQ_EQ"
    end%string.

(** [str(e)] for a caught exception. *)
Definition exn_message (e : PyExn) : string :=
  match e with
  | PyException m | NameError m | TypeError m | ValueError m
  | AttributeError m | KeyError m | IndexError m | RuntimeError m
  | NotImplementedError m | FileNotFoundError m | AssertionError m
  | CompilationError m => m
  | SystemExit _ => EmptyString
  end.

(* ===================================================================== *)
(** * Parser (Parser.py) *)
(* ===================================================================== *)

Inductive PrecedenceType : Type :=
| LOWEST | EQUALS | LESSGREATER | SUM | PRODUCT | EXPONENT | PREFIX | CALL.

Module Precedence.

Definition value (p : PrecedenceType) : Z :=
  match p with
  | LOWEST => 0 | EQUALS => 1 | LESSGREATER => 2 | SUM => 3
  | PRODUCT => 4 | EXPONENT => 5 | PREFIX => 6 | CALL => 7
  end.

(** [PrecedenceType(v)]. *)
Definition of_value (v : Z) : option PrecedenceType :=
  match v with
  | 0 => Some LOWEST | 1 => Some EQUALS | 2 => Some LESSGREATER
  | 3 => Some SUM | 4 => Some PRODUCT | 5 => Some EXPONENT
  | 6 => Some PREFIX | 7 => Some CALL
  | _ => None
  end.

(** [PRECEDENCES.get(ty, PrecedenceType.LOWEST)]. *)
Definition PRECEDENCES (ty : TokenType) : PrecedenceType :=
  match ty with
  | PLUS | MINUS => SUM
  | ASTERISK | SLASH | MODULUS => PRODUCT
  | POW => EXPONENT
  | EQ_EQ | NOT_EQ => EQUALS
  | LT | GT | LT_EQ | GT_EQ => LESSGREATER
  | LPAREN => CALL
  | _ => LOWEST
  end.

End Precedence.

Module Parser.
Local Open Scope monad_scope.

(** The mutable fields of a parser.  [pos] is a [nat]: the constructor
    advances once from -1, and the position only grows.  [current_token],
    which [advance] keeps equal to [tokens[pos]] (or [None] past the end),
    is read from [pos]. *)
Record t : Type := mk {
  pos : nat;
  exceptions : list string;
  error_handler : ErrorHandler
}.

Definition set_pos (n : nat) (s : t) : t := mk n (exceptions s) (error_handler s).

(** [Parser(tokens, error_handler)], after the [advance] of the
    constructor. *)
Definition new (handler : option ErrorHandler) : t :=
  mk 0 [] (match handler with Some h => h | None => ErrorHandler_new end).

Definition none_has_no (attr : string) : PyExn :=
  AttributeError
    (String.append "'NoneType' object has no attribute '" (String.append attr "'")).

Section WithTokens.

Variable tokens : list Token.

Definition current_token (s : t) : option Token := nth_error tokens (pos s).

Definition advance : M t unit := modify (fun s => set_pos (S (pos s)) s).

(** The loop of [synchronize], run over the tokens from the current one. *)
Fixpoint synchronize_from (rest : list Token) (token_types : list TokenType)
    (p : nat) : nat :=
  match rest with
  | [] => p
  | tok :: rest' =>
      if negb (tt_in (type_ tok) token_types) && negb (tt_eqb (type_ tok) EOF)
      then synchronize_from rest' token_types (S p)
      else p
  end.

Definition synchronize (token_types : list TokenType) : M t unit :=
  modify (fun s =>
    set_pos (synchronize_from (skipn (pos s) tokens) token_types (pos s)) s).

Definition peek_token (s : t) : option Token := nth_error tokens (S (pos s)).

Definition current_precedence : M t PrecedenceType :=
  s <- get_state ;;
  match current_token s with
  | Some tok => ret (Precedence.PRECEDENCES (type_ tok))
  | None => raise (none_has_no "type")
  end.

Definition peek_precedence (s : t) : PrecedenceType :=
  match peek_token s with
  | Some tok => Precedence.PRECEDENCES (type_ tok)
  | None => LOWEST
  end.

(** [self.peek_token() and self.peek_token().type == ty]. *)
Definition peek_is (s : t) (ty : TokenType) : bool :=
  match peek_token s with
  | Some tok => tt_eqb (type_ tok) ty
  | None => false
  end.

Definition assignment_operators : list TokenType :=
  [EQ; PLUS_EQ; MINUS_EQ; MUL_EQ; DIV_EQ; POW_EQ; MOD_EQ].

Definition peek_token_is_assignment (s : t) : bool :=
  match peek_token s with
  | Some tok => tt_in (type_ tok) assignment_operators
  | None => false
  end.

(** [report_error(token, message)], with the defaults every caller uses
    ([do_advance=True], [sync_tokens=[SEMICOLON]]).  The method ends with an
    unconditional [raise]: it has no result. *)
Definition report_error (token : option Token) (message : string)
    : M t Empty_set :=
  match token with
  | None => raise (none_has_no "pos_start")
  | Some tok =>
      modify (fun s =>
        mk (pos s) (exceptions s)
           (add_error (error_handler s) (pos_start tok) (pos_end tok)
              "Syntax Error" message)) ;;;
      synchronize [SEMICOLON] ;;;
      advance ;;;
      raise (PyException message)
  end.

Definition expect_token (token_type : TokenType) (error_message : string)
    (do_advance look_current error_at_current : bool) : M t bool :=
  let error_at_current := if look_current then true else error_at_current in
  s <- get_state ;;
  let token := if look_current then current_token s else peek_token s in
  match token with
  | Some tok =>
      if tt_eqb (type_ tok) token_type then
        (if do_advance then advance else ret tt) ;;;
        ret true
      else
        _ <- report_error
               (if error_at_current then current_token s else peek_token s)
               error_message ;;
        ret false
  | None =>
      _ <- report_error
             (if error_at_current then current_token s else peek_token s)
             error_message ;;
      ret false
  end.

Definition expect_semicolon : M t bool :=
  expect_token SEMICOLON "Expected semicolon ';' after expression"
    true false true.

(** [self.current_token.literal] and [self.current_token.type]. *)
Definition current_literal : M t Literal :=
  s <- get_state ;;
  match current_token s with
  | Some tok => ret (literal tok)
  | None => raise (none_has_no "literal")
  end.

Definition current_type : M t TokenType :=
  s <- get_state ;;
  match current_token s with
  | Some tok => ret (type_ tok)
  | None => raise (none_has_no "type")
  end.

(** A [while] loop whose body may leave it: [step] tests the condition and
    runs one iteration; [inl] carries the loop variables to the next
    iteration, [inr] is the value the loop ends with. *)
Fixpoint while_ {A B : Type} (fuel : nat) (step : A -> M t (A + B)) (a : A)
    : M t B :=
  match fuel with
  | O => out_of_fuel
  | S f =>
      r <- step a ;;
      match r with
      | inl a' => while_ f step a'
      | inr b => ret b
      end
  end.

(** ** Expressions *)

Definition parse_identifier : M t (option Expression) :=
  l <- current_literal ;; ret (Some (IdentifierLiteral l)).
Definition parse_int_literal : M t (option Expression) :=
  l <- current_literal ;; ret (Some (IntegerLiteral l)).
Definition parse_float_literal : M t (option Expression) :=
  l <- current_literal ;; ret (Some (FloatLiteral l)).
Definition parse_string_literal : M t (option Expression) :=
  l <- current_literal ;; ret (Some (StringLiteral l)).
Definition parse_boolean : M t (option Expression) :=
  l <- current_literal ;; ret (Some (BooleanLiteral (lit_is l "true"))).

Section Expressions.

(** The recursive calls of the expression parser. *)
Variable parse_expression : PrecedenceType -> M t (option Expression).

Definition parse_prefix_expression : M t (option Expression) :=
  op <- current_literal ;;
  advance ;;;
  right <- parse_expression PREFIX ;;
  ret (Some (PrefixExpression op right)).

Definition parse_grouped_expression : M t (option Expression) :=
  advance ;;;
  expr <- parse_expression LOWEST ;;
  ok <- expect_token RPAREN "Expected closing parenthesis ')' after expression"
          true false true ;;
  if negb ok then ret None else ret expr.

Definition parse_infix_expression (left_node : option Expression)
    : M t (option Expression) :=
  op <- current_literal ;;
  precedence <- current_precedence ;;
  ty <- current_type ;;
  precedence <-
    (if tt_eqb ty POW then
       match Precedence.of_value (Precedence.value precedence - 1) with
       | Some p => ret p
       | None => raise (ValueError "not a valid PrecedenceType")
       end
     else ret precedence) ;;
  advance ;;;
  right <- parse_expression precedence ;;
  ret (Some (InfixExpression left_node op right)).

Definition parse_expression_list (fuel : nat) (end_token_type : TokenType)
    : M t (list (option Expression)) :=
  s <- get_state ;;
  if peek_is s end_token_type then advance ;;; ret []
  else
    advance ;;;
    first <- parse_expression LOWEST ;;
    args <- while_ fuel (fun args =>
              s <- get_state ;;
              if peek_is s COMMA then
                advance ;;;
                advance ;;;
                e <- parse_expression LOWEST ;;
                ret (inl (args ++ [e]))
              else ret (inr args)) [first] ;;
    ok <- expect_token end_token_type
            (String.append "Expected closing token "
               (String.append (tt_name end_token_type)
                  " after expression list"))
            true false true ;;
    if negb ok then ret [] else ret args.

Definition parse_call_expression (fuel : nat) (function : option Expression)
    : M t (option Expression) :=
  args <- parse_expression_list fuel RPAREN ;;
  ret (Some (CallExpression function args)).

Definition prefix_parse_fns (ty : TokenType)
    : option (M t (option Expression)) :=
  match ty with
  | IDENT => Some parse_identifier
  | INT => Some parse_int_literal
  | FLOAT => Some parse_float_literal
  | STRING => Some parse_string_literal
  | LPAREN => Some parse_grouped_expression
  | TRUE | FALSE => Some parse_boolean
  | MINUS | NOT => Some parse_prefix_expression
  | _ => None
  end.

Definition infix_parse_fns (fuel : nat) (ty : TokenType)
    : option (option Expression -> M t (option Expression)) :=
  match ty with
  | PLUS | MINUS | ASTERISK | SLASH | MODULUS | POW
  | EQ_EQ | NOT_EQ | LT | GT | LT_EQ | GT_EQ => Some parse_infix_expression
  | LPAREN => Some (parse_call_expression fuel)
  | _ => None
  end.

(** One test of the loop of [parse_expression] and, when it passes, one
    infix operator. *)
Definition infix_step (fuel : nat) (precedence : PrecedenceType)
    (left_expr : option Expression)
    : M t (option Expression + option Expression) :=
  s <- get_state ;;
  match peek_token s with
  | Some pk =>
      if negb (tt_eqb (type_ pk) SEMICOLON)
         && (Precedence.value precedence <? Precedence.value (peek_precedence s))
      then
        match infix_parse_fns fuel (type_ pk) with
        | None => ret (inr left_expr)
        | Some infix_fn =>
            advance ;;;
            e <- infix_fn left_expr ;;
            ret (inl e)
        end
      else ret (inr left_expr)
  | None => ret (inr left_expr)
  end.

(** The body of [parse_expression]; [fuel] bounds its loops. *)
Definition parse_expression_body (fuel : nat) (precedence : PrecedenceType)
    : M t (option Expression) :=
  s <- get_state ;;
  match current_token s with
  | None => raise (none_has_no "type")
  | Some tok =>
      match prefix_parse_fns (type_ tok) with
      | None =>
          _ <- report_error (Some tok)
                 (String.append "Expected expression, got " (tt_name (type_ tok))) ;;
          ret None
      | Some prefix_fn =>
          left_expr <- prefix_fn ;;
          while_ fuel (infix_step fuel precedence) left_expr
      end
  end.

End Expressions.

Fixpoint parse_expression (fuel : nat) (precedence : PrecedenceType) (s : t)
    : Outcome t (option Expression) :=
  match fuel with
  | O => OutOfFuel
  | S f => parse_expression_body (parse_expression f) f precedence s
  end.

(** ** Statements *)

Definition log_exception (e : PyExn) : M t unit :=
  modify (fun s =>
    mk (pos s)
       (exceptions s ++ [String.append "Synchronizing after error: " (exn_message e)])
       (error_handler s)).

Definition parse_assignment_statement (fuel : nat) : M t (option Statement) :=
  ident <- parse_identifier ;;
  advance ;;;
  operator <- current_literal ;;
  advance ;;;
  right_value <- parse_expression fuel LOWEST ;;
  ok <- expect_semicolon ;;
  if negb ok then ret None
  else ret (Some (AssignStatement ident operator right_value)).

Definition parse_var_statement (fuel : nat) : M t (option Statement) :=
  ok <- expect_token IDENT "Expected identifier after 'var'" true false false ;;
  if negb ok then ret None else
  name <- current_literal ;;
  ok <- expect_token COLON "Expected colon ':' after identifier" true false false ;;
  if negb ok then ret None else
  ok <- expect_token TYPE "Expected type after ':'" true false false ;;
  if negb ok then ret None else
  value_type <- current_literal ;;
  s <- get_state ;;
  if peek_is s SEMICOLON then
    advance ;;;
    ret (Some (VarStatement (Some (IdentifierLiteral name)) None value_type))
  else
    ok <- expect_token EQ "Expected '=' or ';' after type" true false false ;;
    if negb ok then ret None else
    advance ;;;
    value <- parse_expression fuel LOWEST ;;
    ok <- expect_semicolon ;;
    if negb ok then ret None
    else ret (Some (VarStatement (Some (IdentifierLiteral name)) value value_type)).

Definition parse_break_statement : M t (option Statement) :=
  ok <- expect_semicolon ;;
  if negb ok then ret None else ret (Some BreakStatement).

Definition parse_continue_statement : M t (option Statement) :=
  ok <- expect_semicolon ;;
  if negb ok then ret None else ret (Some ContinueStatement).

Definition parse_import_statement : M t (option Statement) :=
  ok <- expect_token STRING "Expected a file path!" true false false ;;
  if negb ok then ret None else
  file_path <- current_literal ;;
  ok <- expect_semicolon ;;
  if negb ok then ret None else ret (Some (ImportStatement file_path)).

Definition parse_return_statement (fuel : nat) : M t (option Statement) :=
  advance ;;;
  return_value <- parse_expression fuel LOWEST ;;
  ok <- expect_semicolon ;;
  if negb ok then ret None else ret (Some (ReturnStatement return_value)).

Definition parse_expression_statement (fuel : nat) : M t (option Statement) :=
  expr <- parse_expression fuel LOWEST ;;
  ok <- expect_semicolon ;;
  if negb ok then ret None else ret (Some (ExpressionStatement expr)).

(** One parameter [IDENT : TYPE] after the token before it; [None] stands
    for the early [return []]. *)
Definition parse_parameter (ident_message : string)
    : M t (option FunctionParameter) :=
  ok <- expect_token IDENT ident_message true false true ;;
  if negb ok then ret None else
  name <- current_literal ;;
  ok <- expect_token COLON "Expected colon ':' after identifier" true false true ;;
  if negb ok then ret None else
  ok <- expect_token TYPE "Expected type after ':'" true false true ;;
  if negb ok then ret None else
  value_type <- current_literal ;;
  ret (Some (mkParam name value_type)).

Definition parse_function_parameters (fuel : nat)
    : M t (list FunctionParameter) :=
  s <- get_state ;;
  if peek_is s RPAREN then advance ;;; ret []
  else
    first <- parse_parameter "Expected an identifier after '('" ;;
    match first with
    | None => ret []
    | Some first_param =>
        r <- while_ fuel (fun params =>
               s <- get_state ;;
               if peek_is s COMMA then
                 advance ;;;
                 p <- parse_parameter "Expected identifier after ','" ;;
                 match p with
                 | None => ret (inr None)
                 | Some param => ret (inl (params ++ [param]))
                 end
               else ret (inr (Some params))) [first_param] ;;
        match r with
        | None => ret []
        | Some params =>
            ok <- expect_token RPAREN "Expected right parenthesis ')'"
                    true false true ;;
            if negb ok then ret [] else ret params
        end
    end.

Section Statements.

(** The recursive calls of the statement parser. *)
Variable parse_statement : M t (option Statement).
Variable parse_if_statement : M t (option Statement).

(** The loop over the statements of a block of [if], [else] or [while]: it
    runs while there is a current token whose type is not in [stops]; what
    [parse_statement] returns is appended as it is. *)
Definition block_step (stops : list TokenType) (body : list (option Statement))
    : M t (list (option Statement) + list (option Statement)) :=
  s <- get_state ;;
  match current_token s with
  | Some tok =>
      if negb (tt_in (type_ tok) stops) then
        try_except
          (stmt <- parse_statement ;;
           advance ;;;
           ret (inl (body ++ [stmt])))
          (fun e => log_exception e ;;; ret (inl body))
      else ret (inr body)
  | None => ret (inr body)
  end.

Definition parse_block (fuel : nat) (stops : list TokenType)
    : M t (list (option Statement)) :=
  while_ fuel (block_step stops) [].

(** The loop over the body of a function: it also stops at EOF and drops
    the statements that are [None]. *)
Definition function_body_step (body : list (option Statement))
    : M t (list (option Statement) + list (option Statement)) :=
  s <- get_state ;;
  match current_token s with
  | Some tok =>
      if negb (tt_eqb (type_ tok) END) && negb (tt_eqb (type_ tok) EOF) then
        try_except
          (stmt <- parse_statement ;;
           let body := match stmt with
                       | Some _ => body ++ [stmt]
                       | None => body
                       end in
           advance ;;;
           ret (inl body))
          (fun e => log_exception e ;;; ret (inl body))
      else ret (inr body)
  | None => ret (inr body)
  end.

Definition parse_if_statement_body (fuel : nat) : M t (option Statement) :=
  advance ;;;
  condition <- parse_expression fuel LOWEST ;;
  ok <- expect_token COLON "Expected colon ':' after condition" true false false ;;
  if negb ok then ret None else
  advance ;;;
  body <- parse_block fuel [ELIF; ELSE; END] ;;
  s <- get_state ;;
  else_part <-
    (match current_token s with
     | Some tok =>
         if tt_eqb (type_ tok) ELIF then
           nested <- parse_if_statement ;;
           ret (Some [nested])
         else if tt_eqb (type_ tok) ELSE then
           ok <- expect_token COLON "Expected colon ':' after 'else'"
                   true false false ;;
           if negb ok then ret None else
           advance ;;;
           else_body <- parse_block fuel [END] ;;
           ret (Some else_body)
         else ret (Some [])
     | None => ret (Some [])
     end) ;;
  match else_part with
  | None => ret None
  | Some else_body =>
      ok <- expect_token END "Expected 'end' after if block" false true false ;;
      if negb ok then ret None
      else ret (Some (IfStatement condition body else_body))
  end.

Definition parse_while_statement (fuel : nat) : M t (option Statement) :=
  advance ;;;
  condition <- parse_expression fuel LOWEST ;;
  ok <- expect_token COLON "Expected colon ':' after condition" true false false ;;
  if negb ok then ret None else
  advance ;;;
  body <- parse_block fuel [END] ;;
  ok <- expect_token END "Expected 'end' after while block" false true false ;;
  if negb ok then ret None
  else ret (Some (WhileStatement condition body)).

Definition parse_function_statement (fuel : nat) : M t (option Statement) :=
  ok <- expect_token IDENT "Expected identifier after 'def'" true false true ;;
  if negb ok then ret None else
  name <- current_literal ;;
  ok <- expect_token LPAREN "Expected left parenthesis '('" true false true ;;
  if negb ok then ret None else
  parameters <- parse_function_parameters fuel ;;
  ok <- expect_token ARROW "Expected an arrow '->'" true false true ;;
  if negb ok then ret None else
  ok <- expect_token TYPE "Expected type after '->'" true false true ;;
  if negb ok then ret None else
  return_type <- current_literal ;;
  ok <- expect_token COLON "Expected colon ':' after type" true false true ;;
  if negb ok then ret None else
  advance ;;;
  body <- while_ fuel function_body_step [] ;;
  ok <- expect_token END "Expected 'end' keyword after function body"
          false true false ;;
  if negb ok then ret None
  else ret (Some (FunctionStatement parameters body
                    (Some (IdentifierLiteral name)) return_type)).

Definition parse_statement_body (fuel : nat) : M t (option Statement) :=
  s <- get_state ;;
  match current_token s with
  | None => raise (none_has_no "type")
  | Some tok =>
      if tt_eqb (type_ tok) IDENT && peek_token_is_assignment s
      then parse_assignment_statement fuel
      else
        match type_ tok with
        | VAR => parse_var_statement fuel
        | DEF => parse_function_statement fuel
        | RETURN => parse_return_statement fuel
        | IF => parse_if_statement
        | WHILE => parse_while_statement fuel
        | BREAK => parse_break_statement
        | CONTINUE => parse_continue_statement
        | IMPORT => parse_import_statement
        | _ => parse_expression_statement fuel
        end
  end.

End Statements.

(** The state is an argument of the fixpoint, so that a call on a smaller
    fuel is a value until it is run. *)
Fixpoint parse_statement (fuel : nat) (s : t) : Outcome t (option Statement) :=
  match fuel with
  | O => OutOfFuel
  | S f => parse_statement_body (parse_statement f) (parse_if_statement f) f s
  end
with parse_if_statement (fuel : nat) (s : t) : Outcome t (option Statement) :=
  match fuel with
  | O => OutOfFuel
  | S f => parse_if_statement_body (parse_statement f) (parse_if_statement f) f s
  end.

(** One iteration of the loop of [parse_program]. *)
Definition program_step (fuel : nat) (stmts : list Statement)
    : M t (list Statement + list Statement) :=
  s <- get_state ;;
  match current_token s with
  | Some tok =>
      if negb (tt_eqb (type_ tok) EOF) then
        try_except
          (stmt <- parse_statement fuel ;;
           let stmts := match stmt with
                        | Some st => stmts ++ [st]
                        | None => stmts
                        end in
           advance ;;;
           ret (inl stmts))
          (fun e => log_exception e ;;; ret (inl stmts))
      else ret (inr stmts)
  | None => ret (inr stmts)
  end.

Definition parse_program (fuel : nat) : M t Program :=
  stmts <- while_ fuel (program_step fuel) [] ;;
  ret (mkProgram stmts).

End WithTokens.

(** [Parser(tokens).parse_program()]. *)
Definition parse (fuel : nat) (tokens : list Token) : Outcome t Program :=
  parse_program tokens fuel (new None).

End Parser.

(* ===================================================================== *)
(** * LLVM IR as llvmlite builds it *)
(* ===================================================================== *)

(** The part of [llvmlite.ir] the lowering relies on: types, values that
    carry their type, and a builder that appends instructions to the
    current block and checks the types of their operands the way llvmlite
    does. *)
Module IR.
Local Open Scope monad_scope.

Local Unset Elimination Schemes.

Inductive IRType : Type :=
| IntType (bits : Z)
| DoubleType
| VoidType
| PointerType (pointee : IRType)
| ArrayType (element : IRType) (count : Z)
| FunctionType (return_type : IRType) (args : list IRType) (var_arg : bool).

Inductive Opcode : Type :=
| Alloca | Load | Store
| Add | Sub | Mul | SDiv | SRem
| FAdd | FSub | FMul | FDiv | FRem
| ICmp (op : string) | FCmp (op : string)
| SIToFP | Bitcast
| Call | Ret | Br | CBr.

(** A basic block is named by its function and its label. *)
Record Block : Type := mkBlock { block_function : string; block_label : string }.

Inductive IRValue : Type :=
| Constant (ty : IRType) (value : Literal)
| ConstantBytes (ty : IRType) (bytes : string)
| Function (name : string) (function_type : IRType)
| GlobalVariable (name : string) (value_type : IRType) (initializer : Literal)
| Argument (function : string) (index : nat) (ty : IRType)
| BlockRef (b : Block)
| Instruction (id : nat) (opname : Opcode) (ty : IRType)
    (operands : list IRValue).

Local Set Elimination Schemes.

Fixpoint IRType_eqb (a b : IRType) : bool :=
  match a, b with
  | IntType m, IntType n => m =? n
  | DoubleType, DoubleType => true
  | VoidType, VoidType => true
  | PointerType x, PointerType y => IRType_eqb x y
  | ArrayType x m, ArrayType y n => IRType_eqb x y && (m =? n)
  | FunctionType r xs v, FunctionType r' ys v' =>
      IRType_eqb r r'
      && (fix all2 (xs ys : list IRType) : bool :=
            match xs, ys with
            | [], [] => true
            | x :: xs', y :: ys' => IRType_eqb x y && all2 xs' ys'
            | _, _ => false
            end) xs ys
      && Bool.eqb v v'
  | _, _ => false
  end.

(** [value.type]. *)
Definition type_of (v : IRValue) : IRType :=
  match v with
  | Constant ty _ => ty
  | ConstantBytes ty _ => ty
  | Function _ fnty => PointerType fnty
  | GlobalVariable _ vty _ => PointerType vty
  | Argument _ _ ty => ty
  | BlockRef _ => VoidType
  | Instruction _ _ ty _ => ty
  end.

Definition is_IntType (ty : IRType) : bool :=
  match ty with IntType _ => true | _ => false end.
Definition is_DoubleType (ty : IRType) : bool :=
  match ty with DoubleType => true | _ => false end.
Definition is_PointerType (ty : IRType) : bool :=
  match ty with PointerType _ => true | _ => false end.

(** [isinstance(t, cls)] for a type handle that may be [None]. *)
Definition isinstance (ty : option IRType) (cls : IRType -> bool) : bool :=
  match ty with Some t => cls t | None => false end.

Definition is_LoadInstr (v : IRValue) : bool :=
  match v with Instruction _ Load _ _ => true | _ => false end.

Definition is_terminator (op : Opcode) : bool :=
  match op with Ret | Br | CBr => true | _ => false end.

(** The module under construction: its functions and global variables in
    the order of their creation, the blocks appended to the functions, and
    the instructions in the order the builder emitted them, each with the
    block that received it. *)
Record Module : Type := mkModule {
  functions : list IRValue;
  globals : list IRValue;
  blocks : list Block;
  code : list (Block * IRValue)
}.

Definition Module_new : Module := mkModule [] [] [] [].

Definition block_eqb (a b : Block) : bool :=
  String.eqb (block_function a) (block_function b)
  && String.eqb (block_label a) (block_label b).

Definition instr_opcode (v : IRValue) : option Opcode :=
  match v with Instruction _ op _ _ => Some op | _ => None end.

(** [block.is_terminated]. *)
Definition is_terminated (m : Module) (b : Block) : bool :=
  existsb (fun e => block_eqb (fst e) b
                    && match instr_opcode (snd e) with
                       | Some op => is_terminator op
                       | None => false
                       end) (code m).

Definition global_names (m : Module) : list string :=
  map (fun v => match v with
                | Function n _ => n
                | GlobalVariable n _ _ => n
                | _ => EmptyString
                end) (functions m ++ globals m).

(** The state of a builder: the module and the block the builder is
    positioned in ([None] for [ir.IRBuilder()]). *)
Record Builder : Type := mkBuilder {
  module_ : Module;
  position : option Block
}.

Definition none_type_error (attr : string) : PyExn :=
  AttributeError
    (String.append "'NoneType' object has no attribute '" (String.append attr "'")).

(** Appends an instruction to the current block and returns it. *)
Definition emit (op : Opcode) (ty : IRType) (operands : list IRValue)
    : M Builder IRValue :=
  b <- get_state ;;
  match position b with
  | None => raise (none_type_error "instructions")
  | Some blk =>
      if is_terminator op && is_terminated (module_ b) blk
      then raise (AssertionError "block is already terminated")
      else
        let m := module_ b in
        let instr := Instruction (length (code m)) op ty operands in
        put_state (mkBuilder
                     (mkModule (functions m) (globals m) (blocks m)
                        (code m ++ [(blk, instr)]))
                     (position b)) ;;;
        ret instr
  end.

(** An operand that may be [None]: reading its [type] raises. *)
Definition operand (v : option IRValue) : M Builder IRValue :=
  match v with
  | Some x => ret x
  | None => raise (none_type_error "type")
  end.

Definition alloca (ty : option IRType) : M Builder IRValue :=
  match ty with
  | Some t => emit Alloca (PointerType t) []
  | None => raise (none_type_error "as_pointer")
  end.

Definition load (ptr : option IRValue) : M Builder IRValue :=
  p <- operand ptr ;;
  match type_of p with
  | PointerType pointee => emit Load pointee [p]
  | _ => raise (TypeError "cannot load from value: not a pointer")
  end.

(** [builder.store(value, ptr)]: the pointer must point to the type of the
    value. *)
Definition store (value ptr : option IRValue) : M Builder IRValue :=
  p <- operand ptr ;;
  match type_of p with
  | PointerType pointee =>
      v <- operand value ;;
      if IRType_eqb pointee (type_of v)
      then emit Store VoidType [v; p]
      else raise (TypeError "cannot store: mismatching types")
  | _ => raise (TypeError "cannot store to value: not a pointer")
  end.

(** The binary operations: both operands have the same type, which is the
    type of the result. *)
Definition binop (op : Opcode) (lhs rhs : option IRValue) : M Builder IRValue :=
  l <- operand lhs ;;
  r <- operand rhs ;;
  if IRType_eqb (type_of l) (type_of r)
  then emit op (type_of l) [l; r]
  else raise (ValueError "Operands must be the same type").

Definition valid_cmp (op : string) : bool :=
  existsb (String.eqb op) ["=="; "!="; "<"; "<="; ">"; ">="]%string.

Definition icmp_signed (op : Literal) (lhs rhs : option IRValue)
    : M Builder IRValue :=
  match op with
  | LStr o =>
      if valid_cmp o then
        l <- operand lhs ;;
        r <- operand rhs ;;
        emit (ICmp o) (IntType 1) [l; r]
      else raise (KeyError o)
  | _ => raise (KeyError "comparison")
  end.

Definition fcmp_ordered (op : Literal) (lhs rhs : option IRValue)
    : M Builder IRValue :=
  match op with
  | LStr o =>
      if valid_cmp o then
        l <- operand lhs ;;
        r <- operand rhs ;;
        emit (FCmp o) (IntType 1) [l; r]
      else raise (KeyError o)
  | _ => raise (KeyError "comparison")
  end.

(** The casts return their operand when it has the target type already. *)
Definition castop (op : Opcode) (value : option IRValue) (ty : IRType)
    : M Builder IRValue :=
  v <- operand value ;;
  if IRType_eqb (type_of v) ty then ret v else emit op ty [v].

Definition sitofp := castop SIToFP.
Definition bitcast := castop Bitcast.

(** The first arguments of a call have the types of the parameters of the
    callee; further arguments are accepted as they are. *)
Fixpoint check_args (params : list IRType) (args : list (option IRValue))
    : M Builder (list IRValue) :=
  match params with
  | [] =>
      (fix rest (args : list (option IRValue)) : M Builder (list IRValue) :=
         match args with
         | [] => ret []
         | a :: args' =>
             v <- operand a ;; vs <- rest args' ;; ret (v :: vs)
         end) args
  | p :: params' =>
      match args with
      | [] => raise (IndexError "list index out of range")
      | a :: args' =>
          v <- operand a ;;
          if IRType_eqb (type_of v) p
          then vs <- check_args params' args' ;; ret (v :: vs)
          else raise (TypeError "Type of arg mismatch")
      end
  end.

Definition call (fn : option IRValue) (args : list (option IRValue))
    : M Builder IRValue :=
  f <- operand fn ;;
  match f with
  | Function _ (FunctionType return_type params _) =>
      vs <- check_args params args ;;
      emit Call return_type (f :: vs)
  | _ => raise (AttributeError "object has no attribute 'function_type'")
  end.

Definition ret_ (value : option IRValue) : M Builder IRValue :=
  v <- operand value ;; emit Ret VoidType [v].

Definition branch (target : Block) : M Builder IRValue :=
  emit Br VoidType [BlockRef target].

Definition cbranch (cond : option IRValue) (truebr falsebr : Block)
    : M Builder IRValue :=
  c <- operand cond ;;
  emit CBr VoidType [c; BlockRef truebr; BlockRef falsebr].

(** [ir.Function(module, fnty, name)]. *)
Definition add_function (fnty : IRType) (name : string) : M Builder IRValue :=
  b <- get_state ;;
  let m := module_ b in
  if existsb (String.eqb name) (global_names m)
  then raise (AssertionError "duplicated name")
  else
    let f := Function name fnty in
    put_state (mkBuilder
                 (mkModule (functions m ++ [f]) (globals m) (blocks m) (code m))
                 (position b)) ;;;
    ret f.

(** [ir.GlobalVariable(module, typ, name)] with its initializer. *)
Definition add_global (ty : IRType) (name : string) (init : Literal)
    : M Builder IRValue :=
  b <- get_state ;;
  let m := module_ b in
  if existsb (String.eqb name) (global_names m)
  then raise (AssertionError "duplicated name")
  else
    let g := GlobalVariable name ty init in
    put_state (mkBuilder
                 (mkModule (functions m) (globals m ++ [g]) (blocks m) (code m))
                 (position b)) ;;;
    ret g.

(** [function.append_basic_block(name)] (labels are taken as given). *)
Definition append_basic_block (function : string) (label : string)
    : M Builder Block :=
  b <- get_state ;;
  let m := module_ b in
  let blk := mkBlock function label in
  put_state (mkBuilder
               (mkModule (functions m) (globals m) (blocks m ++ [blk]) (code m))
               (position b)) ;;;
  ret blk.

Definition position_at (blk : Block) : M Builder unit :=
  modify (fun b => mkBuilder (module_ b) (Some blk)).

End IR.

(* ===================================================================== *)
(** * Environment (Environment.py) *)
(* ===================================================================== *)

Global Instance Literal_eq_decision : EqDecision Literal := Literal_eq_dec.

Definition Literal_encode (l : Literal) : unit + string + Z + string :=
  match l with
  | LNone => inl (inl (inl tt))
  | LStr s => inl (inl (inr s))
  | LInt n => inl (inr n)
  | LFloat d => inr d
  end.

Definition Literal_decode (x : unit + string + Z + string) : Literal :=
  match x with
  | inl (inl (inl _)) => LNone
  | inl (inl (inr s)) => LStr s
  | inl (inr n) => LInt n
  | inr d => LFloat d
  end.

Global Instance Literal_countable : Countable Literal :=
  inj_countable' Literal_encode Literal_decode
    (fun l => match l with
              | LNone => eq_refl
              | LStr _ => eq_refl
              | LInt _ => eq_refl
              | LFloat _ => eq_refl
              end).

Module Environment.

(** A frame: the records of the scope (a dict from names to a value and a
    type handle), the enclosing frame and a name.  Only the current frame
    of the compiler is ever written, and a frame is dropped when its
    function has been lowered, so a frame can hold its parent by value. *)
Local Unset Elimination Schemes.

Inductive t : Type :=
| mk (records : gmap Literal (IR.IRValue * IR.IRType)) (parent : option t)
     (name : string).

Local Set Elimination Schemes.

Definition records (e : t) : gmap Literal (IR.IRValue * IR.IRType) :=
  match e with mk r _ _ => r end.
Definition parent (e : t) : option t :=
  match e with mk _ p _ => p end.
Definition name (e : t) : string :=
  match e with mk _ _ n => n end.

(** [Environment(records, parent, name)]. *)
Definition new (parent : option t) : t := mk ∅ parent "global".

Definition define (e : t) (name : Literal) (value : IR.IRValue)
    (ty : IR.IRType) : t :=
  match e with
  | mk r p n => mk (<[name := (value, ty)]> r) p n
  end.

Fixpoint resolve (e : t) (name : Literal) : option (IR.IRValue * IR.IRType) :=
  match e with
  | mk r p _ =>
      match r !! name with
      | Some rec => Some rec
      | None =>
          match p with
          | Some e' => resolve e' name
          | None => None
          end
      end
  end.

Definition lookup (e : t) (name : Literal) : option (IR.IRValue * IR.IRType) :=
  resolve e name.

End Environment.

(* ===================================================================== *)
(** * Lowering to LLVM IR (Compiler.py) *)
(* ===================================================================== *)

(** What [compile] is called on. *)
Inductive Node : Type :=
| NProgram (p : Program)
| NStatement (s : Statement)
| NExpression (e : Expression).

Module Compiler.
Import IR.
Local Open Scope monad_scope.

Record t : Type := mk {
  ir : Builder;                      (* [self.module] and [self.builder] *)
  env : Environment.t;
  counter : Z;
  breakpoints : list Block;
  continues : list Block;
  global_parsed_pallets : list (Literal * Program)
}.

Definition set_ir (b : Builder) (c : t) : t :=
  mk b (env c) (counter c) (breakpoints c) (continues c) (global_parsed_pallets c).
Definition set_env (e : Environment.t) (c : t) : t :=
  mk (ir c) e (counter c) (breakpoints c) (continues c) (global_parsed_pallets c).
Definition set_counter (n : Z) (c : t) : t :=
  mk (ir c) (env c) n (breakpoints c) (continues c) (global_parsed_pallets c).
Definition set_breakpoints (l : list Block) (c : t) : t :=
  mk (ir c) (env c) (counter c) l (continues c) (global_parsed_pallets c).
Definition set_continues (l : list Block) (c : t) : t :=
  mk (ir c) (env c) (counter c) (breakpoints c) l (global_parsed_pallets c).
Definition set_pallets (l : list (Literal * Program)) (c : t) : t :=
  mk (ir c) (env c) (counter c) (breakpoints c) (continues c) l.

(** A call on the builder or the module, from the compiler. *)
Definition builder {A : Type} (m : M Builder A) : M t A :=
  fun c =>
    match m (ir c) with
    | Ok a b => Ok a (set_ir b c)
    | Raise e b => Raise e (set_ir b c)
    | OutOfFuel => OutOfFuel
    end.

Definition i64 : IRType := IntType 64.
Definition f64 : IRType := DoubleType.
Definition i1 : IRType := IntType 1.
Definition i8ptr : IRType := PointerType (IntType 8).

(** [self.type_map[key]]. *)
Definition type_map (key : Literal) : M t IRType :=
  if lit_is key "int" then ret i64
  else if lit_is key "float" then ret f64
  else if lit_is key "bool" then ret i1
  else if lit_is key "str" then ret i8ptr
  else if lit_is key "void" then ret VoidType
  else raise (KeyError "type_map").

Definition define (name : Literal) (value : IRValue) (ty : IRType) : M t unit :=
  modify (fun c => set_env (Environment.define (env c) name value ty) c).

Definition lookup (name : Literal) : M t (option (IRValue * IRType)) :=
  c <- get_state ;; ret (Environment.lookup (env c) name).

(** [a, b = self.env.lookup(name)]: unpacking [None] raises. *)
Definition lookup_unpack (name : Literal) : M t (IRValue * IRType) :=
  r <- lookup name ;;
  match r with
  | Some rec => ret rec
  | None => raise (TypeError "cannot unpack non-iterable NoneType object")
  end.

Definition increment_counter : M t Z :=
  c <- get_state ;;
  put_state (set_counter (counter c + 1) c) ;;;
  ret (counter c + 1).

Definition str_of_int (n : Z) : string := NilZero.string_of_int (Z.to_int n).

Definition initialize_builtins : M t unit :=
  print_fn <- builder (add_function (FunctionType i64 [i8ptr] true) "printf") ;;
  define (LStr "print") print_fn i64 ;;;
  alloc_fn <- builder (add_function (FunctionType i8ptr [i64] false) "alloc") ;;
  define (LStr "_alloc") alloc_fn i8ptr ;;;
  memcpy_fn <- builder (add_function
                          (FunctionType i8ptr [i8ptr; i8ptr; i64] false) "memcpy") ;;
  define (LStr "_memcpy") memcpy_fn i8ptr ;;;
  strcat_fn <- builder (add_function
                          (FunctionType i8ptr [i8ptr; i8ptr] false) "_strcat") ;;
  define (LStr "_strcat") strcat_fn i8ptr ;;;
  pow_fn <- builder (add_function (FunctionType f64 [f64; f64] false) "pow") ;;
  define (LStr "pow") pow_fn f64 ;;;
  len_fn <- builder (add_function (FunctionType i64 [i8ptr] false) "strlen") ;;
  define (LStr "len") len_fn i64 ;;;
  true_var <- builder (add_global i1 "true" (LInt 1)) ;;
  false_var <- builder (add_global i1 "false" (LInt 0)) ;;
  define (LStr "true") true_var (type_of true_var) ;;;
  define (LStr "false") false_var (type_of true_var).

(** [Compiler()]. *)
Definition new : Outcome t unit :=
  initialize_builtins
    (mk (mkBuilder Module_new None) (Environment.new None) 0 [] [] []).

(** [node.value] of a literal node. *)
Definition node_value (e : option Expression) : M t Literal :=
  match e with
  | Some (IntegerLiteral v) | Some (FloatLiteral v)
  | Some (IdentifierLiteral v) | Some (StringLiteral v) => ret v
  | Some (BooleanLiteral b) => ret (LInt (if b then 1 else 0))
  | Some _ => raise (AttributeError "object has no attribute 'value'")
  | None => raise (none_type_error "value")
  end.

Definition lit_in (l : Literal) (ss : list string) : bool :=
  existsb (lit_is l) ss.

Definition comparison_operators : list string :=
  ["<"; ">"; "<="; ">="; "=="; "!="]%string.

(** The function the builder is positioned in. *)
Definition current_function : M t string :=
  c <- get_state ;;
  match position (ir c) with
  | Some blk => ret (block_function blk)
  | None => raise (none_type_error "function")
  end.

Definition current_block : M t Block :=
  c <- get_state ;;
  match position (ir c) with
  | Some blk => ret blk
  | None => raise (none_type_error "name")
  end.

(** ** Built-in functions and strings *)

Definition builtin_pow (left_value right_value : option IRValue)
    : M t (option IRValue) :=
  rec <- lookup_unpack (LStr "pow") ;;
  l <- builder (operand left_value) ;;
  l <- (if is_IntType (type_of l)
        then builder (sitofp (Some l) f64) else ret l) ;;
  r <- builder (operand right_value) ;;
  r <- (if is_IntType (type_of r)
        then builder (sitofp (Some r) f64) else ret r) ;;
  v <- builder (call (Some (fst rec)) [Some l; Some r]) ;;
  ret (Some v).

Definition builtin_len (str : option IRValue) : M t (option IRValue) :=
  rec <- lookup_unpack (LStr "len") ;;
  v <- builder (call (Some (fst rec)) [str]) ;;
  ret (Some v).

Definition builtin_print (params : list (option IRValue))
    (return_type : option IRType) : M t (option IRValue) :=
  rec <- lookup_unpack (LStr "print") ;;
  c_str <- builder (alloca return_type) ;;
  match params with
  | [] => raise (IndexError "list index out of range")
  | p0 :: rest_params =>
      builder (store p0 (Some c_str)) ;;;
      match p0 with
      | Some (Instruction _ Load _ (g_var_ptr :: _)) =>
          string_val <- builder (load (Some g_var_ptr)) ;;
          fmt_arg <- builder (bitcast (Some string_val) i8ptr) ;;
          v <- builder (call (Some (fst rec)) (Some fmt_arg :: rest_params)) ;;
          ret (Some v)
      | _ =>
          fmt_arg <- builder (bitcast p0 i8ptr) ;;
          v <- builder (call (Some (fst rec)) (Some fmt_arg :: rest_params)) ;;
          ret (Some v)
      end
  end.

Definition handle_string_concatenation (left_value right_value : option IRValue)
    : M t (option IRValue * option IRType) :=
  rec <- lookup_unpack (LStr "_strcat") ;;
  str1_char_ptr <- builder (bitcast left_value i8ptr) ;;
  str2_char_ptr <- builder (bitcast right_value i8ptr) ;;
  result <- builder (call (Some (fst rec))
                       [Some str1_char_ptr; Some str2_char_ptr]) ;;
  ret (Some result, Some (snd rec)).

Definition convert_string (text : Literal)
    : M t (option IRValue * option IRType) :=
  match text with
  | LStr s =>
      let fmt := Escapes.literal_bytes s in
      let str_len := Z.of_nat (String.length fmt) in
      alloc <- lookup_unpack (LStr "_alloc") ;;
      let size := Constant (IntType 64) (LInt str_len) in
      ptr <- builder (call (Some (fst alloc)) [Some size]) ;;
      let c_fmt := ConstantBytes (ArrayType (IntType 8) str_len) fmt in
      temp <- builder (alloca (Some (type_of c_fmt))) ;;
      builder (store (Some c_fmt) (Some temp)) ;;;
      temp_cast <- builder (bitcast (Some temp) i8ptr) ;;
      ptr_cast <- builder (bitcast (Some ptr) i8ptr) ;;
      memcpy <- lookup_unpack (LStr "_memcpy") ;;
      builder (call (Some (fst memcpy))
                 [Some ptr_cast; Some temp_cast; Some size]) ;;;
      ret (Some ptr, Some i8ptr)
  | _ => raise (AttributeError "object has no attribute 'replace'")
  end.

(** ** Operators *)

Definition handle_int_operations (operator : Literal)
    (left_value right_value : option IRValue) : M t (option IRValue) :=
  if lit_is operator "+" then
    v <- builder (binop Add left_value right_value) ;; ret (Some v)
  else if lit_is operator "-" then
    v <- builder (binop Sub left_value right_value) ;; ret (Some v)
  else if lit_is operator "*" then
    v <- builder (binop Mul left_value right_value) ;; ret (Some v)
  else if lit_is operator "/" then
    v <- builder (binop SDiv left_value right_value) ;; ret (Some v)
  else if lit_is operator "%" then
    v <- builder (binop SRem left_value right_value) ;; ret (Some v)
  else if lit_is operator "**" then
    builtin_pow left_value right_value
  else if lit_in operator comparison_operators then
    v <- builder (icmp_signed operator left_value right_value) ;; ret (Some v)
  else ret None.

Definition handle_float_operations (operator : Literal)
    (left_value right_value : option IRValue) : M t (option IRValue) :=
  if lit_is operator "+" then
    v <- builder (binop FAdd left_value right_value) ;; ret (Some v)
  else if lit_is operator "-" then
    v <- builder (binop FSub left_value right_value) ;; ret (Some v)
  else if lit_is operator "*" then
    v <- builder (binop FMul left_value right_value) ;; ret (Some v)
  else if lit_is operator "/" then
    v <- builder (binop FDiv left_value right_value) ;; ret (Some v)
  else if lit_is operator "%" then
    v <- builder (binop FRem left_value right_value) ;; ret (Some v)
  else if lit_is operator "**" then
    builtin_pow left_value right_value
  else if lit_in operator comparison_operators then
    v <- builder (fcmp_ordered operator left_value right_value) ;; ret (Some v)
  else ret None.

(** ** Expressions *)

Section Expressions.

(** The recursive calls of [resolve_value]. *)
Variable resolve_value : option Expression -> M t (option IRValue * option IRType).

Definition visit_infix_expression (left_node : option Expression)
    (operator : Literal) (right_node : option Expression)
    : M t (option IRValue * option IRType) :=
  l <- resolve_value left_node ;;
  r <- resolve_value right_node ;;
  let left_value := fst l in
  let left_type := snd l in
  let right_value := fst r in
  let right_type := snd r in
  if isinstance left_type is_IntType && isinstance right_type is_IntType then
    value <- handle_int_operations operator left_value right_value ;;
    if lit_in operator comparison_operators
    then ret (value, Some i1) else ret (value, Some i64)
  else if isinstance left_type is_DoubleType
          && isinstance right_type is_DoubleType then
    value <- handle_float_operations operator left_value right_value ;;
    if lit_in operator comparison_operators
    then ret (value, Some i1) else ret (value, Some f64)
  else if isinstance left_type is_IntType
          && isinstance right_type is_DoubleType then
    left_value <- builder (sitofp left_value f64) ;;
    value <- handle_float_operations operator (Some left_value) right_value ;;
    if lit_in operator comparison_operators
    then ret (value, Some i1) else ret (value, Some f64)
  else if isinstance left_type is_DoubleType
          && isinstance right_type is_IntType then
    right_value <- builder (sitofp right_value f64) ;;
    value <- handle_float_operations operator left_value (Some right_value) ;;
    if lit_in operator comparison_operators
    then ret (value, Some i1) else ret (value, Some f64)
  else if isinstance left_type is_PointerType
          && isinstance right_type is_PointerType
          && lit_is operator "+" then
    handle_string_concatenation left_value right_value
  else ret (None, None).

Definition visit_prefix_expression (operator : Literal)
    (right_node : option Expression) : M t (option IRValue * option IRType) :=
  r <- resolve_value right_node ;;
  let right_value := fst r in
  let right_type := snd r in
  if isinstance right_type is_DoubleType then
    if lit_is operator "-" then
      v <- builder (binop FMul right_value (Some (Constant f64 (LFloat "-1.0")))) ;;
      ret (Some v, Some f64)
    else if lit_is operator "not" then
      v <- builder (fcmp_ordered (LStr "==") right_value
                      (Some (Constant DoubleType (LFloat "0.0")))) ;;
      ret (Some v, Some f64)
    else ret (None, Some f64)
  else if isinstance right_type is_IntType then
    if lit_is operator "-" then
      v <- builder (binop Mul right_value (Some (Constant i64 (LInt (-1))))) ;;
      ret (Some v, Some i64)
    else if lit_is operator "not" then
      v <- builder (icmp_signed (LStr "==") right_value
                      (Some (Constant (IntType 64) (LInt 0)))) ;;
      ret (Some v, Some i64)
    else ret (None, Some i64)
  else ret (None, None).

Fixpoint resolve_args (params : list (option Expression))
    : M t (list (option IRValue) * list (option IRType)) :=
  match params with
  | [] => ret ([], [])
  | x :: rest =>
      p <- resolve_value x ;;
      r <- resolve_args rest ;;
      ret (fst p :: fst r, snd p :: snd r)
  end.

Definition visit_call_expression (function : option Expression)
    (params : list (option Expression)) : M t (option IRValue * option IRType) :=
  name <- node_value function ;;
  a <- resolve_args params ;;
  let args := fst a in
  let types := snd a in
  if lit_is name "print" then
    match types with
    | [] => raise (IndexError "list index out of range")
    | ty0 :: _ =>
        v <- builtin_print args ty0 ;;
        ret (v, Some i64)
    end
  else if lit_is name "pow" then
    match args with
    | a0 :: a1 :: _ =>
        v <- builtin_pow a0 a1 ;;
        ret (v, Some f64)
    | _ => raise (IndexError "list index out of range")
    end
  else if lit_is name "len" then
    match args with
    | a0 :: _ =>
        v <- builtin_len a0 ;;
        ret (v, Some i64)
    | [] => raise (IndexError "list index out of range")
    end
  else
    rec <- lookup_unpack name ;;
    v <- builder (call (Some (fst rec)) args) ;;
    ret (Some v, Some (snd rec)).

(** The body of [resolve_value] (its [value_type] argument is never
    passed). *)
Definition resolve_value_body (node : option Expression)
    : M t (option IRValue * option IRType) :=
  match node with
  | None => raise (none_type_error "type")
  | Some (IntegerLiteral v) => ret (Some (Constant i64 v), Some i64)
  | Some (FloatLiteral v) => ret (Some (Constant f64 v), Some f64)
  | Some (IdentifierLiteral v) =>
      rec <- lookup_unpack v ;;
      x <- builder (load (Some (fst rec))) ;;
      ret (Some x, Some (snd rec))
  | Some (BooleanLiteral b) =>
      ret (Some (Constant i1 (LInt (if b then 1 else 0))), Some i1)
  | Some (StringLiteral v) => convert_string v
  | Some (InfixExpression l op r) => visit_infix_expression l op r
  | Some (CallExpression f args) => visit_call_expression f args
  | Some (PrefixExpression op r) => visit_prefix_expression op r
  end.

End Expressions.

Fixpoint resolve_value (fuel : nat) (node : option Expression) (c : t)
    : Outcome t (option IRValue * option IRType) :=
  match fuel with
  | O => OutOfFuel
  | S f => resolve_value_body (resolve_value f) node c
  end.

(** ** Statements *)

Definition visit_var_statement (fuel : nat) (name_node : option Expression)
    (value : option Expression) (value_type : Literal) : M t unit :=
  name <- node_value name_node ;;
  value <-
    (match value with
     | None =>
         if lit_is value_type "int" then ret (Some (IntegerLiteral (LInt 0)))
         else if lit_is value_type "float" then ret (Some (FloatLiteral (LFloat "0.0")))
         else if lit_is value_type "bool" then ret (Some (BooleanLiteral false))
         else if lit_is value_type "str" then ret (Some (StringLiteral (LStr "")))
         else raise (TypeError "Unsupported type for variable")
     | Some _ => ret value
     end) ;;
  r <- resolve_value fuel value ;;
  let value := fst r in
  let type_info := snd r in
  found <- lookup name ;;
  match found with
  | None =>
      ptr <- builder (alloca type_info) ;;
      builder (store value (Some ptr)) ;;;
      match type_info with
      | Some ty => define name ptr ty
      | None => ret tt
      end
  | Some rec =>
      builder (store value (Some (fst rec))) ;;;
      ret tt
  end.

(** The arithmetic of a compound assignment: the integer instruction when
    the slot and the right side are both integers, else the float one. *)
Definition assign_arith (int_op float_op : Opcode)
    (orig_value : IRValue) (right_type : option IRType)
    (right_value : option IRValue) : M t (option IRValue) :=
  if is_IntType (type_of orig_value) && isinstance right_type is_IntType
  then v <- builder (binop int_op (Some orig_value) right_value) ;; ret (Some v)
  else v <- builder (binop float_op (Some orig_value) right_value) ;; ret (Some v).

Definition visit_assign_statement (fuel : nat) (ident : option Expression)
    (operator : Literal) (right_node : option Expression) : M t unit :=
  name <- node_value ident ;;
  found <- lookup name ;;
  match found with
  | None => raise (NameError "Variable not defined.")
  | Some _ =>
      r <- resolve_value fuel right_node ;;
      let right_value := fst r in
      let right_type := snd r in
      rec <- lookup_unpack name ;;
      orig_value <- builder (load (Some (fst rec))) ;;
      orig_value <-
        (if is_IntType (type_of orig_value) && isinstance right_type is_DoubleType
         then builder (sitofp (Some orig_value) f64)
         else ret orig_value) ;;
      right_value <-
        (if is_DoubleType (type_of orig_value) && isinstance right_type is_IntType
         then v <- builder (sitofp right_value f64) ;; ret (Some v)
         else ret right_value) ;;
      value <-
        (if lit_is operator "=" then ret right_value
         else if lit_is operator "+=" then
           if is_IntType (type_of orig_value) && isinstance right_type is_IntType
           then v <- builder (binop Add (Some orig_value) right_value) ;;
                ret (Some v)
           else if is_PointerType (type_of orig_value)
                   && isinstance right_type is_PointerType
           then p <- handle_string_concatenation (Some orig_value) right_value ;;
                ret (fst p)
           else v <- builder (binop FAdd (Some orig_value) right_value) ;;
                ret (Some v)
         else if lit_is operator "-=" then
           assign_arith Sub FSub orig_value right_type right_value
         else if lit_is operator "*=" then
           assign_arith Mul FMul orig_value right_type right_value
         else if lit_is operator "/=" then
           assign_arith SDiv FDiv orig_value right_type right_value
         else if lit_is operator "%=" then
           assign_arith SRem FRem orig_value right_type right_value
         else if lit_is operator "**=" then
           builtin_pow (Some orig_value) right_value
         else raise (NotImplementedError "Unsupported assignment operator")) ;;
      rec' <- lookup_unpack name ;;
      builder (store value (Some (fst rec'))) ;;;
      ret tt
  end.

Definition visit_return_statement (fuel : nat) (value : option Expression)
    : M t unit :=
  r <- resolve_value fuel value ;;
  builder (ret_ (fst r)) ;;;
  ret tt.

Definition visit_break_statement : M t unit :=
  c <- get_state ;;
  match List.last (map Some (breakpoints c)) None with
  | Some target => builder (branch target) ;;; ret tt
  | None => raise (RuntimeError "Break statement outside of loop.")
  end.

Definition visit_continue_statement : M t unit :=
  c <- get_state ;;
  match List.last (map Some (continues c)) None with
  | Some target => builder (branch target) ;;; ret tt
  | None => raise (RuntimeError "Continue statement outside of loop.")
  end.

Section Files.

(** The files that [open] can read, by path. *)
Variable fs : string -> option string.

Section Visitors.

(** The recursive calls of [compile]. *)
Variable compile : option Node -> M t unit.

Fixpoint compile_each (stmts : list (option Statement)) : M t unit :=
  match stmts with
  | [] => ret tt
  | stmt :: rest =>
      compile (option_map NStatement stmt) ;;;
      compile_each rest
  end.

Definition visit_program (node : Program) : M t unit :=
  func <- builder (add_function (FunctionType i64 [] false) ".main") ;;
  block <- builder (append_basic_block ".main" ".main_entry") ;;
  builder (position_at block) ;;;
  compile_each (map Some (statements node)) ;;;
  builder (ret_ (Some (Constant i64 (LInt 0)))) ;;;
  ret tt.

Definition visit_expression_statement (expr : option Expression) : M t unit :=
  compile (option_map NExpression expr).

(** One arm of [builder.if_else]: the builder is positioned in the block
    of the arm, the statements are lowered, and a branch to the end block
    closes the arm unless its last block is terminated already. *)
Definition branch_helper (bbenter bbexit : Block)
    (stmts : list (option Statement)) : M t unit :=
  builder (position_at bbenter) ;;;
  compile_each stmts ;;;
  blk <- current_block ;;
  c <- get_state ;;
  if is_terminated (module_ (ir c)) blk then ret tt
  else builder (branch bbexit) ;;; ret tt.

(** [else_body] is always a list (never [None]): the arm with
    [builder.if_else] is the one that runs. *)
Definition visit_if_statement (fuel : nat) (condition : option Expression)
    (body else_body : list (option Statement)) : M t unit :=
  r <- resolve_value fuel condition ;;
  bb <- current_block ;;
  bbif <- builder (append_basic_block (block_function bb)
                     (String.append (block_label bb) ".if")) ;;
  bbelse <- builder (append_basic_block (block_function bb)
                       (String.append (block_label bb) ".else")) ;;
  bbend <- builder (append_basic_block (block_function bb)
                      (String.append (block_label bb) ".endif")) ;;
  builder (cbranch (fst r) bbif bbelse) ;;;
  branch_helper bbif bbend body ;;;
  branch_helper bbelse bbend else_body ;;;
  builder (position_at bbend).

Definition visit_while_statement (fuel : nat) (condition : option Expression)
    (body : list (option Statement)) : M t unit :=
  r <- resolve_value fuel condition ;;
  fn <- current_function ;;
  n <- increment_counter ;;
  while_loop_entry <- builder (append_basic_block fn
                                 (String.append "while_loop_entry_" (str_of_int n))) ;;
  c <- get_state ;;
  while_loop_otherwise <- builder (append_basic_block fn
                                     (String.append "while_loop_otherwise_"
                                        (str_of_int (counter c)))) ;;
  modify (fun c => set_breakpoints (breakpoints c ++ [while_loop_otherwise]) c) ;;;
  modify (fun c => set_continues (continues c ++ [while_loop_entry]) c) ;;;
  builder (cbranch (fst r) while_loop_entry while_loop_otherwise) ;;;
  builder (position_at while_loop_entry) ;;;
  compile_each body ;;;
  r' <- resolve_value fuel condition ;;
  builder (cbranch (fst r') while_loop_entry while_loop_otherwise) ;;;
  builder (position_at while_loop_otherwise) ;;;
  modify (fun c => set_breakpoints (removelast (breakpoints c)) c) ;;;
  modify (fun c => set_continues (removelast (continues c)) c).

Definition pallets_get (l : list (Literal * Program)) (key : Literal)
    : option Program :=
  match List.find (fun e => if Literal_eq_dec (fst e) key then true else false)
                  (rev l) with
  | Some e => Some (snd e)
  | None => None
  end.

(** The imported file is lexed and parsed; a failure of either ends the
    process with [sys.exit(1)]. *)
Definition visit_import_statement (fuel : nat) (file_path : Literal) : M t unit :=
  c <- get_state ;;
  match pallets_get (global_parsed_pallets c) file_path with
  | Some _ => ret tt
  | None =>
      match file_path with
      | LStr path =>
          match fs path with
          | None => raise (FileNotFoundError path)
          | Some pallet_code =>
              match Lexer.lex pallet_code "<stdin>" with
              | OutOfFuel => out_of_fuel
              | Raise e _ => raise e
              | Ok tokens l =>
                  if has_error (Lexer.error_handler l) then raise (SystemExit 1)
                  else
                    match Parser.parse (2 * length tokens + 4) tokens with
                    | OutOfFuel => out_of_fuel
                    | Raise e _ => raise e
                    | Ok program p =>
                        if has_error (Parser.error_handler p)
                        then raise (SystemExit 1)
                        else
                          compile_each (map Some (statements program)) ;;;
                          modify (fun c =>
                            set_pallets (global_parsed_pallets c
                                         ++ [(file_path, program)]) c)
                    end
              end
          end
      | _ => raise (TypeError "expected str, bytes or os.PathLike object")
      end
  end.

Fixpoint param_types (params : list FunctionParameter) : M t (list IRType) :=
  match params with
  | [] => ret []
  | p :: rest =>
      ty <- type_map (param_value_type p) ;;
      tys <- param_types rest ;;
      ret (ty :: tys)
  end.

(** The slots of the parameters: one [alloca] and one [store] each. *)
Fixpoint alloca_params (fn : string) (i : nat) (tys : list IRType)
    : M t (list IRValue) :=
  match tys with
  | [] => ret []
  | ty :: rest =>
      ptr <- builder (alloca (Some ty)) ;;
      builder (store (Some (Argument fn i ty)) (Some ptr)) ;;;
      ptrs <- alloca_params fn (S i) rest ;;
      ret (ptr :: ptrs)
  end.

Fixpoint define_params (params : list FunctionParameter) (tys : list IRType)
    (ptrs : list IRValue) : M t unit :=
  match params, tys, ptrs with
  | p :: params', ty :: tys', ptr :: ptrs' =>
      define (param_name p) ptr ty ;;;
      define_params params' tys' ptrs'
  | _, _, _ => ret tt
  end.

(** What [visit_function_statement] keeps across the body: the function,
    its return type, and the builder and environment to restore. *)
Record Entered : Type := mkEntered {
  entered_name : Literal;
  entered_func : IRValue;
  entered_return : IRType;
  previous_builder : option Block;
  previous_env : Environment.t
}.

(** The first half of [visit_function_statement], up to the body: the
    function and its entry block are created, the builder moves there, a
    child environment is pushed, the parameters get their slots and the
    function is bound to its own name. *)
Definition enter_function (parameters : list FunctionParameter)
    (name_node : option Expression) (return_type : Literal) : M t Entered :=
  name <- node_value name_node ;;
  tys <- param_types parameters ;;
  return_ty <- type_map return_type ;;
  match name with
  | LStr fn =>
      func <- builder (add_function (FunctionType return_ty tys false) fn) ;;
      block <- builder (append_basic_block fn (String.append fn "_entry")) ;;
      c <- get_state ;;
      let previous_builder := position (ir c) in
      let previous_env := env c in
      builder (position_at block) ;;;
      modify (set_env (Environment.new (Some previous_env))) ;;;
      ptrs <- alloca_params fn 0 tys ;;
      define_params parameters tys ptrs ;;;
      define name func return_ty ;;;
      ret (mkEntered name func return_ty previous_builder previous_env)
  | _ => raise (TypeError "the name of a function is a string")
  end.

(** The second half: the environment and the builder are restored and the
    function is bound in the enclosing environment. *)
Definition leave_function (e : Entered) : M t unit :=
  modify (set_env (previous_env e)) ;;;
  define (entered_name e) (entered_func e) (entered_return e) ;;;
  modify (fun c => set_ir (mkBuilder (module_ (ir c)) (previous_builder e)) c).

Definition visit_function_statement (fuel : nat)
    (parameters : list FunctionParameter) (body : list (option Statement))
    (name_node : option Expression) (return_type : Literal) : M t unit :=
  e <- enter_function parameters name_node return_type ;;
  compile_each body ;;;
  leave_function e.

(** The body of [compile]: the dispatch on the type of the node. *)
Definition compile_body (fuel : nat) (node : option Node) : M t unit :=
  match node with
  | None => raise (none_type_error "type")
  | Some (NProgram p) => visit_program p
  | Some (NStatement s) =>
      match s with
      | ExpressionStatement expr => visit_expression_statement expr
      | VarStatement name value value_type =>
          visit_var_statement fuel name value value_type
      | FunctionStatement parameters body name return_type =>
          visit_function_statement fuel parameters body name return_type
      | ReturnStatement value => visit_return_statement fuel value
      | AssignStatement ident operator right_value =>
          visit_assign_statement fuel ident operator right_value
      | IfStatement condition body else_body =>
          visit_if_statement fuel condition body else_body
      | WhileStatement condition body => visit_while_statement fuel condition body
      | BreakStatement => visit_break_statement
      | ContinueStatement => visit_continue_statement
      | ImportStatement file_path => visit_import_statement fuel file_path
      end
  | Some (NExpression e) =>
      match e with
      | InfixExpression l op r =>
          visit_infix_expression (resolve_value fuel) l op r ;;; ret tt
      | CallExpression f args =>
          visit_call_expression (resolve_value fuel) f args ;;; ret tt
      | PrefixExpression op r =>
          visit_prefix_expression (resolve_value fuel) op r ;;; ret tt
      | _ => ret tt
      end
  end.

End Visitors.

Fixpoint compile (fuel : nat) (node : option Node) (c : t) : Outcome t unit :=
  match fuel with
  | O => OutOfFuel
  | S f => compile_body (compile f) f node c
  end.

End Files.
End Compiler.

(* ===================================================================== *)
(** * The driver (main.py) *)
(* ===================================================================== *)

Module Main.

(** [run_lexical_analysis]: the tokens of the source, sanitized. *)
Definition run_lexical_analysis (src filename : string)
    : Outcome Lexer.t (list Token) :=
  match Lexer.lex src filename with
  | Ok tokens l =>
      let tokens := Sanitizer.sanitize tokens in
      if has_error (Lexer.error_handler l)
      then Raise (CompilationError "Lexical analysis failed") l
      else Ok tokens l
  | Raise e l => Raise e l
  | OutOfFuel => OutOfFuel
  end.

(** [run_parsing]. *)
Definition run_parsing (tokens : list Token) : Outcome Parser.t Program :=
  match Parser.parse (2 * length tokens + 4) tokens with
  | Ok ast p =>
      if has_error (Parser.error_handler p)
      then Raise (CompilationError "Parsing failed") p
      else Ok ast p
  | Raise e p => Raise e p
  | OutOfFuel => OutOfFuel
  end.

(** [run_compilation]. *)
Definition run_compilation (fs : string -> option string) (fuel : nat)
    (ast : Program) : Outcome Compiler.t unit :=
  match Compiler.new with
  | Ok _ c => Compiler.compile fs fuel (Some (NProgram ast)) c
  | Raise e c => Raise e c
  | OutOfFuel => OutOfFuel
  end.

(** The front end and the lowering of a source file. *)
Definition compile_source (fs : string -> option string) (fuel : nat)
    (src filename : string) : option (Outcome Compiler.t unit) :=
  match run_lexical_analysis src filename with
  | Ok tokens _ =>
      match run_parsing tokens with
      | Ok ast _ => Some (run_compilation fs fuel ast)
      | _ => None
      end
  | _ => None
  end.

End Main.

(* ===================================================================== *)
(** * Error handler: warnings and the report (Error.py) *)
(* ===================================================================== *)

(** [add_warning]: the warning is appended; the error flag is not
    touched. *)
Definition add_warning (h : ErrorHandler) (ps pe : Position.t)
    (name det : string) : ErrorHandler :=
  mkHandler (errors h) (warnings h ++ [mkError ps pe name det]) (has_error h).

(** The value [report()] returns: [False] when errors were recorded (the
    compilation failed), [True] otherwise.  The text it prints is not part
    of the value. *)
Definition report (h : ErrorHandler) : bool :=
  match errors h with
  | [] => true
  | _ :: _ => false
  end.

(** A call on an error handler. *)
Inductive HandlerCall : Type :=
| CallAddError (ps pe : Position.t) (name det : string)
| CallAddWarning (ps pe : Position.t) (name det : string).

Definition handler_call (h : ErrorHandler) (c : HandlerCall) : ErrorHandler :=
  match c with
  | CallAddError ps pe name det => add_error h ps pe name det
  | CallAddWarning ps pe name det => add_warning h ps pe name det
  end.

(** The handler after a sequence of calls on a fresh one. *)
Definition handler_after (calls : list HandlerCall) : ErrorHandler :=
  fold_left handler_call calls ErrorHandler_new.

Definition is_add_error (c : HandlerCall) : bool :=
  match c with CallAddError _ _ _ _ => true | CallAddWarning _ _ _ _ => false end.

Definition error_of_call (c : HandlerCall) : Error :=
  match c with
  | CallAddError ps pe name det | CallAddWarning ps pe name det =>
      mkError ps pe name det
  end.
(* ===================================================================== *)
(** * Facts about token types *)
(* ===================================================================== *)

Lemma tt_eqb_eq a b : tt_eqb a b = true <-> a = b.
Proof. unfold tt_eqb. destruct (TokenType_eq_dec a b); split; congruence. Qed.

Lemma tt_eqb_refl a : tt_eqb a a = true.
Proof. apply tt_eqb_eq. reflexivity. Qed.

(* ===================================================================== *)
(** * Facts about automatic semicolon insertion *)
(* ===================================================================== *)

Module SanitizerFacts.
Import Sanitizer.

Lemma mem_pos_In x s : mem_pos x s = true <-> In x s.
Proof.
  unfold mem_pos. rewrite existsb_exists. split.
  - intros [y [Hy Heq]]. apply Z.eqb_eq in Heq. now subst.
  - intros H. exists x. split; [assumption | apply Z.eqb_refl].
Qed.

Lemma reconstruct_nil (l : list Token) : reconstruct [] l = l.
Proof. induction l as [|t l IH]; simpl; [reflexivity | now rewrite IH]. Qed.

(** A pair contributes nothing or the end index of [prev]. *)
Lemma pair_positions_cases (p cur : Token) :
  pair_positions (Some p) cur = [] \/
  pair_positions (Some p) cur = [Position.idx (pos_end p)].
Proof.
  unfold pair_positions.
  repeat match goal with |- context [if ?b then _ else _] => destruct b end;
    auto.
Qed.

(** Nothing is ever inserted after a semicolon. *)
Lemma pair_positions_after_semicolon (q cur : Token) :
  type_ q = SEMICOLON -> pair_positions (Some q) cur = [].
Proof.
  intros Hq. unfold pair_positions. rewrite Hq. simpl.
  repeat match goal with |- context [if ?b then _ else _] => destruct b end;
    reflexivity.
Qed.

(** The inserted semicolon starts on the line where its token ends, so the
    pair (token, semicolon) triggers nothing. *)
Lemma pair_positions_semicolon_after (t : Token) :
  pair_positions (Some t) (semicolon_after t) = [].
Proof.
  unfold pair_positions, semicolon_after, Token_new, Position.copy. simpl.
  rewrite Z.eqb_refl. reflexivity.
Qed.

Lemma semicolon_after_type (t : Token) : type_ (semicolon_after t) = SEMICOLON.
Proof. reflexivity. Qed.

(** The first loop run over a reconstructed stream finds no position, as
    soon as the set used for the reconstruction contains the positions of
    the original stream.  [prev0] is the token before [l] in the original
    stream, [prev1] the one before it in the reconstructed stream. *)
Lemma insert_positions_reconstruct (s : list Z) :
  forall (l : list Token) (prev0 prev1 : option Token),
    (forall x, In x (insert_positions prev0 l) -> mem_pos x s = true) ->
    ((prev1 = prev0 /\
      forall p, prev0 = Some p -> mem_pos (Position.idx (pos_end p)) s = false)
     \/ exists q, prev1 = Some q /\ type_ q = SEMICOLON) ->
    insert_positions prev1 (reconstruct s l) = [].
Proof.
  induction l as [|cur rest IH]; intros prev0 prev1 Hsub Hprev;
    [reflexivity|].
  assert (Hhead : pair_positions prev1 cur = []).
  { destruct Hprev as [[-> Hout] | [q [-> Hq]]].
    - destruct prev0 as [p|]; [|reflexivity].
      destruct (pair_positions_cases p cur) as [E|E]; [exact E|].
      exfalso. specialize (Hout p eq_refl).
      assert (Hin : mem_pos (Position.idx (pos_end p)) s = true).
      { apply Hsub. cbn [insert_positions]. rewrite E. now left. }
      congruence.
    - now apply pair_positions_after_semicolon. }
  assert (Hrest : forall x, In x (insert_positions (Some cur) rest) ->
                            mem_pos x s = true).
  { intros x Hx. apply Hsub. cbn [insert_positions]. apply in_or_app.
    now right. }
  cbn [reconstruct].
  destruct (mem_pos (Position.idx (pos_end cur)) s) eqn:Hmem.
  - cbn [insert_positions].
    rewrite Hhead, pair_positions_semicolon_after. cbn [app].
    apply (IH (Some cur)); [exact Hrest|].
    right. exists (semicolon_after cur). split; reflexivity.
  - cbn [insert_positions]. rewrite Hhead. cbn [app].
    apply (IH (Some cur)); [exact Hrest|].
    left. split; [reflexivity|]. intros p Hp. now inversion Hp; subst.
Qed.


End SanitizerFacts.
(* ===================================================================== *)
(** * The sanitizer implements the insertion rule on lexed streams *)
(* ===================================================================== *)

Module AsiFacts.
Import Sanitizer AsiSpec SanitizerFacts.

(** Whether the pair [(t, c)] makes the first loop record a position. *)
Definition fires (t c : Token) : bool :=
  match pair_positions (Some t) c with [] => false | _ :: _ => true end.

Lemma pair_positions_fires (t c : Token) :
  pair_positions (Some t) c =
  if fires t c then [Position.idx (pos_end t)] else [].
Proof.
  unfold fires. destruct (pair_positions_cases t c) as [E|E]; now rewrite E.
Qed.

Lemma fires_not_illegal (t c : Token) :
  fires t c = true -> type_ t <> ILLEGAL.
Proof.
  intros H E. unfold fires in H.
  assert (N : pair_positions (Some t) c = []).
  { unfold pair_positions. rewrite E. simpl.
    repeat match goal with |- context [if ?b then _ else _] => destruct b end;
      reflexivity. }
  rewrite N in H. discriminate H.
Qed.

(** Every recorded position is the end of a token that is not ILLEGAL. *)
Lemma insert_positions_origin :
  forall (rest : list Token) (c : Token) (x : Z),
    In x (insert_positions (Some c) rest) ->
    exists p, In p (c :: rest) /\ x = Position.idx (pos_end p)
              /\ type_ p <> ILLEGAL.
Proof.
  induction rest as [|q rest IH]; intros c x Hx; [destruct Hx|].
  cbn [insert_positions] in Hx. apply in_app_or in Hx as [Hx|Hx].
  - rewrite pair_positions_fires in Hx.
    destruct (fires c q) eqn:Hf; [|destruct Hx].
    destruct Hx as [<-|[]]. exists c. split; [now left|].
    split; [reflexivity|]. now apply fires_not_illegal with q.
  - destruct (IH q x Hx) as [p [Hp Hrest]]. exists p. split; [now right|].
    exact Hrest.
Qed.

Lemma starters_agree (ty : TokenType) :
  tt_in ty cur_starters = statement_starter ty.
Proof. destruct ty; reflexivity. Qed.

Lemma after_return_agree (ty : TokenType) :
  tt_in ty after_return = starter_keyword ty.
Proof. destruct ty; reflexivity. Qed.

(** On neighbours whose lines are ordered, the test of the code is the rule
    of the specification, together with the final check when [c] is EOF. *)
Lemma fires_rule (t c : Token) :
  Position.ln (pos_end t) <= Position.ln (pos_start c) ->
  fires t c = asi_rule t c || (tt_eqb (type_ c) EOF && final_rule t).
Proof.
  intros Hle. unfold fires, pair_positions, asi_rule, final_rule.
  rewrite starters_agree, after_return_agree.
  assert (Hlt : negb (Position.ln (pos_end t) =? Position.ln (pos_start c))
                = (Position.ln (pos_end t) <? Position.ln (pos_start c))).
  { destruct (Z.eqb_spec (Position.ln (pos_end t)) (Position.ln (pos_start c)));
      destruct (Z.ltb_spec (Position.ln (pos_end t)) (Position.ln (pos_start c)));
      simpl; try reflexivity; lia. }
  rewrite Hlt.
  destruct (tt_eqb (type_ c) EOF) eqn:Heof.
  - apply tt_eqb_eq in Heof. rewrite Heof. simpl.
    destruct (type_ t); reflexivity.
  - simpl.
    destruct (Position.ln (pos_end t) <? Position.ln (pos_start c)); simpl;
      [|reflexivity].
    destruct (statement_starter (type_ c)), (starter_keyword (type_ c));
      destruct (type_ t); reflexivity.
Qed.

Lemma neighbours_ok_le (t c : Token) :
  neighbours_ok t c = true ->
  Position.ln (pos_end t) <= Position.ln (pos_start c).
Proof.
  unfold neighbours_ok. intros H. apply andb_prop in H as [H _].
  now apply Z.leb_le.
Qed.

(** A firing pair separates the end of [t] from the end of [c]. *)
Lemma fires_strict (t c : Token) :
  neighbours_ok t c = true -> width_ok c = true ->
  Position.idx (pos_end t) <= Position.idx (pos_start c) ->
  fires t c = true ->
  Position.idx (pos_end t) < Position.idx (pos_end c).
Proof.
  intros Hn Hw Hord Hf.
  assert (Hws : Position.idx (pos_start c) <= Position.idx (pos_end c)).
  { unfold width_ok in Hw. apply orb_prop in Hw as [Hw|Hw].
    - apply Z.ltb_lt in Hw. lia.
    - apply andb_prop in Hw as [Hw _]. apply Z.eqb_eq in Hw. lia. }
  destruct (Z.eq_dec (Position.idx (pos_end t)) (Position.idx (pos_start c)))
    as [Heq|Hne]; [|lia].
  (* same byte, hence same line: only the final check can have fired *)
  unfold neighbours_ok in Hn. apply andb_prop in Hn as [_ Hn].
  rewrite (proj2 (Z.eqb_eq _ _) Heq) in Hn. simpl in Hn.
  unfold fires, pair_positions in Hf. rewrite Hn in Hf.
  rewrite andb_false_r in Hf.
  destruct (tt_eqb (type_ c) EOF) eqn:Heof; [|discriminate].
  apply tt_eqb_eq in Heof.
  unfold width_ok in Hw. rewrite Heof in Hw. simpl in Hw.
  rewrite andb_false_r, orb_false_r in Hw. apply Z.ltb_lt in Hw. lia.
Qed.

Lemma width_ok_le (u : Token) :
  width_ok u = true -> Position.idx (pos_start u) <= Position.idx (pos_end u).
Proof.
  unfold width_ok. intros Hw. apply orb_prop in Hw as [Hw|Hw].
  - apply Z.ltb_lt in Hw. lia.
  - apply andb_prop in Hw as [Hw _]. apply Z.eqb_eq in Hw. lia.
Qed.

Lemma width_ok_lt (u : Token) :
  width_ok u = true -> type_ u <> ILLEGAL ->
  Position.idx (pos_start u) < Position.idx (pos_end u).
Proof.
  unfold width_ok. intros Hw Hty. apply orb_prop in Hw as [Hw|Hw].
  - now apply Z.ltb_lt in Hw.
  - apply andb_prop in Hw as [_ Hw]. apply tt_eqb_eq in Hw. contradiction.
Qed.

Lemma mem_pos_app x s1 s2 : mem_pos x (s1 ++ s2) = mem_pos x s1 || mem_pos x s2.
Proof. unfold mem_pos. apply existsb_app. Qed.

Lemma mem_pos_false x s : (forall y, In y s -> y <> x) -> mem_pos x s = false.
Proof.
  intros H. destruct (mem_pos x s) eqn:E; [|reflexivity].
  apply mem_pos_In in E. now destruct (H x E).
Qed.

(** In a stream where EOF is last, the token after [t] is EOF exactly when
    it is the final token. *)
Lemma eof_last_next (t c : Token) (rest : list Token) :
  eof_last (t :: c :: rest) = true ->
  tt_eqb (type_ c) EOF = is_final_eof (c :: rest).
Proof.
  intros H.
  change (eof_last (t :: c :: rest))
    with (negb (tt_eqb (type_ t) EOF) && eof_last (c :: rest)) in H.
  apply andb_prop in H as [_ H].
  destruct rest as [|r rest]; [reflexivity|].
  change (eof_last (c :: r :: rest))
    with (negb (tt_eqb (type_ c) EOF) && eof_last (r :: rest)) in H.
  apply andb_prop in H as [H _]. cbn [is_final_eof].
  now destruct (tt_eqb (type_ c) EOF).
Qed.

(** The reconstruction of a suffix [t :: l] of the stream.  [sb] holds the
    positions recorded before [t]: all of them lie strictly before the end
    of every token still to come. *)
Lemma reconstruct_suffix :
  forall (l : list Token) (t : Token) (sb : list Z),
    eof_last (t :: l) = true ->
    ordered (t :: l) = true ->
    forallb width_ok (t :: l) = true ->
    lines_ok (t :: l) = true ->
    (forall x u, In x sb -> In u (t :: l) -> x < Position.idx (pos_end u)) ->
    reconstruct (sb ++ insert_positions (Some t) l) (t :: l)
    = asi_spec (t :: l).
Proof.
  induction l as [|c rest IH]; intros t sb Heof Hord Hw Hln Hsb.
  - cbn [insert_positions reconstruct asi_spec]. rewrite app_nil_r.
    rewrite mem_pos_false; [reflexivity|].
    intros y Hy E. specialize (Hsb y t Hy (or_introl eq_refl)). lia.
  - (* the hypotheses on the stream, unpacked *)
    pose proof Hord as Hord'.
    change (ordered (t :: c :: rest))
      with (forallb (fun u => Position.idx (pos_end t)
                              <=? Position.idx (pos_start u)) (c :: rest)
            && ordered (c :: rest)) in Hord'.
    apply andb_prop in Hord' as [Htall Hordc].
    rewrite forallb_forall in Htall.
    pose proof Hw as Hw'.
    change (forallb width_ok (t :: c :: rest))
      with (width_ok t && forallb width_ok (c :: rest)) in Hw'.
    apply andb_prop in Hw' as [Hwt Hwc].
    pose proof Hwc as Hwc'. rewrite forallb_forall in Hwc'.
    pose proof Hln as Hln'.
    change (lines_ok (t :: c :: rest))
      with (neighbours_ok t c && lines_ok (c :: rest)) in Hln'.
    apply andb_prop in Hln' as [Hn Hlnc].
    assert (Heofc : eof_last (c :: rest) = true).
    { change (eof_last (t :: c :: rest))
        with (negb (tt_eqb (type_ t) EOF) && eof_last (c :: rest)) in Heof.
      now apply andb_prop in Heof as [_ Heof]. }
    assert (Htc : Position.idx (pos_end t) <= Position.idx (pos_start c)).
    { apply Z.leb_le. apply Htall. now left. }
    (* membership of the end of [t] in the set *)
    assert (Hmem : mem_pos (Position.idx (pos_end t))
                     (sb ++ insert_positions (Some t) (c :: rest))
                   = fires t c).
    { cbn [insert_positions]. rewrite !mem_pos_app.
      rewrite (mem_pos_false _ sb).
      2:{ intros y Hy E. specialize (Hsb y t Hy (or_introl eq_refl)). lia. }
      rewrite (mem_pos_false _ (insert_positions (Some c) rest)).
      2:{ intros y Hy E.
          destruct (insert_positions_origin rest c y Hy) as [p [Hp [-> Hill]]].
          assert (H1 : Position.idx (pos_end t) <= Position.idx (pos_start p)).
          { apply Z.leb_le. now apply Htall. }
          pose proof (width_ok_lt p (Hwc' p Hp) Hill). lia. }
      rewrite pair_positions_fires. rewrite orb_false_r. simpl.
      destruct (fires t c); simpl; [|reflexivity].
      rewrite Z.eqb_refl. reflexivity. }
    (* the tail, by induction *)
    assert (Htail : reconstruct (sb ++ insert_positions (Some t) (c :: rest))
                      (c :: rest) = asi_spec (c :: rest)).
    { cbn [insert_positions]. rewrite app_assoc.
      apply IH; try assumption.
      intros x u Hx Hu. apply in_app_or in Hx as [Hx|Hx].
      - apply Hsb; [exact Hx | now right].
      - rewrite pair_positions_fires in Hx.
        destruct (fires t c) eqn:Hf; [|destruct Hx].
        destruct Hx as [<-|[]].
        assert (Hc : Position.idx (pos_end t) < Position.idx (pos_end c)).
        { apply fires_strict; try assumption. apply Hwc'. now left. }
        destruct Hu as [<-|Hu]; [exact Hc|].
        assert (H1 : Position.idx (pos_end t) <= Position.idx (pos_start u)).
        { apply Z.leb_le. apply Htall. now right. }
        assert (H2 := width_ok_le u (Hwc' u (or_intror Hu))).
        pose proof Hordc as Hordc'.
        change (ordered (c :: rest))
          with (forallb (fun u => Position.idx (pos_end c)
                                  <=? Position.idx (pos_start u)) rest
                && ordered rest) in Hordc'.
        apply andb_prop in Hordc' as [Hcall _].
        rewrite forallb_forall in Hcall.
        assert (H3 := proj1 (Z.leb_le _ _) (Hcall u Hu)).
        assert (H4 := width_ok_le c (Hwc' c (or_introl eq_refl))). lia. }
    change (reconstruct ?s (t :: c :: rest))
      with (if mem_pos (Position.idx (pos_end t)) s
            then t :: semicolon_after t :: reconstruct s (c :: rest)
            else t :: reconstruct s (c :: rest)).
    rewrite Hmem, Htail.
    rewrite (fires_rule t c (neighbours_ok_le t c Hn)).
    rewrite (eof_last_next t c rest Heof).
    reflexivity.
Qed.

(** C5. On a token stream of the shape the lexer produces, [sanitize] is
    the insertion rule: every token is kept in order; a semicolon follows
    [prev] exactly when the next token [cur] is not EOF, [prev] ends on an
    earlier line than [cur] starts and one of the three cases on their kinds
    holds, or when [cur] is the final EOF and [prev] is in the final set;
    nothing else is inserted. *)
Theorem sanitize_is_asi_rule (T : list Token) :
  lexer_shaped T = true -> sanitize T = asi_spec T.
Proof.
  unfold lexer_shaped. intros H.
  apply andb_prop in H as [H Hln]. apply andb_prop in H as [H Hw].
  apply andb_prop in H as [Heof Hord].
  destruct T as [|t l]; [discriminate Heof|].
  unfold sanitize. cbn [insert_positions pair_positions app].
  apply (reconstruct_suffix l t []); try assumption.
  intros x u [].
Qed.

End AsiFacts.
(* ===================================================================== *)
(** * Facts about the decoding of string literals *)
(* ===================================================================== *)

Module EscapesFacts.
Import PyStr Escapes.

(** Each of the ten escape sequences, alone in a literal, is decoded into
    its byte by the code as by the specification. *)
Lemma decode_escapes_single :
  forallb
    (fun c => String.eqb (decode_escapes (str2 backslash c))
                         (decode_spec (str2 backslash c)))
    ["n"; "t"; "r"; backslash; dquote; squote; "0"; "b"; "f"; "v"]%char
  = true.
Proof. vm_compute. reflexivity. Qed.

(** The literal text made of backslash, backslash, [n]. *)
Definition backslash_backslash_n : string :=
  String backslash (String backslash (String "n"%char EmptyString)).

(** C4. On the literal text backslash, backslash, [n] the code stores
    backslash, newline, NUL: the replacement of backslash-n runs over the
    whole text before the one of backslash-backslash and consumes the second
    backslash.  Read escape by escape, the text is backslash, [n], NUL. *)
Theorem decode_escapes_backslash_backslash_n :
  literal_bytes backslash_backslash_n
    = String backslash (String LF (String NUL EmptyString))
  /\ literal_bytes_spec backslash_backslash_n
    = String backslash (String "n"%char (String NUL EmptyString))
  /\ literal_bytes backslash_backslash_n
    <> literal_bytes_spec backslash_backslash_n.
Proof.
  split; [vm_compute; reflexivity|].
  split; [vm_compute; reflexivity|].
  vm_compute. discriminate.
Qed.

(** A terminator is appended exactly when the decoded text does not end
    with NUL already. *)
Lemma null_terminate_ends (s : string) :
  endswith_char (null_terminate s) NUL = true.
Proof.
  unfold null_terminate.
  destruct (endswith_char s NUL) eqn:E; simpl; [exact E|].
  clear E. induction s as [|c s IH]; [reflexivity|].
  simpl. destruct (String.append s (str1 NUL)) eqn:Es; [|exact IH].
  destruct s; discriminate Es.
Qed.

End EscapesFacts.
(* ===================================================================== *)
(** * Facts about the lexer *)
(* ===================================================================== *)

Module LexerFacts.
Import PyStr Lexer.

(** A point that is not the last character of the source: the test of
    [_is_invalid_decimal_point] reaches the unbound name and the loop of
    [tokenize] is left by the exception, whatever follows the point. *)
Lemma decimal_point_raises (fuel : nat) (tokens : list Token) (lx : Lexer.t) :
  current_char lx = Some "."%char ->
  Position.idx (position lx) + 1 < str_len (source_code lx) ->
  tokenize_loop (S fuel) tokens lx
  = Raise (NameError "name 'DIGITS' is not defined") lx.
Proof.
  intros Hc Hlen. cbn [tokenize_loop]. unfold bind at 1, get_state at 1.
  rewrite Hc. unfold bind at 1.
  assert (E : tokenize_step fuel "."%char lx
              = Raise (NameError "name 'DIGITS' is not defined") lx).
  { unfold tokenize_step.
    change (char_in "." WHITESPACE) with false.
    change (Ascii.eqb "." "#") with false.
    change (char_in "." (String.append LETTERS "_")) with false.
    change (char_in "." (String.append DIGITS ".")) with true.
    cbv iota. unfold bind at 1.
    unfold _is_invalid_decimal_point, bind, get_state. rewrite Hc.
    destruct (Z.leb_spec (str_len (source_code lx))
                (Position.idx (position lx) + 1)); [lia|reflexivity]. }
  rewrite E. reflexivity.
Qed.

(** A point that is the last character of the source: a Lexical Error is
    recorded, no token is emitted for it, the cursor moves by one character
    and the loop goes on to EOF. *)
Lemma final_decimal_point :
  match lex "x ." "main.purr" with
  | Ok tokens lx =>
      map type_ tokens = [IDENT; EOF]
      /\ map error_name (errors (error_handler lx)) = ["Lexical Error"%string]
      /\ Position.idx (position lx) = 3
  | _ => False
  end.
Proof. vm_compute. repeat split; reflexivity. Qed.

(** C8. On the source [.x], whose first lexeme begins with a point that no
    digit follows, the lexer records no error and does not go on to EOF: it
    stops with [NameError], the test for the invalid point reading the
    class constant [DIGITS] as a bare name. *)
Theorem lex_point_then_letter_raises :
  exists lx, lex ".x" "main.purr"
             = Raise (NameError "name 'DIGITS' is not defined") lx
             /\ errors (error_handler lx) = [].
Proof. eexists. split; vm_compute; reflexivity. Qed.

(** The tokens of a source of two lines without semicolons. *)
Definition two_lines : list Token :=
  match lex (String.append "x = y" (String.append (str1 LF) "print(x)"))
            "main.purr" with
  | Ok tokens _ => tokens
  | _ => []
  end.

Lemma two_lines_types :
  map type_ two_lines = [IDENT; EQ; IDENT; IDENT; LPAREN; IDENT; RPAREN; EOF].
Proof. vm_compute. reflexivity. Qed.

End LexerFacts.

(** The insertion rule at work on a lexed stream: one semicolon at the line
    break, one before EOF. *)
Lemma sanitize_is_asi_rule_two_lines :
  AsiSpec.lexer_shaped LexerFacts.two_lines = true
  /\ Sanitizer.sanitize LexerFacts.two_lines = AsiSpec.asi_spec LexerFacts.two_lines
  /\ map type_ (Sanitizer.sanitize LexerFacts.two_lines)
     = [IDENT; EQ; IDENT; SEMICOLON; IDENT; LPAREN; IDENT; RPAREN; SEMICOLON; EOF].
Proof.
  split; [vm_compute; reflexivity|].
  split; [apply AsiFacts.sanitize_is_asi_rule; vm_compute; reflexivity|].
  vm_compute. reflexivity.
Defined.
(* ===================================================================== *)
(** * Operator precedence and associativity *)
(* ===================================================================== *)

Module PrecedenceFacts.
Import Parser.

Definition is_atom (ty : TokenType) : bool :=
  tt_in ty [IDENT; INT; FLOAT; STRING; TRUE; FALSE].

Definition is_binop (ty : TokenType) : bool :=
  tt_in ty [PLUS; MINUS; ASTERISK; SLASH; MODULUS; POW;
            EQ_EQ; NOT_EQ; LT; GT; LT_EQ; GT_EQ].

(** The node a prefix parser builds for a literal or an identifier. *)
Definition atom_node (tok : Token) : Expression :=
  match type_ tok with
  | INT => IntegerLiteral (literal tok)
  | FLOAT => FloatLiteral (literal tok)
  | STRING => StringLiteral (literal tok)
  | TRUE | FALSE => BooleanLiteral (lit_is (literal tok) "true")
  | _ => IdentifierLiteral (literal tok)
  end.

(** The precedence at which the right operand of an operator is parsed. *)
Definition right_prec (ty : TokenType) : PrecedenceType :=
  if tt_eqb ty POW then PRODUCT else Precedence.PRECEDENCES ty.

(** Whether the loop of [parse_expression] goes on at the next token. *)
Definition continues (tokens : list Token) (precedence : PrecedenceType)
    (s : t) : bool :=
  match peek_token tokens s with
  | Some pk =>
      negb (tt_eqb (type_ pk) SEMICOLON)
      && (Precedence.value precedence
          <? Precedence.value (Precedence.PRECEDENCES (type_ pk)))
  | None => false
  end.

Section Steps.

Variable tokens : list Token.
Variable pe : PrecedenceType -> M t (option Expression).

Lemma body_atom (f : nat) (precedence : PrecedenceType) (s : t) (a : Token) :
  current_token tokens s = Some a ->
  is_atom (type_ a) = true ->
  parse_expression_body tokens pe f precedence s
  = while_ f (infix_step tokens pe f precedence) (Some (atom_node a)) s.
Proof.
  intros Hc Ha. unfold parse_expression_body, bind at 1, get_state at 1.
  rewrite Hc. unfold atom_node.
  destruct (type_ a) eqn:E; try discriminate Ha; cbn [prefix_parse_fns];
    unfold bind at 1;
    unfold parse_identifier, parse_int_literal, parse_float_literal,
      parse_string_literal, parse_boolean, current_literal, bind, get_state, ret;
    rewrite Hc; reflexivity.
Qed.

Lemma loop_exit (n f : nat) (precedence : PrecedenceType)
    (left_expr : option Expression) (s : t) :
  continues tokens precedence s = false ->
  while_ (S n) (infix_step tokens pe f precedence) left_expr s
  = Ok left_expr s.
Proof.
  intros Hc. cbn [while_]. unfold bind at 1.
  unfold infix_step, bind at 1, get_state at 1.
  unfold continues, peek_precedence in *.
  destruct (peek_token tokens s) as [pk|]; [|reflexivity].
  rewrite Hc. reflexivity.
Qed.

Lemma loop_binop (n f : nat) (precedence : PrecedenceType)
    (left_expr : option Expression) (s : t) (o : Token) :
  peek_token tokens s = Some o ->
  is_binop (type_ o) = true ->
  Precedence.value precedence
    < Precedence.value (Precedence.PRECEDENCES (type_ o)) ->
  while_ (S n) (infix_step tokens pe f precedence) left_expr s
  = bind (pe (right_prec (type_ o)))
      (fun right_node =>
         while_ n (infix_step tokens pe f precedence)
           (Some (InfixExpression left_expr (literal o) right_node)))
      (set_pos (S (S (pos s))) s).
Proof.
  intros Hp Ho Hlt. cbn [while_]. unfold bind at 1.
  unfold infix_step, bind at 1, get_state at 1, peek_precedence.
  rewrite Hp.
  assert (Hsemi : tt_eqb (type_ o) SEMICOLON = false)
    by (destruct (type_ o); try discriminate Ho; reflexivity).
  rewrite Hsemi. apply Z.ltb_lt in Hlt. rewrite Hlt. cbn [negb andb].
  assert (Hfn : infix_parse_fns tokens pe f (type_ o)
                = Some (parse_infix_expression tokens pe))
    by (destruct (type_ o); try discriminate Ho; reflexivity).
  rewrite Hfn.
  assert (Hcur : current_token tokens (set_pos (S (pos s)) s) = Some o)
    by exact Hp.
  unfold bind at 1, advance at 1, modify at 1. unfold bind at 1.
  unfold parse_infix_expression, current_literal, current_precedence,
    current_type.
  unfold bind at 1. unfold bind at 1, get_state at 1. rewrite Hcur.
  unfold ret at 1. unfold bind at 1. unfold bind at 1, get_state at 1.
  rewrite Hcur. unfold ret at 1. unfold bind at 1. unfold bind at 1,
    get_state at 1. rewrite Hcur. unfold ret at 1.
  assert (Hrp : (if tt_eqb (type_ o) POW
                 then match Precedence.of_value
                              (Precedence.value
                                 (Precedence.PRECEDENCES (type_ o)) - 1) with
                      | Some p => ret p
                      | None => raise (ValueError "not a valid PrecedenceType")
                      end
                 else ret (Precedence.PRECEDENCES (type_ o)))
                = (ret (right_prec (type_ o)) : M t PrecedenceType)).
  { unfold right_prec. destruct (type_ o); try discriminate Ho; reflexivity. }
  rewrite Hrp. unfold bind at 1. unfold ret at 1.
  unfold bind at 1, advance at 1, modify at 1.
  unfold set_pos. cbn [pos exceptions error_handler]. unfold bind, ret.
  match goal with |- context [pe ?p ?st] => destruct (pe p st) end;
    reflexivity.
Qed.

End Steps.

Lemma parse_expression_S (tokens : list Token) (f : nat)
    (precedence : PrecedenceType) (s : t) :
  parse_expression tokens (S f) precedence s
  = parse_expression_body tokens (parse_expression tokens f) f precedence s.
Proof. reflexivity. Qed.

(** The token after the expression, if any, does not continue it: it is a
    semicolon or a token without precedence. *)
Definition ends_expression (rest : list Token) : bool :=
  match rest with
  | [] => true
  | r :: _ =>
      tt_eqb (type_ r) SEMICOLON
      || (Precedence.value (Precedence.PRECEDENCES (type_ r)) =? 0)
  end.

(** [a op1 b op2 c] is nested to the left when the first operator binds at
    least as tightly as the second, unless both are [**]. *)
Definition left_nested (op1 op2 : TokenType) : bool :=
  (Precedence.value (Precedence.PRECEDENCES op2)
   <=? Precedence.value (Precedence.PRECEDENCES op1))
  && negb (tt_eqb op1 POW && tt_eqb op2 POW).

Lemma value_nonneg (p : PrecedenceType) : 0 <= Precedence.value p.
Proof. destruct p; simpl; lia. Qed.

Lemma binop_above_lowest (ty : TokenType) :
  is_binop ty = true ->
  Precedence.value LOWEST < Precedence.value (Precedence.PRECEDENCES ty).
Proof. destruct ty; intros H; try discriminate H; simpl; lia. Qed.

Lemma left_nested_right_prec (op1 op2 : TokenType) :
  is_binop op1 = true -> is_binop op2 = true ->
  left_nested op1 op2
  = negb (Precedence.value (right_prec op1)
          <? Precedence.value (Precedence.PRECEDENCES op2)).
Proof.
  intros H1 H2.
  destruct op1; try discriminate H1; destruct op2; try discriminate H2;
    reflexivity.
Qed.

Section TwoOperators.

Variables a o1 b o2 c : Token.
Variable rest : list Token.

Let tokens : list Token := a :: o1 :: b :: o2 :: c :: rest.

Hypothesis Ha : is_atom (type_ a) = true.
Hypothesis Hb : is_atom (type_ b) = true.
Hypothesis Hc : is_atom (type_ c) = true.
Hypothesis Ho1 : is_binop (type_ o1) = true.
Hypothesis Ho2 : is_binop (type_ o2) = true.
Hypothesis Hrest : ends_expression rest = true.

Lemma continues_after_c (precedence : PrecedenceType) (e : list string)
    (h : ErrorHandler) :
  continues tokens precedence (mk 4 e h) = false.
Proof.
  unfold continues, peek_token, tokens. cbn [pos nth_error].
  unfold ends_expression in Hrest.
  destruct rest as [|r rest']; [reflexivity|]. cbn [nth_error].
  apply orb_prop in Hrest as [H|H].
  - rewrite H. reflexivity.
  - apply Z.eqb_eq in H. rewrite H.
    destruct (Z.ltb_spec (Precedence.value precedence) 0);
      [pose proof (value_nonneg precedence); lia|].
    apply andb_false_r.
Qed.

Definition left_tree : Expression :=
  InfixExpression
    (Some (InfixExpression (Some (atom_node a)) (literal o1) (Some (atom_node b))))
    (literal o2) (Some (atom_node c)).

Definition right_tree : Expression :=
  InfixExpression (Some (atom_node a)) (literal o1)
    (Some (InfixExpression (Some (atom_node b)) (literal o2) (Some (atom_node c)))).

Lemma parse_c (n : nat) (precedence : PrecedenceType) (e : list string)
    (h : ErrorHandler) :
  parse_expression tokens (S (S n)) precedence (mk 4 e h)
  = Ok (Some (atom_node c)) (mk 4 e h).
Proof.
  rewrite parse_expression_S.
  rewrite (body_atom tokens _ _ _ _ c); [|reflexivity|exact Hc].
  apply loop_exit. apply continues_after_c.
Qed.

Lemma two_operators_run (n : nat) (e : list string) (h : ErrorHandler) :
  parse_expression tokens (S (S (S (S n)))) LOWEST (mk 0 e h)
  = Ok (Some (if left_nested (type_ o1) (type_ o2)
              then left_tree else right_tree))
       (mk 4 e h).
Proof.
  rewrite (left_nested_right_prec _ _ Ho1 Ho2).
  rewrite parse_expression_S.
  rewrite (body_atom tokens _ _ _ _ a); [|reflexivity|exact Ha].
  rewrite (loop_binop tokens _ _ _ _ _ _ o1);
    [|reflexivity|exact Ho1|exact (binop_above_lowest _ Ho1)].
  unfold bind at 1. unfold set_pos. cbn [pos exceptions error_handler].
  rewrite parse_expression_S.
  rewrite (body_atom tokens _ _ _ _ b); [|reflexivity|exact Hb].
  destruct (Z.ltb_spec (Precedence.value (right_prec (type_ o1)))
              (Precedence.value (Precedence.PRECEDENCES (type_ o2))))
    as [Hlt|Hge]; cbn [negb].
  - (* the second operator binds tighter: it takes [b] *)
    rewrite (loop_binop tokens _ _ _ _ _ _ o2);
      [|reflexivity|exact Ho2|exact Hlt].
    unfold bind at 1. unfold set_pos. cbn [pos exceptions error_handler].
    rewrite parse_c.
    rewrite loop_exit by apply continues_after_c.
    rewrite loop_exit by apply continues_after_c.
    reflexivity.
  - (* the first operator keeps [b] *)
    rewrite loop_exit.
    2:{ unfold continues, peek_token, tokens. cbn [pos nth_error].
        destruct (Z.ltb_spec (Precedence.value (right_prec (type_ o1)))
                    (Precedence.value (Precedence.PRECEDENCES (type_ o2))));
          [lia|]. apply andb_false_r. }
    rewrite (loop_binop tokens _ _ _ _ _ _ o2);
      [|reflexivity|exact Ho2|exact (binop_above_lowest _ Ho2)].
    unfold bind at 1. unfold set_pos. cbn [pos exceptions error_handler].
    rewrite parse_c.
    rewrite loop_exit by apply continues_after_c.
    reflexivity.
Qed.

End TwoOperators.

(** C6. For atoms [a], [b], [c] and binary operators [op1], [op2], the
    tokens [a op1 b op2 c], followed by a token that ends the expression,
    parse to the left-nested tree [(a op1 b) op2 c] exactly when
    [prec op1 >= prec op2] and the operators are not both [**]; otherwise
    to [a op1 (b op2 c)].  In particular [a ** b ** c] is
    [a ** (b ** c)]. *)
Theorem precedence_and_associativity
    (a o1 b o2 c : Token) (rest : list Token) (fuel : nat) (s : t) :
  is_atom (type_ a) = true ->
  is_atom (type_ b) = true ->
  is_atom (type_ c) = true ->
  is_binop (type_ o1) = true ->
  is_binop (type_ o2) = true ->
  ends_expression rest = true ->
  pos s = 0%nat ->
  (4 <= fuel)%nat ->
  parse_expression (a :: o1 :: b :: o2 :: c :: rest) fuel LOWEST s
  = Ok (Some (if left_nested (type_ o1) (type_ o2)
              then left_tree a o1 b o2 c else right_tree a o1 b o2 c))
       (set_pos 4 s)
  /\ (tt_eqb (type_ o1) POW && tt_eqb (type_ o2) POW = true ->
      left_nested (type_ o1) (type_ o2) = false)
  /\ (tt_eqb (type_ o1) POW && tt_eqb (type_ o2) POW = false ->
      left_nested (type_ o1) (type_ o2)
      = (Precedence.value (Precedence.PRECEDENCES (type_ o2))
         <=? Precedence.value (Precedence.PRECEDENCES (type_ o1)))).
Proof.
  intros Ha Hb Hc Ho1 Ho2 Hrest Hpos Hfuel.
  split; [|split].
  - destruct fuel as [|[|[|[|n]]]]; try lia.
    destruct s as [p e h]. cbn [pos] in Hpos. subst p.
    now apply two_operators_run.
  - intros H. unfold left_nested. rewrite H. apply andb_false_r.
  - intros H. unfold left_nested. rewrite H. apply andb_true_r.
Qed.

End PrecedenceFacts.

(** The tokens of [a ** b ** c ;] and of [a - b * c ;]. *)
Definition sample_token (ty : TokenType) (text : string) : Token :=
  Token_new ty (LStr text) (Position.mk 0 1 1 "main.purr" "") None.

Lemma precedence_pow_chain :
  Parser.parse_expression
    [sample_token IDENT "a"; sample_token POW "**"; sample_token IDENT "b";
     sample_token POW "**"; sample_token IDENT "c"; sample_token SEMICOLON ";"]
    4 LOWEST (Parser.new None)
  = Ok (Some (InfixExpression (Some (IdentifierLiteral (LStr "a"))) (LStr "**")
                (Some (InfixExpression (Some (IdentifierLiteral (LStr "b")))
                         (LStr "**") (Some (IdentifierLiteral (LStr "c")))))))
       (Parser.set_pos 4 (Parser.new None)).
Proof.
  exact (proj1 (PrecedenceFacts.precedence_and_associativity
                  (sample_token IDENT "a") (sample_token POW "**")
                  (sample_token IDENT "b") (sample_token POW "**")
                  (sample_token IDENT "c") [sample_token SEMICOLON ";"]
                  4 (Parser.new None)
                  eq_refl eq_refl eq_refl eq_refl eq_refl eq_refl eq_refl
                  (le_n 4))).
Defined.
(* ===================================================================== *)
(** * Totality of the parser: the reasoning principles *)
(* ===================================================================== *)

Module ParserTotality.
Import Parser.

Definition syntax_error (e : Error) : Prop :=
  error_name e = "Syntax Error"%string.

Definition errs (s : t) : list Error := errors (error_handler s).
Definition nerr (s : t) : nat := length (errs s).

Section WithTokens.

Variable tokens : list Token.

(** The token sequence ends in EOF. *)
Hypothesis Hlast :
  exists front e, tokens = front ++ [e] /\ type_ e = EOF.

Local Abbreviation L := (length tokens).
Local Abbreviation cur := (current_token tokens).

Lemma cur_some_lt (s : t) (tok : Token) : cur s = Some tok -> (pos s < L)%nat.
Proof. intros H. apply nth_error_Some. unfold current_token in H. congruence. Qed.

Lemma cur_none_ge (s : t) : cur s = None -> (L <= pos s)%nat.
Proof. intros H. now apply nth_error_None. Qed.

Lemma lt_cur_some (s : t) : (pos s < L)%nat -> exists tok, cur s = Some tok.
Proof.
  intros H. unfold current_token.
  destruct (nth_error tokens (pos s)) eqn:E; [now eexists|].
  apply nth_error_None in E. lia.
Qed.

(** A token that is not of type EOF is not the last one. *)
Lemma not_eof_not_last (p : nat) (tok : Token) :
  nth_error tokens p = Some tok -> type_ tok <> EOF -> (S p < L)%nat.
Proof.
  intros Hn Hty. destruct Hlast as [front [e [Heq He]]].
  assert (Hp : (p < L)%nat) by (apply nth_error_Some; congruence).
  rewrite Heq in *. rewrite length_app in *. cbn [length] in *.
  destruct (Nat.eq_dec p (length front)) as [->|Hne]; [|lia].
  rewrite nth_error_app2 in Hn by lia. rewrite Nat.sub_diag in Hn.
  cbn in Hn. inversion Hn; subst. contradiction.
Qed.

Definition cur_type (s : t) (ty : TokenType) : Prop :=
  exists tok, cur s = Some tok /\ type_ tok = ty.

Definition not_last (s : t) : Prop :=
  exists tok, cur s = Some tok /\ type_ tok <> EOF.

Lemma not_last_peek (s : t) : not_last s -> (S (pos s) < L)%nat.
Proof. intros [tok [Hc Hty]]. now apply not_eof_not_last with tok. Qed.

Lemma cur_type_not_last (s : t) (ty : TokenType) :
  cur_type s ty -> ty <> EOF -> not_last s.
Proof. intros [tok [Hc <-]] Hne. now exists tok. Qed.

(** ** What every parsing method does to the state

    The position never decreases; errors are only added, and only Syntax
    Errors; the parser runs past the last token only after it has recorded
    an error; the log of recoveries grows only when an error has been
    recorded. *)
Record step_rel (s s' : t) : Prop := {
  sr_pos : (pos s <= pos s')%nat;
  sr_errs : exists new, errs s' = errs s ++ new /\ Forall syntax_error new;
  sr_end : (pos s < L)%nat -> (L <= pos s')%nat -> (nerr s < nerr s')%nat;
  sr_log : exceptions s' = exceptions s \/ (nerr s < nerr s')%nat
}.

Lemma sr_nerr (s s' : t) : step_rel s s' -> (nerr s <= nerr s')%nat.
Proof.
  intros [_ [new [E _]] _ _]. unfold nerr. rewrite E, length_app. lia.
Qed.

Lemma step_rel_refl (s : t) : step_rel s s.
Proof.
  constructor; [lia | | intros; lia | now left].
  exists []. now rewrite app_nil_r.
Qed.

Lemma step_rel_trans (s1 s2 s3 : t) :
  step_rel s1 s2 -> step_rel s2 s3 -> step_rel s1 s3.
Proof.
  intros H1 H2. pose proof (sr_nerr _ _ H1) as N1.
  pose proof (sr_nerr _ _ H2) as N2.
  destruct H1 as [P1 [n1 [E1 F1]] End1 Log1].
  destruct H2 as [P2 [n2 [E2 F2]] End2 Log2].
  constructor; [lia | | |].
  - exists (n1 ++ n2). rewrite E2, E1, app_assoc. split; [reflexivity|].
    apply Forall_app. now split.
  - intros Hlt Hge. destruct (Nat.lt_ge_cases (pos s2) L) as [H|H].
    + specialize (End2 H Hge). lia.
    + specialize (End1 Hlt H). lia.
  - destruct Log1 as [Lg1|Lg1]; [|right; lia].
    destruct Log2 as [Lg2|Lg2]; [left; congruence | right; lia].
Qed.

(** A method called in state [s] is [good] when it does not run out of
    fuel, changes the state as above, returns a result that satisfies [Q],
    and, when it raises from a state that has a current token, has recorded
    an error and moved forward. *)
Definition good {A : Type} (s : t) (m : M t A) (Q : A -> t -> Prop) : Prop :=
  match m s with
  | Ok a s' => step_rel s s' /\ Q a s'
  | Raise e s' =>
      step_rel s s' /\ is_Exception e = true
      /\ ((pos s < L)%nat -> (nerr s < nerr s')%nat /\ (pos s < pos s')%nat)
  | OutOfFuel => False
  end.

Lemma good_bind {A B : Type} (s : t) (m : M t A) (k : A -> M t B)
    (Q1 : A -> t -> Prop) (Q2 : B -> t -> Prop) :
  good s m Q1 ->
  (forall a s', step_rel s s' -> Q1 a s' -> good s' (k a) Q2) ->
  good s (bind m k) Q2.
Proof.
  unfold good, bind. intros Hm Hk.
  destruct (m s) as [a s'|e s'|]; [|exact Hm|exact Hm].
  destruct Hm as [Hrel HQ]. specialize (Hk a s' Hrel HQ).
  destruct (k a s') as [b s''|e s''|]; [| |exact Hk].
  - destruct Hk as [Hrel' HQ']. split; [|exact HQ'].
    now apply step_rel_trans with s'.
  - destruct Hk as [Hrel' [He Hk]]. split; [now apply step_rel_trans with s'|].
    split; [exact He|]. intros Hlt.
    destruct (Nat.lt_ge_cases (pos s') L) as [H|H].
    + destruct (Hk H) as [Hn Hp].
      pose proof (sr_pos _ _ Hrel). pose proof (sr_nerr _ _ Hrel). lia.
    + pose proof (sr_end _ _ Hrel Hlt H).
      pose proof (sr_nerr _ _ Hrel'). pose proof (sr_pos _ _ Hrel'). lia.
Qed.

Lemma good_weaken {A : Type} (s : t) (m : M t A) (Q Q' : A -> t -> Prop) :
  good s m Q ->
  (forall a s', step_rel s s' -> Q a s' -> Q' a s') ->
  good s m Q'.
Proof.
  unfold good. intros Hm HQ. destruct (m s) as [a s'|e s'|]; auto.
  destruct Hm as [Hrel Hq]. split; auto.
Qed.

Lemma good_ret {A : Type} (s : t) (a : A) (Q : A -> t -> Prop) :
  Q a s -> good s (ret a) Q.
Proof. intros H. split; [apply step_rel_refl | exact H]. Qed.

Lemma good_get_state {A : Type} (s : t) (k : t -> M t A) (Q : A -> t -> Prop) :
  good s (k s) Q -> good s (bind get_state k) Q.
Proof. intros H. exact H. Qed.

(** Raising for want of a current token is good: nothing was promised. *)
Lemma good_raise_at_end {A : Type} (s : t) (e : PyExn) (Q : A -> t -> Prop) :
  cur s = None -> is_Exception e = true -> good s (raise e) Q.
Proof.
  intros Hc He. split; [apply step_rel_refl|]. split; [exact He|].
  intros Hlt. apply cur_none_ge in Hc. lia.
Qed.

(** ** The primitive operations *)

Lemma step_rel_set_pos (s : t) (p : nat) :
  (pos s <= p)%nat -> ((pos s < L)%nat -> (p < L)%nat) ->
  step_rel s (set_pos p s).
Proof.
  intros Hle Hin. constructor; [exact Hle | | | now left].
  - exists []. cbn. now rewrite app_nil_r.
  - intros Hlt Hge. specialize (Hin Hlt). cbn in Hge. lia.
Qed.

Lemma good_advance (s : t) (Q : unit -> t -> Prop) :
  ((L <= pos s)%nat \/ (S (pos s) < L)%nat) ->
  Q tt (set_pos (S (pos s)) s) ->
  good s advance Q.
Proof.
  intros Hp HQ. split; [|exact HQ].
  apply step_rel_set_pos; [lia|]. intros Hlt. lia.
Qed.

Lemma synchronize_from_ge (rest : list Token) (tys : list TokenType) :
  forall p, (p <= synchronize_from rest tys p)%nat.
Proof.
  induction rest as [|tok rest IH]; intros p; cbn; [lia|].
  destruct (negb (tt_in (type_ tok) tys) && negb (tt_eqb (type_ tok) EOF));
    [|lia].
  specialize (IH (S p)). lia.
Qed.

(** The state [report_error] raises in. *)
Definition reported (s : t) (tok : Token) (message : string) : t :=
  mk (S (synchronize_from (skipn (pos s) tokens) [SEMICOLON] (pos s)))
     (exceptions s)
     (add_error (error_handler s) (pos_start tok) (pos_end tok)
        "Syntax Error" message).

Lemma report_error_some (s : t) (tok : Token) (message : string) :
  report_error tokens (Some tok) message s
  = Raise (PyException message) (reported s tok message).
Proof. reflexivity. Qed.

Lemma step_rel_reported (s : t) (tok : Token) (message : string) :
  step_rel s (reported s tok message)
  /\ (nerr s < nerr (reported s tok message))%nat
  /\ (pos s < pos (reported s tok message))%nat.
Proof.
  pose proof (synchronize_from_ge (skipn (pos s) tokens) [SEMICOLON] (pos s)).
  assert (Hn : nerr (reported s tok message) = S (nerr s)).
  { unfold nerr, errs, reported, add_error. cbn.
    rewrite length_app. cbn. lia. }
  split; [|split]; [|lia|cbn; lia].
  constructor; [cbn; lia | | lia | right; lia].
  eexists. unfold errs, reported, add_error. cbn. split; [reflexivity|].
  constructor; [reflexivity|constructor].
Qed.

Lemma good_report_error_some {A : Type} (s : t) (tok : Token)
    (message : string) (k : Empty_set -> M t A) (Q : A -> t -> Prop) :
  good s (bind (report_error tokens (Some tok) message) k) Q.
Proof.
  unfold good, bind. rewrite report_error_some.
  destruct (step_rel_reported s tok message) as [Hrel [Hn Hp]].
  split; [exact Hrel|]. split; [reflexivity|]. intros _. split; assumption.
Qed.

Lemma good_report_error_none {A : Type} (s : t) (message : string)
    (k : Empty_set -> M t A) (Q : A -> t -> Prop) :
  cur s = None ->
  good s (bind (report_error tokens None message) k) Q.
Proof.
  intros Hc. unfold good, bind. cbn.
  split; [apply step_rel_refl|]. split; [reflexivity|].
  intros Hlt. apply cur_none_ge in Hc. lia.
Qed.

(** Reporting at the current token is good whether there is one or not. *)
Lemma good_report_error_cur {A : Type} (s : t) (message : string)
    (k : Empty_set -> M t A) (Q : A -> t -> Prop) :
  good s (bind (report_error tokens (cur s) message) k) Q.
Proof.
  destruct (cur s) as [tok|] eqn:E.
  - apply good_report_error_some.
  - now apply good_report_error_none.
Qed.

Lemma peek_some_lt (s : t) (tok : Token) :
  peek_token tokens s = Some tok -> (S (pos s) < L)%nat.
Proof. intros H. apply nth_error_Some. unfold peek_token in H. congruence. Qed.

Lemma peek_is_cur (s : t) :
  cur (set_pos (S (pos s)) s) = peek_token tokens s.
Proof. reflexivity. Qed.

(** [expect_token] on the next token: it returns only [True], having moved
    to a token of the expected type. *)
Lemma good_expect_peek (s : t) (ty : TokenType) (message : string)
    (at_current : bool) :
  (at_current = true \/ (L <= pos s)%nat \/ (S (pos s) < L)%nat) ->
  good s (expect_token tokens ty message true false at_current)
    (fun r s' => r = true /\ s' = set_pos (S (pos s)) s /\ cur_type s' ty).
Proof.
  intros Hpre. unfold expect_token. apply good_get_state.
  destruct (peek_token tokens s) as [tok|] eqn:Hpk.
  - destruct (tt_eqb (type_ tok) ty) eqn:Hty.
    + apply tt_eqb_eq in Hty.
      apply good_bind with (Q1 := fun _ s' => s' = set_pos (S (pos s)) s).
      * apply good_advance; [|reflexivity]. right. now apply peek_some_lt with tok.
      * intros _ s' _ ->. apply good_ret.
        split; [reflexivity|]. split; [reflexivity|]. exists tok. now split.
    + destruct at_current.
      * apply good_report_error_cur.
      * apply good_report_error_some.
  - destruct at_current.
    + apply good_report_error_cur.
    + apply good_report_error_none.
      destruct Hpre as [H|[H|H]]; [discriminate H| |].
      * now apply nth_error_None.
      * exfalso. unfold peek_token in Hpk. apply nth_error_None in Hpk. lia.
Qed.

(** [expect_token] on the current token, without advancing. *)
Lemma good_expect_current (s : t) (ty : TokenType) (message : string)
    (at_current : bool) :
  good s (expect_token tokens ty message false true at_current)
    (fun r s' => r = true /\ s' = s /\ cur_type s ty).
Proof.
  unfold expect_token. apply good_get_state.
  destruct (cur s) as [tok|] eqn:Hc.
  - destruct (tt_eqb (type_ tok) ty) eqn:Hty.
    + apply tt_eqb_eq in Hty.
      apply good_bind with (Q1 := fun _ s' => s' = s).
      * now apply good_ret.
      * intros _ s' _ ->. apply good_ret.
        split; [reflexivity|]. split; [reflexivity|]. exists tok. now split.
    + rewrite <- Hc. apply good_report_error_cur.
  - rewrite <- Hc. apply good_report_error_cur.
Qed.

Lemma good_expect_semicolon (s : t) :
  good s (expect_semicolon tokens)
    (fun r s' => r = true /\ s' = set_pos (S (pos s)) s /\ cur_type s' SEMICOLON).
Proof. apply good_expect_peek. now left. Qed.

Lemma good_current_literal (s : t) :
  good s (current_literal tokens)
    (fun l s' => s' = s /\ exists tok, cur s = Some tok /\ l = literal tok).
Proof.
  unfold current_literal. apply good_get_state.
  destruct (cur s) as [tok|] eqn:Hc.
  - apply good_ret. split; [reflexivity|]. now exists tok.
  - now apply good_raise_at_end.
Qed.

Lemma good_current_type (s : t) :
  good s (current_type tokens)
    (fun ty s' => s' = s /\ exists tok, cur s = Some tok /\ ty = type_ tok).
Proof.
  unfold current_type. apply good_get_state.
  destruct (cur s) as [tok|] eqn:Hc.
  - apply good_ret. split; [reflexivity|]. now exists tok.
  - now apply good_raise_at_end.
Qed.

Lemma good_current_precedence (s : t) :
  good s (current_precedence tokens)
    (fun p s' => s' = s /\ exists tok, cur s = Some tok
                           /\ p = Precedence.PRECEDENCES (type_ tok)).
Proof.
  unfold current_precedence. apply good_get_state.
  destruct (cur s) as [tok|] eqn:Hc.
  - apply good_ret. split; [reflexivity|]. now exists tok.
  - now apply good_raise_at_end.
Qed.

(** ** Loops and recovery *)

(** A loop whose iterations keep [I] and move forward ends within the fuel
    that the distance to the end of the tokens requires. *)
Lemma good_while {A B : Type} (I : A -> t -> Prop) (Q : B -> t -> Prop)
    (step : A -> M t (A + B)) :
  (forall a s, I a s ->
     good s (step a)
       (fun r s' =>
          match r with
          | inl a' => I a' s' /\ (pos s < pos s')%nat /\ (pos s < L)%nat
          | inr b => Q b s'
          end)) ->
  forall n a s, I a s -> (L - pos s < n)%nat -> good s (while_ n step a) Q.
Proof.
  intros Hstep. induction n as [|n IH]; intros a s HI Hn; [lia|].
  cbn [while_]. eapply good_bind; [apply Hstep; exact HI|].
  intros [a'|b] s' Hrel HQ; cbn beta iota in HQ.
  - destruct HQ as [HI' [Hp Hl]]. apply IH; [exact HI'|lia].
  - now apply good_ret.
Qed.

(** The state after the handler of a loop has logged the exception. *)
Definition logged (e : PyExn) (s : t) : t :=
  mk (pos s)
     (exceptions s ++ [String.append "Synchronizing after error: " (exn_message e)])
     (error_handler s).

Lemma step_rel_logged (e : PyExn) (s s' : t) :
  step_rel s s' -> (nerr s < nerr s')%nat -> step_rel s (logged e s').
Proof.
  intros [P E End Log] Hn. constructor; [exact P | exact E | | right; exact Hn].
  intros Hlt Hge. exact Hn.
Qed.

(** [try: m except Exception as e: log; continue with r0], entered with a
    current token: nothing escapes, and a caught exception comes with an
    error recorded and a move forward. *)
Lemma good_try {A : Type} (s : t) (m : M t A) (r0 : A)
    (Q1 Q2 : A -> t -> Prop) :
  good s m Q1 ->
  (pos s < L)%nat ->
  (forall a s', step_rel s s' -> Q1 a s' -> Q2 a s') ->
  (forall e s', step_rel s s' -> (nerr s < nerr s')%nat ->
                (pos s < pos s')%nat -> Q2 r0 (logged e s')) ->
  good s (try_except m (fun e => bind (log_exception e) (fun _ => ret r0))) Q2.
Proof.
  unfold good, try_except. intros Hm Hlt Hok Hexn.
  destruct (m s) as [a s'|e s'|]; [| |exact Hm].
  - destruct Hm as [Hrel HQ]. split; [exact Hrel|]. now apply Hok.
  - destruct Hm as [Hrel [He Hgrow]]. rewrite He.
    destruct (Hgrow Hlt) as [Hn Hp]. cbn.
    change (mk (pos s') _ (error_handler s')) with (logged e s').
    split; [|now apply Hexn]. now apply step_rel_logged.
Qed.

(** ** Expressions *)

(** What holds after an expression has been parsed: the current token is
    the last token of the expression, never EOF. *)
Definition after_expression {A : Type} (_ : A) (s : t) : Prop := not_last s.

Lemma advanced_cur_type (s : t) (ty : TokenType) :
  peek_is tokens s ty = true -> cur_type (set_pos (S (pos s)) s) ty.
Proof.
  unfold peek_is, cur_type. rewrite peek_is_cur.
  destruct (peek_token tokens s) as [tok|]; [|discriminate].
  intros H. apply tt_eqb_eq in H. now exists tok.
Qed.

Section Expressions.

Variable pe : PrecedenceType -> M t (option Expression).
Variable p0 : nat.

(** The recursive calls are good from position [p0] on. *)
Hypothesis Hpe :
  forall precedence s, (p0 <= pos s)%nat ->
    good s (pe precedence) after_expression.

Lemma good_atom (s : t) (mk_node : Literal -> Expression) :
  not_last s ->
  good s (l <- current_literal tokens ;; ret (Some (mk_node l)))%monad
    after_expression.
Proof.
  intros Hnl. eapply good_bind; [apply good_current_literal|].
  intros l s' _ [-> _]. now apply good_ret.
Qed.

Lemma good_prefix_expression (s : t) :
  not_last s -> (p0 <= S (pos s))%nat ->
  good s (parse_prefix_expression tokens pe) after_expression.
Proof.
  intros Hnl Hp0. unfold parse_prefix_expression.
  eapply good_bind; [apply good_current_literal|].
  intros op s1 _ [-> _].
  eapply good_bind.
  { apply good_advance with (Q := fun _ s' => s' = set_pos (S (pos s)) s);
      [right; now apply not_last_peek | reflexivity]. }
  intros _ s2 _ ->.
  eapply good_bind; [apply Hpe; exact Hp0|].
  intros right s3 _ Hq. now apply good_ret.
Qed.

Lemma good_grouped_expression (s : t) :
  not_last s -> (p0 <= S (pos s))%nat ->
  good s (parse_grouped_expression tokens pe) after_expression.
Proof.
  intros Hnl Hp0. unfold parse_grouped_expression.
  eapply good_bind.
  { apply good_advance with (Q := fun _ s' => s' = set_pos (S (pos s)) s);
      [right; now apply not_last_peek | reflexivity]. }
  intros _ s2 _ ->.
  eapply good_bind; [apply Hpe; exact Hp0|].
  intros expr s3 _ Hq.
  eapply good_bind; [apply good_expect_peek; now left|].
  intros ok s4 _ [-> [-> Hty]]. cbn [negb].
  apply good_ret. apply cur_type_not_last with RPAREN; [exact Hty|discriminate].
Qed.

Lemma good_infix_expression (s : t) (left_node : option Expression) :
  not_last s -> (p0 <= S (pos s))%nat ->
  good s (parse_infix_expression tokens pe left_node) after_expression.
Proof.
  intros Hnl Hp0. unfold parse_infix_expression.
  eapply good_bind; [apply good_current_literal|].
  intros op s1 _ [-> _].
  eapply good_bind; [apply good_current_precedence|].
  intros prec s1 _ [-> [tok [Hc ->]]].
  eapply good_bind; [apply good_current_type|].
  intros ty s1 _ [-> [tok' [Hc' ->]]].
  assert (tok' = tok) by congruence. subst tok'.
  eapply good_bind with (Q1 := fun _ s' => s' = s).
  { destruct (tt_eqb (type_ tok) POW) eqn:E.
    - apply tt_eqb_eq in E. rewrite E. cbn. now apply good_ret.
    - now apply good_ret. }
  intros prec' s1 _ ->.
  eapply good_bind.
  { apply good_advance with (Q := fun _ s' => s' = set_pos (S (pos s)) s);
      [right; now apply not_last_peek | reflexivity]. }
  intros _ s2 _ ->.
  eapply good_bind; [apply Hpe; exact Hp0|].
  intros right s3 _ Hq. now apply good_ret.
Qed.

Lemma good_expression_list (fuel : nat) (s : t) (ty : TokenType) :
  not_last s -> (p0 <= S (pos s))%nat -> ty <> EOF ->
  (L - pos s <= fuel)%nat ->
  good s (parse_expression_list tokens pe fuel ty) after_expression.
Proof.
  intros Hnl Hp0 Hty Hfuel. unfold parse_expression_list.
  pose proof (not_last_peek s Hnl) as Hpk.
  apply good_get_state.
  destruct (peek_is tokens s ty) eqn:Hend.
  - eapply good_bind.
    { apply good_advance with (Q := fun _ s' => s' = set_pos (S (pos s)) s);
        [now right | reflexivity]. }
    intros _ s2 _ ->. apply good_ret.
    apply cur_type_not_last with ty; [|exact Hty].
    now apply advanced_cur_type.
  - eapply good_bind.
    { apply good_advance with (Q := fun _ s' => s' = set_pos (S (pos s)) s);
        [now right | reflexivity]. }
    intros _ s2 _ ->.
    eapply good_bind; [apply Hpe; exact Hp0|].
    intros first s3 Hrel3 Hq3.
    eapply good_bind with (Q1 := after_expression).
    { apply good_while with
        (I := fun (_ : list (option Expression)) s' =>
                not_last s' /\ (pos s < pos s')%nat).
      - intros args s4 [Hnl4 Hlt4]. apply good_get_state.
        pose proof (not_last_peek s4 Hnl4) as Hpk4.
        destruct (peek_is tokens s4 COMMA) eqn:Hcomma.
        + eapply good_bind.
          { apply good_advance with
              (Q := fun _ s' => s' = set_pos (S (pos s4)) s4);
              [now right | reflexivity]. }
          intros _ s5 _ ->.
          assert (Hnl5 : not_last (set_pos (S (pos s4)) s4)).
          { apply cur_type_not_last with COMMA; [|discriminate].
            now apply advanced_cur_type. }
          eapply good_bind.
          { apply good_advance with
              (Q := fun _ s' => s' = set_pos (S (S (pos s4))) s4);
              [right; exact (not_last_peek _ Hnl5) | reflexivity]. }
          intros _ s6 _ ->.
          eapply good_bind; [apply Hpe; cbn; lia|].
          intros e s7 Hrel7 Hq7. apply good_ret.
          pose proof (sr_pos _ _ Hrel7) as Hp7. cbn in Hp7.
          split; [split; [exact Hq7 | lia] | lia].
        + apply good_ret. exact Hnl4.
      - split; [exact Hq3|]. pose proof (sr_pos _ _ Hrel3) as Hp3.
        cbn in Hp3. lia.
      - pose proof (sr_pos _ _ Hrel3) as Hp3. cbn in Hp3. lia. }
    intros args s8 _ Hq8.
    eapply good_bind; [apply good_expect_peek; now left|].
    intros ok s9 _ [-> [-> Hty9]]. cbn [negb].
    apply good_ret. now apply cur_type_not_last with ty.
Qed.

Lemma good_call_expression (fuel : nat) (s : t)
    (function : option Expression) :
  not_last s -> (p0 <= S (pos s))%nat -> (L - pos s <= fuel)%nat ->
  good s (parse_call_expression tokens pe fuel function) after_expression.
Proof.
  intros Hnl Hp0 Hfuel. unfold parse_call_expression.
  eapply good_bind; [apply good_expression_list; try assumption; discriminate|].
  intros args s1 _ Hq. now apply good_ret.
Qed.

Lemma good_infix_step (fuel : nat) (precedence : PrecedenceType) (s : t)
    (left_expr : option Expression) :
  not_last s -> (p0 <= S (pos s))%nat -> (L - pos s <= fuel)%nat ->
  good s (infix_step tokens pe fuel precedence left_expr)
    (fun r s' =>
       match r with
       | inl _ => not_last s' /\ (pos s < pos s')%nat /\ (pos s < L)%nat
       | inr _ => after_expression left_expr s'
       end).
Proof.
  intros Hnl Hp0 Hfuel. unfold infix_step. apply good_get_state.
  pose proof (not_last_peek s Hnl) as Hpk.
  destruct (peek_token tokens s) as [pk|] eqn:Hpeek;
    [|now apply good_ret].
  destruct (negb (tt_eqb (type_ pk) SEMICOLON)
            && (Precedence.value precedence
                <? Precedence.value (peek_precedence tokens s)));
    [|now apply good_ret].
  assert (Hadv : forall (fn : option Expression -> M t (option Expression)),
            (not_last (set_pos (S (pos s)) s) ->
             good (set_pos (S (pos s)) s) (fn left_expr) after_expression) ->
            type_ pk <> EOF ->
            good s
              (advance ;;; e <- fn left_expr ;; ret (inl e))%monad
              (fun (r : option Expression + option Expression) s' =>
                 match r with
                 | inl _ => not_last s' /\ (pos s < pos s')%nat /\ (pos s < L)%nat
                 | inr _ => after_expression left_expr s'
                 end)).
  { intros fn Hfn Hne.
    eapply good_bind.
    { apply good_advance with (Q := fun _ s' => s' = set_pos (S (pos s)) s);
        [now right | reflexivity]. }
    intros _ s2 _ ->.
    eapply good_bind.
    { apply Hfn. exists pk. split; [exact Hpeek | exact Hne]. }
    intros e s3 Hrel3 Hq3. apply good_ret.
    pose proof (sr_pos _ _ Hrel3) as Hp3. cbn in Hp3.
    split; [exact Hq3 | lia]. }
  destruct (type_ pk) eqn:Ety; cbn [infix_parse_fns];
    try (now apply good_ret);
    apply Hadv; try discriminate; intros Hnl'.
  all: try (apply good_infix_expression; [exact Hnl' | cbn; lia]).
  apply good_call_expression; [exact Hnl' | cbn; lia | cbn; lia].
Qed.

Lemma good_expression_body (fuel : nat) (precedence : PrecedenceType)
    (s : t) :
  (p0 <= S (pos s))%nat -> (L - pos s < fuel)%nat ->
  good s (parse_expression_body tokens pe fuel precedence) after_expression.
Proof.
  intros Hp0 Hfuel. unfold parse_expression_body. apply good_get_state.
  destruct (cur s) as [tok|] eqn:Hc; [|now apply good_raise_at_end].
  assert (Hloop : forall (prefix_fn : M t (option Expression)),
            (not_last s -> good s prefix_fn after_expression) ->
            type_ tok <> EOF ->
            good s
              (left_expr <- prefix_fn ;;
               while_ fuel (infix_step tokens pe fuel precedence) left_expr)%monad
              after_expression).
  { intros prefix_fn Hfn Hne.
    eapply good_bind.
    { apply Hfn. exists tok. now split. }
    intros left_expr s1 Hrel1 Hq1.
    pose proof (sr_pos _ _ Hrel1) as Hp1.
    apply good_while with
      (I := fun (_ : option Expression) s' => not_last s' /\ (pos s <= pos s')%nat).
    - intros a s2 [Hnl2 Hle2].
      eapply good_weaken.
      { apply good_infix_step; [exact Hnl2 | lia | lia]. }
      intros [e|e] s3 Hrel3 Hq3; cbn beta iota in *.
      + pose proof (sr_pos _ _ Hrel3). destruct Hq3 as [H1 [H2 H3]].
        split; [split; [exact H1 | lia] | lia].
      + exact Hq3.
    - split; [exact Hq1 | exact Hp1].
    - lia. }
  destruct (type_ tok) eqn:Ety; cbn [prefix_parse_fns];
    try (rewrite <- Hc; apply good_report_error_cur);
    apply Hloop; try discriminate; intros Hnl.
  all: try (apply good_atom; exact Hnl).
  all: try (apply good_prefix_expression; [exact Hnl | exact Hp0]).
  apply good_grouped_expression; [exact Hnl | exact Hp0].
Qed.

End Expressions.

(** [parse_expression] is good as soon as the fuel exceeds by two the
    number of tokens from the current one on. *)
Lemma good_parse_expression :
  forall (fuel : nat) (precedence : PrecedenceType) (s : t),
    (L - pos s + 1 < fuel)%nat ->
    good s (parse_expression tokens fuel precedence) after_expression.
Proof.
  induction fuel as [|f IH]; intros precedence s Hfuel; [lia|].
  change (parse_expression tokens (S f) precedence)
    with (parse_expression_body tokens (parse_expression tokens f) f precedence).
  destruct (Nat.lt_ge_cases (pos s) L) as [Hlt|Hge].
  - apply good_expression_body with (p0 := S (pos s)); [|lia|lia].
    intros prec s1 Hp. apply IH. lia.
  - unfold parse_expression_body. apply good_get_state.
    assert (Hc : cur s = None) by now apply nth_error_None.
    rewrite Hc. now apply good_raise_at_end.
Qed.

(** ** Simple statements *)

(** What holds after a statement has been parsed: the statement is there
    and the current token is the semicolon or the [end] that closes it. *)
Definition after_statement (r : option Statement) (s : t) : Prop :=
  (exists stmt, r = Some stmt)
  /\ (cur_type s SEMICOLON \/ cur_type s END).

Lemma after_statement_not_last (r : option Statement) (s : t) :
  after_statement r s -> not_last s.
Proof.
  intros [_ [H|H]];
    [apply cur_type_not_last with SEMICOLON | apply cur_type_not_last with END];
    try exact H; discriminate.
Qed.

(** The advance past a token that is not the last. *)
Lemma good_advance_not_last (s : t) :
  not_last s ->
  good s advance (fun _ s' => s' = set_pos (S (pos s)) s).
Proof.
  intros Hnl. apply good_advance; [right; now apply not_last_peek | reflexivity].
Qed.

(** The end of the simple statements: the semicolon, then the node. *)
Lemma good_semicolon_then (s : t) (stmt : Statement) :
  good s
    (ok <- expect_semicolon tokens ;;
     if negb ok then ret None else ret (Some stmt))%monad
    after_statement.
Proof.
  eapply good_bind; [apply good_expect_semicolon|].
  intros ok s1 _ [-> [-> Hty]]. cbn [negb]. apply good_ret.
  split; [now exists stmt | now left].
Qed.

Lemma good_assignment_statement (fuel : nat) (s : t) :
  not_last s ->
  (exists op, peek_token tokens s = Some op /\ type_ op <> EOF) ->
  (L - pos s + 1 < fuel)%nat ->
  good s (parse_assignment_statement tokens fuel) after_statement.
Proof.
  intros Hnl [op [Hop Hne]] Hfuel. unfold parse_assignment_statement.
  eapply good_bind with (Q1 := fun _ s' => s' = s).
  { unfold parse_identifier. eapply good_bind; [apply good_current_literal|].
    intros l s1 _ [-> _]. now apply good_ret. }
  intros ident s1 _ ->.
  eapply good_bind; [now apply good_advance_not_last|].
  intros _ s2 _ ->.
  eapply good_bind; [apply good_current_literal|].
  intros operator s3 _ [-> _].
  eapply good_bind.
  { apply good_advance_not_last. exists op. now split. }
  intros _ s4 _ ->.
  eapply good_bind; [apply good_parse_expression; cbn; lia|].
  intros right_value s5 _ _. apply good_semicolon_then.
Qed.

Lemma good_var_statement (fuel : nat) (s : t) :
  not_last s -> (L - pos s + 1 < fuel)%nat ->
  good s (parse_var_statement tokens fuel) after_statement.
Proof.
  intros Hnl Hfuel. unfold parse_var_statement.
  eapply good_bind.
  { apply good_expect_peek. right. right. now apply not_last_peek. }
  intros ok s1 _ [-> [-> Hty1]]. cbn [negb].
  eapply good_bind; [apply good_current_literal|].
  intros name s1' _ [-> _].
  eapply good_bind.
  { apply good_expect_peek. right. right. apply not_last_peek.
    apply cur_type_not_last with IDENT; [exact Hty1 | discriminate]. }
  intros ok s2 _ [-> [-> Hty2]]. cbn [negb].
  eapply good_bind.
  { apply good_expect_peek. right. right. apply not_last_peek.
    apply cur_type_not_last with COLON; [exact Hty2 | discriminate]. }
  intros ok s3 _ [-> [-> Hty3]]. cbn [negb].
  eapply good_bind; [apply good_current_literal|].
  intros value_type s3' _ [-> _].
  apply good_get_state.
  match goal with |- context [peek_is tokens ?st SEMICOLON] => set (s3 := st) in * end.
  assert (Hnl3 : not_last s3)
    by (apply cur_type_not_last with TYPE; [exact Hty3 | discriminate]).
  destruct (peek_is tokens s3 SEMICOLON) eqn:Hsemi.
  - eapply good_bind; [now apply good_advance_not_last|].
    intros _ s4 _ ->. apply good_ret.
    split; [now eexists | left; now apply advanced_cur_type].
  - eapply good_bind.
    { apply good_expect_peek. right. right. now apply not_last_peek. }
    intros ok s4 _ [-> [-> Hty4]]. cbn [negb].
    eapply good_bind.
    { apply good_advance_not_last.
      apply cur_type_not_last with EQ; [exact Hty4 | discriminate]. }
    intros _ s5 _ ->.
    eapply good_bind; [apply good_parse_expression; unfold s3; cbn; lia|].
    intros value s6 _ _. apply good_semicolon_then.
Qed.

Lemma good_break_statement (s : t) :
  good s (parse_break_statement tokens) after_statement.
Proof. apply good_semicolon_then. Qed.

Lemma good_continue_statement (s : t) :
  good s (parse_continue_statement tokens) after_statement.
Proof. apply good_semicolon_then. Qed.

Lemma good_import_statement (s : t) :
  not_last s ->
  good s (parse_import_statement tokens) after_statement.
Proof.
  intros Hnl. unfold parse_import_statement.
  eapply good_bind.
  { apply good_expect_peek. right. right. now apply not_last_peek. }
  intros ok s1 _ [-> [-> Hty1]]. cbn [negb].
  eapply good_bind; [apply good_current_literal|].
  intros file_path s1' _ [-> _]. apply good_semicolon_then.
Qed.

Lemma good_return_statement (fuel : nat) (s : t) :
  not_last s -> (L - pos s + 1 < fuel)%nat ->
  good s (parse_return_statement tokens fuel) after_statement.
Proof.
  intros Hnl Hfuel. unfold parse_return_statement.
  eapply good_bind; [now apply good_advance_not_last|].
  intros _ s1 _ ->.
  eapply good_bind; [apply good_parse_expression; cbn; lia|].
  intros return_value s2 _ _. apply good_semicolon_then.
Qed.

Lemma good_expression_statement (fuel : nat) (s : t) :
  (L - pos s + 1 < fuel)%nat ->
  good s (parse_expression_statement tokens fuel) after_statement.
Proof.
  intros Hfuel. unfold parse_expression_statement.
  eapply good_bind; [now apply good_parse_expression|].
  intros expr s1 _ _. apply good_semicolon_then.
Qed.

(** ** Functions, blocks, [if] and [while] *)

Lemma good_parameter (s : t) (message : string) :
  good s (parse_parameter tokens message)
    (fun r s' => (exists p, r = Some p) /\ not_last s' /\ (pos s < pos s')%nat).
Proof.
  unfold parse_parameter.
  eapply good_bind; [apply good_expect_peek; now left|].
  intros ok s1 _ [-> [-> Hty1]]. cbn [negb].
  eapply good_bind; [apply good_current_literal|].
  intros name s1' _ [-> _].
  eapply good_bind; [apply good_expect_peek; now left|].
  intros ok s2 _ [-> [-> Hty2]]. cbn [negb].
  eapply good_bind; [apply good_expect_peek; now left|].
  intros ok s3 _ [-> [-> Hty3]]. cbn [negb].
  eapply good_bind; [apply good_current_literal|].
  intros value_type s3' _ [-> _]. apply good_ret.
  split; [now eexists|]. split; [|cbn; lia].
  apply cur_type_not_last with TYPE; [exact Hty3 | discriminate].
Qed.

Lemma good_function_parameters (fuel : nat) (s : t) :
  not_last s -> (L - pos s <= fuel)%nat ->
  good s (parse_function_parameters tokens fuel) (fun _ s' => not_last s').
Proof.
  intros Hnl Hfuel. unfold parse_function_parameters. apply good_get_state.
  pose proof (not_last_peek s Hnl) as Hpk.
  destruct (peek_is tokens s RPAREN) eqn:Hend.
  - eapply good_bind; [now apply good_advance_not_last|].
    intros _ s1 _ ->. apply good_ret.
    apply cur_type_not_last with RPAREN; [|discriminate].
    now apply advanced_cur_type.
  - eapply good_bind; [apply good_parameter|].
    intros first s1 Hrel1 [[p ->] [Hnl1 Hlt1]].
    eapply good_bind with
      (Q1 := fun r s' => (exists params, r = Some params) /\ not_last s').
    { apply good_while with
        (I := fun (_ : list FunctionParameter) s' =>
                not_last s' /\ (pos s < pos s')%nat).
      - intros params s2 [Hnl2 Hlt2]. apply good_get_state.
        destruct (peek_is tokens s2 COMMA) eqn:Hcomma.
        + eapply good_bind; [now apply good_advance_not_last|].
          intros _ s3 _ ->.
          eapply good_bind; [apply good_parameter|].
          intros r s4 Hrel4 [[param ->] [Hnl4 Hlt4]]. apply good_ret.
          cbn in Hlt4. pose proof (not_last_peek s2 Hnl2).
          split; [split; [exact Hnl4 | lia] | lia].
        + apply good_ret. split; [now eexists | exact Hnl2].
      - now split.
      - lia. }
    intros r s5 _ [[params ->] Hnl5].
    eapply good_bind; [apply good_expect_peek; now left|].
    intros ok s6 _ [-> [-> Hty6]]. cbn [negb]. apply good_ret.
    apply cur_type_not_last with RPAREN; [exact Hty6 | discriminate].
Qed.

Section Statements.

Variable ps : M t (option Statement).
Variable pif : M t (option Statement).
Variable p0 : nat.

(** The recursive calls are good from position [p0] on; the one of
    [parse_if_statement] is made on [if] or [elif]. *)
Hypothesis Hps :
  forall s, (p0 <= pos s)%nat -> good s ps after_statement.
Hypothesis Hpif :
  forall s, (p0 <= pos s)%nat -> not_last s -> good s pif after_statement.

Lemma good_block_step (stops : list TokenType)
    (body : list (option Statement)) (s : t) :
  (p0 <= pos s)%nat ->
  good s (block_step tokens ps stops body)
    (fun r s' =>
       match r with
       | inl _ => (p0 <= pos s')%nat /\ (pos s < pos s')%nat /\ (pos s < L)%nat
       | inr _ => (p0 <= pos s')%nat
       end).
Proof.
  intros Hp0. unfold block_step. apply good_get_state.
  destruct (cur s) as [tok|] eqn:Hc; [|now apply good_ret].
  destruct (negb (tt_in (type_ tok) stops)); [|now apply good_ret].
  pose proof (cur_some_lt s tok Hc) as Hlt.
  eapply good_try with
    (Q1 := fun (r : list (option Statement) + list (option Statement)) s' =>
             (exists b, r = inl b) /\ (pos s < pos s')%nat).
  - eapply good_bind; [apply Hps; exact Hp0|].
    intros stmt s1 Hrel1 Hq1.
    eapply good_bind.
    { apply good_advance_not_last. now apply after_statement_not_last with stmt. }
    intros _ s2 _ ->. apply good_ret.
    pose proof (sr_pos _ _ Hrel1). split; [now eexists | cbn; lia].
  - exact Hlt.
  - intros r s1 Hrel1 [[b ->] Hp]. lia.
  - intros e s1 Hrel1 Hn Hp. cbn. lia.
Qed.

Lemma good_block (fuel : nat) (stops : list TokenType) (s : t) :
  (p0 <= pos s)%nat -> (L - pos s < fuel)%nat ->
  good s (parse_block tokens ps fuel stops) (fun _ s' => (p0 <= pos s')%nat).
Proof.
  intros Hp0 Hfuel. unfold parse_block.
  apply good_while with
    (I := fun (_ : list (option Statement)) s' => (p0 <= pos s')%nat);
    [|exact Hp0|exact Hfuel].
  intros body s1 Hp1.
  eapply good_weaken; [now apply good_block_step|].
  intros [b|b] s2 _ H; cbn beta iota in *; [|exact H]. lia.
Qed.

Lemma good_function_body_step (body : list (option Statement)) (s : t) :
  (p0 <= pos s)%nat ->
  good s (function_body_step tokens ps body)
    (fun r s' =>
       match r with
       | inl _ => (p0 <= pos s')%nat /\ (pos s < pos s')%nat /\ (pos s < L)%nat
       | inr _ => (p0 <= pos s')%nat
       end).
Proof.
  intros Hp0. unfold function_body_step. apply good_get_state.
  destruct (cur s) as [tok|] eqn:Hc; [|now apply good_ret].
  destruct (negb (tt_eqb (type_ tok) END) && negb (tt_eqb (type_ tok) EOF));
    [|now apply good_ret].
  pose proof (cur_some_lt s tok Hc) as Hlt.
  eapply good_try with
    (Q1 := fun (r : list (option Statement) + list (option Statement)) s' =>
             (exists b, r = inl b) /\ (pos s < pos s')%nat).
  - eapply good_bind; [apply Hps; exact Hp0|].
    intros stmt s1 Hrel1 Hq1.
    eapply good_bind.
    { apply good_advance_not_last. now apply after_statement_not_last with stmt. }
    intros _ s2 _ ->. apply good_ret.
    pose proof (sr_pos _ _ Hrel1). split; [now eexists | cbn; lia].
  - exact Hlt.
  - intros r s1 Hrel1 [[b ->] Hp]. lia.
  - intros e s1 Hrel1 Hn Hp. cbn. lia.
Qed.

Lemma good_if_statement_body (fuel : nat) (s : t) :
  not_last s -> (p0 <= S (pos s))%nat -> (L - pos s + 1 < fuel)%nat ->
  good s (parse_if_statement_body tokens ps pif fuel) after_statement.
Proof.
  intros Hnl Hp0 Hfuel. unfold parse_if_statement_body.
  eapply good_bind; [now apply good_advance_not_last|].
  intros _ s1 _ ->.
  eapply good_bind; [apply good_parse_expression; cbn; lia|].
  intros condition s2 Hrel2 Hnl2.
  pose proof (sr_pos _ _ Hrel2) as Hp2. cbn in Hp2.
  eapply good_bind.
  { apply good_expect_peek. right. right. now apply not_last_peek. }
  intros ok s3 _ [-> [-> Hty3]]. cbn [negb].
  eapply good_bind.
  { apply good_advance_not_last.
    apply cur_type_not_last with COLON; [exact Hty3 | discriminate]. }
  intros _ s4 _ ->.
  eapply good_bind; [apply good_block; cbn; lia|].
  intros body s5 Hrel5 Hp5. cbn beta in Hp5.
  pose proof (sr_pos _ _ Hrel5) as Hp5'. cbn in Hp5'.
  apply good_get_state.
  eapply good_bind with
    (Q1 := fun r s' => exists else_body, r = Some else_body).
  { destruct (cur s5) as [tok|] eqn:Hc5; [|apply good_ret; now eexists].
    destruct (tt_eqb (type_ tok) ELIF) eqn:Helif.
    - apply tt_eqb_eq in Helif.
      eapply good_bind.
      { apply Hpif; [exact Hp5|]. exists tok. split; [exact Hc5|].
        rewrite Helif. discriminate. }
      intros nested s6 _ _. apply good_ret. now eexists.
    - destruct (tt_eqb (type_ tok) ELSE) eqn:Helse;
        [|apply good_ret; now eexists].
      apply tt_eqb_eq in Helse.
      assert (Hnl5 : not_last s5).
      { exists tok. split; [exact Hc5|]. rewrite Helse. discriminate. }
      eapply good_bind.
      { apply good_expect_peek. right. right. now apply not_last_peek. }
      intros ok s6 _ [-> [-> Hty6]]. cbn [negb].
      eapply good_bind.
      { apply good_advance_not_last.
        apply cur_type_not_last with COLON; [exact Hty6 | discriminate]. }
      intros _ s7 _ ->.
      eapply good_bind; [apply good_block; cbn; lia|].
      intros else_body s8 _ _. apply good_ret. now eexists. }
  intros else_part s9 _ [else_body ->].
  eapply good_bind; [apply good_expect_current|].
  intros ok s10 _ [-> [-> Hty10]]. cbn [negb]. apply good_ret.
  split; [now eexists | now right].
Qed.

Lemma good_while_statement (fuel : nat) (s : t) :
  not_last s -> (p0 <= S (pos s))%nat -> (L - pos s + 1 < fuel)%nat ->
  good s (parse_while_statement tokens ps fuel) after_statement.
Proof.
  intros Hnl Hp0 Hfuel. unfold parse_while_statement.
  eapply good_bind; [now apply good_advance_not_last|].
  intros _ s1 _ ->.
  eapply good_bind; [apply good_parse_expression; cbn; lia|].
  intros condition s2 Hrel2 Hnl2.
  pose proof (sr_pos _ _ Hrel2) as Hp2. cbn in Hp2.
  eapply good_bind.
  { apply good_expect_peek. right. right. now apply not_last_peek. }
  intros ok s3 _ [-> [-> Hty3]]. cbn [negb].
  eapply good_bind.
  { apply good_advance_not_last.
    apply cur_type_not_last with COLON; [exact Hty3 | discriminate]. }
  intros _ s4 _ ->.
  eapply good_bind; [apply good_block; cbn; lia|].
  intros body s5 _ _.
  eapply good_bind; [apply good_expect_current|].
  intros ok s6 _ [-> [-> Hty6]]. cbn [negb]. apply good_ret.
  split; [now eexists | now right].
Qed.

Lemma good_function_statement (fuel : nat) (s : t) :
  (p0 <= S (pos s))%nat -> (L - pos s + 1 < fuel)%nat ->
  good s (parse_function_statement tokens ps fuel) after_statement.
Proof.
  intros Hp0 Hfuel. unfold parse_function_statement.
  eapply good_bind; [apply good_expect_peek; now left|].
  intros ok s1 _ [-> [-> Hty1]]. cbn [negb].
  eapply good_bind; [apply good_current_literal|].
  intros name s1' _ [-> _].
  eapply good_bind; [apply good_expect_peek; now left|].
  intros ok s2 _ [-> [-> Hty2]]. cbn [negb].
  eapply good_bind.
  { apply good_function_parameters; [|cbn; lia].
    apply cur_type_not_last with LPAREN; [exact Hty2 | discriminate]. }
  intros parameters s3 Hrel3 Hnl3.
  pose proof (sr_pos _ _ Hrel3) as Hp3. cbn in Hp3.
  eapply good_bind; [apply good_expect_peek; now left|].
  intros ok s4 _ [-> [-> Hty4]]. cbn [negb].
  eapply good_bind; [apply good_expect_peek; now left|].
  intros ok s5 _ [-> [-> Hty5]]. cbn [negb].
  eapply good_bind; [apply good_current_literal|].
  intros return_type s5' _ [-> _].
  eapply good_bind; [apply good_expect_peek; now left|].
  intros ok s6 _ [-> [-> Hty6]]. cbn [negb].
  eapply good_bind.
  { apply good_advance_not_last.
    apply cur_type_not_last with COLON; [exact Hty6 | discriminate]. }
  intros _ s7 _ ->.
  eapply good_bind with (Q1 := fun _ _ => True).
  { apply good_while with
      (I := fun (_ : list (option Statement)) s' => (p0 <= pos s')%nat);
      [| cbn; lia | cbn; lia].
    intros body s8 Hp8.
    eapply good_weaken; [now apply good_function_body_step|].
    intros [b|b] s9 _ H; cbn beta iota in *; [exact H | exact I]. }
  intros body s10 _ _.
  eapply good_bind; [apply good_expect_current|].
  intros ok s11 _ [-> [-> Hty11]]. cbn [negb]. apply good_ret.
  split; [now eexists | now right].
Qed.

Lemma good_statement_body (fuel : nat) (s : t) :
  (p0 <= S (pos s))%nat ->
  (forall s', pos s' = pos s -> not_last s' -> good s' pif after_statement) ->
  (L - pos s + 1 < fuel)%nat ->
  good s (parse_statement_body tokens ps pif fuel) after_statement.
Proof.
  intros Hp0 Hif Hfuel. unfold parse_statement_body. apply good_get_state.
  destruct (cur s) as [tok|] eqn:Hc; [|now apply good_raise_at_end].
  destruct (tt_eqb (type_ tok) IDENT && peek_token_is_assignment tokens s)
    eqn:Hassign.
  - apply andb_prop in Hassign as [Hid Hpk]. apply tt_eqb_eq in Hid.
    apply good_assignment_statement; [| |exact Hfuel].
    + exists tok. split; [exact Hc|]. rewrite Hid. discriminate.
    + unfold peek_token_is_assignment in Hpk.
      destruct (peek_token tokens s) as [op|]; [|discriminate].
      exists op. split; [reflexivity|]. intros E. rewrite E in Hpk.
      discriminate.
  - assert (Hnl : type_ tok <> EOF -> not_last s)
      by (intros Hne; exists tok; now split).
    destruct (type_ tok) eqn:Ety;
      try (now apply good_expression_statement).
    + apply good_var_statement; [apply Hnl; discriminate | exact Hfuel].
    + now apply good_function_statement.
    + apply good_return_statement; [apply Hnl; discriminate | exact Hfuel].
    + apply Hif; [reflexivity | apply Hnl; discriminate].
    + apply good_while_statement;
        [apply Hnl; discriminate | exact Hp0 | exact Hfuel].
    + apply good_continue_statement.
    + apply good_break_statement.
    + apply good_import_statement. apply Hnl. discriminate.
Qed.

End Statements.

(** ** The statement parser and the program *)

Lemma good_parse_statements :
  forall fuel : nat,
    (forall s, (2 * (L - pos s) + 3 < fuel)%nat ->
               good s (parse_statement tokens fuel) after_statement)
    /\ (forall s, not_last s -> (2 * (L - pos s) + 2 < fuel)%nat ->
                  good s (parse_if_statement tokens fuel) after_statement).
Proof.
  induction fuel as [|f [IHs IHif]]; [split; intros; lia|].
  split.
  - intros s Hfuel.
    change (parse_statement tokens (S f))
      with (parse_statement_body tokens (parse_statement tokens f)
              (parse_if_statement tokens f) f).
    destruct (Nat.lt_ge_cases (pos s) L) as [Hlt|Hge].
    + apply good_statement_body with (p0 := S (pos s)); [|lia| |lia].
      * intros s1 Hp1. apply IHs. lia.
      * intros s1 Hp1 Hnl1. apply IHif; [exact Hnl1 | lia].
    + unfold parse_statement_body. apply good_get_state.
      assert (Hc : cur s = None) by now apply nth_error_None.
      rewrite Hc. now apply good_raise_at_end.
  - intros s Hnl Hfuel.
    change (parse_if_statement tokens (S f))
      with (parse_if_statement_body tokens (parse_statement tokens f)
              (parse_if_statement tokens f) f).
    pose proof (not_last_peek s Hnl) as Hpk.
    apply good_if_statement_body with (p0 := S (pos s)); [| |exact Hnl|lia|lia].
    + intros s1 Hp1. apply IHs. lia.
    + intros s1 Hp1 Hnl1. apply IHif; [exact Hnl1 | lia].
Qed.

(** A computation is [total] when, moreover, it does not raise. *)
Definition total {A : Type} (s : t) (m : M t A) (Q : A -> t -> Prop) : Prop :=
  match m s with
  | Ok a s' => step_rel s s' /\ Q a s'
  | _ => False
  end.

Lemma total_bind {A B : Type} (s : t) (m : M t A) (k : A -> M t B)
    (Q1 : A -> t -> Prop) (Q2 : B -> t -> Prop) :
  total s m Q1 ->
  (forall a s', step_rel s s' -> Q1 a s' -> total s' (k a) Q2) ->
  total s (bind m k) Q2.
Proof.
  unfold total, bind. intros Hm Hk.
  destruct (m s) as [a s'|e s'|]; [|exact Hm|exact Hm].
  destruct Hm as [Hrel HQ]. specialize (Hk a s' Hrel HQ).
  destruct (k a s') as [b s''|e s''|]; [|exact Hk|exact Hk].
  destruct Hk as [Hrel' HQ']. split; [|exact HQ'].
  now apply step_rel_trans with s'.
Qed.

Lemma total_ret {A : Type} (s : t) (a : A) (Q : A -> t -> Prop) :
  Q a s -> total s (ret a) Q.
Proof. intros H. split; [apply step_rel_refl | exact H]. Qed.

Lemma total_try {A : Type} (s : t) (m : M t A) (r0 : A)
    (Q1 Q2 : A -> t -> Prop) :
  good s m Q1 ->
  (pos s < L)%nat ->
  (forall a s', step_rel s s' -> Q1 a s' -> Q2 a s') ->
  (forall e s', step_rel s s' -> (nerr s < nerr s')%nat ->
                (pos s < pos s')%nat -> Q2 r0 (logged e s')) ->
  total s (try_except m (fun e => bind (log_exception e) (fun _ => ret r0))) Q2.
Proof.
  intros Hm Hlt Hok Hexn.
  pose proof (good_try s m r0 Q1 Q2 Hm Hlt Hok Hexn) as G.
  unfold good, total, try_except in *.
  destruct (m s) as [a s'|e s'|]; [exact G| |exact G].
  destruct Hm as [_ [He _]]. rewrite He in *. exact G.
Qed.

Lemma total_while {A B : Type} (I : A -> t -> Prop) (Q : B -> t -> Prop)
    (step : A -> M t (A + B)) :
  (forall a s, I a s ->
     total s (step a)
       (fun r s' =>
          match r with
          | inl a' => I a' s' /\ (pos s < pos s')%nat /\ (pos s < L)%nat
          | inr b => Q b s'
          end)) ->
  forall n a s, I a s -> (L - pos s < n)%nat -> total s (while_ n step a) Q.
Proof.
  intros Hstep. induction n as [|n IH]; intros a s HI Hn; [lia|].
  cbn [while_]. eapply total_bind; [apply Hstep; exact HI|].
  intros [a'|b] s' Hrel HQ; cbn beta iota in HQ.
  - destruct HQ as [HI' [Hp Hl]]. apply IH; [exact HI'|lia].
  - now apply total_ret.
Qed.

Lemma total_program_step (fuel : nat) (stmts : list Statement) (s : t) :
  (2 * L + 3 < fuel)%nat ->
  total s (program_step tokens fuel stmts)
    (fun r s' =>
       match r with
       | inl _ => True /\ (pos s < pos s')%nat /\ (pos s < L)%nat
       | inr _ => True
       end).
Proof.
  intros Hfuel.
  change (total s (program_step tokens fuel stmts) ?Q)
    with (total s
            (match cur s with
             | Some tok =>
                 if negb (tt_eqb (type_ tok) EOF) then
                   try_except
                     (stmt <- parse_statement tokens fuel ;;
                      let stmts := match stmt with
                                   | Some st => stmts ++ [st]
                                   | None => stmts
                                   end in
                      advance ;;;
                      ret (inl stmts))%monad
                     (fun e => log_exception e ;;; ret (inl stmts))%monad
                 else ret (inr stmts)
             | None => ret (inr stmts)
             end) Q).
  destruct (cur s) as [tok|] eqn:Hc; [|now apply total_ret].
  destruct (negb (tt_eqb (type_ tok) EOF)); [|now apply total_ret].
  pose proof (cur_some_lt s tok Hc) as Hlt.
  eapply total_try with
    (Q1 := fun (r : list Statement + list Statement) s' =>
             (exists b, r = inl b) /\ (pos s < pos s')%nat).
  - eapply good_bind.
    { apply (proj1 (good_parse_statements fuel)). lia. }
    intros stmt s1 Hrel1 Hq1.
    eapply good_bind.
    { apply good_advance_not_last. now apply after_statement_not_last with stmt. }
    intros _ s2 _ ->. apply good_ret.
    pose proof (sr_pos _ _ Hrel1). split; [now eexists | cbn; lia].
  - exact Hlt.
  - intros r s1 Hrel1 [[b ->] Hp]. auto.
  - intros e s1 Hrel1 Hn Hp. cbn. auto.
Qed.

Lemma total_parse_program (fuel : nat) (s : t) :
  (2 * L + 3 < fuel)%nat ->
  total s (parse_program tokens fuel) (fun _ _ => True).
Proof.
  intros Hfuel. unfold parse_program.
  eapply total_bind with (Q1 := fun _ _ => True).
  - apply total_while with (I := fun _ _ => True); [|exact I|lia].
    intros stmts s1 _. now apply total_program_step.
  - intros stmts s1 _ _. now apply total_ret.
Qed.

(* @@END@@ *)
End WithTokens.

(** The token sequence ends in EOF. *)
Definition ends_in_eof (tokens : list Token) : Prop :=
  exists front e, tokens = front ++ [e] /\ type_ e = EOF.

End ParserTotality.

(** The tokens of a program whose first statement is malformed:
    [var x: int = ;] then [var y: int = 7;]. *)
Definition recovery_tokens : list Token :=
  match Lexer.lex
          (String.append "var x: int = ;"
             (String.append (PyStr.str1 PyStr.LF) "var y: int = 7;"))
          "main.purr" with
  | Ok tokens _ => Sanitizer.sanitize tokens
  | _ => []
  end.

Lemma recovery_run :
  match Parser.parse 40 recovery_tokens with
  | Ok program s' =>
      length (statements program) = 1%nat
      /\ map details (ParserTotality.errs s')
         = ["Expected expression, got TokenType.SEMICOLON"%string]
      /\ length (Parser.exceptions s') = 1%nat
  | _ => False
  end.
Proof. vm_compute. repeat split; reflexivity. Qed.

(* ===================================================================== *)
(** * Facts about the lowering *)
(* ===================================================================== *)

Module CompilerFacts.
Import IR Compiler.

(** ** Equality of types *)

Fixpoint IRType_eqb_sound (a b : IRType) {struct a} :
  IRType_eqb a b = true -> a = b.
Proof.
  destruct a as [m| | |x|x m|r xs v]; destruct b as [n| | |y|y n|r' ys v'];
    cbn [IRType_eqb]; intros H; try discriminate H; try reflexivity.
  - apply Z.eqb_eq in H. now subst.
  - now rewrite (IRType_eqb_sound x y H).
  - apply andb_prop in H as [H1 H2]. apply Z.eqb_eq in H2.
    now rewrite (IRType_eqb_sound x y H1), H2.
  - apply andb_prop in H as [H Hv]. apply andb_prop in H as [Hr Hargs].
    apply Bool.eqb_prop in Hv. rewrite (IRType_eqb_sound r r' Hr), Hv.
    f_equal. clear Hr Hv. revert ys Hargs.
    induction xs as [|x xs IH]; intros [|y ys] Hargs;
      try discriminate Hargs; [reflexivity|].
    apply andb_prop in Hargs as [Hx Hrest].
    now rewrite (IRType_eqb_sound x y Hx), (IH ys Hrest).
Qed.

(** ** Inversion of sequenced computations *)

Lemma bind_ok {S A B : Type} (m : M S A) (k : A -> M S B) (s s' : S) (b : B) :
  bind m k s = Ok b s' ->
  exists a s1, m s = Ok a s1 /\ k a s1 = Ok b s'.
Proof.
  unfold bind. destruct (m s) as [a s1|e s1|]; try discriminate.
  intros H. now exists a, s1.
Qed.

Lemma builder_ok {A : Type} (m : M Builder A) (c c' : t) (a : A) :
  builder m c = Ok a c' ->
  exists b, m (ir c) = Ok a b /\ c' = set_ir b c.
Proof.
  unfold builder. destruct (m (ir c)) as [x b|e b|]; try discriminate.
  intros H. inversion H; subst. now exists b.
Qed.

Lemma emit_ok (op : Opcode) (ty : IRType) (operands : list IRValue)
    (b b' : Builder) (v : IRValue) :
  emit op ty operands b = Ok v b' ->
  exists blk,
    position b = Some blk
    /\ v = Instruction (length (code (module_ b))) op ty operands
    /\ code (module_ b') = code (module_ b) ++ [(blk, v)]
    /\ position b' = position b.
Proof.
  unfold emit, bind, get_state, put_state, ret.
  destruct (position b) as [blk|] eqn:Hp; [|discriminate].
  destruct (is_terminator op && is_terminated (module_ b) blk); [discriminate|].
  intros H. inversion H; subst. exists blk. cbn. repeat split; reflexivity.
Qed.

(** A store that succeeds appends one instruction, whose pointer operand
    points to the type of the value stored. *)
Lemma store_ok (value ptr : option IRValue) (b b' : Builder) (r : IRValue) :
  store value ptr b = Ok r b' ->
  exists v p blk,
    value = Some v /\ ptr = Some p
    /\ type_of p = PointerType (type_of v)
    /\ r = Instruction (length (code (module_ b))) Store VoidType [v; p]
    /\ code (module_ b') = code (module_ b) ++ [(blk, r)].
Proof.
  unfold store. intros H.
  apply bind_ok in H as [p [b1 [Hp H]]].
  destruct ptr as [p'|]; [|discriminate Hp]. inversion Hp; subst p' b1.
  destruct (type_of p) as [| | |pointee| |] eqn:Hty; try discriminate H.
  apply bind_ok in H as [v [b1 [Hv H]]].
  destruct value as [v'|]; [|discriminate Hv]. inversion Hv; subst v' b1.
  destruct (IRType_eqb pointee (type_of v)) eqn:Heq; [|discriminate H].
  apply IRType_eqb_sound in Heq. subst pointee.
  apply emit_ok in H as [blk [_ [Hr [Hcode _]]]].
  exists v, p, blk. repeat split; try assumption; reflexivity.
Qed.

Lemma node_value_ok (e : option Expression) (c c' : t) (l : Literal) :
  node_value e c = Ok l c' -> c' = c.
Proof.
  unfold node_value.
  destruct e as [[v|v|v|b|v|op r|l0 op r|f args]|];
    cbn; intros H; inversion H; reflexivity.
Qed.

Lemma lookup_unpack_ok (name : Literal) (c c' : t) (rec : IRValue * IRType) :
  lookup_unpack name c = Ok rec c' ->
  c' = c /\ Environment.lookup (env c) name = Some rec.
Proof.
  unfold lookup_unpack, lookup, bind, get_state, ret.
  destruct (Environment.lookup (env c) name) as [r|]; [|discriminate].
  intros H. inversion H; subst. now split.
Qed.

(** C10. An assignment [x = e] or [x op= e] that lowers without error ends
    with a store into the slot the name resolves to, and the value stored
    has the element type of that slot: the builder refuses any other store,
    so a float is never stored into a slot allocated as i64. *)
Theorem assign_stores_slot_type (fuel : nat) (ident : option Expression)
    (operator : Literal) (right_node : option Expression) (c c' : t) :
  visit_assign_statement fuel ident operator right_node c = Ok tt c' ->
  exists name slot ty v blk n before,
    node_value ident c = Ok name c
    /\ Environment.lookup (env c') name = Some (slot, ty)
    /\ code (module_ (ir c'))
       = before ++ [(blk, Instruction n Store VoidType [v; slot])]
    /\ type_of slot = PointerType (type_of v)
    /\ (type_of slot = PointerType i64 -> type_of v <> f64).
Proof.
  unfold visit_assign_statement. intros H.
  apply bind_ok in H as [name [c1 [Hname H]]].
  pose proof (node_value_ok _ _ _ _ Hname) as ->.
  apply bind_ok in H as [found [c2 [Hfound H]]].
  destruct found as [rec0|]; [|discriminate H].
  apply bind_ok in H as [r [c3 [_ H]]].
  apply bind_ok in H as [rec [c4 [_ H]]].
  apply bind_ok in H as [orig [c5 [_ H]]].
  apply bind_ok in H as [orig' [c6 [_ H]]].
  apply bind_ok in H as [right' [c7 [_ H]]].
  apply bind_ok in H as [value [c8 [_ H]]].
  apply bind_ok in H as [rec' [c9 [Hrec H]]].
  apply lookup_unpack_ok in Hrec as [-> Hrec].
  apply bind_ok in H as [st [c10 [Hstore H]]].
  inversion H; subst c'. clear H.
  apply builder_ok in Hstore as [b [Hstore ->]].
  apply store_ok in Hstore as [v [p [blk [-> [Hp [Hty [-> Hcode]]]]]]].
  inversion Hp; subst p. clear Hp.
  destruct rec' as [slot ty]. cbn [fst] in *.
  exists name, slot, ty, v, blk, (length (code (module_ (ir c8)))),
    (code (module_ (ir c8))).
  split; [exact Hname|]. split; [exact Hrec|]. split; [exact Hcode|].
  split; [exact Hty|].
  intros Hslot Hv. rewrite Hty, Hv in Hslot. discriminate Hslot.
Qed.

(** ** Sample states *)

Definition empty_state : t :=
  mk (mkBuilder Module_new None) (Environment.new None) 0 [] [] [].

(** The state reached by a computation, whatever its outcome. *)
Definition state_after {A : Type} (m : M t A) (c : t) : t :=
  match m c with
  | Ok _ c' => c'
  | Raise _ c' => c'
  | OutOfFuel => c
  end.

(** The compiler at the start of [.main]: the built-ins are installed and
    the builder is positioned in the entry block. *)
Definition entry_state : t :=
  state_after
    (bind (builder (add_function (FunctionType i64 [] false) ".main"))
       (fun _ =>
          bind (builder (append_basic_block ".main" ".main_entry"))
            (fun block => builder (position_at block))))
    (state_after initialize_builtins empty_state).

Definition ident (x : string) : option Expression :=
  Some (IdentifierLiteral (LStr x)).
Definition int_lit (n : Z) : option Expression :=
  Some (IntegerLiteral (LInt n)).
Definition float_lit (digits : string) : option Expression :=
  Some (FloatLiteral (LFloat digits)).

(** After [var x: int = 2;] at the top level. *)
Definition x_state : t :=
  state_after (visit_var_statement 5 (ident "x") (int_lit 2) (LStr "int"))
    entry_state.

Lemma x_plus_equals_one :
  exists c', visit_assign_statement 5 (ident "x") (LStr "+=") (int_lit 1) x_state
             = Ok tt c'.
Proof. eexists. vm_compute. reflexivity. Qed.

(** Assigning a float to the integer slot does not lower. *)
Lemma x_equals_float_raises :
  exists c', visit_assign_statement 5 (ident "x") (LStr "=") (float_lit "2.5") x_state
             = Raise (TypeError "cannot store: mismatching types") c'.
Proof. eexists. vm_compute. reflexivity. Qed.

Definition x_plus_state : t :=
  state_after (visit_assign_statement 5 (ident "x") (LStr "+=") (int_lit 1))
    x_state.

(** ** The power operator *)

Definition two_pow_ten : option Expression :=
  Some (InfixExpression (int_lit 2) (LStr "**") (int_lit 10)).

(** C2. Lowering [2 ** 10] emits the promotion of both operands and the call
    of [pow], whose value is a double; the type handle returned with it is
    the one of the integer arm, i64: the two disagree. *)
Theorem pow_of_ints_handle :
  exists v c',
    resolve_value 5 two_pow_ten entry_state = Ok (Some v, Some i64) c'
    /\ instr_opcode v = Some Call
    /\ type_of v = f64
    /\ Some (type_of v) <> Some i64.
Proof.
  eexists. eexists. split; [vm_compute; reflexivity|].
  split; [reflexivity|]. split; [reflexivity|]. discriminate.
Qed.

(** With a float operand the value and the handle are both f64. *)
Lemma pow_of_float_handle :
  exists v c',
    resolve_value 5
      (Some (InfixExpression (float_lit "2.0") (LStr "**") (int_lit 10)))
      entry_state
    = Ok (Some v, Some f64) c'
    /\ type_of v = f64.
Proof. eexists. eexists. split; [vm_compute; reflexivity | reflexivity]. Qed.

(** The slot of [var y: float = 2 ** 10] is allocated from the handle: the
    store of the double into it is refused. *)
Lemma var_of_int_pow_raises :
  exists c',
    visit_var_statement 5 (ident "y") two_pow_ten (LStr "float") entry_state
    = Raise (TypeError "cannot store: mismatching types") c'.
Proof. eexists. vm_compute. reflexivity. Qed.

(** ** Declarations and scopes *)

(** The instructions [new] appended to the code of [c]. *)
Definition with_code (new : list (Block * IRValue)) (c : t) : t :=
  set_ir (mkBuilder
            (mkModule (functions (module_ (ir c))) (globals (module_ (ir c)))
               (blocks (module_ (ir c))) (code (module_ (ir c)) ++ new))
            (position (ir c))) c.

Lemma define_frame (e : Environment.t) (name : Literal) (v : IRValue)
    (ty : IRType) :
  Environment.records (Environment.define e name v ty) !! name = Some (v, ty)
  /\ Environment.parent (Environment.define e name v ty) = Environment.parent e
  /\ (forall other, other <> name ->
        Environment.records (Environment.define e name v ty) !! other
        = Environment.records e !! other).
Proof.
  destruct e as [r p n]. cbn. split; [apply lookup_insert_eq|].
  split; [reflexivity|]. intros other Hne. now apply lookup_insert_ne.
Qed.

Lemma emit_run (op : Opcode) (ty : IRType) (operands : list IRValue)
    (new : list (Block * IRValue)) (c : t) (blk : Block) :
  position (ir c) = Some blk ->
  is_terminator op = false ->
  builder (emit op ty operands) (with_code new c)
  = Ok (Instruction (length (code (module_ (ir c)) ++ new)) op ty operands)
       (with_code
          (new ++ [(blk, Instruction (length (code (module_ (ir c)) ++ new))
                           op ty operands)]) c).
Proof.
  intros Hp Hterm. unfold builder, emit, bind, get_state, put_state, ret,
    with_code, set_ir. cbn. rewrite Hp, Hterm. cbn.
  rewrite <- app_assoc. reflexivity.
Qed.

Lemma with_code_nil (c : t) : with_code [] c = c.
Proof.
  unfold with_code, set_ir. rewrite app_nil_r.
  destruct c as [[[fs gs bs cd] p] e n bp ct gp]. reflexivity.
Qed.

Lemma IRType_eqb_refl (a : IRType) : IRType_eqb a a = true.
Proof.
  revert a. fix IH 1. intros [m| | |x|x m|r xs v]; cbn [IRType_eqb].
  - apply Z.eqb_refl.
  - reflexivity.
  - reflexivity.
  - apply IH.
  - rewrite IH, Z.eqb_refl. reflexivity.
  - rewrite IH, Bool.eqb_reflx, andb_true_r. cbn.
    induction xs as [|x xs IHxs]; [reflexivity|].
    rewrite IH, IHxs. reflexivity.
Qed.

Lemma store_run (v p : IRValue) (new : list (Block * IRValue)) (c : t)
    (blk : Block) :
  position (ir c) = Some blk ->
  type_of p = PointerType (type_of v) ->
  builder (store (Some v) (Some p)) (with_code new c)
  = Ok (Instruction (length (code (module_ (ir c)) ++ new)) Store VoidType [v; p])
       (with_code
          (new ++ [(blk, Instruction (length (code (module_ (ir c)) ++ new))
                           Store VoidType [v; p])]) c).
Proof.
  intros Hp Hty.
  pose proof (emit_run Store VoidType [v; p] new c blk Hp eq_refl) as E.
  unfold builder in *. unfold store, bind, operand, ret.
  rewrite Hty, IRType_eqb_refl. exact E.
Qed.


(** The state in which the body of [def f() -> int] is lowered, [x] being
    declared at the top level: the frame of [f] binds [f] only. *)
Definition inside_f : t :=
  state_after (enter_function [] (ident "f") (LStr "int")) x_state.

(** The slot of the top-level [x]: the first instruction of [.main]. *)
Definition top_level_slot : IRValue :=
  Instruction 0 Alloca (PointerType i64) [].

Definition f_entry : Block := mkBlock "f" "f_entry".


End CompilerFacts.


(** The store of [x += 1] into the slot of [x]. *)
Lemma assign_stores_slot_type_x :
  exists name slot ty v blk n before,
    Compiler.node_value (CompilerFacts.ident "x") CompilerFacts.x_state
    = Ok name CompilerFacts.x_state
    /\ Environment.lookup (Compiler.env CompilerFacts.x_plus_state) name
       = Some (slot, ty)
    /\ IR.code (IR.module_ (Compiler.ir CompilerFacts.x_plus_state))
       = before ++ [(blk, IR.Instruction n IR.Store IR.VoidType [v; slot])]
    /\ IR.type_of slot = IR.PointerType (IR.type_of v)
    /\ (IR.type_of slot = IR.PointerType Compiler.i64
        -> IR.type_of v <> Compiler.f64).
Proof.
  apply (CompilerFacts.assign_stores_slot_type 5 (CompilerFacts.ident "x")
           (LStr "+=") (CompilerFacts.int_lit 1) CompilerFacts.x_state
           CompilerFacts.x_plus_state).
  vm_compute. reflexivity.
Defined.
(* ===================================================================== *)
(** * Imports and the front end *)
(* ===================================================================== *)

Module ImportFacts.
Import IR Compiler CompilerFacts.

(** A file that relies on the insertion of the final semicolon, and the
    same declaration with its semicolon written. *)
Definition lib_source : string := "var x: int = 1".
Definition lib_source_terminated : string := "var x: int = 1;".

Definition files (path : string) : option string :=
  if String.eqb path "lib.purr" then Some lib_source
  else if String.eqb path "lib2.purr" then Some lib_source_terminated
  else None.

Definition import_of (path : string) : option Node :=
  Some (NStatement (ImportStatement (LStr path))).

Definition declares_x (program : Program) : Prop :=
  statements program
  = [VarStatement (Some (IdentifierLiteral (LStr "x")))
       (Some (IntegerLiteral (LInt 1))) (LStr "int")].

(** C3. The file [var x: int = 1], without its semicolon, goes through the
    front end of the main file (lexing, insertion of semicolons, parsing)
    and yields its declaration; imported, it is lexed and parsed without
    the insertion of semicolons, the parser reports the missing semicolon
    and the import ends the compilation with [sys.exit(1)], nothing being
    lowered. *)
Theorem import_skips_semicolon_insertion :
  (exists tokens l program p,
      Main.run_lexical_analysis lib_source "lib.purr" = Ok tokens l
      /\ Main.run_parsing tokens = Ok program p
      /\ declares_x program)
  /\ (exists c',
        compile files 3 (import_of "lib.purr") entry_state
        = Raise (SystemExit 1) c'
        /\ code (module_ (ir c')) = code (module_ (ir entry_state))).
Proof.
  split.
  - eexists. eexists. eexists. eexists.
    split; [vm_compute; reflexivity|].
    split; [vm_compute; reflexivity|]. reflexivity.
  - eexists. split; vm_compute; reflexivity.
Qed.

(** With the semicolon written, the import lowers the declaration where it
    stands and records the file. *)
Lemma import_of_terminated_file :
  exists c',
    compile files 3 (import_of "lib2.purr") entry_state = Ok tt c'
    /\ map (fun e => instr_opcode (snd e)) (code (module_ (ir c')))
       = [Some Alloca; Some Store]
    /\ map fst (global_parsed_pallets c') = [LStr "lib2.purr"].
Proof. eexists. split; [vm_compute; reflexivity|]. split; reflexivity. Qed.

End ImportFacts.

(* ===================================================================== *)
(** * Facts about the scoped environment (Environment.py) *)
(* ===================================================================== *)

Module EnvironmentFacts.
Import Environment.

(** The frames of a scope chain, innermost first. *)
Fixpoint chain (e : t) : list t :=
  match e with
  | mk _ p _ => e :: match p with Some e' => chain e' | None => [] end
  end.

(** Induction along the chain of parents. *)
Fixpoint chain_ind (P : t -> Prop)
    (Hroot : forall r n, P (mk r None n))
    (Hchild : forall r p n, P p -> P (mk r (Some p) n)) (e : t) : P e :=
  match e with
  | mk r None n => Hroot r n
  | mk r (Some p) n => Hchild r p n (chain_ind P Hroot Hchild p)
  end.

(** After [define] the name resolves to the value and the type handle
    just stored, whatever the frame and its parents held for it before;
    every other name resolves as before; the parent and the name of the
    frame are kept. *)
Theorem lookup_define (e : t) (n m : Literal) (v : IR.IRValue) (ty : IR.IRType) :
  lookup (define e n v ty) m
    = (if Literal_eq_dec m n then Some (v, ty) else lookup e m)
  /\ parent (define e n v ty) = parent e
  /\ name (define e n v ty) = name e.
Proof.
  destruct e as [r p nm]. unfold lookup. cbn [define resolve parent name].
  split; [|split; reflexivity].
  destruct (Literal_eq_dec m n) as [->|Hne].
  - now rewrite lookup_insert_eq.
  - rewrite lookup_insert_ne by congruence. reflexivity.
Qed.

(** A lookup yields [None] exactly when no frame of the chain, from the
    current one up to the outermost, has a record for the name; the
    innermost frame that has a record decides. *)
Theorem lookup_none_iff (e : t) (n : Literal) :
  lookup e n = None <-> Forall (fun f => records f !! n = None) (chain e).
Proof.
  unfold lookup. induction e as [r nm | r p nm IH] using chain_ind.
  - cbn [resolve chain records]. destruct (r !! n) as [x|] eqn:E.
    + split; [discriminate|]. intros H. inversion H as [|? ? H1 _]; subst.
      cbn [records] in H1. congruence.
    + split; [|reflexivity]. intros _. constructor; [exact E | constructor].
  - cbn [resolve chain records]. destruct (r !! n) as [x|] eqn:E.
    + split; [discriminate|]. intros H. inversion H as [|? ? H1 _]; subst.
      cbn [records] in H1. congruence.
    + rewrite IH. split.
      * intros H. constructor; [exact E | exact H].
      * intros H. now inversion H.
Qed.

End EnvironmentFacts.

(* ===================================================================== *)
(** * Facts about keywords (Token.py) *)
(* ===================================================================== *)

Module TokenFacts.

Lemma assoc_get_In {A : Type} (k : string) (l : list (string * A)) (v : A) :
  assoc_get k l = Some v -> In (k, v) l.
Proof.
  induction l as [|[k' v'] l IH]; [discriminate|].
  cbn [assoc_get]. destruct (String.eqb_spec k k') as [->|Hne].
  - intros [= ->]. now left.
  - intros H. right. now apply IH.
Qed.

Lemma assoc_get_None {A : Type} (k : string) (l : list (string * A)) :
  assoc_get k l = None <-> ~ In k (map fst l).
Proof.
  induction l as [|[k' v'] l IH]; [cbn; tauto|].
  cbn [assoc_get map fst In]. destruct (String.eqb_spec k k') as [->|Hne].
  - split; [discriminate|]. intros H. exfalso. apply H. now left.
  - rewrite IH. split.
    + intros H [E|E]; [now apply Hne | now apply H].
    + intros H E. apply H. now right.
Qed.

Lemma existsb_eqb_In (s : string) (l : list string) :
  existsb (String.eqb s) l = true <-> In s l.
Proof.
  rewrite existsb_exists. split.
  - intros [x [Hx E]]. apply String.eqb_eq in E. now subst.
  - intros H. exists s. split; [exact H | apply String.eqb_refl].
Qed.

(** [lookup_ident] sorts every word into exactly one of three classes: a
    keyword of the table gets the token type the table gives it, which is
    neither TYPE nor IDENT; one of the five type names gets TYPE; every
    other word, whatever it is made of, is an IDENT.  No type name is
    hidden by a keyword. *)
Theorem lookup_ident_classes (ident : string) :
  (In ident (map fst KEYWORDS) ->
     In (ident, lookup_ident ident) KEYWORDS
     /\ lookup_ident ident <> TYPE /\ lookup_ident ident <> IDENT)
  /\ (lookup_ident ident = TYPE <-> In ident TYPE_KEYWORDS)
  /\ (lookup_ident ident = IDENT <->
        ~ In ident (map fst KEYWORDS) /\ ~ In ident TYPE_KEYWORDS).
Proof.
  assert (Hvals : forall k v, In (k, v) KEYWORDS -> v <> TYPE /\ v <> IDENT).
  { intros k v H. cbn in H.
    repeat (destruct H as [H|H]; [inversion H; subst; split; discriminate|]).
    destruct H. }
  assert (Hdisj : forall k, In k TYPE_KEYWORDS -> assoc_get k KEYWORDS = None).
  { intros k H. cbn in H.
    repeat (destruct H as [H|H]; [subst k; reflexivity|]). destruct H. }
  unfold lookup_ident.
  destruct (assoc_get ident KEYWORDS) as [ty|] eqn:E.
  - pose proof (assoc_get_In _ _ _ E) as Hin.
    destruct (Hvals _ _ Hin) as [H1 H2].
    split; [intros _; now repeat split|].
    split.
    + split; [intros ->; now contradiction H1|].
      intros H. rewrite (Hdisj _ H) in E. discriminate.
    + split; [intros ->; now contradiction H2|].
      intros [H _]. apply assoc_get_None in H. congruence.
  - pose proof (proj1 (assoc_get_None _ _) E) as Hnk.
    split; [intros H; contradiction|].
    destruct (existsb (String.eqb ident) TYPE_KEYWORDS) eqn:Ex.
    + apply existsb_eqb_In in Ex.
      split; [split; [intros _; exact Ex | reflexivity]|].
      split; [discriminate|]. intros [_ H]. contradiction.
    + assert (Hnt : ~ In ident TYPE_KEYWORDS).
      { intros H. apply existsb_eqb_In in H. congruence. }
      split; [split; [discriminate | intros H; contradiction]|].
      split; [intros _; now split | reflexivity].
Qed.

End TokenFacts.

(* ===================================================================== *)
(** * Facts about the error handler (Error.py) *)
(* ===================================================================== *)

Module ErrorFacts.

Lemma handler_after_snoc (calls : list HandlerCall) (c : HandlerCall) :
  handler_after (calls ++ [c]) = handler_call (handler_after calls) c.
Proof. unfold handler_after. now rewrite fold_left_app. Qed.

(** Whatever calls a handler has received since it was created, the flag
    [has_error] (which the import of a file tests) and the result of
    [report()] (which the driver tests) agree: the flag is set exactly when
    [report()] answers that the compilation failed.  The errors and the
    warnings are kept apart, each in the order of the calls, and a warning
    never counts as an error. *)
Theorem report_agrees_with_flag (calls : list HandlerCall) :
  let h := handler_after calls in
  report h = negb (has_error h)
  /\ errors h = map error_of_call (List.filter is_add_error calls)
  /\ warnings h
     = map error_of_call (List.filter (fun c => negb (is_add_error c)) calls).
Proof.
  cbv zeta. induction calls as [|c calls IH] using rev_ind.
  - repeat split.
  - rewrite handler_after_snoc. destruct IH as [IH1 [IH2 IH3]].
    rewrite !List.filter_app, !map_app.
    destruct c as [ps pe nm det | ps pe nm det];
      cbn [handler_call add_error add_warning errors warnings has_error
           List.filter is_add_error negb map error_of_call].
    + rewrite IH2, IH3, app_nil_r. repeat split.
      unfold report, add_error. cbn [errors].
      now destruct (errors (handler_after calls)).
    + rewrite IH2, IH3, app_nil_r. repeat split.
      unfold report, add_warning in *. cbn [errors]. exact IH1.
Qed.

End ErrorFacts.

(* ===================================================================== *)
(** * What semicolon insertion keeps and what it leaves (Sanitizer.py) *)
(* ===================================================================== *)

Module SanitizerOrder.
Import Sanitizer.

(** A token of the output: a token of the input or the semicolon made
    after one. *)
Definition from_input (T : list Token) (t : Token) : Prop :=
  In t T \/ exists u, In u T /\ t = semicolon_after u.

Lemma reconstruct_sublist (s : list Z) (l : list Token) :
  sublist l (reconstruct s l).
Proof.
  induction l as [|t l IH]; [constructor|].
  cbn [reconstruct]. destruct (mem_pos _ s).
  - apply sublist_skip. now apply sublist_cons.
  - now apply sublist_skip.
Qed.

Lemma reconstruct_from_input (s : list Z) (l : list Token) :
  Forall (from_input l) (reconstruct s l).
Proof.
  induction l as [|t l IH]; [constructor|].
  assert (Hw : Forall (from_input (t :: l)) (reconstruct s l)).
  { eapply List.Forall_impl; [|exact IH]. intros a [H|[u [Hu E]]].
    - left. now right.
    - right. exists u. split; [now right | exact E]. }
  cbn [reconstruct]. destruct (mem_pos _ s).
  - constructor; [left; now left|].
    constructor; [|exact Hw]. right. exists t. split; [now left | reflexivity].
  - constructor; [left; now left | exact Hw].
Qed.

Lemma reconstruct_length (s : list Z) (l : list Token) :
  (length l <= length (reconstruct s l) <= 2 * length l)%nat.
Proof.
  induction l as [|t l IH]; [cbn; lia|].
  cbn [reconstruct]. destruct (mem_pos _ s); cbn [length]; lia.
Qed.

(** [sanitize] only adds: the tokens of the input are all in the output,
    in their order; every other token of the output is the semicolon made
    for an input token; at most one semicolon is added per token. *)
Theorem sanitize_keeps_tokens (T : list Token) :
  sublist T (sanitize T)
  /\ Forall (from_input T) (sanitize T)
  /\ (length T <= length (sanitize T) <= 2 * length T)%nat.
Proof.
  unfold sanitize. split; [apply reconstruct_sublist|].
  split; [apply reconstruct_from_input | apply reconstruct_length].
Qed.

(** When the first loop finds nothing in a stream, no pair of neighbours
    of the stream triggers a rule. *)
Lemma insert_positions_adjacent :
  forall (L : list Token) (prev : option Token),
    insert_positions prev L = [] ->
    forall l1 x y l2, L = l1 ++ x :: y :: l2 ->
      pair_positions (Some x) y = [].
Proof.
  induction L as [|c rest IH]; intros prev H l1 x y l2 E.
  - destruct l1; discriminate.
  - cbn [insert_positions] in H. apply app_eq_nil in H as [_ H].
    destruct l1 as [|a l1].
    + cbn [app] in E. inversion E; subst.
      cbn [insert_positions] in H. now apply app_eq_nil in H as [H _].
    + cbn [app] in E. inversion E; subst.
      now apply (IH (Some a) H l1 x y l2).
Qed.

Lemma sanitize_settled (T : list Token) :
  insert_positions None (sanitize T) = [].
Proof.
  unfold sanitize.
  apply (SanitizerFacts.insert_positions_reconstruct _ T None None).
  - intros x Hx. now apply SanitizerFacts.mem_pos_In.
  - left. split; [reflexivity | discriminate].
Qed.

(** In the output of [sanitize], whatever the input: the token before an
    EOF is never one that ends a statement (a closing parenthesis, a name,
    a literal, [break], [continue] or [return]), a semicolon stands in
    between; a token that closes an expression is never followed, on
    another line, by a token that starts a statement; [break] and
    [continue] are never the last token of their line. *)
Theorem sanitize_leaves_no_gap (T l1 l2 : list Token) (x y : Token) :
  sanitize T = l1 ++ x :: y :: l2 ->
  (type_ y = EOF -> tt_in (type_ x) final_closers = false)
  /\ (type_ y <> EOF -> tt_in (type_ x) prev_closers = true ->
      tt_in (type_ y) cur_starters = true ->
      Position.ln (pos_end x) = Position.ln (pos_start y))
  /\ (type_ y <> EOF -> tt_in (type_ x) [BREAK; CONTINUE] = true ->
      Position.ln (pos_end x) = Position.ln (pos_start y)).
Proof.
  intros E.
  pose proof (insert_positions_adjacent _ _ (sanitize_settled T) _ _ _ _ E)
    as H.
  unfold pair_positions in H.
  split; [|split].
  - intros Hy. rewrite Hy in H. cbn [tt_eqb negb andb] in H.
    change (tt_eqb EOF EOF) with true in H. cbn [negb andb] in H.
    destruct (tt_in (type_ x) final_closers); [discriminate | reflexivity].
  - intros Hy Hx Hc. rewrite Hx, Hc in H.
    assert (Hn : tt_eqb (type_ y) EOF = false).
    { unfold tt_eqb. now destruct (TokenType_eq_dec (type_ y) EOF). }
    rewrite Hn in H. cbn [negb andb] in H.
    destruct (Position.ln (pos_end x) =? Position.ln (pos_start y)) eqn:El.
    + now apply Z.eqb_eq.
    + cbn [negb] in H. discriminate.
  - intros Hy Hx.
    assert (Hn : tt_eqb (type_ y) EOF = false).
    { unfold tt_eqb. now destruct (TokenType_eq_dec (type_ y) EOF). }
    rewrite Hn in H. cbn [negb andb] in H.
    destruct (Position.ln (pos_end x) =? Position.ln (pos_start y)) eqn:El.
    + now apply Z.eqb_eq.
    + cbn [negb] in H. exfalso.
      destruct (type_ x); try discriminate Hx; cbn in H; discriminate H.
Qed.

End SanitizerOrder.

(** The output on the lexed stream of two lines: its last two tokens are
    the semicolon made for the closing parenthesis and EOF. *)
Lemma sanitize_leaves_no_gap_two_lines :
  exists x y,
    nth_error (Sanitizer.sanitize LexerFacts.two_lines) 8 = Some x
    /\ nth_error (Sanitizer.sanitize LexerFacts.two_lines) 9 = Some y
    /\ type_ y = EOF
    /\ tt_in (type_ x) Sanitizer.final_closers = false.
Proof.
  eexists. eexists.
  split; [vm_compute; reflexivity|].
  split; [vm_compute; reflexivity|].
  split; [reflexivity|].
  refine (proj1 (SanitizerOrder.sanitize_leaves_no_gap LexerFacts.two_lines
                   (firstn 8 (Sanitizer.sanitize LexerFacts.two_lines)) []
                   _ _ _) _).
  - vm_compute. reflexivity.
  - reflexivity.
Defined.

(* ===================================================================== *)
(** * String literals without escapes, and the terminator *)
(* ===================================================================== *)

Module LiteralFacts.
Import PyStr Escapes.

Lemma char_in_cons (c a : ascii) (s : string) :
  char_in c (String a s) = false ->
  Ascii.eqb c a = false /\ char_in c s = false.
Proof.
  unfold char_in. cbn [list_ascii_of_string existsb].
  intros H. now apply orb_false_iff in H.
Qed.

(** A replacement whose pattern starts with a character that the text
    does not contain changes nothing. *)
Lemma replace_absent (c : ascii) (old' new s : string) :
  char_in c s = false -> replace s (String c old') new = s.
Proof.
  unfold replace. induction s as [|a s IH]; intros H; [reflexivity|].
  apply char_in_cons in H as [Ha Hs].
  cbn [replace_from String.prefix].
  destruct (ascii_dec c a) as [->|_].
  - rewrite Ascii.eqb_refl in Ha. discriminate.
  - now rewrite IH.
Qed.

Lemma length_append (s t : string) :
  String.length (String.append s t) = (String.length s + String.length t)%nat.
Proof. induction s as [|a s IH]; simpl; [reflexivity | f_equal; exact IH]. Qed.

(** A literal that contains no backslash is stored as it is written: no
    replacement applies, and the bytes are the text followed by one NUL
    (the text itself when it ends with NUL already). *)
Theorem literal_without_backslash (s : string) :
  char_in backslash s = false ->
  decode_escapes s = s
  /\ literal_bytes s
     = (if endswith_char s NUL then s else String.append s (str1 NUL)).
Proof.
  intros H.
  assert (E : decode_escapes s = s).
  { unfold decode_escapes, str2. cbv zeta.
    repeat rewrite (replace_absent backslash _ _ s H). reflexivity. }
  split; [exact E|].
  unfold literal_bytes, null_terminate. rewrite E.
  now destruct (endswith_char s NUL).
Qed.

Lemma literal_bytes_nonempty (s : string) :
  (1 <= String.length (literal_bytes s))%nat.
Proof.
  pose proof (EscapesFacts.null_terminate_ends (decode_escapes s)) as H.
  fold (literal_bytes s) in H.
  destruct (literal_bytes s); [discriminate H | cbn; lia].
Qed.

(** The bytes stored for a literal always end with NUL, and exactly one
    byte is added for it unless the decoded text ends with NUL already, in
    which case nothing is added: the size passed to the allocation is never
    zero. *)
Theorem literal_bytes_terminated (s : string) :
  endswith_char (literal_bytes s) NUL = true
  /\ String.length (literal_bytes s)
     = (String.length (decode_escapes s)
        + (if endswith_char (decode_escapes s) NUL then 0 else 1))%nat
  /\ (1 <= String.length (literal_bytes s))%nat.
Proof.
  assert (H1 : endswith_char (literal_bytes s) NUL = true)
    by apply EscapesFacts.null_terminate_ends.
  split; [exact H1|].
  split.
  - unfold literal_bytes, null_terminate.
    destruct (endswith_char (decode_escapes s) NUL); cbn [negb].
    + lia.
    + rewrite length_append. reflexivity.
  - apply literal_bytes_nonempty.
Qed.

End LiteralFacts.

(** A format string without escapes. *)
Lemma literal_without_backslash_hello :
  PyStr.char_in PyStr.backslash "hello %i" = false
  /\ Escapes.literal_bytes "hello %i"
     = String.append "hello %i" (PyStr.str1 PyStr.NUL).
Proof.
  split; [reflexivity|].
  exact (proj2 (LiteralFacts.literal_without_backslash "hello %i" eq_refl)).
Defined.

(* ===================================================================== *)
(** * Runs of the lexer (Lexer.py) *)
(* ===================================================================== *)

Module LexerRuns.
Import PyStr Lexer.

(** The lexer stands at index [i] of the source [src]: its position has
    that index and its current character is the one there ([None] from the
    end of the source on). *)
Definition at_ (src : string) (i : nat) (lx : t) : Prop :=
  source_code lx = src
  /\ Position.idx (position lx) = Z.of_nat i
  /\ current_char lx = String.get i src.

Definition name_error : PyExn := NameError "name 'DIGITS' is not defined".
Definition concat_error : PyExn :=
  TypeError "can only concatenate str (not NoneType) to str".

(** The two exceptions a run can end with, and what the source must
    contain for each. *)
Definition crash (src : string) (e : PyExn) : Prop :=
  (e = name_error /\ char_in "." src = true)
  \/ (e = concat_error /\ char_in backslash src = true).

(** The run of [m] from [lx] does not exhaust the fuel; it ends with a
    result that satisfies [Q] or with one of the two exceptions. *)
Definition runs {A : Type} (src : string) (m : M t A) (lx : t)
    (Q : A -> t -> Prop) : Prop :=
  match m lx with
  | Ok a lx' => Q a lx'
  | Raise e _ => crash src e
  | OutOfFuel => False
  end.

(** The lexer stands at [i] or further. *)
Definition from (src : string) (i : nat) (lx : t) : Prop :=
  exists j, (i <= j)%nat /\ at_ src j lx.

Lemma get_ge (s : string) :
  forall n, (String.length s <= n)%nat -> String.get n s = None.
Proof.
  induction s as [|a s IH]; intros n H; [reflexivity|].
  destruct n as [|n]; cbn in H; [lia|]. cbn. apply IH. lia.
Qed.

Lemma get_lt (s : string) :
  forall n c, String.get n s = Some c -> (n < String.length s)%nat.
Proof.
  induction s as [|a s IH]; intros n c H; [discriminate|].
  destruct n as [|n]; cbn in *; [lia|]. apply IH in H. lia.
Qed.

Lemma get_char_in (s : string) :
  forall n c, String.get n s = Some c -> char_in c s = true.
Proof.
  unfold char_in. induction s as [|a s IH]; intros n c H; [discriminate|].
  cbn [list_ascii_of_string existsb]. destruct n as [|n]; cbn in H.
  - inversion H; subst. now rewrite Ascii.eqb_refl.
  - rewrite (IH _ _ H). apply orb_true_r.
Qed.

Lemma idx_advance (p : Position.t) (c : option ascii) :
  Position.idx (Position.advance p c) = Position.idx p + 1.
Proof.
  unfold Position.advance. destruct c as [c|]; [|reflexivity].
  now destruct (Ascii.eqb c Position.newline).
Qed.

Lemma advance_at (src : string) (i : nat) (lx : t) :
  at_ src i lx ->
  exists lx', advance lx = Ok tt lx' /\ at_ src (S i) lx'
              /\ error_handler lx' = error_handler lx.
Proof.
  intros (Hs & Hi & Hc). eexists.
  split; [cbv [advance bind get_state put_state]; reflexivity|].
  split; [|reflexivity].
  unfold at_. cbn [source_code position current_char set_current_char
                   set_position].
  split; [exact Hs|]. rewrite idx_advance, Hi, Hs.
  split; [lia|].
  unfold str_len, py_index.
  replace (Z.of_nat i + 1) with (Z.of_nat (S i)) by lia.
  destruct (Z.ltb_spec (Z.of_nat (S i)) (Z.of_nat (String.length src))).
  - destruct (Z.ltb_spec (Z.of_nat (S i)) 0); [lia|].
    now rewrite Nat2Z.id.
  - symmetry. apply get_ge. lia.
Qed.

Lemma new_at (src file : string) :
  exists lx, new src file None = Ok tt lx /\ at_ src 0 lx
             /\ errors (error_handler lx) = [].
Proof.
  eexists.
  split; [cbv [new advance bind get_state put_state]; reflexivity|].
  split; [|reflexivity].
  unfold at_. cbn [source_code position current_char set_current_char
                   set_position].
  split; [reflexivity|]. rewrite idx_advance. cbn [Position.idx].
  split; [reflexivity|].
  unfold str_len, py_index. change (-1 + 1) with 0.
  destruct (Z.ltb_spec 0 (Z.of_nat (String.length src))).
  - reflexivity.
  - symmetry. apply get_ge. lia.
Qed.

(** ** The rules of [runs] *)

Lemma runs_bind {A B : Type} (src : string) (m : M t A) (k : A -> M t B)
    (lx : t) (Q : A -> t -> Prop) (R : B -> t -> Prop) :
  runs src m lx Q ->
  (forall a lx', Q a lx' -> runs src (k a) lx' R) ->
  runs src (bind m k) lx R.
Proof.
  unfold runs, bind. intros Hm Hk.
  destruct (m lx) as [a lx'|e lx'|]; [now apply Hk | exact Hm | exact Hm].
Qed.

Lemma runs_weaken {A : Type} (src : string) (m : M t A) (lx : t)
    (Q R : A -> t -> Prop) :
  runs src m lx Q -> (forall a lx', Q a lx' -> R a lx') -> runs src m lx R.
Proof.
  unfold runs. intros Hm H.
  destruct (m lx) as [a lx'|e lx'|]; [now apply H | exact Hm | exact Hm].
Qed.

Lemma runs_ret {A : Type} (src : string) (a : A) (lx : t)
    (Q : A -> t -> Prop) :
  Q a lx -> runs src (ret a) lx Q.
Proof. intros H. exact H. Qed.

Lemma runs_get {B : Type} (src : string) (k : t -> M t B) (lx : t)
    (R : B -> t -> Prop) :
  runs src (k lx) lx R -> runs src (bind get_state k) lx R.
Proof. intros H. exact H. Qed.

Lemma runs_advance (src : string) (i : nat) (lx : t) :
  at_ src i lx -> runs src advance lx (fun _ lx' => at_ src (S i) lx').
Proof.
  intros H. destruct (advance_at _ _ _ H) as (lx' & E & H' & _).
  unfold runs. now rewrite E.
Qed.

Lemma runs_report (src : string) (i : nat) (lx : t) (ps pe : Position.t)
    (name det : string) :
  at_ src i lx -> runs src (report ps pe name det) lx (fun _ lx' => at_ src i lx').
Proof. intros H. exact H. Qed.

Lemma from_refl (src : string) (i : nat) (lx : t) :
  at_ src i lx -> from src i lx.
Proof. intros H. exists i. split; [lia | exact H]. Qed.

Lemma from_le (src : string) (i j : nat) (lx : t) :
  (i <= j)%nat -> from src j lx -> from src i lx.
Proof. intros H (k & Hk & Hat). exists k. split; [lia | exact Hat]. Qed.

Lemma at_some_lt (src : string) (i : nat) (lx : t) (c : ascii) :
  at_ src i lx -> current_char lx = Some c -> (i < String.length src)%nat.
Proof.
  intros (_ & _ & Hc) E. rewrite Hc in E. now apply get_lt in E.
Qed.

Lemma at_char_in (src : string) (i : nat) (lx : t) (c : ascii) :
  at_ src i lx -> current_char lx = Some c -> char_in c src = true.
Proof.
  intros (_ & _ & Hc) E. rewrite Hc in E. now apply get_char_in in E.
Qed.

(** ** The loops *)

Lemma runs_skip_whitespace (src : string) :
  forall fuel i lx,
    at_ src i lx -> (String.length src - i < fuel)%nat ->
    runs src (_skip_whitespace fuel) lx (fun _ lx' => from src i lx').
Proof.
  induction fuel as [|f IH]; intros i lx Hat Hf; [lia|].
  cbn [_skip_whitespace]. apply runs_get.
  destruct (current_char lx) as [c|] eqn:Ec;
    [|apply runs_ret; now apply from_refl].
  pose proof (at_some_lt _ _ _ _ Hat Ec) as Hlt.
  destruct (char_in c WHITESPACE); [|apply runs_ret; now apply from_refl].
  eapply runs_bind; [apply (runs_advance _ _ _ Hat)|].
  intros ? lx' Hat'. cbv beta.
  eapply runs_weaken; [apply (IH (S i)); [exact Hat' | lia]|].
  intros ? lx'' H. apply (from_le _ i (S i)); [lia | exact H].
Qed.

Lemma runs_skip_comment_loop (src : string) :
  forall fuel i lx,
    at_ src i lx -> (String.length src - i < fuel)%nat ->
    runs src (_skip_comment_loop fuel) lx (fun _ lx' => from src i lx').
Proof.
  induction fuel as [|f IH]; intros i lx Hat Hf; [lia|].
  cbn [_skip_comment_loop]. apply runs_get.
  destruct (current_char lx) as [c|] eqn:Ec;
    [|apply runs_ret; now apply from_refl].
  pose proof (at_some_lt _ _ _ _ Hat Ec) as Hlt.
  destruct (Ascii.eqb c LF); [apply runs_ret; now apply from_refl|].
  eapply runs_bind; [apply (runs_advance _ _ _ Hat)|].
  intros ? lx' Hat'. cbv beta.
  eapply runs_weaken; [apply (IH (S i)); [exact Hat' | lia]|].
  intros ? lx'' H. apply (from_le _ i (S i)); [lia | exact H].
Qed.

Lemma runs_skip_comment (src : string) (fuel i : nat) (lx : t) :
  at_ src i lx -> (String.length src - i < fuel)%nat ->
  runs src (_skip_comment fuel) lx (fun _ lx' => from src (S i) lx').
Proof.
  intros Hat Hf. unfold _skip_comment.
  eapply runs_bind; [apply (runs_skip_comment_loop _ _ _ _ Hat Hf)|].
  intros ? lx' (j & Hj & Hat'). cbv beta.
  eapply runs_weaken; [apply (runs_advance _ _ _ Hat')|].
  intros ? lx'' H. exists (S j). split; [lia | exact H].
Qed.

Lemma runs_identifier_loop (src : string) :
  forall fuel i identifier lx,
    at_ src i lx -> (String.length src - i < fuel)%nat ->
    runs src (_identifier_loop fuel identifier) lx (fun _ lx' => from src i lx').
Proof.
  induction fuel as [|f IH]; intros i acc lx Hat Hf; [lia|].
  cbn [_identifier_loop]. apply runs_get.
  destruct (current_char lx) as [c|] eqn:Ec;
    [|apply runs_ret; now apply from_refl].
  pose proof (at_some_lt _ _ _ _ Hat Ec) as Hlt.
  destruct (char_in c (String.append ALPHANUMERIC "_"));
    [|apply runs_ret; now apply from_refl].
  eapply runs_bind; [apply (runs_advance _ _ _ Hat)|].
  intros ? lx' Hat'. cbv beta.
  eapply runs_weaken; [apply (IH (S i)); [exact Hat' | lia]|].
  intros ? lx'' H. apply (from_le _ i (S i)); [lia | exact H].
Qed.

(** What the number loop keeps about the text read so far: it does not
    begin with a point, and when it is still empty the current character
    is not a point. *)
Definition number_ok (number_str : string) (lx : t) : Prop :=
  match number_str with
  | EmptyString => current_char lx <> Some "."%char
  | String a _ => a <> "."%char
  end.

Lemma number_ok_not_point (number_str : string) (lx : t) :
  number_ok number_str lx -> number_str <> "."%string.
Proof.
  destruct number_str as [|a s]; [discriminate|].
  intros H E. inversion E; subst. now apply H.
Qed.

Lemma number_ok_append (number_str : string) (c : ascii) (lx lx' : t) :
  number_ok number_str lx -> current_char lx = Some c ->
  (number_str = EmptyString -> c <> "."%char) ->
  number_ok (String.append number_str (str1 c)) lx'.
Proof.
  destruct number_str as [|a s]; cbn; intros H Ec Hc.
  - now apply Hc.
  - exact H.
Qed.

Lemma runs_number_loop (src : string) :
  forall fuel i decimal_count number_str lx,
    at_ src i lx -> (String.length src - i < fuel)%nat ->
    number_ok number_str lx ->
    runs src (_number_loop fuel decimal_count number_str) lx
      (fun r lx' => from src i lx' /\ snd r <> "."%string).
Proof.
  induction fuel as [|f IH]; intros i dc acc lx Hat Hf Hok; [lia|].
  pose proof (number_ok_not_point _ _ Hok) as Hne.
  cbn [_number_loop]. apply runs_get.
  destruct (current_char lx) as [c|] eqn:Ec;
    [|apply runs_ret; split; [now apply from_refl | exact Hne]].
  pose proof (at_some_lt _ _ _ _ Hat Ec) as Hlt.
  destruct (char_in c (String.append DIGITS "."));
    [|apply runs_ret; split; [now apply from_refl | exact Hne]].
  destruct (Ascii.eqb_spec c ".") as [->|Hc].
  - destruct (dc =? 0).
    + eapply runs_bind; [apply (runs_advance _ _ _ Hat)|].
      intros ? lx' Hat'. cbv beta.
      eapply runs_weaken;
        [apply (IH (S i)); [exact Hat' | lia |]|].
      * apply (number_ok_append _ _ lx); [exact Hok | exact Ec |].
        intros ->. cbn in Hok. congruence.
      * intros r lx'' [H H']. split; [|exact H'].
        apply (from_le _ i (S i)); [lia | exact H].
    + eapply runs_bind.
      * unfold _report_multiple_decimal_points. apply runs_get.
        apply (runs_report _ _ _ _ _ _ _ Hat).
      * intros ? lx' Hat'. apply runs_ret.
        split; [now apply from_refl | exact Hne].
  - eapply runs_bind; [apply (runs_advance _ _ _ Hat)|].
    intros ? lx' Hat'. cbv beta.
    eapply runs_weaken;
      [apply (IH (S i)); [exact Hat' | lia |]|].
    + apply (number_ok_append _ _ lx); [exact Hok | exact Ec |].
      intros _. exact Hc.
    + intros r lx'' [H H']. split; [|exact H'].
      apply (from_le _ i (S i)); [lia | exact H].
Qed.

Lemma runs_string_loop (src : string) :
  forall fuel i string_content lx,
    at_ src i lx -> (String.length src - i < fuel)%nat ->
    runs src (_string_loop fuel string_content) lx
      (fun _ lx' => from src i lx').
Proof.
  induction fuel as [|f IH]; intros i acc lx Hat Hf; [lia|].
  cbn [_string_loop]. apply runs_get.
  destruct (current_char lx) as [c|] eqn:Ec;
    [|apply runs_ret; now apply from_refl].
  pose proof (at_some_lt _ _ _ _ Hat Ec) as Hlt.
  destruct (Ascii.eqb c dquote); [apply runs_ret; now apply from_refl|].
  cbv zeta.
  destruct (Ascii.eqb_spec c backslash) as [->|Hc].
  - eapply runs_bind; [apply (runs_advance _ _ _ Hat)|].
    intros ? lx' Hat'. cbv beta. apply runs_get.
    destruct (current_char lx') as [d|] eqn:Ed.
    + pose proof (at_some_lt _ _ _ _ Hat' Ed) as Hlt'.
      eapply runs_bind; [apply (runs_advance _ _ _ Hat')|].
      intros ? lx'' Hat''. cbv beta.
      eapply runs_weaken; [apply (IH (S (S i))); [exact Hat'' | lia]|].
      intros ? lx3 H. apply (from_le _ i (S (S i))); [lia | exact H].
    + unfold runs, raise. right. split; [reflexivity|].
      apply (at_char_in _ _ _ _ Hat Ec).
  - eapply runs_bind; [apply (runs_advance _ _ _ Hat)|].
    intros ? lx' Hat'. cbv beta.
    eapply runs_weaken; [apply (IH (S i)); [exact Hat' | lia]|].
    intros ? lx'' H. apply (from_le _ i (S i)); [lia | exact H].
Qed.

(** ** The tokens *)

(** What holds after a token has been read from index [i]: the lexer has
    moved on and the token is not EOF. *)
Definition tok_ok (src : string) (i : nat) (tok : Token) (lx : t) : Prop :=
  from src (S i) lx /\ type_ tok <> EOF.

(** The same for one iteration of the loop of [tokenize]. *)
Definition step_ok (src : string) (i : nat) (r : option Token) (lx : t) : Prop :=
  from src (S i) lx /\ forall tok, r = Some tok -> type_ tok <> EOF.

Lemma type_Token_new (ty : TokenType) (lit : Literal) (ps : Position.t)
    (pe : option Position.t) :
  type_ (Token_new ty lit ps pe) = ty.
Proof. now destruct pe. Qed.

Lemma literal_Token_new (ty : TokenType) (lit : Literal) (ps : Position.t)
    (pe : option Position.t) :
  literal (Token_new ty lit ps pe) = lit.
Proof. now destruct pe. Qed.

Lemma lookup_ident_not_eof (s : string) : lookup_ident s <> EOF.
Proof.
  unfold lookup_ident. destruct (assoc_get s KEYWORDS) as [ty|] eqn:E.
  - apply TokenFacts.assoc_get_In in E. cbn in E.
    repeat (destruct E as [E|E]; [inversion E; discriminate|]). destruct E.
  - destruct (existsb (String.eqb s) TYPE_KEYWORDS); discriminate.
Qed.

Lemma char_in_incl (c : ascii) (s1 s2 : string) :
  forallb (fun x => char_in x s2) (list_ascii_of_string s1) = true ->
  char_in c s1 = true -> char_in c s2 = true.
Proof.
  intros Hall H. unfold char_in in H. apply existsb_exists in H.
  destruct H as [x [Hx E]]. apply Ascii.eqb_eq in E. subst x.
  rewrite forallb_forall in Hall. now apply Hall.
Qed.

Lemma letter_is_alphanumeric (c : ascii) :
  char_in c (String.append LETTERS "_") = true ->
  char_in c (String.append ALPHANUMERIC "_") = true.
Proof. apply char_in_incl. vm_compute. reflexivity. Qed.

Lemma runs_some (src : string) (i : nat) (m : M t Token) (lx : t) :
  runs src m lx (tok_ok src i) ->
  runs src (bind m (fun tok => ret (Some tok))) lx (step_ok src i).
Proof.
  intros H. eapply runs_bind; [exact H|].
  intros tok lx' [Hf Ht]. apply runs_ret. split; [exact Hf|].
  intros tok' E. inversion E; subst. exact Ht.
Qed.

Lemma runs_skip_whitespace_at (src : string) (fuel i : nat) (lx : t)
    (c : ascii) :
  at_ src i lx -> current_char lx = Some c -> char_in c WHITESPACE = true ->
  (String.length src - i < fuel)%nat ->
  runs src (_skip_whitespace fuel) lx (fun _ lx' => from src (S i) lx').
Proof.
  intros Hat Ec Hc Hf. destruct fuel as [|f]; [lia|].
  pose proof (at_some_lt _ _ _ _ Hat Ec) as Hlt.
  cbn [_skip_whitespace]. apply runs_get. rewrite Ec, Hc.
  eapply runs_bind; [apply (runs_advance _ _ _ Hat)|].
  intros ? lx' Hat'. cbv beta.
  apply (runs_skip_whitespace src f (S i)); [exact Hat' | lia].
Qed.

Lemma runs_process_identifier (src : string) (fuel i : nat) (lx : t)
    (c : ascii) :
  at_ src i lx -> current_char lx = Some c ->
  char_in c (String.append ALPHANUMERIC "_") = true ->
  (String.length src - i < fuel)%nat ->
  runs src (_process_identifier fuel) lx (tok_ok src i).
Proof.
  intros Hat Ec Hc Hf. destruct fuel as [|f]; [lia|].
  pose proof (at_some_lt _ _ _ _ Hat Ec) as Hlt.
  unfold _process_identifier. apply runs_get. cbv zeta.
  eapply runs_bind.
  - cbn [_identifier_loop]. apply runs_get. rewrite Ec, Hc.
    eapply runs_bind; [apply (runs_advance _ _ _ Hat)|].
    intros ? lx' Hat'. cbv beta.
    apply (runs_identifier_loop src f (S i)); [exact Hat' | lia].
  - intros identifier lx' Hfrom. apply runs_get. apply runs_ret.
    split; [exact Hfrom|]. rewrite type_Token_new. apply lookup_ident_not_eof.
Qed.

Lemma runs_process_number (src : string) (fuel i : nat) (lx : t) (c : ascii) :
  at_ src i lx -> current_char lx = Some c ->
  char_in c (String.append DIGITS ".") = true -> c <> "."%char ->
  (String.length src - i < fuel)%nat ->
  runs src (_process_number fuel) lx (tok_ok src i).
Proof.
  intros Hat Ec Hc Hp Hf. destruct fuel as [|f]; [lia|].
  pose proof (at_some_lt _ _ _ _ Hat Ec) as Hlt.
  unfold _process_number. apply runs_get. cbv zeta.
  eapply runs_bind.
  - cbn [_number_loop]. apply runs_get. rewrite Ec, Hc.
    destruct (Ascii.eqb_spec c ".") as [E|_]; [contradiction|].
    eapply runs_bind; [apply (runs_advance _ _ _ Hat)|].
    intros ? lx' Hat'. cbv beta.
    apply (runs_number_loop src f (S i)); [exact Hat' | lia |].
    cbn. exact Hp.
  - intros r lx' [Hfrom Hr]. apply runs_get.
    destruct (fst r =? 0).
    + apply runs_ret. split; [exact Hfrom|]. rewrite type_Token_new.
      discriminate.
    + unfold py_float. destruct (String.eqb_spec (snd r) ".") as [E|_];
        [contradiction|].
      apply runs_ret. split; [exact Hfrom|]. rewrite type_Token_new.
      discriminate.
Qed.

Lemma runs_is_invalid_decimal_point (src : string) (i : nat) (lx : t) :
  at_ src i lx ->
  runs src _is_invalid_decimal_point lx
    (fun r lx' => lx' = lx /\ (r = false -> current_char lx <> Some "."%char)).
Proof.
  intros Hat. unfold _is_invalid_decimal_point. apply runs_get.
  destruct (current_char lx) as [[[] [] [] [] [] [] [] []]|] eqn:Ec;
    cbv iota;
    try (apply runs_ret; split; [reflexivity | intros _; discriminate]).
  destruct (str_len (source_code lx) <=? Position.idx (position lx) + 1).
  - apply runs_ret. split; [reflexivity | discriminate].
  - unfold runs, raise. left. split; [reflexivity|].
    apply (at_char_in _ _ _ _ Hat Ec).
Qed.

(** The step of a token processor that is made of [advance], reads of the
    state, reports and tests of the current character. *)
Ltac token_steps :=
  repeat first
    [ match goal with
      | |- runs _ (bind get_state _) _ _ => apply runs_get; cbv zeta beta
      end
    | match goal with
      | |- runs _ (ret _) _ _ =>
          apply runs_ret; split;
          [ eexists; split; [|eassumption]; lia
          | rewrite type_Token_new; first [assumption | discriminate] ]
      end
    | match goal with
      | H : at_ _ _ ?lx |- runs _ (bind advance _) ?lx _ =>
          eapply runs_bind; [apply (runs_advance _ _ _ H)|];
          intros ? ? ?; cbv beta in *
      end
    | match goal with
      | H : at_ _ _ ?lx |- runs _ (bind (report _ _ _ _) _) ?lx _ =>
          eapply runs_bind; [apply (runs_report _ _ _ _ _ _ _ H)|];
          intros ? ? ?; cbv beta in *
      end
    | match goal with
      | |- runs _ (match current_char ?l with _ => _ end) _ _ =>
          destruct (current_char l) as [[[] [] [] [] [] [] [] []]|];
          cbv iota
      end ].

Lemma runs_op_or_equals (src : string) (i : nat) (lx : t)
    (single with_equals : TokenType) :
  at_ src i lx -> single <> EOF -> with_equals <> EOF ->
  runs src (_process_op_or_equals single with_equals) lx (tok_ok src i).
Proof.
  intros Hat H1 H2. unfold _process_op_or_equals, tok_ok, from. token_steps.
Qed.

Lemma runs_minus_or_arrow (src : string) (i : nat) (lx : t) :
  at_ src i lx -> runs src _process_minus_or_arrow lx (tok_ok src i).
Proof.
  intros Hat. unfold _process_minus_or_arrow, tok_ok, from. token_steps.
Qed.

Lemma runs_asterisks (src : string) (i : nat) (lx : t) :
  at_ src i lx -> runs src _process_asterisks lx (tok_ok src i).
Proof.
  intros Hat. unfold _process_asterisks, tok_ok, from. token_steps.
Qed.

Lemma runs_not_equals (src : string) (i : nat) (lx : t) :
  at_ src i lx -> runs src _process_not_equals lx (tok_ok src i).
Proof.
  intros Hat. unfold _process_not_equals, tok_ok, from. token_steps.
Qed.

Lemma runs_single_char (src : string) (i : nat) (lx : t) (ty : TokenType)
    (c : ascii) :
  at_ src i lx -> ty <> EOF -> runs src (single_char ty c) lx (tok_ok src i).
Proof.
  intros Hat Hty. unfold single_char, tok_ok, from. token_steps.
Qed.

Lemma runs_illegal_character (src : string) (i : nat) (lx : t) :
  at_ src i lx -> runs src _process_illegal_character lx (tok_ok src i).
Proof.
  intros Hat. unfold _process_illegal_character, tok_ok, from. token_steps.
Qed.

Lemma runs_process_string (src : string) (fuel i : nat) (lx : t) :
  at_ src i lx -> (String.length src - i < fuel)%nat ->
  runs src (_process_string fuel) lx (tok_ok src i).
Proof.
  intros Hat Hf. unfold _process_string. apply runs_get. cbv zeta.
  eapply runs_bind; [apply (runs_advance _ _ _ Hat)|].
  intros ? lx1 Hat1. cbv beta.
  eapply runs_bind;
    [apply (runs_string_loop src fuel (S i)); [exact Hat1 | lia]|].
  intros string_content lx2 (j & Hj & Hat2). apply runs_get.
  eapply runs_bind with (Q := fun _ lx' => from src (S i) lx').
  - destruct (current_char lx2) as [d|].
    + eapply runs_weaken; [apply (runs_advance _ _ _ Hat2)|].
      intros ? lx3 H. exists (S j). split; [lia | exact H].
    + unfold _report_unterminated_string. apply runs_get.
      eapply runs_weaken; [apply (runs_report _ _ _ _ _ _ _ Hat2)|].
      intros ? lx3 H. exists j. split; [lia | exact H].
  - intros ? lx3 Hfrom. apply runs_get. apply runs_ret.
    split; [exact Hfrom|]. rewrite type_Token_new. discriminate.
Qed.

(** ** The loop of [tokenize] *)

Lemma runs_tokenize_step (src : string) (fuel i : nat) (lx : t) (c : ascii) :
  at_ src i lx -> current_char lx = Some c ->
  (String.length src - i < fuel)%nat ->
  runs src (tokenize_step fuel c) lx (step_ok src i).
Proof.
  intros Hat Ec Hf. unfold tokenize_step.
  destruct (char_in c WHITESPACE) eqn:Ews.
  { eapply runs_bind;
      [apply (runs_skip_whitespace_at _ _ _ _ _ Hat Ec Ews Hf)|].
    intros ? lx' H. apply runs_ret. split; [exact H | discriminate]. }
  destruct (Ascii.eqb c "#").
  { eapply runs_bind; [apply (runs_skip_comment _ _ _ _ Hat Hf)|].
    intros ? lx' H. apply runs_ret. split; [exact H | discriminate]. }
  destruct (char_in c (String.append LETTERS "_")) eqn:El.
  { apply runs_some.
    apply (runs_process_identifier _ _ _ _ c Hat Ec); [|exact Hf].
    now apply letter_is_alphanumeric. }
  destruct (char_in c (String.append DIGITS ".")) eqn:Ed.
  { eapply runs_bind; [apply (runs_is_invalid_decimal_point _ _ _ Hat)|].
    intros invalid lx' [-> Hinv]. destruct invalid.
    - unfold _report_invalid_decimal_point.
      eapply runs_bind;
        [apply runs_get; apply (runs_report _ _ _ _ _ _ _ Hat)|].
      intros ? lx1 Hat1. cbv beta in Hat1.
      eapply runs_bind; [apply (runs_advance _ _ _ Hat1)|].
      intros ? lx2 Hat2. cbv beta in Hat2. apply runs_ret.
      split; [now apply from_refl | discriminate].
    - apply runs_some.
      apply (runs_process_number _ _ _ _ c Hat Ec Ed); [|exact Hf].
      intros ->. now apply Hinv. }
  destruct (Ascii.eqb c dquote).
  { apply runs_some. apply (runs_process_string _ _ _ _ Hat Hf). }
  repeat match goal with
         | |- runs _ (if ?b then _ else _) _ _ => destruct b
         end;
    apply runs_some;
    first [ apply (runs_op_or_equals _ _ _ _ _ Hat); discriminate
          | apply (runs_minus_or_arrow _ _ _ Hat)
          | apply (runs_asterisks _ _ _ Hat)
          | apply (runs_not_equals _ _ _ Hat)
          | apply (runs_single_char _ _ _ _ _ Hat); discriminate
          | apply (runs_illegal_character _ _ _ Hat) ].
Qed.

Lemma runs_tokenize_loop (src : string) :
  forall fuel i tokens lx,
    at_ src i lx -> (String.length src - i + 1 < fuel)%nat ->
    runs src (tokenize_loop fuel tokens) lx
      (fun r lx' =>
         exists more, r = tokens ++ more
                      /\ Forall (fun tok => type_ tok <> EOF) more
                      /\ current_char lx' = None).
Proof.
  induction fuel as [|f IH]; intros i tokens lx Hat Hf; [lia|].
  cbn [tokenize_loop]. apply runs_get.
  destruct (current_char lx) as [c|] eqn:Ec.
  - pose proof (at_some_lt _ _ _ _ Hat Ec) as Hlt.
    eapply runs_bind;
      [apply (runs_tokenize_step _ f _ _ _ Hat Ec); lia|].
    intros r lx' [(j & Hj & Hat') Hr].
    destruct r as [tok|].
    + eapply runs_weaken; [apply (IH j _ _ Hat'); lia|].
      intros r lx'' (more & -> & Hall & Hnone).
      exists (tok :: more). rewrite <- app_assoc.
      split; [reflexivity|]. split; [|exact Hnone].
      constructor; [now apply Hr | exact Hall].
    + eapply runs_weaken; [apply (IH j _ _ Hat'); lia|].
      intros r lx'' H. exact H.
  - apply runs_ret. exists []. rewrite app_nil_r.
    split; [reflexivity|]. split; [constructor | exact Ec].
Qed.

(** The outcome of a run of the lexer, whatever the source. *)
Lemma lex_outcome (src file : string) :
  match lex src file with
  | Ok tokens lx =>
      exists front eof,
        tokens = front ++ [eof]
        /\ type_ eof = EOF /\ literal eof = LNone
        /\ Forall (fun tok => type_ tok <> EOF) front
        /\ current_char lx = None
  | Raise e _ => crash src e
  | OutOfFuel => False
  end.
Proof.
  unfold lex. destruct (new_at src file) as (lx0 & E & Hat & _).
  rewrite E.
  assert (H : runs src (tokenize (fuel_for src)) lx0
                (fun tokens lx =>
                   exists front eof,
                     tokens = front ++ [eof]
                     /\ type_ eof = EOF /\ literal eof = LNone
                     /\ Forall (fun tok => type_ tok <> EOF) front
                     /\ current_char lx = None)).
  { unfold tokenize.
    eapply runs_bind;
      [apply (runs_tokenize_loop src (fuel_for src) 0 [] lx0 Hat);
       unfold fuel_for; lia|].
    intros r lx (more & -> & Hall & Hnone). apply runs_get. apply runs_ret.
    eexists. eexists. split; [reflexivity|].
    split; [apply type_Token_new|].
    split; [apply literal_Token_new|].
    split; [exact Hall | exact Hnone]. }
  exact H.
Qed.

Lemma eof_last_snoc (front : list Token) (eof : Token) :
  Forall (fun tok => type_ tok <> EOF) front -> type_ eof = EOF ->
  AsiSpec.eof_last (front ++ [eof]) = true.
Proof.
  intros Hall He. induction Hall as [|a l Ha Hall IH].
  - cbn. rewrite He. reflexivity.
  - change ((a :: l) ++ [eof]) with (a :: (l ++ [eof])).
    cbn [AsiSpec.eof_last]. destruct (l ++ [eof]) eqn:E.
    + destruct l; discriminate.
    + rewrite IH. unfold tt_eqb.
      destruct (TokenType_eq_dec (type_ a) EOF); [contradiction | reflexivity].
Qed.


(* @@END@@ *)
End LexerRuns.

(* ===================================================================== *)
(** * What the lexer makes of words, numbers, strings and comments *)
(* ===================================================================== *)

Module LexerWords.
Import PyStr Lexer LexerRuns.

(** The lexer has read [pre] and is about to read [rest]. *)
Definition At (pre rest : string) (lx : t) : Prop :=
  at_ (String.append pre rest) (String.length pre) lx.

(** Every character of [w] is one of [chars]. *)
Definition all_in (chars w : string) : bool :=
  forallb (fun c => char_in c chars) (list_ascii_of_string w).

(** The first character of [rest], if any, is none of [chars]. *)
Definition stops_at (chars rest : string) : bool :=
  match rest with
  | EmptyString => true
  | String d _ => negb (char_in d chars)
  end.

Lemma append_nil_r (s : string) : String.append s EmptyString = s.
Proof.
  induction s as [|a s IH]; [reflexivity|].
  change (String a (String.append s EmptyString) = String a s). now rewrite IH.
Qed.

Lemma append_assoc (a b c : string) :
  String.append (String.append a b) c = String.append a (String.append b c).
Proof.
  induction a as [|x a IH]; [reflexivity|].
  change (String x (String.append (String.append a b) c)
          = String x (String.append a (String.append b c))).
  now rewrite IH.
Qed.

Lemma append_snoc (pre : string) (c : ascii) (rest : string) :
  String.append (String.append pre (str1 c)) rest
  = String.append pre (String c rest).
Proof. rewrite append_assoc. reflexivity. Qed.

Lemma length_snoc (pre : string) (c : ascii) :
  String.length (String.append pre (str1 c)) = S (String.length pre).
Proof. rewrite LiteralFacts.length_append. cbn. lia. Qed.

Lemma get_here (pre rest : string) :
  String.get (String.length pre) (String.append pre rest)
  = match rest with EmptyString => None | String c _ => Some c end.
Proof.
  induction pre as [|a pre IH]; [now destruct rest | exact IH].
Qed.

Lemma At_some (pre rest : string) (c : ascii) (lx : t) :
  At pre (String c rest) lx -> current_char lx = Some c.
Proof. intros (_ & _ & H). now rewrite H, get_here. Qed.

Lemma At_none (pre : string) (lx : t) :
  At pre EmptyString lx -> current_char lx = None.
Proof. intros (_ & _ & H). now rewrite H, get_here. Qed.

Lemma At_idx (pre rest : string) (lx : t) :
  At pre rest lx -> Position.idx (position lx) = Z.of_nat (String.length pre).
Proof. intros (_ & H & _). exact H. Qed.

Lemma At_advance (pre rest : string) (c : ascii) (lx : t) :
  At pre (String c rest) lx ->
  exists lx', advance lx = Ok tt lx'
              /\ At (String.append pre (str1 c)) rest lx'
              /\ error_handler lx' = error_handler lx.
Proof.
  intros H. destruct (advance_at _ _ _ H) as (lx' & E & H' & Heh).
  exists lx'. split; [exact E|]. split; [|exact Heh].
  unfold At. now rewrite append_snoc, length_snoc.
Qed.

(** The step past the end of the source, taken after a comment that the
    source ends with. *)
Lemma At_advance_end (pre : string) (lx : t) :
  At pre EmptyString lx ->
  exists lx', advance lx = Ok tt lx' /\ current_char lx' = None
              /\ error_handler lx' = error_handler lx.
Proof.
  intros H. destruct (advance_at _ _ _ H) as (lx' & E & (_ & _ & Hc) & Heh).
  exists lx'. split; [exact E|]. split; [|exact Heh].
  rewrite Hc. apply get_ge. rewrite LiteralFacts.length_append. cbn. lia.
Qed.

Lemma new_At (src file : string) :
  exists lx, new src file None = Ok tt lx /\ At EmptyString src lx
             /\ errors (error_handler lx) = [].
Proof. exact (new_at src file). Qed.

Lemma all_in_cons (chars : string) (c : ascii) (w : string) :
  all_in chars (String c w) = true ->
  char_in c chars = true /\ all_in chars w = true.
Proof. intros H. now apply andb_true_iff in H. Qed.

Lemma char_in_all (P : ascii -> bool) (s : string) (c : ascii) :
  forallb P (list_ascii_of_string s) = true -> char_in c s = true ->
  P c = true.
Proof.
  intros Hall H. unfold char_in in H. apply existsb_exists in H.
  destruct H as [x [Hx E]]. apply Ascii.eqb_eq in E. subst x.
  rewrite forallb_forall in Hall. now apply Hall.
Qed.

(** ** The loops on a run of characters *)

Lemma identifier_loop_run :
  forall (w pre rest : string) (lx : t),
    At pre (String.append w rest) lx ->
    all_in (String.append ALPHANUMERIC "_") w = true ->
    exists lx',
      At (String.append pre w) rest lx'
      /\ error_handler lx' = error_handler lx
      /\ forall f identifier,
           _identifier_loop (String.length w + f) identifier lx
           = _identifier_loop f (String.append identifier w) lx'.
Proof.
  induction w as [|c w IH]; intros pre rest lx Hat Hall.
  - exists lx. rewrite append_nil_r. split; [exact Hat|].
    split; [reflexivity|]. intros f acc. now rewrite append_nil_r.
  - apply all_in_cons in Hall as [Hc Hall].
    cbn [String.append] in Hat.
    destruct (At_advance _ _ _ _ Hat) as (lx1 & E1 & Hat1 & Heh1).
    destruct (IH _ _ _ Hat1 Hall) as (lx' & Hat' & Heh' & Hrun).
    exists lx'. rewrite append_snoc in Hat'. split; [exact Hat'|].
    split; [congruence|]. intros f acc.
    cbn [String.length Nat.add _identifier_loop].
    unfold bind at 1, get_state at 1. rewrite (At_some _ _ _ _ Hat), Hc.
    unfold bind at 1. rewrite E1. rewrite Hrun.
    now rewrite append_snoc.
Qed.

Lemma identifier_loop_stop (pre rest : string) (lx : t) (f : nat)
    (identifier : string) :
  At pre rest lx ->
  stops_at (String.append ALPHANUMERIC "_") rest = true ->
  _identifier_loop (S f) identifier lx = Ok identifier lx.
Proof.
  intros Hat Hs. cbn [_identifier_loop]. unfold bind, get_state.
  destruct rest as [|d rest].
  - now rewrite (At_none _ _ Hat).
  - rewrite (At_some _ _ _ _ Hat). cbn in Hs.
    apply negb_true_iff in Hs. now rewrite Hs.
Qed.

Lemma number_loop_digits :
  forall (d pre rest : string) (lx : t),
    At pre (String.append d rest) lx ->
    all_in DIGITS d = true ->
    exists lx',
      At (String.append pre d) rest lx'
      /\ error_handler lx' = error_handler lx
      /\ forall f decimal_count number_str,
           _number_loop (String.length d + f) decimal_count number_str lx
           = _number_loop f decimal_count (String.append number_str d) lx'.
Proof.
  induction d as [|c d IH]; intros pre rest lx Hat Hall.
  - exists lx. rewrite append_nil_r. split; [exact Hat|].
    split; [reflexivity|]. intros f dc acc. now rewrite append_nil_r.
  - apply all_in_cons in Hall as [Hc Hall].
    assert (Hc' : char_in c (String.append DIGITS ".") = true).
    { revert Hc. apply char_in_incl. vm_compute. reflexivity. }
    assert (Hp : Ascii.eqb c "." = false).
    { apply negb_true_iff.
      apply (char_in_all (fun x => negb (Ascii.eqb x ".")) DIGITS);
        [vm_compute; reflexivity | exact Hc]. }
    cbn [String.append] in Hat.
    destruct (At_advance _ _ _ _ Hat) as (lx1 & E1 & Hat1 & Heh1).
    destruct (IH _ _ _ Hat1 Hall) as (lx' & Hat' & Heh' & Hrun).
    exists lx'. rewrite append_snoc in Hat'. split; [exact Hat'|].
    split; [congruence|]. intros f dc acc.
    cbn [String.length Nat.add _number_loop].
    unfold bind at 1, get_state at 1. rewrite (At_some _ _ _ _ Hat), Hc', Hp.
    unfold bind at 1. rewrite E1. rewrite Hrun.
    now rewrite append_snoc.
Qed.

Lemma number_loop_point (pre rest : string) (lx : t) :
  At pre (String "." rest) lx ->
  exists lx',
    At (String.append pre ".") rest lx'
    /\ error_handler lx' = error_handler lx
    /\ forall f number_str,
         _number_loop (S f) 0 number_str lx
         = _number_loop f 1 (String.append number_str ".") lx'.
Proof.
  intros Hat. destruct (At_advance _ _ _ _ Hat) as (lx1 & E1 & Hat1 & Heh1).
  exists lx1. split; [exact Hat1|]. split; [exact Heh1|]. intros f acc.
  cbn [_number_loop]. unfold bind at 1, get_state at 1.
  rewrite (At_some _ _ _ _ Hat).
  change (char_in "." (String.append DIGITS ".")) with true.
  change (Ascii.eqb "." ".") with true. change (0 =? 0) with true.
  cbv iota. unfold bind at 1. rewrite E1. reflexivity.
Qed.

Lemma number_loop_stop (pre rest : string) (lx : t) (f : nat)
    (decimal_count : Z) (number_str : string) :
  At pre rest lx ->
  stops_at (String.append DIGITS ".") rest = true ->
  _number_loop (S f) decimal_count number_str lx
  = Ok (decimal_count, number_str) lx.
Proof.
  intros Hat Hs. cbn [_number_loop]. unfold bind, get_state.
  destruct rest as [|d rest].
  - now rewrite (At_none _ _ Hat).
  - rewrite (At_some _ _ _ _ Hat). cbn in Hs.
    apply negb_true_iff in Hs. now rewrite Hs.
Qed.

(** ** The loop of [tokenize], step by step *)

Lemma tokenize_loop_end (f : nat) (tokens : list Token) (lx : t) :
  current_char lx = None -> tokenize_loop (S f) tokens lx = Ok tokens lx.
Proof.
  intros H. cbn [tokenize_loop]. unfold bind, get_state. now rewrite H.
Qed.

Lemma tokenize_loop_some (f : nat) (tokens : list Token) (lx : t) (c : ascii) :
  current_char lx = Some c ->
  tokenize_loop (S f) tokens lx
  = match tokenize_step f c lx with
    | Ok (Some tok) lx' => tokenize_loop f (tokens ++ [tok]) lx'
    | Ok None lx' => tokenize_loop f tokens lx'
    | Raise e lx' => Raise e lx'
    | OutOfFuel => OutOfFuel
    end.
Proof.
  intros H. cbn [tokenize_loop]. unfold bind at 1, get_state at 1.
  rewrite H. unfold bind at 1.
  destruct (tokenize_step f c lx) as [[tok|] lx'|e lx'|]; reflexivity.
Qed.

Lemma step_letter (f : nat) (c : ascii) (lx : t) :
  char_in c (String.append LETTERS "_") = true ->
  tokenize_step f c lx
  = match _process_identifier f lx with
    | Ok tok lx' => Ok (Some tok) lx'
    | Raise e lx' => Raise e lx'
    | OutOfFuel => OutOfFuel
    end.
Proof.
  intros H. unfold tokenize_step.
  assert (H1 : char_in c WHITESPACE = false).
  { apply negb_true_iff.
    apply (char_in_all (fun x => negb (char_in x WHITESPACE))
             (String.append LETTERS "_"));
      [vm_compute; reflexivity | exact H]. }
  assert (H2 : Ascii.eqb c "#" = false).
  { apply negb_true_iff.
    apply (char_in_all (fun x => negb (Ascii.eqb x "#"))
             (String.append LETTERS "_"));
      [vm_compute; reflexivity | exact H]. }
  rewrite H1, H2, H. unfold bind, ret.
  destruct (_process_identifier f lx); reflexivity.
Qed.

Lemma not_invalid_decimal_point (c : ascii) (lx : t) :
  current_char lx = Some c -> c <> "."%char ->
  _is_invalid_decimal_point lx = Ok false lx.
Proof.
  intros H Hc. unfold _is_invalid_decimal_point, bind, get_state. rewrite H.
  destruct c as [[] [] [] [] [] [] [] []]; try reflexivity.
  now contradiction Hc.
Qed.

Lemma step_digit (f : nat) (c : ascii) (lx : t) :
  current_char lx = Some c -> char_in c DIGITS = true ->
  tokenize_step f c lx
  = match _process_number f lx with
    | Ok tok lx' => Ok (Some tok) lx'
    | Raise e lx' => Raise e lx'
    | OutOfFuel => OutOfFuel
    end.
Proof.
  intros Hcur H. unfold tokenize_step.
  assert (H1 : char_in c WHITESPACE = false).
  { apply negb_true_iff.
    apply (char_in_all (fun x => negb (char_in x WHITESPACE)) DIGITS);
      [vm_compute; reflexivity | exact H]. }
  assert (H2 : Ascii.eqb c "#" = false).
  { apply negb_true_iff.
    apply (char_in_all (fun x => negb (Ascii.eqb x "#")) DIGITS);
      [vm_compute; reflexivity | exact H]. }
  assert (H3 : char_in c (String.append LETTERS "_") = false).
  { apply negb_true_iff.
    apply (char_in_all
             (fun x => negb (char_in x (String.append LETTERS "_"))) DIGITS);
      [vm_compute; reflexivity | exact H]. }
  assert (H4 : char_in c (String.append DIGITS ".") = true).
  { revert H. apply char_in_incl. vm_compute. reflexivity. }
  assert (H5 : c <> "."%char).
  { intros ->. discriminate H. }
  rewrite H1, H2, H3, H4. unfold bind at 1.
  rewrite (not_invalid_decimal_point c lx Hcur H5). unfold bind, ret.
  destruct (_process_number f lx); reflexivity.
Qed.

(** ** Words *)

Lemma process_identifier_word (c : ascii) (w' pre rest : string) (lx : t)
    (f : nat) :
  At pre (String.append (String c w') rest) lx ->
  all_in (String.append ALPHANUMERIC "_") (String c w') = true ->
  stops_at (String.append ALPHANUMERIC "_") rest = true ->
  (String.length (String c w') < f)%nat ->
  exists lx',
    _process_identifier f lx
    = Ok (Token_new (lookup_ident (String c w')) (LStr (String c w'))
            (position lx) (Some (position lx'))) lx'
    /\ At (String.append pre (String c w')) rest lx'
    /\ error_handler lx' = error_handler lx.
Proof.
  intros Hat Hall Hs Hf.
  destruct (identifier_loop_run _ _ _ _ Hat Hall) as (lx' & Hat' & Heh & Hrun).
  exists lx'. split; [|split; assumption].
  unfold _process_identifier, bind at 1, get_state at 1. unfold bind at 1.
  replace f with (String.length (String c w')
                  + S (f - S (String.length (String c w'))))%nat by lia.
  rewrite Hrun, (identifier_loop_stop _ _ _ _ _ Hat' Hs).
  reflexivity.
Qed.

(** A word, that is a letter or an underscore followed by letters, digits
    and underscores, is read as one token, however it begins: its type is
    the one [lookup_ident] gives the whole word, its literal is the word,
    it spans the word, and nothing is reported.  A word that only begins
    with a keyword is not split. *)
Theorem lex_word (c : ascii) (w' file : string) :
  char_in c (String.append LETTERS "_") = true ->
  all_in (String.append ALPHANUMERIC "_") w' = true ->
  exists tok eof lx,
    lex (String c w') file = Ok [tok; eof] lx
    /\ type_ tok = lookup_ident (String c w')
    /\ literal tok = LStr (String c w')
    /\ Position.idx (pos_start tok) = 0
    /\ Position.idx (pos_end tok) = Z.of_nat (String.length (String c w'))
    /\ type_ eof = EOF
    /\ errors (error_handler lx) = [].
Proof.
  intros Hc Hall.
  destruct (new_At (String c w') file) as (lx0 & E0 & Hat0 & Herr0).
  assert (Hat : At EmptyString (String.append (String c w') EmptyString) lx0)
    by now rewrite append_nil_r.
  assert (Hw : all_in (String.append ALPHANUMERIC "_") (String c w') = true).
  { unfold all_in. cbn [list_ascii_of_string forallb].
    rewrite (letter_is_alphanumeric _ Hc). exact Hall. }
  destruct (process_identifier_word c w' EmptyString EmptyString lx0
              (S (String.length (String c w'))) Hat Hw eq_refl
              ltac:(lia))
    as (lx1 & E1 & Hat1 & Heh1).
  eexists. eexists. exists lx1.
  split.
  - unfold lex. rewrite E0. unfold tokenize, bind at 1, fuel_for.
    rewrite (tokenize_loop_some _ _ _ c (At_some _ _ _ _ Hat)).
    rewrite (step_letter _ _ _ Hc), E1.
    rewrite (tokenize_loop_end _ _ _ (At_none _ _ Hat1)).
    reflexivity.
  - rewrite type_Token_new, literal_Token_new.
    split; [reflexivity|]. split; [reflexivity|].
    split; [exact (At_idx _ _ _ Hat0)|].
    split; [exact (At_idx _ _ _ Hat1)|].
    split; [apply type_Token_new|].
    now rewrite Heh1.
Qed.

(** ** Numbers *)


(** ** Strings *)

(** The text between the quotes of a string literal: a backslash goes
    with the character after it, whatever that is; no other character is a
    quote. *)
Fixpoint escaped_body (s : string) : bool :=
  match s with
  | EmptyString => true
  | String c s' =>
      if Ascii.eqb c backslash then
        match s' with
        | EmptyString => false
        | String _ s'' => escaped_body s''
        end
      else negb (Ascii.eqb c dquote) && escaped_body s'
  end.

(** The iterations the string loop takes on such a text. *)
Fixpoint string_steps (s : string) : nat :=
  match s with
  | EmptyString => O
  | String c s' =>
      if Ascii.eqb c backslash then
        match s' with
        | EmptyString => 1%nat
        | String _ s'' => S (string_steps s'')
        end
      else S (string_steps s')
  end.

Lemma string_steps_le (body : string) :
  (string_steps body <= String.length body)%nat.
Proof.
  assert (H : forall n b, (String.length b <= n)%nat ->
                          (string_steps b <= String.length b)%nat).
  { induction n as [|n IH]; intros b Hb.
    - destruct b; [cbn; lia | cbn in Hb; lia].
    - destruct b as [|c b]; [cbn; lia|]. cbn [string_steps String.length].
      cbn [String.length] in Hb.
      destruct (Ascii.eqb c backslash).
      + destruct b as [|d b]; [lia|]. cbn [String.length] in *.
        specialize (IH b ltac:(lia)). lia.
      + specialize (IH b ltac:(lia)). lia. }
  now apply (H (String.length body)).
Qed.

Lemma string_loop_run :
  forall (n : nat) (body : string),
    (String.length body <= n)%nat ->
    forall (pre rest : string) (lx : t),
      At pre (String.append body rest) lx ->
      escaped_body body = true ->
      exists lx',
        At (String.append pre body) rest lx'
        /\ error_handler lx' = error_handler lx
        /\ (string_steps body <= String.length body)%nat
        /\ forall f string_content,
             _string_loop (string_steps body + f) string_content lx
             = _string_loop f (String.append string_content body) lx'.
Proof.
  induction n as [|n IH]; intros body Hn pre rest lx Hat Hesc.
  - destruct body; [|cbn in Hn; lia].
    exists lx. rewrite append_nil_r. split; [exact Hat|].
    split; [reflexivity|]. split; [cbn; lia|].
    intros f acc. now rewrite append_nil_r.
  - destruct body as [|c body].
    { exists lx. rewrite append_nil_r. split; [exact Hat|].
      split; [reflexivity|]. split; [cbn; lia|].
      intros f acc. now rewrite append_nil_r. }
    cbn [escaped_body] in Hesc. cbn [String.length] in Hn.
    change (String.append (String c body) rest)
      with (String c (String.append body rest)) in Hat.
    destruct (At_advance _ _ _ _ Hat) as (lx1 & E1 & Hat1 & Heh1).
    destruct (Ascii.eqb_spec c backslash) as [->|Hc].
    + destruct body as [|d body]; [discriminate|].
      change (String.append (String d body) rest)
        with (String d (String.append body rest)) in Hat1.
      destruct (At_advance _ _ _ _ Hat1) as (lx2 & E2 & Hat2 & Heh2).
      cbn [String.length] in Hn.
      destruct (IH body ltac:(lia) _ _ _ Hat2 Hesc)
        as (lx' & Hat' & Heh' & Hle & Hrun).
      exists lx'. rewrite !append_snoc in Hat'. split; [exact Hat'|].
      split; [congruence|].
      cbn [string_steps String.length].
      change (Ascii.eqb backslash backslash) with true. cbv iota.
      split; [lia|]. intros f acc.
      cbn [Nat.add _string_loop]. unfold bind at 1, get_state at 1.
      rewrite (At_some _ _ _ _ Hat).
      change (Ascii.eqb backslash dquote) with false.
      change (Ascii.eqb backslash backslash) with true. cbv iota zeta.
      unfold bind at 1. rewrite E1.
      unfold bind at 1, get_state at 1.
      rewrite (At_some _ _ _ _ Hat1).
      unfold bind at 1. rewrite E2. rewrite Hrun.
      now rewrite !append_snoc.
    + apply andb_true_iff in Hesc as [Hq Hesc].
      apply negb_true_iff in Hq.
      destruct (IH body ltac:(lia) _ _ _ Hat1 Hesc)
        as (lx' & Hat' & Heh' & Hle & Hrun).
      exists lx'. rewrite append_snoc in Hat'. split; [exact Hat'|].
      split; [congruence|].
      assert (Hb : Ascii.eqb c backslash = false)
        by now apply Ascii.eqb_neq.
      cbn [string_steps String.length]. rewrite Hb.
      split; [lia|]. intros f acc.
      cbn [Nat.add _string_loop]. unfold bind at 1, get_state at 1.
      rewrite (At_some _ _ _ _ Hat), Hq, Hb. cbv zeta.
      unfold bind at 1. rewrite E1. rewrite Hrun.
      now rewrite append_snoc.
Qed.

Lemma string_loop_quote (pre rest : string) (lx : t) (f : nat)
    (string_content : string) :
  At pre (String dquote rest) lx ->
  _string_loop (S f) string_content lx = Ok string_content lx.
Proof.
  intros Hat. cbn [_string_loop]. unfold bind, get_state.
  rewrite (At_some _ _ _ _ Hat). reflexivity.
Qed.

Lemma string_loop_end (pre : string) (lx : t) (f : nat)
    (string_content : string) :
  At pre EmptyString lx ->
  _string_loop (S f) string_content lx = Ok string_content lx.
Proof.
  intros Hat. cbn [_string_loop]. unfold bind, get_state.
  now rewrite (At_none _ _ Hat).
Qed.

Lemma string_loop_backslash (pre : string) (lx : t) (f : nat)
    (string_content : string) :
  At pre (String backslash EmptyString) lx ->
  exists lx', _string_loop (S f) string_content lx = Raise concat_error lx'
              /\ error_handler lx' = error_handler lx.
Proof.
  intros Hat. destruct (At_advance _ _ _ _ Hat) as (lx1 & E1 & Hat1 & Heh1).
  exists lx1. split; [|exact Heh1].
  cbn [_string_loop]. unfold bind at 1, get_state at 1.
  rewrite (At_some _ _ _ _ Hat).
  change (Ascii.eqb backslash dquote) with false.
  change (Ascii.eqb backslash backslash) with true. cbv iota zeta.
  unfold bind at 1. rewrite E1. unfold bind, get_state.
  now rewrite (At_none _ _ Hat1).
Qed.

Lemma step_quote (f : nat) (lx : t) :
  tokenize_step f dquote lx
  = match _process_string f lx with
    | Ok tok lx' => Ok (Some tok) lx'
    | Raise e lx' => Raise e lx'
    | OutOfFuel => OutOfFuel
    end.
Proof.
  change (tokenize_step f dquote lx)
    with (bind (_process_string f) (fun tok => ret (Some tok)) lx).
  unfold bind, ret. destruct (_process_string f lx); reflexivity.
Qed.

(** The start of [_process_string] on a quote followed by such a text:
    the loop has read the text. *)
Lemma process_string_body (pre body rest : string) (lx : t) (f k : nat) :
  At pre (String dquote (String.append body rest)) lx ->
  escaped_body body = true ->
  f = (string_steps body + k)%nat ->
  exists lx',
    At (String.append (String.append pre (str1 dquote)) body) rest lx'
    /\ error_handler lx' = error_handler lx
    /\ _process_string f lx
       = match _string_loop k body lx' with
         | Ok string_content lx2 =>
             match
               match current_char lx2 with
               | None => _report_unterminated_string (position lx) lx2
               | Some _ => advance lx2
               end
             with
             | Ok _ lx3 =>
                 Ok (Token_new STRING (LStr string_content) (position lx)
                       (Some (position lx3))) lx3
             | Raise e lx3 => Raise e lx3
             | OutOfFuel => OutOfFuel
             end
         | Raise e lx2 => Raise e lx2
         | OutOfFuel => OutOfFuel
         end.
Proof.
  intros Hat Hesc ->.
  destruct (At_advance _ _ _ _ Hat) as (lx1 & E1 & Hat1 & Heh1).
  destruct (string_loop_run _ body (Nat.le_refl _) _ _ _ Hat1 Hesc)
    as (lx' & Hat' & Heh' & _ & Hrun).
  exists lx'. split; [exact Hat'|]. split; [congruence|].
  unfold _process_string, bind at 1, get_state at 1. cbv zeta.
  unfold bind at 1. rewrite E1. unfold bind at 1. rewrite Hrun.
  change (String.append EmptyString body) with body.
  destruct (_string_loop k body lx') as [sc lx2|e lx2|]; [|reflexivity..].
  unfold bind at 1, get_state at 1. unfold bind at 1.
  unfold Position.copy.
  destruct (match current_char lx2 with
            | Some _ => advance
            | None => _report_unterminated_string (position lx)
            end lx2) as [u lx3|e lx3|] eqn:E; destruct (current_char lx2);
    rewrite E; reflexivity.
Qed.

Definition quoted_open (body : string) : string := String dquote body.
Definition quoted (body : string) : string :=
  String dquote (String.append body (str1 dquote)).

(** A string literal whose closing quote is there is read as one STRING
    token.  Its literal is the text between the quotes exactly as written:
    a backslash and the character after it are both kept (the lexer decodes
    nothing), and a quote after a backslash does not end the literal.
    Nothing is reported. *)
Theorem lex_string (body file : string) :
  escaped_body body = true ->
  exists tok eof lx,
    lex (quoted body) file = Ok [tok; eof] lx
    /\ type_ tok = STRING
    /\ literal tok = LStr body
    /\ type_ eof = EOF
    /\ errors (error_handler lx) = [].
Proof.
  intros Hesc. unfold quoted.
  destruct (new_At (String dquote (String.append body (str1 dquote))) file)
    as (lx0 & E0 & Hat0 & Herr0).
  pose proof (string_steps_le body) as Hle.
  set (f := S (String.length
                 (String dquote (String.append body (str1 dquote))))).
  destruct (process_string_body EmptyString body (str1 dquote) lx0 f
              (S (f - S (string_steps body))) Hat0 Hesc)
    as (lx1 & Hat1 & Heh1 & Erun).
  { unfold f. cbn [String.length]. rewrite LiteralFacts.length_append.
    cbn [String.length str1]. lia. }
  destruct (At_advance _ _ _ _ Hat1) as (lx2 & E2 & Hat2 & Heh2).
  eexists. eexists. exists lx2.
  split.
  - unfold lex. rewrite E0. unfold tokenize, bind at 1, fuel_for.
    fold f.
    rewrite (tokenize_loop_some _ _ _ dquote (At_some _ _ _ _ Hat0)).
    rewrite step_quote, Erun.
    rewrite (string_loop_quote _ _ _ _ _ Hat1).
    rewrite (At_some _ _ _ _ Hat1), E2.
    unfold f at 1.
    rewrite (tokenize_loop_end _ _ _ (At_none _ _ Hat2)).
    reflexivity.
  - rewrite type_Token_new, literal_Token_new.
    split; [reflexivity|]. split; [reflexivity|].
    split; [apply type_Token_new|]. now rewrite Heh2, Heh1.
Qed.

(* @@END@@ *)

(** A string literal that the source ends in, its closing quote missing,
    is still read as one STRING token with the text after the quote as
    its literal; one error, "Unterminated string literal", is recorded and
    the error flag is set. *)
Theorem lex_unterminated_string (body file : string) :
  escaped_body body = true ->
  exists tok eof lx,
    lex (quoted_open body) file = Ok [tok; eof] lx
    /\ type_ tok = STRING
    /\ literal tok = LStr body
    /\ type_ eof = EOF
    /\ map details (errors (error_handler lx))
       = ["Unterminated string literal"%string]
    /\ map error_name (errors (error_handler lx)) = ["Lexical Error"%string]
    /\ has_error (error_handler lx) = true.
Proof.
  intros Hesc. unfold quoted_open.
  destruct (new_At (String dquote body) file) as (lx0 & E0 & Hat0 & Herr0).
  pose proof (string_steps_le body) as Hle.
  assert (Hat : At EmptyString
                  (String dquote (String.append body EmptyString)) lx0)
    by now rewrite append_nil_r.
  set (f := S (String.length (String dquote body))).
  destruct (process_string_body EmptyString body EmptyString lx0 f
              (S (f - S (string_steps body))) Hat Hesc)
    as (lx1 & Hat1 & Heh1 & Erun).
  { unfold f. cbn [String.length]. lia. }
  pose proof (At_none _ _ Hat1) as Hnone.
  eexists. eexists. eexists.
  split.
  - unfold lex. rewrite E0. unfold tokenize, bind at 1, fuel_for.
    fold f.
    rewrite (tokenize_loop_some _ _ _ dquote (At_some _ _ _ _ Hat)).
    rewrite step_quote, Erun.
    rewrite (string_loop_end _ _ _ _ Hat1).
    rewrite Hnone.
    unfold _report_unterminated_string, bind at 1, get_state at 1.
    unfold report, modify.
    unfold f at 1.
    rewrite (tokenize_loop_end _ _ (set_error_handler _ lx1) Hnone).
    reflexivity.
  - rewrite type_Token_new, literal_Token_new.
    split; [reflexivity|]. split; [reflexivity|].
    split; [apply type_Token_new|].
    cbn [error_handler set_error_handler add_error errors has_error].
    rewrite Heh1, Herr0. repeat split.
Qed.

(** A source that ends inside a string literal, right after a backslash,
    is not turned into tokens: the lexer ends with the [TypeError] of
    adding [None] to the text, and no lexical error is recorded for it. *)
Theorem lex_string_ending_in_backslash (body file : string) :
  escaped_body body = true ->
  exists lx,
    lex (quoted_open (String.append body (str1 backslash))) file
    = Raise concat_error lx
    /\ errors (error_handler lx) = [].
Proof.
  intros Hesc. unfold quoted_open.
  destruct (new_At (String dquote (String.append body (str1 backslash))) file)
    as (lx0 & E0 & Hat0 & Herr0).
  pose proof (string_steps_le body) as Hle.
  set (f := S (String.length
                 (String dquote (String.append body (str1 backslash))))).
  destruct (process_string_body EmptyString body (str1 backslash) lx0 f
              (S (f - S (string_steps body))) Hat0 Hesc)
    as (lx1 & Hat1 & Heh1 & Erun).
  { unfold f. cbn [String.length]. rewrite LiteralFacts.length_append.
    cbn [String.length str1]. lia. }
  destruct (string_loop_backslash _ _ (f - S (string_steps body)) body Hat1)
    as (lx2 & E2 & Heh2).
  exists lx2. split; [|now rewrite Heh2, Heh1].
  unfold lex. rewrite E0. unfold tokenize, bind at 1, fuel_for.
  fold f.
  rewrite (tokenize_loop_some _ _ _ dquote (At_some _ _ _ _ Hat0)).
  rewrite step_quote, Erun, E2. reflexivity.
Qed.

(** ** Comments *)

Lemma skip_comment_loop_run :
  forall (text pre rest : string) (lx : t),
    At pre (String.append text rest) lx ->
    char_in LF text = false ->
    exists lx',
      At (String.append pre text) rest lx'
      /\ error_handler lx' = error_handler lx
      /\ forall f,
           _skip_comment_loop (String.length text + f) lx
           = _skip_comment_loop f lx'.
Proof.
  induction text as [|c text IH]; intros pre rest lx Hat Hno.
  - exists lx. rewrite append_nil_r. split; [exact Hat|].
    split; [reflexivity|]. intros f. reflexivity.
  - apply LiteralFacts.char_in_cons in Hno as [Hc Hno].
    change (String.append (String c text) rest)
      with (String c (String.append text rest)) in Hat.
    destruct (At_advance _ _ _ _ Hat) as (lx1 & E1 & Hat1 & Heh1).
    destruct (IH _ _ _ Hat1 Hno) as (lx' & Hat' & Heh' & Hrun).
    exists lx'. rewrite append_snoc in Hat'. split; [exact Hat'|].
    split; [congruence|]. intros f.
    cbn [String.length Nat.add _skip_comment_loop].
    unfold bind at 1, get_state at 1. rewrite (At_some _ _ _ _ Hat).
    rewrite Ascii.eqb_sym, Hc.
    unfold bind at 1. rewrite E1. apply Hrun.
Qed.

Lemma step_hash (f : nat) (lx : t) :
  tokenize_step f "#" lx
  = match _skip_comment f lx with
    | Ok _ lx' => Ok None lx'
    | Raise e lx' => Raise e lx'
    | OutOfFuel => OutOfFuel
    end.
Proof.
  change (tokenize_step f "#" lx)
    with (bind (_skip_comment f) (fun _ => ret (@None Token)) lx).
  unfold bind, ret. destruct (_skip_comment f lx); reflexivity.
Qed.

(** A source that is one comment, from [#] to its end, gives no token
    but EOF and no error, whatever the comment contains: points, quotes
    and backslashes are not looked at. *)
Theorem lex_comment (text file : string) :
  char_in LF text = false ->
  exists eof lx,
    lex (String "#" text) file = Ok [eof] lx
    /\ type_ eof = EOF
    /\ errors (error_handler lx) = [].
Proof.
  intros Hno.
  destruct (new_At (String "#" text) file) as (lx0 & E0 & Hat0 & Herr0).
  assert (Hat : At EmptyString
                  (String.append (String "#" text) EmptyString) lx0)
    by now rewrite append_nil_r.
  assert (Hno' : char_in LF (String "#" text) = false).
  { unfold char_in in *. cbn [list_ascii_of_string existsb]. now rewrite Hno. }
  destruct (skip_comment_loop_run _ _ _ _ Hat Hno')
    as (lx1 & Hat1 & Heh1 & Hrun).
  destruct (At_advance_end _ _ Hat1) as (lx2 & E2 & Hnone & Heh2).
  eexists. exists lx2.
  split.
  - unfold lex. rewrite E0. unfold tokenize, bind at 1, fuel_for.
    rewrite (tokenize_loop_some _ _ _ "#"%char (At_some _ _ _ _ Hat0)).
    rewrite step_hash. unfold _skip_comment, bind at 1.
    replace (S (String.length (String "#" text)))
      with (String.length (String "#" text) + 1)%nat by lia.
    rewrite Hrun.
    assert (Estop : _skip_comment_loop 1 lx1 = Ok tt lx1).
    { cbn [_skip_comment_loop]. unfold bind, get_state.
      now rewrite (At_none _ _ Hat1). }
    rewrite Estop, E2.
    rewrite Nat.add_comm. cbn [Nat.add].
    rewrite (tokenize_loop_end _ _ _ Hnone).
    reflexivity.
  - split; [apply type_Token_new|]. now rewrite Heh2, Heh1.
Qed.

End LexerWords.

(** A word that begins with a keyword. *)
Lemma lex_word_whiley :
  exists tok eof lx,
    Lexer.lex "whiley" "main.purr" = Ok [tok; eof] lx
    /\ type_ tok = IDENT
    /\ literal tok = LStr "whiley".
Proof.
  destruct (LexerWords.lex_word "w" "hiley" "main.purr")
    as (tok & eof & lx & E & Ht & Hl & _);
    [vm_compute; reflexivity | vm_compute; reflexivity |].
  exists tok, eof, lx. split; [exact E|]. split; [|exact Hl].
  rewrite Ht. vm_compute. reflexivity.
Defined.


(** A literal with an escaped quote in it. *)
Lemma lex_string_escaped_quote :
  exists tok eof lx,
    Lexer.lex (LexerWords.quoted
                 (String "a" (String PyStr.backslash (String PyStr.dquote "b"))))
              "main.purr"
    = Ok [tok; eof] lx
    /\ type_ tok = STRING
    /\ literal tok
       = LStr (String "a" (String PyStr.backslash (String PyStr.dquote "b"))).
Proof.
  destruct (LexerWords.lex_string
              (String "a" (String PyStr.backslash (String PyStr.dquote "b")))
              "main.purr")
    as (tok & eof & lx & E & Ht & Hl & _); [vm_compute; reflexivity|].
  exists tok, eof, lx. split; [exact E|]. split; [exact Ht | exact Hl].
Defined.

(** A literal that is never closed. *)
Lemma lex_unterminated_string_abc :
  exists tok eof lx,
    Lexer.lex (LexerWords.quoted_open "abc") "main.purr" = Ok [tok; eof] lx
    /\ type_ tok = STRING
    /\ literal tok = LStr "abc"
    /\ has_error (Lexer.error_handler lx) = true.
Proof.
  destruct (LexerWords.lex_unterminated_string "abc" "main.purr")
    as (tok & eof & lx & E & Ht & Hl & _ & _ & _ & Hf);
    [vm_compute; reflexivity|].
  exists tok, eof, lx. split; [exact E|]. split; [exact Ht|].
  split; [exact Hl | exact Hf].
Defined.

(** A source that stops after the backslash of an escape. *)
Lemma lex_string_ending_in_backslash_abc :
  exists lx,
    Lexer.lex (LexerWords.quoted_open
                 (String.append "abc" (PyStr.str1 PyStr.backslash)))
              "main.purr"
    = Raise LexerRuns.concat_error lx
    /\ errors (Lexer.error_handler lx) = [].
Proof.
  apply (LexerWords.lex_string_ending_in_backslash "abc" "main.purr").
  vm_compute. reflexivity.
Defined.

(** A comment with a point and a quote in it. *)
Lemma lex_comment_with_point :
  exists eof lx,
    Lexer.lex (String "#" (String.append " 1.x " (PyStr.str1 PyStr.dquote)))
              "main.purr"
    = Ok [eof] lx
    /\ type_ eof = EOF
    /\ errors (Lexer.error_handler lx) = [].
Proof.
  apply (LexerWords.lex_comment
           (String.append " 1.x " (PyStr.str1 PyStr.dquote)) "main.purr").
  vm_compute. reflexivity.
Defined.

(* ===================================================================== *)
(** * Prefix operators, parentheses and calls in the parser *)
(* ===================================================================== *)

Module PrefixFacts.
Import Parser PrecedenceFacts.

Definition is_prefix_op (ty : TokenType) : bool := tt_in ty [MINUS; NOT].

Section Steps.

Variable tokens : list Token.
Variable pe : PrecedenceType -> M t (option Expression).

Lemma body_prefix (f : nat) (precedence : PrecedenceType) (s : t) (p : Token) :
  current_token tokens s = Some p ->
  is_prefix_op (type_ p) = true ->
  parse_expression_body tokens pe f precedence s
  = bind (pe PREFIX)
      (fun right_node =>
         while_ f (infix_step tokens pe f precedence)
           (Some (PrefixExpression (literal p) right_node)))
      (set_pos (S (pos s)) s).
Proof.
  intros Hc Hp. unfold parse_expression_body, bind at 1, get_state at 1.
  rewrite Hc.
  assert (Hfn : prefix_parse_fns tokens pe (type_ p)
                = Some (parse_prefix_expression tokens pe))
    by (destruct (type_ p); try discriminate Hp; reflexivity).
  rewrite Hfn. unfold bind at 1.
  unfold parse_prefix_expression, current_literal.
  unfold bind at 1. unfold bind at 1, get_state at 1. rewrite Hc.
  unfold ret at 1. unfold bind at 1, advance at 1, modify at 1.
  unfold bind.
  destruct (pe PREFIX (set_pos (S (pos s)) s)); reflexivity.
Qed.

Lemma body_grouped (f : nat) (precedence : PrecedenceType) (s s1 : t)
    (lp rp : Token) (e : option Expression) :
  current_token tokens s = Some lp ->
  type_ lp = LPAREN ->
  pe LOWEST (set_pos (S (pos s)) s) = Ok e s1 ->
  peek_token tokens s1 = Some rp ->
  type_ rp = RPAREN ->
  parse_expression_body tokens pe f precedence s
  = while_ f (infix_step tokens pe f precedence) e (set_pos (S (pos s1)) s1).
Proof.
  intros Hc Hlp He Hpk Hrp.
  unfold parse_expression_body, bind at 1, get_state at 1.
  rewrite Hc, Hlp. cbn [prefix_parse_fns]. unfold bind at 1.
  unfold parse_grouped_expression.
  unfold bind at 1, advance at 1, modify at 1. cbv beta iota.
  unfold bind at 1. rewrite He.
  unfold bind at 1. unfold expect_token, bind at 1, get_state at 1.
  cbv beta iota zeta.
  rewrite Hpk, Hrp. change (tt_eqb RPAREN RPAREN) with true. cbv iota.
  unfold bind at 1, advance at 1, modify at 1. cbv beta iota.
  unfold ret at 1. cbn [negb]. unfold ret at 1. reflexivity.
Qed.

End Steps.

Section PrefixThenOperator.

Variables p a o b : Token.
Variable rest : list Token.

Let tokens : list Token := p :: a :: o :: b :: rest.

Hypothesis Hp : is_prefix_op (type_ p) = true.
Hypothesis Ha : is_atom (type_ a) = true.
Hypothesis Hb : is_atom (type_ b) = true.
Hypothesis Ho : is_binop (type_ o) = true.
Hypothesis Hrest : ends_expression rest = true.

Lemma prefix_above_binop :
  Precedence.value (Precedence.PRECEDENCES (type_ o)) < Precedence.value PREFIX.
Proof. destruct (type_ o); try discriminate Ho; cbn; lia. Qed.

Lemma continues_after_b (precedence : PrecedenceType) (e : list string)
    (h : ErrorHandler) :
  continues tokens precedence (mk 3 e h) = false.
Proof.
  unfold continues, peek_token, tokens. cbn [pos nth_error].
  unfold ends_expression in Hrest.
  destruct rest as [|r rest']; [reflexivity|]. cbn [nth_error].
  apply orb_prop in Hrest as [H|H].
  - rewrite H. reflexivity.
  - apply Z.eqb_eq in H. rewrite H.
    destruct (Z.ltb_spec (Precedence.value precedence) 0);
      [pose proof (value_nonneg precedence); lia|].
    apply andb_false_r.
Qed.

Definition prefix_tree : Expression :=
  InfixExpression
    (Some (PrefixExpression (literal p) (Some (atom_node a))))
    (literal o) (Some (atom_node b)).

Lemma prefix_then_operator_run (n : nat) (e : list string) (h : ErrorHandler) :
  parse_expression tokens (S (S (S n))) LOWEST (mk 0 e h)
  = Ok (Some prefix_tree) (mk 3 e h).
Proof.
  rewrite parse_expression_S.
  rewrite (body_prefix tokens _ _ _ _ p); [|reflexivity|exact Hp].
  unfold bind at 1. unfold set_pos. cbn [pos exceptions error_handler].
  rewrite parse_expression_S.
  rewrite (body_atom tokens _ _ _ _ a); [|reflexivity|exact Ha].
  rewrite loop_exit.
  2:{ unfold continues, peek_token, tokens. cbn [pos nth_error].
      pose proof prefix_above_binop.
      destruct (Z.ltb_spec (Precedence.value PREFIX)
                  (Precedence.value (Precedence.PRECEDENCES (type_ o))));
        [lia|]. apply andb_false_r. }
  rewrite (loop_binop tokens _ _ _ _ _ _ o);
    [|reflexivity|exact Ho|exact (binop_above_lowest _ Ho)].
  unfold bind at 1. unfold set_pos. cbn [pos exceptions error_handler].
  rewrite parse_expression_S.
  rewrite (body_atom tokens _ _ _ _ b); [|reflexivity|exact Hb].
  rewrite loop_exit by apply continues_after_b.
  rewrite loop_exit by apply continues_after_b.
  reflexivity.
Qed.

End PrefixThenOperator.

(** A prefix operator ([-] or [not]) binds tighter than every binary
    operator, [**] included: the tokens [p a op b], followed by a token
    that ends the expression, parse to [(p a) op b] for every binary
    operator [op].  So [-a ** b] is [(-a) ** b] and [not a == b] is
    [(not a) == b]. *)
Theorem prefix_binds_tighter
    (p a o b : Token) (rest : list Token) (fuel : nat) (s : t) :
  is_prefix_op (type_ p) = true ->
  is_atom (type_ a) = true ->
  is_binop (type_ o) = true ->
  is_atom (type_ b) = true ->
  ends_expression rest = true ->
  pos s = 0%nat ->
  (3 <= fuel)%nat ->
  parse_expression (p :: a :: o :: b :: rest) fuel LOWEST s
  = Ok (Some (InfixExpression
                (Some (PrefixExpression (literal p) (Some (atom_node a))))
                (literal o) (Some (atom_node b))))
       (set_pos 3 s).
Proof.
  intros Hp Ha Ho Hb Hrest Hpos Hfuel.
  destruct fuel as [|[|[|n]]]; try lia.
  destruct s as [q e h]. cbn [pos] in Hpos. subst q.
  now apply prefix_then_operator_run.
Qed.

Section Parenthesized.

Variables lp a o1 b rp o2 c : Token.
Variable rest : list Token.

Let tokens : list Token := lp :: a :: o1 :: b :: rp :: o2 :: c :: rest.

Hypothesis Hlp : type_ lp = LPAREN.
Hypothesis Hrp : type_ rp = RPAREN.
Hypothesis Ha : is_atom (type_ a) = true.
Hypothesis Hb : is_atom (type_ b) = true.
Hypothesis Hc : is_atom (type_ c) = true.
Hypothesis Ho1 : is_binop (type_ o1) = true.
Hypothesis Ho2 : is_binop (type_ o2) = true.
Hypothesis Hrest : ends_expression rest = true.

Lemma continues_at_rparen (precedence : PrecedenceType) (e : list string)
    (h : ErrorHandler) :
  continues tokens precedence (mk 3 e h) = false.
Proof.
  unfold continues, peek_token, tokens. cbn [pos nth_error].
  rewrite Hrp. cbn [Precedence.PRECEDENCES Precedence.value].
  destruct (Z.ltb_spec (Precedence.value precedence) 0);
    [pose proof (value_nonneg precedence); lia|].
  apply andb_false_r.
Qed.

Lemma continues_after_group (precedence : PrecedenceType) (e : list string)
    (h : ErrorHandler) :
  continues tokens precedence (mk 6 e h) = false.
Proof.
  unfold continues, peek_token, tokens. cbn [pos nth_error].
  unfold ends_expression in Hrest.
  destruct rest as [|r rest']; [reflexivity|]. cbn [nth_error].
  apply orb_prop in Hrest as [H|H].
  - rewrite H. reflexivity.
  - apply Z.eqb_eq in H. rewrite H.
    destruct (Z.ltb_spec (Precedence.value precedence) 0);
      [pose proof (value_nonneg precedence); lia|].
    apply andb_false_r.
Qed.

Lemma inside_parentheses (n : nat) (e : list string) (h : ErrorHandler) :
  parse_expression tokens (S (S (S n))) LOWEST (mk 1 e h)
  = Ok (Some (InfixExpression (Some (atom_node a)) (literal o1)
                (Some (atom_node b))))
       (mk 3 e h).
Proof.
  rewrite parse_expression_S.
  rewrite (body_atom tokens _ _ _ _ a); [|reflexivity|exact Ha].
  rewrite (loop_binop tokens _ _ _ _ _ _ o1);
    [|reflexivity|exact Ho1|exact (binop_above_lowest _ Ho1)].
  unfold bind at 1. unfold set_pos. cbn [pos exceptions error_handler].
  rewrite parse_expression_S.
  rewrite (body_atom tokens _ _ _ _ b); [|reflexivity|exact Hb].
  rewrite loop_exit by apply continues_at_rparen.
  rewrite loop_exit by apply continues_at_rparen.
  reflexivity.
Qed.

Lemma parenthesized_run (n : nat) (e : list string) (h : ErrorHandler) :
  parse_expression tokens (S (S (S (S n)))) LOWEST (mk 0 e h)
  = Ok (Some (left_tree a o1 b o2 c)) (mk 6 e h).
Proof.
  rewrite parse_expression_S.
  rewrite (body_grouped tokens _ _ _ (mk 0 e h) (mk 3 e h) lp rp
             (Some (InfixExpression (Some (atom_node a)) (literal o1)
                      (Some (atom_node b)))));
    [|reflexivity|exact Hlp|apply inside_parentheses|reflexivity|exact Hrp].
  unfold set_pos. cbn [pos exceptions error_handler].
  rewrite (loop_binop tokens _ _ _ _ _ _ o2);
    [|reflexivity|exact Ho2|exact (binop_above_lowest _ Ho2)].
  unfold bind at 1. unfold set_pos. cbn [pos exceptions error_handler].
  rewrite parse_expression_S.
  rewrite (body_atom tokens _ _ _ _ c); [|reflexivity|exact Hc].
  rewrite loop_exit by apply continues_after_group.
  rewrite loop_exit by apply continues_after_group.
  reflexivity.
Qed.

End Parenthesized.

(** Parentheses override precedence and associativity: the tokens
    [( a op1 b ) op2 c], followed by a token that ends the expression,
    parse to [(a op1 b) op2 c] for all binary operators [op1] and [op2];
    the parentheses themselves leave no node.  So [(a + b) * c] and
    [(a ** b) ** c] group to the left. *)
Theorem parentheses_group
    (lp a o1 b rp o2 c : Token) (rest : list Token) (fuel : nat) (s : t) :
  type_ lp = LPAREN ->
  type_ rp = RPAREN ->
  is_atom (type_ a) = true ->
  is_atom (type_ b) = true ->
  is_atom (type_ c) = true ->
  is_binop (type_ o1) = true ->
  is_binop (type_ o2) = true ->
  ends_expression rest = true ->
  pos s = 0%nat ->
  (4 <= fuel)%nat ->
  parse_expression (lp :: a :: o1 :: b :: rp :: o2 :: c :: rest) fuel LOWEST s
  = Ok (Some (InfixExpression
                (Some (InfixExpression (Some (atom_node a)) (literal o1)
                         (Some (atom_node b))))
                (literal o2) (Some (atom_node c))))
       (set_pos 6 s).
Proof.
  intros Hlp Hrp Ha Hb Hc Ho1 Ho2 Hrest Hpos Hfuel.
  destruct fuel as [|[|[|[|n]]]]; try lia.
  destruct s as [q e h]. cbn [pos] in Hpos. subst q.
  now apply parenthesized_run.
Qed.

(** ** Calls *)

(** The tokens of the arguments after the first: a comma and an atom
    each. *)
Definition arg_tokens (more : list (Token * Token)) : list Token :=
  flat_map (fun ca => [fst ca; snd ca]) more.

Definition comma_atom (ca : Token * Token) : bool :=
  tt_eqb (type_ (fst ca)) COMMA && is_atom (type_ (snd ca)).

Definition arg_nodes (more : list (Token * Token)) : list (option Expression) :=
  map (fun ca => Some (atom_node (snd ca))) more.

(** The token that follows an argument: a comma or the closing
    parenthesis. *)
Definition after_argument (l : list Token) : bool :=
  match l with
  | t :: _ => tt_in (type_ t) [COMMA; RPAREN]
  | [] => false
  end.

Lemma nth_error_here {A : Type} (pre : list A) (x : A) (l : list A) :
  nth_error (pre ++ x :: l) (length pre) = Some x.
Proof. induction pre as [|y pre IH]; [reflexivity | exact IH]. Qed.

Lemma nth_error_next {A : Type} (pre : list A) (x : A) (l : list A) :
  nth_error (pre ++ x :: l) (S (length pre)) = nth_error l 0.
Proof. induction pre as [|y pre IH]; [reflexivity | exact IH]. Qed.

Section Arguments.

Variable tokens : list Token.
Variable rp : Token.
Variable rest : list Token.
Variable f : nat.

Hypothesis Hrp : type_ rp = RPAREN.

(** The loop of [parse_expression_list] over the arguments after the
    first. *)
Definition args_step (args : list (option Expression))
    : M t (list (option Expression) + list (option Expression)) :=
  bind get_state (fun s =>
    if peek_is tokens s COMMA then
      bind (advance) (fun _ =>
      bind (advance) (fun _ =>
      bind (parse_expression tokens (S (S f)) LOWEST) (fun e =>
      ret (inl (args ++ [e])))))
    else ret (inr args)).

Lemma atom_argument (pre : list Token) (a : Token) (l : list Token)
    (e : list string) (h : ErrorHandler) :
  tokens = pre ++ a :: l ->
  is_atom (type_ a) = true ->
  after_argument l = true ->
  parse_expression tokens (S (S f)) LOWEST (mk (length pre) e h)
  = Ok (Some (atom_node a)) (mk (length pre) e h).
Proof.
  intros Ht Ha Hl. rewrite parse_expression_S.
  rewrite (body_atom tokens _ _ _ _ a); [| |exact Ha].
  2:{ unfold current_token. cbn [pos]. rewrite Ht. apply nth_error_here. }
  assert (Hpk : nth_error tokens (S (length pre)) = nth_error l 0)
    by (rewrite Ht; apply nth_error_next).
  apply loop_exit. unfold continues, peek_token. cbn [pos].
  rewrite Hpk. destruct l as [|t l]; [reflexivity|].
  cbn [nth_error]. cbn in Hl.
  destruct (type_ t); try discriminate Hl; reflexivity.
Qed.

Lemma args_loop :
  forall (more : list (Token * Token)) (pre : list Token) (cur : Token)
         (args : list (option Expression)) (n : nat) (e : list string)
         (h : ErrorHandler),
    forallb comma_atom more = true ->
    tokens = pre ++ cur :: arg_tokens more ++ rp :: rest ->
    while_ (length more + S n) args_step args (mk (length pre) e h)
    = Ok (args ++ arg_nodes more)
         (mk (length pre + 2 * length more) e h).
Proof.
  induction more as [|[cm a] more IH]; intros pre cur args n e h Hall Ht.
  - assert (Hpk : nth_error tokens (S (length pre)) = Some rp)
      by (rewrite Ht, nth_error_next; reflexivity).
    cbn [length Nat.add while_ arg_nodes map]. unfold bind at 1.
    unfold args_step, bind at 1, get_state at 1.
    unfold peek_is, peek_token. cbn [pos].
    rewrite Hpk, Hrp. change (tt_eqb RPAREN COMMA) with false. cbv iota.
    unfold ret. rewrite app_nil_r, Nat.mul_0_r, Nat.add_0_r. reflexivity.
  - cbn [forallb] in Hall. apply andb_true_iff in Hall as [Hca Hall].
    unfold comma_atom in Hca. cbn [fst snd] in Hca.
    apply andb_true_iff in Hca as [Hcm Ha].
    assert (Ht' : tokens
                  = (pre ++ [cur; cm]) ++ a :: arg_tokens more ++ rp :: rest).
    { rewrite Ht. cbn [arg_tokens flat_map fst snd app].
      rewrite <- app_assoc. reflexivity. }
    assert (Hlen : length (pre ++ [cur; cm]) = S (S (length pre))).
    { rewrite length_app. cbn. lia. }
    assert (Hpk : nth_error tokens (S (length pre)) = Some cm)
      by (rewrite Ht, nth_error_next; reflexivity).
    cbn [length Nat.add while_]. unfold bind at 1.
    unfold args_step at 1, bind at 1, get_state at 1.
    unfold peek_is, peek_token. cbn [pos].
    rewrite Hpk, Hcm.
    unfold bind at 1, advance at 1, modify at 1. cbv beta iota.
    unfold bind at 1, advance at 1, modify at 1. cbv beta iota.
    unfold set_pos. cbn [pos exceptions error_handler].
    unfold bind at 1.
    rewrite <- Hlen.
    rewrite (atom_argument _ a (arg_tokens more ++ rp :: rest) e h Ht' Ha).
    2:{ destruct more as [|[cm' a'] more'].
        - cbn. rewrite Hrp. reflexivity.
        - cbn [forallb] in Hall. apply andb_true_iff in Hall as [Hca' _].
          unfold comma_atom in Hca'. cbn [fst] in Hca'.
          apply andb_true_iff in Hca' as [Hcm' _].
          cbn [arg_tokens flat_map fst snd app after_argument].
          unfold tt_eqb in Hcm'.
          destruct (TokenType_eq_dec (type_ cm') COMMA) as [E|]; [|discriminate].
          rewrite E. reflexivity. }
    unfold ret at 1.
    rewrite (IH (pre ++ [cur; cm]) a (args ++ [Some (atom_node a)]) n e h
               Hall Ht').
    rewrite Hlen. cbn [arg_nodes map snd].
    rewrite <- app_assoc. cbn [app].
    f_equal. f_equal. lia.
Qed.

End Arguments.

Lemma arg_tokens_length (more : list (Token * Token)) :
  length (arg_tokens more) = (2 * length more)%nat.
Proof.
  induction more as [|ca more IH]; [reflexivity|].
  change (arg_tokens (ca :: more))
    with (fst ca :: snd ca :: arg_tokens more).
  cbn [length]. rewrite IH. lia.
Qed.

Lemma loop_call (tokens : list Token)
    (pe : PrecedenceType -> M t (option Expression)) (n f : nat)
    (precedence : PrecedenceType) (left_expr : option Expression) (s : t)
    (lp : Token) :
  peek_token tokens s = Some lp ->
  type_ lp = LPAREN ->
  Precedence.value precedence < Precedence.value CALL ->
  while_ (S n) (infix_step tokens pe f precedence) left_expr s
  = bind (parse_expression_list tokens pe f RPAREN)
      (fun args =>
         while_ n (infix_step tokens pe f precedence)
           (Some (CallExpression left_expr args)))
      (set_pos (S (pos s)) s).
Proof.
  intros Hp Hlp Hlt. cbn [while_]. unfold bind at 1.
  unfold infix_step, bind at 1, get_state at 1, peek_precedence.
  rewrite Hp, Hlp. change (tt_eqb LPAREN SEMICOLON) with false.
  cbn [Precedence.PRECEDENCES negb andb].
  apply Z.ltb_lt in Hlt. rewrite Hlt. cbn [infix_parse_fns].
  unfold bind at 1, advance at 1, modify at 1. cbv beta iota.
  unfold parse_call_expression. unfold bind, ret.
  destruct (parse_expression_list tokens pe f RPAREN (set_pos (S (pos s)) s));
    reflexivity.
Qed.

Section CallRun.

Variables fn lp a1 rp : Token.
Variable more : list (Token * Token).
Variable rest : list Token.

Let tokens : list Token :=
  fn :: lp :: a1 :: arg_tokens more ++ rp :: rest.

Hypothesis Hfn : is_atom (type_ fn) = true.
Hypothesis Hlp : type_ lp = LPAREN.
Hypothesis Ha1 : is_atom (type_ a1) = true.
Hypothesis Hmore : forallb comma_atom more = true.
Hypothesis Hrp : type_ rp = RPAREN.
Hypothesis Hrest : ends_expression rest = true.

Lemma tokens_split :
  tokens = ([fn; lp; a1] ++ arg_tokens more) ++ rp :: rest.
Proof. unfold tokens. rewrite <- app_assoc. reflexivity. Qed.

Lemma split_length :
  length ([fn; lp; a1] ++ arg_tokens more) = (2 + 2 * length more + 1)%nat.
Proof. rewrite length_app, arg_tokens_length. cbn [length]. lia. Qed.

Lemma after_first_argument :
  after_argument (arg_tokens more ++ rp :: rest) = true.
Proof.
  destruct more as [|[cm a] more'].
  - cbn. rewrite Hrp. reflexivity.
  - cbn [forallb] in Hmore. apply andb_true_iff in Hmore as [Hca _].
    unfold comma_atom in Hca. cbn [fst] in Hca.
    apply andb_true_iff in Hca as [Hcm _].
    cbn [arg_tokens flat_map fst snd app after_argument].
    unfold tt_eqb in Hcm.
    destruct (TokenType_eq_dec (type_ cm) COMMA) as [E|]; [|discriminate].
    rewrite E. reflexivity.
Qed.

Lemma continues_after_call (precedence : PrecedenceType) (e : list string)
    (h : ErrorHandler) :
  continues tokens precedence (mk (2 + 2 * length more + 1) e h) = false.
Proof.
  unfold continues, peek_token. cbn [pos].
  rewrite tokens_split, <- split_length, nth_error_next.
  unfold ends_expression in Hrest.
  destruct rest as [|r rest']; [reflexivity|]. cbn [nth_error].
  apply orb_prop in Hrest as [H|H].
  - rewrite H. reflexivity.
  - apply Z.eqb_eq in H. rewrite H.
    destruct (Z.ltb_spec (Precedence.value precedence) 0);
      [pose proof (value_nonneg precedence); lia|].
    apply andb_false_r.
Qed.

Lemma call_run (f n : nat) (e : list string) (h : ErrorHandler) :
  S (S f) = (length more + S n)%nat ->
  parse_expression tokens (S (S (S f))) LOWEST (mk 0 e h)
  = Ok (Some (CallExpression (Some (atom_node fn))
                (Some (atom_node a1) :: arg_nodes more)))
       (mk (2 + 2 * length more + 1) e h).
Proof.
  intros Hf. rewrite parse_expression_S.
  rewrite (body_atom tokens _ _ _ _ fn); [|reflexivity|exact Hfn].
  rewrite (loop_call tokens _ _ _ _ _ _ lp); [|reflexivity|exact Hlp|cbn; lia].
  unfold bind at 1. unfold set_pos. cbn [pos exceptions error_handler].
  unfold parse_expression_list, bind at 1, get_state at 1.
  assert (Hpk : peek_is tokens (mk 1 e h) RPAREN = false).
  { unfold peek_is, peek_token, tokens. cbn [pos nth_error].
    destruct (type_ a1); try discriminate Ha1; reflexivity. }
  rewrite Hpk.
  unfold bind at 1, advance at 1, modify at 1. cbv beta iota.
  unfold set_pos. cbn [pos exceptions error_handler].
  pose proof (atom_argument tokens f [fn; lp] a1
                (arg_tokens more ++ rp :: rest) e h eq_refl Ha1
                after_first_argument) as Ea.
  cbn [length] in Ea.
  unfold bind at 1. rewrite Ea.
  pose proof (args_loop tokens rp rest f Hrp more [fn; lp] a1
                [Some (atom_node a1)] n e h Hmore eq_refl) as El.
  rewrite <- Hf in El. cbn [length] in El. unfold args_step in El.
  unfold bind at 1. rewrite El.
  unfold bind at 1. unfold expect_token. unfold bind at 1, get_state at 1.
  cbv beta iota zeta.
  assert (Hpk2 : peek_token tokens (mk (2 + 2 * length more) e h) = Some rp).
  { unfold peek_token. cbn [pos].
    replace (S (2 + 2 * length more)) with (2 + 2 * length more + 1)%nat
      by lia.
    rewrite tokens_split, <- split_length. apply nth_error_here. }
  rewrite Hpk2, Hrp. change (tt_eqb RPAREN RPAREN) with true. cbv iota.
  unfold bind at 1, advance at 1, modify at 1. cbv beta iota.
  unfold ret at 1. cbn [negb]. unfold ret at 1.
  unfold set_pos. cbn [pos exceptions error_handler].
  replace (S (2 + 2 * length more)) with (2 + 2 * length more + 1)%nat by lia.
  destruct f as [|f'].
  - rewrite loop_exit by apply continues_after_call. reflexivity.
  - rewrite loop_exit by apply continues_after_call. reflexivity.
Qed.

End CallRun.

Section EmptyCall.

Variables fn lp rp : Token.
Variable rest : list Token.

Let tokens : list Token := fn :: lp :: rp :: rest.

Hypothesis Hfn : is_atom (type_ fn) = true.
Hypothesis Hlp : type_ lp = LPAREN.
Hypothesis Hrp : type_ rp = RPAREN.
Hypothesis Hrest : ends_expression rest = true.

Lemma empty_call_run (n : nat) (e : list string) (h : ErrorHandler) :
  parse_expression tokens (S (S (S n))) LOWEST (mk 0 e h)
  = Ok (Some (CallExpression (Some (atom_node fn)) [])) (mk 2 e h).
Proof.
  rewrite parse_expression_S.
  rewrite (body_atom tokens _ _ _ _ fn); [|reflexivity|exact Hfn].
  rewrite (loop_call tokens _ _ _ _ _ _ lp); [|reflexivity|exact Hlp|cbn; lia].
  unfold bind at 1. unfold set_pos. cbn [pos exceptions error_handler].
  unfold parse_expression_list, bind at 1, get_state at 1.
  assert (Hpk : peek_is tokens (mk 1 e h) RPAREN = true).
  { unfold peek_is, peek_token, tokens. cbn [pos nth_error].
    rewrite Hrp. reflexivity. }
  rewrite Hpk. unfold bind at 1, advance at 1, modify at 1. cbv beta iota.
  unfold ret at 1. unfold set_pos. cbn [pos exceptions error_handler].
  apply loop_exit.
  unfold continues, peek_token, tokens. cbn [pos nth_error].
  unfold ends_expression in Hrest.
  destruct rest as [|r rest']; [reflexivity|]. cbn [nth_error].
  apply orb_prop in Hrest as [H|H].
  - rewrite H. reflexivity.
  - apply Z.eqb_eq in H. rewrite H. apply andb_false_r.
Qed.

End EmptyCall.

(** A name followed by a parenthesized list parses to a call: [f ( )] to
    a call without arguments, [f ( a1 , a2 , ... , an )] to a call whose
    arguments are the atoms in the order written, for every number of
    arguments.  The parser stops on the closing parenthesis. *)
Theorem call_arguments
    (fn lp a1 rp : Token) (more : list (Token * Token)) (rest : list Token)
    (fuel : nat) (s : t) :
  is_atom (type_ fn) = true ->
  type_ lp = LPAREN ->
  is_atom (type_ a1) = true ->
  forallb comma_atom more = true ->
  type_ rp = RPAREN ->
  ends_expression rest = true ->
  pos s = 0%nat ->
  (length more + 3 <= fuel)%nat ->
  parse_expression (fn :: lp :: a1 :: arg_tokens more ++ rp :: rest)
    fuel LOWEST s
  = Ok (Some (CallExpression (Some (atom_node fn))
                (Some (atom_node a1) :: arg_nodes more)))
       (set_pos (2 + 2 * length more + 1) s)
  /\ parse_expression (fn :: lp :: rp :: rest) fuel LOWEST s
     = Ok (Some (CallExpression (Some (atom_node fn)) [])) (set_pos 2 s).
Proof.
  intros Hfn Hlp Ha1 Hmore Hrp Hrest Hpos Hfuel.
  destruct fuel as [|[|[|f]]]; try lia.
  destruct s as [q e h]. cbn [pos] in Hpos. subst q.
  split.
  - apply (call_run fn lp a1 rp more rest Hfn Hlp Ha1 Hmore Hrp Hrest f
             (S f - length more)). lia.
  - now apply empty_call_run.
Qed.

(** ** Declarations *)

(** A declaration [var x : T ;] parses to a [VarStatement] whose value is
    [None] (the lowering then supplies the default of the type), and
    [var x : T = a ;] to one whose value is the atom; the name and the
    type are the literals of their tokens.  Nothing is reported and the
    program has this one statement. *)
Theorem var_statement_forms
    (kw x colon ty semi eq a eof : Token) (fuel : nat) :
  type_ kw = VAR -> type_ x = IDENT -> type_ colon = COLON ->
  type_ ty = TYPE -> type_ semi = SEMICOLON -> type_ eq = EQ ->
  is_atom (type_ a) = true -> type_ eof = EOF ->
  (4 <= fuel)%nat ->
  parse fuel [kw; x; colon; ty; semi; eof]
  = Ok (mkProgram
          [VarStatement (Some (IdentifierLiteral (literal x))) None
             (literal ty)])
       (set_pos 5 (new None))
  /\ parse fuel [kw; x; colon; ty; eq; a; semi; eof]
     = Ok (mkProgram
             [VarStatement (Some (IdentifierLiteral (literal x)))
                (Some (atom_node a)) (literal ty)])
          (set_pos 7 (new None)).
Proof.
  intros Hkw Hx Hcolon Hty Hsemi Heq Ha Heof Hfuel.
  destruct fuel as [|[|[|[|n]]]]; try lia.
  destruct kw as [t1 l1 ps1 pe1], x as [t2 l2 ps2 pe2],
    colon as [t3 l3 ps3 pe3], ty as [t4 l4 ps4 pe4],
    semi as [t5 l5 ps5 pe5], eq as [t6 l6 ps6 pe6],
    a as [t7 l7 ps7 pe7], eof as [t8 l8 ps8 pe8].
  cbn [type_] in *. subst.
  split.
  - vm_compute. reflexivity.
  - destruct t7; try discriminate Ha; vm_compute; reflexivity.
Qed.

(* @@END@@ *)
End PrefixFacts.

(** [-a ** b] is [(-a) ** b]. *)
Lemma prefix_binds_tighter_minus_pow :
  Parser.parse_expression
    [sample_token MINUS "-"; sample_token IDENT "a"; sample_token POW "**";
     sample_token IDENT "b"; sample_token SEMICOLON ";"]
    3 LOWEST (Parser.new None)
  = Ok (Some (InfixExpression
                (Some (PrefixExpression (LStr "-")
                         (Some (IdentifierLiteral (LStr "a")))))
                (LStr "**") (Some (IdentifierLiteral (LStr "b")))))
       (Parser.set_pos 3 (Parser.new None)).
Proof.
  exact (PrefixFacts.prefix_binds_tighter
           (sample_token MINUS "-") (sample_token IDENT "a")
           (sample_token POW "**") (sample_token IDENT "b")
           [sample_token SEMICOLON ";"] 3 (Parser.new None)
           eq_refl eq_refl eq_refl eq_refl eq_refl eq_refl (le_n 3)).
Defined.

(** [(a ** b) ** c] groups to the left. *)
Lemma parentheses_group_pow :
  Parser.parse_expression
    [sample_token LPAREN "("; sample_token IDENT "a"; sample_token POW "**";
     sample_token IDENT "b"; sample_token RPAREN ")"; sample_token POW "**";
     sample_token IDENT "c"; sample_token SEMICOLON ";"]
    4 LOWEST (Parser.new None)
  = Ok (Some (InfixExpression
                (Some (InfixExpression (Some (IdentifierLiteral (LStr "a")))
                         (LStr "**") (Some (IdentifierLiteral (LStr "b")))))
                (LStr "**") (Some (IdentifierLiteral (LStr "c")))))
       (Parser.set_pos 6 (Parser.new None)).
Proof.
  exact (PrefixFacts.parentheses_group
           (sample_token LPAREN "(") (sample_token IDENT "a")
           (sample_token POW "**") (sample_token IDENT "b")
           (sample_token RPAREN ")") (sample_token POW "**")
           (sample_token IDENT "c") [sample_token SEMICOLON ";"]
           4 (Parser.new None)
           eq_refl eq_refl eq_refl eq_refl eq_refl eq_refl eq_refl eq_refl
           eq_refl (le_n 4)).
Defined.

(** [pow(x, 2, y)] and [pow()]. *)
Lemma call_arguments_three :
  Parser.parse_expression
    [sample_token IDENT "pow"; sample_token LPAREN "(";
     sample_token IDENT "x"; sample_token COMMA ","; sample_token INT "2";
     sample_token COMMA ","; sample_token IDENT "y";
     sample_token RPAREN ")"; sample_token SEMICOLON ";"]
    5 LOWEST (Parser.new None)
  = Ok (Some (CallExpression (Some (IdentifierLiteral (LStr "pow")))
                [Some (IdentifierLiteral (LStr "x"));
                 Some (IntegerLiteral (LStr "2"));
                 Some (IdentifierLiteral (LStr "y"))]))
       (Parser.set_pos 7 (Parser.new None))
  /\ Parser.parse_expression
       [sample_token IDENT "pow"; sample_token LPAREN "(";
        sample_token RPAREN ")"; sample_token SEMICOLON ";"]
       5 LOWEST (Parser.new None)
     = Ok (Some (CallExpression (Some (IdentifierLiteral (LStr "pow"))) []))
          (Parser.set_pos 2 (Parser.new None)).
Proof.
  exact (PrefixFacts.call_arguments
           (sample_token IDENT "pow") (sample_token LPAREN "(")
           (sample_token IDENT "x") (sample_token RPAREN ")")
           [(sample_token COMMA ",", sample_token INT "2");
            (sample_token COMMA ",", sample_token IDENT "y")]
           [sample_token SEMICOLON ";"] 5 (Parser.new None)
           eq_refl eq_refl eq_refl eq_refl eq_refl eq_refl eq_refl (le_n 5)).
Defined.

(** [var x : int ;] and [var x : int = 1 ;]. *)
Lemma var_statement_forms_x :
  Parser.parse 4
    [sample_token VAR "var"; sample_token IDENT "x"; sample_token COLON ":";
     sample_token TYPE "int"; sample_token SEMICOLON ";";
     sample_token EOF ""]
  = Ok (mkProgram
          [VarStatement (Some (IdentifierLiteral (LStr "x"))) None
             (LStr "int")])
       (Parser.set_pos 5 (Parser.new None))
  /\ Parser.parse 4
       [sample_token VAR "var"; sample_token IDENT "x";
        sample_token COLON ":"; sample_token TYPE "int";
        sample_token EQ "="; sample_token INT "1";
        sample_token SEMICOLON ";"; sample_token EOF ""]
     = Ok (mkProgram
             [VarStatement (Some (IdentifierLiteral (LStr "x")))
                (Some (IntegerLiteral (LStr "1"))) (LStr "int")])
          (Parser.set_pos 7 (Parser.new None)).
Proof.
  exact (PrefixFacts.var_statement_forms
           (sample_token VAR "var") (sample_token IDENT "x")
           (sample_token COLON ":") (sample_token TYPE "int")
           (sample_token SEMICOLON ";") (sample_token EQ "=")
           (sample_token INT "1") (sample_token EOF "") 4
           eq_refl eq_refl eq_refl eq_refl eq_refl eq_refl eq_refl eq_refl
           (le_n 4)).
Defined.

(* ===================================================================== *)
(** * Invariants of the lowering (Compiler.py) *)
(* ===================================================================== *)

Module LoweringFacts.
Import IR Compiler CompilerFacts.

(** ** The stacks of loop targets *)

(** The targets of [break] and of [continue], innermost loop last. *)
Definition loops (c : t) : list Block * list Block :=
  (breakpoints c, continues c).

(** A computation that, when it returns, leaves the two stacks as it
    found them. *)
Definition keeps {A : Type} (m : M t A) : Prop :=
  forall c a c', m c = Ok a c' -> loops c' = loops c.

Lemma keeps_ret {A : Type} (a : A) : keeps (ret a).
Proof. intros c x c' H. inversion H. reflexivity. Qed.

Lemma keeps_raise {A : Type} (e : PyExn) : keeps (@raise t A e).
Proof. intros c x c' H. discriminate H. Qed.

Lemma keeps_out_of_fuel {A : Type} : keeps (@out_of_fuel t A).
Proof. intros c x c' H. discriminate H. Qed.

Lemma keeps_bind {A B : Type} (m : M t A) (k : A -> M t B) :
  keeps m -> (forall a, keeps (k a)) -> keeps (bind m k).
Proof.
  intros Hm Hk c b c' H. apply bind_ok in H as [a [c1 [H1 H2]]].
  rewrite (Hk a _ _ _ H2). exact (Hm _ _ _ H1).
Qed.

Lemma keeps_get_state : keeps get_state.
Proof. intros c x c' H. inversion H. reflexivity. Qed.

Lemma keeps_modify (f : t -> t) :
  (forall c, loops (f c) = loops c) -> keeps (modify f).
Proof. intros Hf c x c' H. inversion H. apply Hf. Qed.

Lemma keeps_builder {A : Type} (m : M Builder A) : keeps (builder m).
Proof.
  intros c a c' H. apply builder_ok in H as [b [_ ->]]. reflexivity.
Qed.

Lemma keeps_define (name : Literal) (value : IRValue) (ty : IRType) :
  keeps (define name value ty).
Proof. apply keeps_modify. reflexivity. Qed.

Lemma keeps_lookup (name : Literal) : keeps (lookup name).
Proof. intros c x c' H. inversion H. reflexivity. Qed.

Lemma keeps_lookup_unpack (name : Literal) : keeps (lookup_unpack name).
Proof.
  intros c x c' H. apply lookup_unpack_ok in H as [-> _]. reflexivity.
Qed.

Lemma keeps_type_map (key : Literal) : keeps (type_map key).
Proof.
  intros c x c' H. unfold type_map in H.
  repeat match type of H with
         | (if ?b then _ else _) _ = _ => destruct b
         end; inversion H; reflexivity.
Qed.

Lemma keeps_node_value (e : option Expression) : keeps (node_value e).
Proof.
  intros c x c' H. apply node_value_ok in H. now subst.
Qed.

Lemma keeps_increment_counter : keeps increment_counter.
Proof. intros c x c' H. inversion H. reflexivity. Qed.

Lemma keeps_current_function : keeps current_function.
Proof.
  intros c x c' H. unfold current_function, bind, get_state in H.
  destruct (position (ir c)); inversion H. reflexivity.
Qed.

Lemma keeps_current_block : keeps current_block.
Proof.
  intros c x c' H. unfold current_block, bind, get_state in H.
  destruct (position (ir c)); inversion H. reflexivity.
Qed.

(** One step of the proof that a computation made of the operations
    above keeps the stacks. *)
Ltac keeps_step :=
  first
    [ apply keeps_ret | apply keeps_raise | apply keeps_out_of_fuel
    | apply keeps_builder | apply keeps_define | apply keeps_lookup_unpack
    | apply keeps_lookup | apply keeps_type_map | apply keeps_node_value
    | apply keeps_increment_counter | apply keeps_current_function
    | apply keeps_current_block | apply keeps_get_state
    | assumption
    | match goal with
      | H : forall x, keeps (?f x) |- keeps (?f _) => apply H
      end
    | match goal with
      | |- keeps (bind _ _) => apply keeps_bind; [|intro]
      | |- keeps (if ?b then _ else _) => destruct b
      | |- keeps (match ?x with _ => _ end) => destruct x
      end ].

Ltac keeps_auto := repeat keeps_step.

Lemma keeps_builtin_pow (l r : option IRValue) : keeps (builtin_pow l r).
Proof. unfold builtin_pow. keeps_auto. Qed.

Lemma keeps_builtin_len (s : option IRValue) : keeps (builtin_len s).
Proof. unfold builtin_len. keeps_auto. Qed.

Lemma keeps_builtin_print (params : list (option IRValue))
    (ty : option IRType) :
  keeps (builtin_print params ty).
Proof. unfold builtin_print. keeps_auto. Qed.

Lemma keeps_handle_string_concatenation (l r : option IRValue) :
  keeps (handle_string_concatenation l r).
Proof. unfold handle_string_concatenation. keeps_auto. Qed.

Lemma keeps_convert_string (text : Literal) : keeps (convert_string text).
Proof. unfold convert_string. keeps_auto. Qed.

Lemma keeps_handle_int_operations (op : Literal) (l r : option IRValue) :
  keeps (handle_int_operations op l r).
Proof.
  unfold handle_int_operations.
  repeat first [apply keeps_builtin_pow | keeps_step].
Qed.

Lemma keeps_handle_float_operations (op : Literal) (l r : option IRValue) :
  keeps (handle_float_operations op l r).
Proof.
  unfold handle_float_operations.
  repeat first [apply keeps_builtin_pow | keeps_step].
Qed.

Ltac keeps_all :=
  repeat first
    [ apply keeps_builtin_pow | apply keeps_builtin_len
    | apply keeps_builtin_print | apply keeps_handle_string_concatenation
    | apply keeps_convert_string | apply keeps_handle_int_operations
    | apply keeps_handle_float_operations | keeps_step ].

Section ExpressionsKeep.

Variable rv : option Expression -> M t (option IRValue * option IRType).
Hypothesis Hrv : forall node, keeps (rv node).

Lemma keeps_visit_infix_expression (l : option Expression) (op : Literal)
    (r : option Expression) :
  keeps (visit_infix_expression rv l op r).
Proof. unfold visit_infix_expression. keeps_all. Qed.

Lemma keeps_visit_prefix_expression (op : Literal) (r : option Expression) :
  keeps (visit_prefix_expression rv op r).
Proof. unfold visit_prefix_expression. keeps_all. Qed.

Lemma keeps_resolve_args (params : list (option Expression)) :
  keeps (resolve_args rv params).
Proof.
  induction params as [|x params IH]; cbn [resolve_args]; keeps_all.
Qed.

Lemma keeps_visit_call_expression (f : option Expression)
    (params : list (option Expression)) :
  keeps (visit_call_expression rv f params).
Proof.
  unfold visit_call_expression.
  repeat first [apply keeps_resolve_args | keeps_all].
Qed.

Lemma keeps_resolve_value_body (node : option Expression) :
  keeps (resolve_value_body rv node).
Proof.
  unfold resolve_value_body.
  destruct node as [[v|v|v|b|v|op r|l op r|f args]|];
    repeat first [ apply keeps_visit_infix_expression
                 | apply keeps_visit_call_expression
                 | apply keeps_visit_prefix_expression
                 | keeps_all ].
Qed.

End ExpressionsKeep.

Lemma keeps_resolve_value (fuel : nat) :
  forall node, keeps (resolve_value fuel node).
Proof.
  induction fuel as [|f IH]; intros node.
  - intros c a c' H. discriminate H.
  - intros c a c' H. cbn [resolve_value] in H.
    exact (keeps_resolve_value_body _ IH node c a c' H).
Qed.

Ltac keeps_stmt :=
  repeat first [ apply keeps_resolve_value | keeps_all ].

Lemma keeps_visit_var_statement (fuel : nat) (name value : option Expression)
    (value_type : Literal) :
  keeps (visit_var_statement fuel name value value_type).
Proof. unfold visit_var_statement. keeps_stmt. Qed.

Lemma keeps_assign_arith (int_op float_op : Opcode) (orig : IRValue)
    (ty : option IRType) (r : option IRValue) :
  keeps (assign_arith int_op float_op orig ty r).
Proof. unfold assign_arith. keeps_stmt. Qed.

Lemma keeps_visit_assign_statement (fuel : nat) (ident : option Expression)
    (op : Literal) (right_node : option Expression) :
  keeps (visit_assign_statement fuel ident op right_node).
Proof.
  unfold visit_assign_statement.
  repeat first [ apply keeps_assign_arith | keeps_stmt ].
Qed.

Lemma keeps_visit_return_statement (fuel : nat) (value : option Expression) :
  keeps (visit_return_statement fuel value).
Proof. unfold visit_return_statement. keeps_stmt. Qed.

Lemma keeps_visit_break_statement : keeps visit_break_statement.
Proof. unfold visit_break_statement. keeps_stmt. Qed.

Lemma keeps_visit_continue_statement : keeps visit_continue_statement.
Proof. unfold visit_continue_statement. keeps_stmt. Qed.

Lemma keeps_apply {A : Type} (m : M t A) (c c' : t) (a : A) :
  keeps m -> m c = Ok a c' ->
  breakpoints c' = breakpoints c /\ continues c' = continues c.
Proof.
  intros Hk H. pose proof (Hk _ _ _ H) as E. unfold loops in E.
  now inversion E.
Qed.

Section StatementsKeep.

Variable fs : string -> option string.
Variable compile : option Node -> M t unit.
Hypothesis Hcompile : forall node, keeps (compile node).

Lemma keeps_compile_each (stmts : list (option Statement)) :
  keeps (compile_each compile stmts).
Proof.
  induction stmts as [|s stmts IH]; cbn [compile_each]; keeps_stmt.
Qed.

Lemma keeps_visit_program (p : Program) : keeps (visit_program compile p).
Proof.
  unfold visit_program. repeat first [apply keeps_compile_each | keeps_stmt].
Qed.

Lemma keeps_branch_helper (bbenter bbexit : Block)
    (stmts : list (option Statement)) :
  keeps (branch_helper compile bbenter bbexit stmts).
Proof.
  unfold branch_helper. repeat first [apply keeps_compile_each | keeps_stmt].
Qed.

Lemma keeps_visit_if_statement (fuel : nat) (condition : option Expression)
    (body else_body : list (option Statement)) :
  keeps (visit_if_statement compile fuel condition body else_body).
Proof.
  unfold visit_if_statement.
  repeat first [apply keeps_branch_helper | keeps_stmt].
Qed.

(** The loop pushes its two targets, lowers its body and pops them. *)
Lemma keeps_visit_while_statement (fuel : nat) (condition : option Expression)
    (body : list (option Statement)) :
  keeps (visit_while_statement compile fuel condition body).
Proof.
  intros c a c' H. unfold visit_while_statement in H.
  apply bind_ok in H as [r [c1 [H1 H]]].
  apply (keeps_apply _ _ _ _ (keeps_resolve_value _ _)) in H1 as [B1 C1].
  apply bind_ok in H as [fn [c2 [H2 H]]].
  apply (keeps_apply _ _ _ _ keeps_current_function) in H2 as [B2 C2].
  apply bind_ok in H as [n [c3 [H3 H]]].
  apply (keeps_apply _ _ _ _ keeps_increment_counter) in H3 as [B3 C3].
  apply bind_ok in H as [entry [c4 [H4 H]]].
  apply (keeps_apply _ _ _ _ (keeps_builder _)) in H4 as [B4 C4].
  apply bind_ok in H as [c5' [c5 [H5 H]]].
  inversion H5; subst c5' c5. clear H5.
  apply bind_ok in H as [otherwise [c6 [H6 H]]].
  apply (keeps_apply _ _ _ _ (keeps_builder _)) in H6 as [B6 C6].
  apply bind_ok in H as [u7 [c7 [H7 H]]]. inversion H7; subst c7. clear H7.
  apply bind_ok in H as [u8 [c8 [H8 H]]]. inversion H8; subst c8. clear H8.
  apply bind_ok in H as [u9 [c9 [H9 H]]].
  apply (keeps_apply _ _ _ _ (keeps_builder _)) in H9 as [B9 C9].
  apply bind_ok in H as [u10 [c10 [H10 H]]].
  apply (keeps_apply _ _ _ _ (keeps_builder _)) in H10 as [B10 C10].
  apply bind_ok in H as [u11 [c11 [H11 H]]].
  apply (keeps_apply _ _ _ _ (keeps_compile_each _)) in H11 as [B11 C11].
  apply bind_ok in H as [r' [c12 [H12 H]]].
  apply (keeps_apply _ _ _ _ (keeps_resolve_value _ _)) in H12 as [B12 C12].
  apply bind_ok in H as [u13 [c13 [H13 H]]].
  apply (keeps_apply _ _ _ _ (keeps_builder _)) in H13 as [B13 C13].
  apply bind_ok in H as [u14 [c14 [H14 H]]].
  apply (keeps_apply _ _ _ _ (keeps_builder _)) in H14 as [B14 C14].
  apply bind_ok in H as [u15 [c15 [H15 H]]]. inversion H15; subst c15.
  clear H15. inversion H; subst c'. clear H.
  unfold loops. cbn [breakpoints continues set_breakpoints set_continues] in *.
  rewrite B14, B13, B12, B11, B10, B9, C14, C13, C12, C11, C10, C9.
  rewrite !removelast_last.
  rewrite B6, B4, B3, B2, B1, C6, C4, C3, C2, C1. reflexivity.
Qed.

Lemma keeps_visit_import_statement (fuel : nat) (file_path : Literal) :
  keeps (visit_import_statement fs compile fuel file_path).
Proof.
  unfold visit_import_statement.
  repeat first [apply keeps_compile_each | keeps_stmt].
  apply keeps_modify. reflexivity.
Qed.

Lemma keeps_param_types (params : list FunctionParameter) :
  keeps (param_types params).
Proof. induction params as [|p params IH]; cbn [param_types]; keeps_stmt. Qed.

Lemma keeps_alloca_params (fn : string) (tys : list IRType) :
  forall i, keeps (alloca_params fn i tys).
Proof.
  induction tys as [|ty tys IH]; intros i; cbn [alloca_params];
    repeat first [apply IH | keeps_stmt].
Qed.

Lemma keeps_define_params (params : list FunctionParameter) :
  forall tys ptrs, keeps (define_params params tys ptrs).
Proof.
  induction params as [|p params IH]; intros tys ptrs;
    [destruct tys, ptrs; apply keeps_ret|].
  destruct tys as [|ty tys]; [apply keeps_ret|].
  destruct ptrs as [|ptr ptrs]; [apply keeps_ret|].
  cbn [define_params]. repeat first [apply IH | keeps_stmt].
Qed.

Lemma keeps_enter_function (params : list FunctionParameter)
    (name : option Expression) (return_type : Literal) :
  keeps (enter_function params name return_type).
Proof.
  unfold enter_function.
  repeat first [ apply keeps_param_types | apply keeps_alloca_params
               | apply keeps_define_params
               | apply keeps_modify; reflexivity | keeps_stmt ].
Qed.

Lemma keeps_leave_function (e : Entered) : keeps (leave_function e).
Proof.
  unfold leave_function.
  repeat first [ apply keeps_modify; reflexivity | keeps_stmt ].
Qed.

Lemma keeps_visit_function_statement (fuel : nat)
    (params : list FunctionParameter) (body : list (option Statement))
    (name : option Expression) (return_type : Literal) :
  keeps (visit_function_statement compile fuel params body name return_type).
Proof.
  unfold visit_function_statement.
  repeat first [ apply keeps_enter_function | apply keeps_compile_each
               | apply keeps_leave_function | keeps_stmt ].
Qed.

Lemma keeps_compile_body (fuel : nat) (node : option Node) :
  keeps (compile_body fs compile fuel node).
Proof.
  unfold compile_body.
  destruct node as [[p|s|e]|]; [| | |apply keeps_raise].
  - apply keeps_visit_program.
  - destruct s;
      first [ apply keeps_visit_var_statement
            | apply keeps_visit_function_statement
            | apply keeps_visit_return_statement
            | apply keeps_visit_assign_statement
            | apply keeps_visit_if_statement
            | apply keeps_visit_while_statement
            | apply keeps_visit_break_statement
            | apply keeps_visit_continue_statement
            | apply keeps_visit_import_statement
            | unfold visit_expression_statement; apply Hcompile ].
  - destruct e;
      repeat first [ apply keeps_visit_infix_expression
                   | apply keeps_visit_call_expression
                   | apply keeps_visit_prefix_expression
                   | apply keeps_resolve_value
                   | keeps_stmt ].
Qed.

End StatementsKeep.

Lemma keeps_compile (fs : string -> option string) (fuel : nat) :
  forall node, keeps (compile fs fuel node).
Proof.
  induction fuel as [|f IH]; intros node.
  - intros c a c' H. discriminate H.
  - intros c a c' H. cbn [compile] in H.
    exact (keeps_compile_body fs _ IH f node c a c' H).
Qed.

(** Lowering leaves the stacks of loop targets as it found them.  Whatever
    node is lowered, when [compile] returns the targets of [break] and of
    [continue] are those of before: a loop pops what it pushed, however
    its body nests loops, functions and imports.  So a [break] after an
    inner loop refers to the enclosing loop again, and after the outermost
    loop the stacks are empty. *)
Theorem compile_keeps_loop_targets (fs : string -> option string)
    (fuel : nat) (node : option Node) (c c' : t) :
  compile fs fuel node c = Ok tt c' ->
  breakpoints c' = breakpoints c /\ continues c' = continues c.
Proof.
  intros H. exact (keeps_apply _ _ _ _ (keeps_compile fs fuel node) H).
Qed.


(** ** The scope of a function *)

Lemma type_map_ok (key : Literal) (c c' : t) (ty : IRType) :
  type_map key c = Ok ty c' -> c' = c.
Proof.
  unfold type_map.
  repeat match goal with
         | |- (if ?b then _ else _) _ = _ -> _ => destruct b
         end; intros H; inversion H; reflexivity.
Qed.

Lemma param_types_ok (params : list FunctionParameter) :
  forall c c' tys, param_types params c = Ok tys c' -> c' = c.
Proof.
  induction params as [|p params IH]; intros c c' tys H.
  - inversion H. reflexivity.
  - cbn [param_types] in H.
    apply bind_ok in H as [ty [c1 [H1 H]]]. apply type_map_ok in H1. subst c1.
    apply bind_ok in H as [tys' [c2 [H2 H]]]. apply IH in H2. subst c2.
    inversion H. reflexivity.
Qed.

Lemma add_function_ok (fnty : IRType) (name : string) (b b' : Builder)
    (f : IRValue) :
  add_function fnty name b = Ok f b' ->
  f = Function name fnty /\ position b' = position b.
Proof.
  unfold add_function, bind, get_state, put_state, ret.
  destruct (existsb (String.eqb name) (global_names (module_ b)));
    [discriminate|].
  intros H. inversion H. split; reflexivity.
Qed.

Lemma append_basic_block_ok (function label : string) (b b' : Builder)
    (blk : Block) :
  append_basic_block function label b = Ok blk b' ->
  position b' = position b.
Proof.
  unfold append_basic_block, bind, get_state, put_state, ret.
  intros H. inversion H. reflexivity.
Qed.

(** What [enter_function] hands over to [leave_function]. *)
Lemma enter_function_ok (params : list FunctionParameter)
    (name_node : option Expression) (return_type : Literal) (c c' : t)
    (e : Entered) :
  enter_function params name_node return_type c = Ok e c' ->
  exists fn tys ret_ty,
    node_value name_node c = Ok (LStr fn) c
    /\ e = mkEntered (LStr fn) (Function fn (FunctionType ret_ty tys false))
             ret_ty (position (ir c)) (env c).
Proof.
  unfold enter_function. intros H.
  apply bind_ok in H as [name [c1 [Hname H]]].
  pose proof (node_value_ok _ _ _ _ Hname) as ->.
  apply bind_ok in H as [tys [c2 [H2 H]]]. apply param_types_ok in H2.
  subst c2.
  apply bind_ok in H as [ret_ty [c3 [H3 H]]]. apply type_map_ok in H3.
  subst c3.
  destruct name as [|fn| |]; try discriminate H.
  apply bind_ok in H as [func [c4 [H4 H]]].
  apply builder_ok in H4 as [b4 [H4 ->]].
  apply add_function_ok in H4 as [-> Hp4].
  apply bind_ok in H as [block [c5 [H5 H]]].
  apply builder_ok in H5 as [b5 [H5 ->]].
  apply append_basic_block_ok in H5. cbn [ir set_ir] in H5.
  apply bind_ok in H as [c6' [c6 [H6 H]]]. inversion H6; subst c6' c6.
  clear H6.
  apply bind_ok in H as [u7 [c7 [_ H]]].
  apply bind_ok in H as [u8 [c8 [_ H]]].
  apply bind_ok in H as [ptrs [c9 [_ H]]].
  apply bind_ok in H as [u10 [c10 [_ H]]].
  apply bind_ok in H as [u11 [c11 [_ H]]].
  inversion H; subst. clear H.
  exists fn, tys, ret_ty. split; [exact Hname|].
  cbn [ir env set_ir]. rewrite H5, Hp4. reflexivity.
Qed.

(** The definition of a function opens a scope and closes it.  When
    [visit_function_statement] returns, the environment is the one of
    before with one more record, the name of the function bound to the
    function and its return type; the parameters and every name declared
    in the body are gone, and every other name resolves as before the
    definition.  The builder is back in the block it was in. *)
Theorem function_scope_is_closed
    (compile : option Node -> M t unit) (fuel : nat)
    (params : list FunctionParameter) (body : list (option Statement))
    (name_node : option Expression) (return_type : Literal) (c c' : t) :
  visit_function_statement compile fuel params body name_node return_type c
  = Ok tt c' ->
  exists fn tys ret_ty,
    node_value name_node c = Ok (LStr fn) c
    /\ env c'
       = Environment.define (env c) (LStr fn)
           (Function fn (FunctionType ret_ty tys false)) ret_ty
    /\ (forall other, other <> LStr fn ->
          Environment.lookup (env c') other = Environment.lookup (env c) other)
    /\ position (ir c') = position (ir c).
Proof.
  unfold visit_function_statement. intros H.
  apply bind_ok in H as [e [c1 [He H]]].
  apply enter_function_ok in He as (fn & tys & ret_ty & Hname & ->).
  apply bind_ok in H as [u [c2 [_ H]]].
  unfold leave_function in H.
  apply bind_ok in H as [u3 [c3 [H3 H]]]. inversion H3; subst c3. clear H3.
  apply bind_ok in H as [u4 [c4 [H4 H]]]. inversion H4; subst c4. clear H4.
  inversion H; subst c'. clear H.
  exists fn, tys, ret_ty. split; [exact Hname|].
  cbn [env ir set_env set_ir position previous_env previous_builder
       entered_name entered_func entered_return].
  split; [reflexivity|]. split; [|reflexivity].
  intros other Hne. destruct (env c) as [r p nm].
  unfold Environment.lookup. cbn [Environment.define Environment.resolve].
  now rewrite lookup_insert_ne by congruence.
Qed.

(** ** Imports *)

Lemma pallets_get_snoc (l : list (Literal * Program)) (key : Literal)
    (p : Program) :
  pallets_get (l ++ [(key, p)]) key = Some p.
Proof.
  unfold pallets_get. rewrite rev_app_distr. cbn [rev app List.find fst].
  destruct (Literal_eq_dec key key) as [_|Hne]; [reflexivity|].
  now contradiction Hne.
Qed.

(** A file is imported once.  When an import has returned, the file is
    in the table of imported files, and importing it again, in the state
    the first import left, does nothing: no file is read, nothing is
    lowered and the state is unchanged. *)
Theorem import_twice_is_import_once
    (fs : string -> option string) (compile : option Node -> M t unit)
    (fuel fuel' : nat) (file_path : Literal) (c c' : t) :
  visit_import_statement fs compile fuel file_path c = Ok tt c' ->
  pallets_get (global_parsed_pallets c') file_path <> None
  /\ visit_import_statement fs compile fuel' file_path c' = Ok tt c'.
Proof.
  unfold visit_import_statement at 1. unfold bind at 1, get_state at 1.
  destruct (pallets_get (global_parsed_pallets c) file_path) as [p|] eqn:Hget.
  - intros H. inversion H; subst c'. split; [congruence|].
    unfold visit_import_statement, bind, get_state. now rewrite Hget.
  - destruct file_path as [|path| |]; try discriminate.
    destruct (fs path) as [code|]; [|discriminate].
    destruct (Lexer.lex code "<stdin>") as [tokens l|e l|]; try discriminate.
    destruct (has_error (Lexer.error_handler l)); [discriminate|].
    destruct (Parser.parse (2 * length tokens + 4) tokens)
      as [program q|e q|]; try discriminate.
    destruct (has_error (Parser.error_handler q)); [discriminate|].
    intros H. apply bind_ok in H as [u [c1 [_ H]]].
    inversion H; subst c'. clear H.
    cbn [global_parsed_pallets set_pallets].
    split; [rewrite pallets_get_snoc; discriminate|].
    unfold visit_import_statement, bind, get_state.
    cbn [global_parsed_pallets set_pallets].
    now rewrite pallets_get_snoc.
Qed.

(** ** Names that are not defined *)

(** The use of a name that no frame binds is not reported as an error of
    the program: reading it as an expression, or calling it without
    arguments, ends with the [TypeError] of unpacking [None]; assigning to
    it ends with [NameError] before the right side is looked at.  In each
    case nothing has been emitted. *)
Theorem undefined_name (fuel : nat) (name : Literal) (c : t) :
  Environment.lookup (env c) name = None ->
  resolve_value (S fuel) (Some (IdentifierLiteral name)) c
  = Raise (TypeError "cannot unpack non-iterable NoneType object") c
  /\ (lit_in name ["print"; "pow"; "len"]%string = false ->
      resolve_value (S fuel)
        (Some (CallExpression (Some (IdentifierLiteral name)) [])) c
      = Raise (TypeError "cannot unpack non-iterable NoneType object") c)
  /\ (forall operator right_node,
        exists msg,
          visit_assign_statement fuel (Some (IdentifierLiteral name))
            operator right_node c
          = Raise (NameError msg) c).
Proof.
  intros Hnone. split; [|split].
  - cbn [resolve_value resolve_value_body].
    unfold lookup_unpack, lookup, bind, get_state, ret. now rewrite Hnone.
  - intros Hb. cbn [resolve_value resolve_value_body].
    unfold visit_call_expression. cbn [node_value resolve_args].
    unfold bind at 1, ret at 1. unfold bind at 1, ret at 1. cbn [fst snd].
    unfold lit_in in Hb. cbn [existsb] in Hb.
    apply orb_false_iff in Hb as [H1 Hb].
    apply orb_false_iff in Hb as [H2 Hb].
    apply orb_false_iff in Hb as [H3 _].
    rewrite H1, H2, H3.
    unfold lookup_unpack, lookup, bind, get_state, ret. now rewrite Hnone.
  - intros operator right_node. eexists.
    unfold visit_assign_statement. cbn [node_value].
    unfold bind at 1, ret at 1.
    unfold lookup, bind, get_state, ret. rewrite Hnone. reflexivity.
Qed.

(** ** Break and continue *)

Lemma last_snoc {A : Type} (l : list A) (x : A) :
  List.last (map Some (l ++ [x])) None = Some x.
Proof. rewrite map_app. cbn [map]. apply List.last_last. Qed.

Lemma branch_ok (target : Block) (b b' : Builder) (v : IRValue) :
  branch target b = Ok v b' ->
  exists blk,
    position b = Some blk
    /\ code (module_ b')
       = code (module_ b)
         ++ [(blk, Instruction (length (code (module_ b))) Br VoidType
                     [BlockRef target])].
Proof.
  unfold branch. intros H.
  apply emit_ok in H as [blk [Hp [-> [Hc _]]]]. now exists blk.
Qed.

(** Outside a loop [break] and [continue] end with [RuntimeError] and
    emit nothing.  Inside loops, when they lower, they emit exactly one
    branch: [break] to the block after the innermost loop, [continue] to
    the entry block of the innermost loop, the last pushed in each case. *)
Theorem break_and_continue_targets (c : t) :
  (breakpoints c = [] ->
   visit_break_statement c
   = Raise (RuntimeError "Break statement outside of loop.") c)
  /\ (continues c = [] ->
      visit_continue_statement c
      = Raise (RuntimeError "Continue statement outside of loop.") c)
  /\ (forall outer target c',
        breakpoints c = outer ++ [target] ->
        visit_break_statement c = Ok tt c' ->
        exists blk,
          position (ir c) = Some blk
          /\ code (module_ (ir c'))
             = code (module_ (ir c))
               ++ [(blk, Instruction (length (code (module_ (ir c)))) Br
                           VoidType [BlockRef target])])
  /\ (forall outer target c',
        continues c = outer ++ [target] ->
        visit_continue_statement c = Ok tt c' ->
        exists blk,
          position (ir c) = Some blk
          /\ code (module_ (ir c'))
             = code (module_ (ir c))
               ++ [(blk, Instruction (length (code (module_ (ir c)))) Br
                           VoidType [BlockRef target])]).
Proof.
  split; [|split; [|split]].
  - intros H. unfold visit_break_statement, bind, get_state. now rewrite H.
  - intros H. unfold visit_continue_statement, bind, get_state. now rewrite H.
  - intros outer target c' Hb H.
    unfold visit_break_statement, bind at 1, get_state at 1 in H.
    rewrite Hb, last_snoc in H.
    apply bind_ok in H as [v [c1 [H1 H]]]. inversion H; subst c1. clear H.
    apply builder_ok in H1 as [b [H1 ->]].
    apply branch_ok in H1 as [blk [Hp Hc]]. now exists blk.
  - intros outer target c' Hb H.
    unfold visit_continue_statement, bind at 1, get_state at 1 in H.
    rewrite Hb, last_snoc in H.
    apply bind_ok in H as [v [c1 [H1 H]]]. inversion H; subst c1. clear H.
    apply builder_ok in H1 as [b [H1 ->]].
    apply branch_ok in H1 as [blk [Hp Hc]]. now exists blk.
Qed.


(** ** The type of the value of an infix expression *)

Lemma lit_is_true (l : Literal) (s : string) : lit_is l s = true -> l = LStr s.
Proof.
  destruct l; cbn; try discriminate. intros H.
  apply String.eqb_eq in H. now subst.
Qed.

Lemma binop_ok (op : Opcode) (l r : IRValue) (b b' : Builder) (v : IRValue) :
  binop op (Some l) (Some r) b = Ok v b' ->
  type_of v = type_of l /\ type_of r = type_of l.
Proof.
  unfold binop, operand. unfold bind at 1, ret at 1. unfold bind at 1, ret at 1.
  destruct (IRType_eqb (type_of l) (type_of r)) eqn:E; [|discriminate].
  apply IRType_eqb_sound in E. intros H.
  apply emit_ok in H as [blk [_ [-> _]]]. now split.
Qed.

Lemma icmp_signed_ok (op : Literal) (l r : option IRValue) (b b' : Builder)
    (v : IRValue) :
  icmp_signed op l r b = Ok v b' -> type_of v = IntType 1.
Proof.
  unfold icmp_signed. destruct op as [|o| |]; try discriminate.
  destruct (valid_cmp o); [|discriminate]. intros H.
  apply bind_ok in H as [x [b1 [_ H]]].
  apply bind_ok in H as [y [b2 [_ H]]].
  apply emit_ok in H as [blk [_ [-> _]]]. reflexivity.
Qed.

Lemma fcmp_ordered_ok (op : Literal) (l r : option IRValue) (b b' : Builder)
    (v : IRValue) :
  fcmp_ordered op l r b = Ok v b' -> type_of v = IntType 1.
Proof.
  unfold fcmp_ordered. destruct op as [|o| |]; try discriminate.
  destruct (valid_cmp o); [|discriminate]. intros H.
  apply bind_ok in H as [x [b1 [_ H]]].
  apply bind_ok in H as [y [b2 [_ H]]].
  apply emit_ok in H as [blk [_ [-> _]]]. reflexivity.
Qed.

Lemma castop_ok (op : Opcode) (x : option IRValue) (ty : IRType)
    (b b' : Builder) (v : IRValue) :
  castop op x ty b = Ok v b' -> type_of v = ty.
Proof.
  unfold castop. intros H. apply bind_ok in H as [y [b1 [_ H]]].
  destruct (IRType_eqb (type_of y) ty) eqn:E.
  - apply IRType_eqb_sound in E. inversion H as [[Hy Hb]].
    rewrite <- Hy. exact E.
  - apply emit_ok in H as [blk [_ [-> _]]]. reflexivity.
Qed.

(** The arithmetic branch of an operator: the instruction has the type of
    its operands. *)
Ltac arithmetic_branch Hh :=
  apply bind_ok in Hh as [x [c1 [Hb Hh]]];
  apply builder_ok in Hb as [b [Hb _]];
  apply binop_ok in Hb as [Hb _];
  inversion Hh; subst; right; split; [reflexivity | exact Hb].

Lemma handle_int_operations_ok (op : Literal) (l r : IRValue) (c c' : t)
    (v : IRValue) :
  handle_int_operations op (Some l) (Some r) c = Ok (Some v) c' ->
  lit_is op "**" = false ->
  (lit_in op comparison_operators = true /\ type_of v = i1)
  \/ (lit_in op comparison_operators = false /\ type_of v = type_of l).
Proof.
  unfold handle_int_operations. intros Hh Hpow.
  destruct (lit_is op "+") eqn:E1;
    [apply lit_is_true in E1; subst op; arithmetic_branch Hh|].
  destruct (lit_is op "-") eqn:E2;
    [apply lit_is_true in E2; subst op; arithmetic_branch Hh|].
  destruct (lit_is op "*") eqn:E3;
    [apply lit_is_true in E3; subst op; arithmetic_branch Hh|].
  destruct (lit_is op "/") eqn:E4;
    [apply lit_is_true in E4; subst op; arithmetic_branch Hh|].
  destruct (lit_is op "%") eqn:E5;
    [apply lit_is_true in E5; subst op; arithmetic_branch Hh|].
  rewrite Hpow in Hh.
  destruct (lit_in op comparison_operators) eqn:Ec; [|discriminate Hh].
  apply bind_ok in Hh as [x [c1 [Hb Hh]]].
  apply builder_ok in Hb as [b [Hb _]].
  apply icmp_signed_ok in Hb. inversion Hh; subst. left. now split.
Qed.

Lemma handle_float_operations_ok (op : Literal) (l r : IRValue) (c c' : t)
    (v : IRValue) :
  handle_float_operations op (Some l) (Some r) c = Ok (Some v) c' ->
  lit_is op "**" = false ->
  (lit_in op comparison_operators = true /\ type_of v = i1)
  \/ (lit_in op comparison_operators = false /\ type_of v = type_of l).
Proof.
  unfold handle_float_operations. intros Hh Hpow.
  destruct (lit_is op "+") eqn:E1;
    [apply lit_is_true in E1; subst op; arithmetic_branch Hh|].
  destruct (lit_is op "-") eqn:E2;
    [apply lit_is_true in E2; subst op; arithmetic_branch Hh|].
  destruct (lit_is op "*") eqn:E3;
    [apply lit_is_true in E3; subst op; arithmetic_branch Hh|].
  destruct (lit_is op "/") eqn:E4;
    [apply lit_is_true in E4; subst op; arithmetic_branch Hh|].
  destruct (lit_is op "%") eqn:E5;
    [apply lit_is_true in E5; subst op; arithmetic_branch Hh|].
  rewrite Hpow in Hh.
  destruct (lit_in op comparison_operators) eqn:Ec; [|discriminate Hh].
  apply bind_ok in Hh as [x [c1 [Hb Hh]]].
  apply builder_ok in Hb as [b [Hb _]].
  apply fcmp_ordered_ok in Hb. inversion Hh; subst. left. now split.
Qed.

(** The end of each arm of [visit_infix_expression]. *)
Lemma arm_result (op : Literal) (value : option IRValue) (arith : IRType)
    (c c' : t) (v : IRValue) (ty : IRType) (operand_type : IRType) :
  (if lit_in op comparison_operators
   then ret (value, Some i1) else ret (value, Some arith)) c
  = Ok (Some v, Some ty) c' ->
  ((lit_in op comparison_operators = true /\ type_of v = i1)
   \/ (lit_in op comparison_operators = false /\ type_of v = operand_type)) ->
  value = Some v ->
  operand_type = arith ->
  type_of v = ty
  /\ ty = (if lit_in op comparison_operators then i1 else arith).
Proof.
  intros H Hv Hval Hop.
  destruct Hv as [[Ec Hv]|[Ec Hv]]; rewrite Ec in *; inversion H; subst;
    split; congruence.
Qed.

(** For operands that are integers or floats, each with a value of the
    type its handle names, every operator other than [**] gives a value
    whose type is the handle returned with it: i1 for the six comparisons,
    else i64 when both operands are integers and f64 as soon as one is a
    float, the integer operand being converted first. *)
Theorem infix_value_has_handle_type
    (rv : option Expression -> M t (option IRValue * option IRType))
    (left_node right_node : option Expression) (op : Literal)
    (c c1 c2 c3 : t) (l r v : IRValue) (ty : IRType) :
  rv left_node c = Ok (Some l, Some (type_of l)) c1 ->
  rv right_node c1 = Ok (Some r, Some (type_of r)) c2 ->
  type_of l = i64 \/ type_of l = f64 ->
  type_of r = i64 \/ type_of r = f64 ->
  lit_is op "**" = false ->
  visit_infix_expression rv left_node op right_node c
  = Ok (Some v, Some ty) c3 ->
  type_of v = ty
  /\ ty = (if lit_in op comparison_operators then i1
           else if is_IntType (type_of l) && is_IntType (type_of r)
                then i64 else f64).
Proof.
  intros Hl Hr Htl Htr Hpow H.
  unfold visit_infix_expression in H.
  apply bind_ok in H as [a [c1' [Ha H]]]. rewrite Hl in Ha.
  inversion Ha; subst a c1'. clear Ha.
  apply bind_ok in H as [a [c2' [Ha H]]]. rewrite Hr in Ha.
  inversion Ha; subst a c2'. clear Ha.
  cbn [fst snd isinstance] in H.
  destruct Htl as [Etl|Etl], Htr as [Etr|Etr]; rewrite Etl, Etr in *;
    cbn [is_IntType is_DoubleType is_PointerType andb i64 f64] in H |- *.
  - apply bind_ok in H as [value [c4 [Hh H]]].
    destruct value as [x|].
    2:{ destruct (lit_in op comparison_operators); inversion H. }
    assert (x = v)
      by (destruct (lit_in op comparison_operators); now inversion H).
    subst x.
    apply (arm_result op (Some v) (IntType 64) c4 c3 v ty (type_of l) H);
      [|reflexivity|exact Etl].
    now apply (handle_int_operations_ok op l r c2 c4).
  - apply bind_ok in H as [l' [c4 [Hc H]]].
    apply builder_ok in Hc as [b [Hc ->]]. apply castop_ok in Hc.
    apply bind_ok in H as [value [c5 [Hh H]]].
    destruct value as [x|].
    2:{ destruct (lit_in op comparison_operators); inversion H. }
    assert (x = v)
      by (destruct (lit_in op comparison_operators); now inversion H).
    subst x.
    apply (arm_result op (Some v) DoubleType c5 c3 v ty (type_of l') H);
      [|reflexivity|exact Hc].
    now apply (handle_float_operations_ok op l' r (set_ir b c2) c5).
  - apply bind_ok in H as [r' [c4 [Hc H]]].
    apply builder_ok in Hc as [b [Hc ->]]. apply castop_ok in Hc.
    apply bind_ok in H as [value [c5 [Hh H]]].
    destruct value as [x|].
    2:{ destruct (lit_in op comparison_operators); inversion H. }
    assert (x = v)
      by (destruct (lit_in op comparison_operators); now inversion H).
    subst x.
    apply (arm_result op (Some v) DoubleType c5 c3 v ty (type_of l) H);
      [|reflexivity|exact Etl].
    now apply (handle_float_operations_ok op l r' (set_ir b c2) c5).
  - apply bind_ok in H as [value [c4 [Hh H]]].
    destruct value as [x|].
    2:{ destruct (lit_in op comparison_operators); inversion H. }
    assert (x = v)
      by (destruct (lit_in op comparison_operators); now inversion H).
    subst x.
    apply (arm_result op (Some v) DoubleType c4 c3 v ty (type_of l) H);
      [|reflexivity|exact Etl].
    now apply (handle_float_operations_ok op l r c2 c4).
Qed.


(** ** The value of a prefix expression *)

(** For an operand that is an integer or a float with a value of the type
    its handle names, the handle returned for a prefix expression is the
    one of the operand.  The value of [-x] has that type (a product with
    minus one); the value of [not x] is the comparison of [x] with zero,
    of type i1, while the handle stays the one of the operand. *)
Theorem prefix_value_and_handle
    (rv : option Expression -> M t (option IRValue * option IRType))
    (right_node : option Expression) (op : Literal)
    (c c1 c2 : t) (r v : IRValue) (ty : IRType) :
  rv right_node c = Ok (Some r, Some (type_of r)) c1 ->
  type_of r = i64 \/ type_of r = f64 ->
  visit_prefix_expression rv op right_node c = Ok (Some v, Some ty) c2 ->
  ty = type_of r
  /\ ((op = LStr "-" /\ type_of v = type_of r)
      \/ (op = LStr "not" /\ type_of v = i1)).
Proof.
  intros Hr Htr H. unfold visit_prefix_expression in H.
  apply bind_ok in H as [a [c1' [Ha H]]]. rewrite Hr in Ha.
  inversion Ha; subst a c1'. clear Ha.
  cbn [fst snd isinstance] in H.
  destruct Htr as [Etr|Etr]; rewrite Etr in *;
    cbn [is_IntType is_DoubleType i64 f64] in H |- *.
  - destruct (lit_is op "-") eqn:E1.
    + apply lit_is_true in E1.
      apply bind_ok in H as [x [c3 [Hb H]]].
      apply builder_ok in Hb as [b [Hb _]]. apply binop_ok in Hb as [Hb _].
      inversion H; subst. split; [reflexivity|]. left.
      split; [reflexivity|]. now rewrite Hb.
    + destruct (lit_is op "not") eqn:E2; [|inversion H].
      apply lit_is_true in E2.
      apply bind_ok in H as [x [c3 [Hb H]]].
      apply builder_ok in Hb as [b [Hb _]]. apply icmp_signed_ok in Hb.
      inversion H; subst. split; [reflexivity|]. right. now split.
  - destruct (lit_is op "-") eqn:E1.
    + apply lit_is_true in E1.
      apply bind_ok in H as [x [c3 [Hb H]]].
      apply builder_ok in Hb as [b [Hb _]]. apply binop_ok in Hb as [Hb _].
      inversion H; subst. split; [reflexivity|]. left.
      split; [reflexivity|]. now rewrite Hb.
    + destruct (lit_is op "not") eqn:E2; [|inversion H].
      apply lit_is_true in E2.
      apply bind_ok in H as [x [c3 [Hb H]]].
      apply builder_ok in Hb as [b [Hb _]]. apply fcmp_ordered_ok in Hb.
      inversion H; subst. split; [reflexivity|]. right. now split.
Qed.

(** ** The memory of a string literal *)

Lemma operand_ok (x : option IRValue) (b b' : Builder) (v : IRValue) :
  operand x b = Ok v b' -> x = Some v /\ b' = b.
Proof.
  destruct x as [y|]; cbn; intros H; inversion H. now split.
Qed.

Lemma check_args_ok (params : list IRType) :
  forall (args : list (option IRValue)) (b b' : Builder) (vs : list IRValue),
    check_args params args b = Ok vs b' -> args = map Some vs /\ b' = b.
Proof.
  induction params as [|p params IH]; intros args b b' vs H.
  - cbn [check_args] in H. revert b b' vs H.
    induction args as [|a args IHa]; intros b b' vs H.
    + inversion H. now split.
    + apply bind_ok in H as [v [b1 [Hv H]]].
      apply operand_ok in Hv as [-> ->].
      apply bind_ok in H as [vs' [b2 [Hr H]]].
      apply IHa in Hr as [-> ->]. inversion H. now split.
  - cbn [check_args] in H. destruct args as [|a args]; [discriminate H|].
    apply bind_ok in H as [v [b1 [Hv H]]].
    apply operand_ok in Hv as [-> ->].
    destruct (IRType_eqb (type_of v) p); [|discriminate H].
    apply bind_ok in H as [vs' [b2 [Hr H]]].
    apply IH in Hr as [-> ->]. inversion H. now split.
Qed.

Lemma call_ok (fn : option IRValue) (args : list (option IRValue))
    (b b' : Builder) (v : IRValue) :
  call fn args b = Ok v b' ->
  exists f rty vs blk,
    fn = Some f /\ args = map Some vs
    /\ v = Instruction (length (code (module_ b))) Call rty (f :: vs)
    /\ code (module_ b') = code (module_ b) ++ [(blk, v)].
Proof.
  unfold call. intros H. apply bind_ok in H as [f [b1 [Hf H]]].
  apply operand_ok in Hf as [-> ->].
  destruct f as [| |name fnty| | | |]; try discriminate H.
  destruct fnty as [| | | | |rty params va]; try discriminate H.
  apply bind_ok in H as [vs [b2 [Hc H]]].
  apply check_args_ok in Hc as [-> ->].
  apply emit_ok in H as [blk [_ [-> [Hcode _]]]].
  exists (Function name (FunctionType rty params va)), rty, vs, blk.
  repeat split. exact Hcode.
Qed.

(** The memory a string literal gets is the size of what is put in it.
    When [convert_string] returns, its value is the call of the allocator
    with one argument, the number of bytes of the decoded literal with its
    terminator, which is at least one; the last instruction emitted is the
    call that copies the bytes, and its length argument is that same
    number.  The handle is the type of strings. *)
Theorem string_memory_fits (text : string) (c c' : t) (ptr : IRValue)
    (ty : IRType) :
  convert_string (LStr text) c = Ok (Some ptr, Some ty) c' ->
  let size := Constant (IntType 64)
                (LInt (Z.of_nat (String.length (Escapes.literal_bytes text)))) in
  ty = i8ptr
  /\ (1 <= String.length (Escapes.literal_bytes text))%nat
  /\ (exists n rty alloc, ptr = Instruction n Call rty [alloc; size])
  /\ (exists before blk n rty memcpy dst src,
        code (module_ (ir c'))
        = before ++ [(blk, Instruction n Call rty [memcpy; dst; src; size])]).
Proof.
  unfold convert_string. intros H. cbv zeta.
  apply bind_ok in H as [alloc [c1 [_ H]]].
  apply bind_ok in H as [p [c2 [Hp H]]].
  apply builder_ok in Hp as [b2 [Hp _]].
  apply call_ok in Hp as (f & rty & vs & blk & _ & Hargs & Hptr & _).
  destruct vs as [|sz [|? ?]]; try discriminate Hargs.
  inversion Hargs; subst sz. clear Hargs.
  apply bind_ok in H as [temp [c3 [_ H]]].
  apply bind_ok in H as [st [c4 [_ H]]].
  apply bind_ok in H as [temp_cast [c5 [_ H]]].
  apply bind_ok in H as [ptr_cast [c6 [_ H]]].
  apply bind_ok in H as [memcpy [c7 [_ H]]].
  apply bind_ok in H as [cp [c8 [Hcp H]]].
  apply builder_ok in Hcp as [b8 [Hcp ->]].
  apply call_ok in Hcp as (f' & rty' & vs' & blk' & _ & Hargs' & Hv' & Hcode').
  destruct vs' as [|d [|s0 [|sz' [|? ?]]]]; try discriminate Hargs'.
  inversion Hargs'; subst. clear Hargs'.
  inversion H; subst. clear H.
  split; [reflexivity|].
  split; [apply LiteralFacts.literal_bytes_nonempty|].
  split; [eexists; eexists; eexists; reflexivity|].
  cbn [ir set_ir]. rewrite Hcode'.
  eexists; eexists; eexists; eexists; eexists; eexists; eexists. reflexivity.
Qed.

(* @@END@@ *)
End LoweringFacts.

(** ** Sample runs *)

Definition no_files (path : string) : option string := None.

(** The value a computation returns, and a constant of no type when it
    returns none. *)
Definition value_after
    (m : M Compiler.t (option IR.IRValue * option IR.IRType))
    (c : Compiler.t) : IR.IRValue :=
  match m c with
  | Ok (Some v, _) _ => v
  | _ => IR.Constant IR.VoidType (LInt 0)
  end.

(** [while x < 3: while x < 2: x += 1; end x += 1; end], lowered where
    [x] is an integer variable. *)
Definition nested_loops : option Node :=
  Some (NStatement
    (WhileStatement
       (Some (InfixExpression (CompilerFacts.ident "x") (LStr "<")
                (CompilerFacts.int_lit 3)))
       [Some (WhileStatement
                (Some (InfixExpression (CompilerFacts.ident "x") (LStr "<")
                         (CompilerFacts.int_lit 2)))
                [Some (AssignStatement (CompilerFacts.ident "x") (LStr "+=")
                         (CompilerFacts.int_lit 1))]);
        Some (AssignStatement (CompilerFacts.ident "x") (LStr "+=")
                (CompilerFacts.int_lit 1))])).

Lemma compile_keeps_loop_targets_nested :
  let c' := CompilerFacts.state_after (Compiler.compile no_files 8 nested_loops)
              CompilerFacts.x_state in
  Compiler.breakpoints c' = [] /\ Compiler.continues c' = [].
Proof.
  apply (LoweringFacts.compile_keeps_loop_targets no_files 8 nested_loops
           CompilerFacts.x_state).
  vm_compute. reflexivity.
Defined.

(** [def f(a: int) -> int: return a; end] at the top level. *)
Definition def_f : list FunctionParameter * list (option Statement) :=
  ([mkParam (LStr "a") (LStr "int")],
   [Some (ReturnStatement (CompilerFacts.ident "a"))]).

Lemma function_scope_is_closed_f :
  let c' := CompilerFacts.state_after
              (Compiler.visit_function_statement (Compiler.compile no_files 5)
                 5 (fst def_f) (snd def_f) (CompilerFacts.ident "f")
                 (LStr "int"))
              CompilerFacts.entry_state in
  Environment.lookup (Compiler.env c') (LStr "a")
  = Environment.lookup (Compiler.env CompilerFacts.entry_state) (LStr "a")
  /\ IR.position (Compiler.ir c')
     = IR.position (Compiler.ir CompilerFacts.entry_state).
Proof.
  cbv zeta.
  destruct (LoweringFacts.function_scope_is_closed
              (Compiler.compile no_files 5) 5 (fst def_f) (snd def_f)
              (CompilerFacts.ident "f") (LStr "int")
              CompilerFacts.entry_state
              (CompilerFacts.state_after
                 (Compiler.visit_function_statement
                    (Compiler.compile no_files 5) 5 (fst def_f) (snd def_f)
                    (CompilerFacts.ident "f") (LStr "int"))
                 CompilerFacts.entry_state))
    as (fn & tys & ret_ty & Hname & _ & Hother & Hpos);
    [vm_compute; reflexivity|].
  split; [|exact Hpos]. apply Hother.
  intros E. rewrite <- E in Hname.
  change (Ok (LStr "f") CompilerFacts.entry_state
          = Ok (LStr "a") CompilerFacts.entry_state) in Hname.
  inversion Hname.
Defined.

(** The file of the declaration, imported twice. *)
Lemma import_twice_is_import_once_lib2 :
  let c' := CompilerFacts.state_after
              (Compiler.compile ImportFacts.files 3
                 (ImportFacts.import_of "lib2.purr"))
              CompilerFacts.entry_state in
  Compiler.visit_import_statement ImportFacts.files
    (Compiler.compile ImportFacts.files 2) 2 (LStr "lib2.purr") c'
  = Ok tt c'.
Proof.
  cbv zeta.
  apply (LoweringFacts.import_twice_is_import_once ImportFacts.files
           (Compiler.compile ImportFacts.files 2) 2 2 (LStr "lib2.purr")
           CompilerFacts.entry_state).
  vm_compute. reflexivity.
Defined.

(** The name [y] at the start of [.main]. *)
Lemma undefined_name_y :
  Compiler.resolve_value 1 (CompilerFacts.ident "y") CompilerFacts.entry_state
  = Raise (TypeError "cannot unpack non-iterable NoneType object")
      CompilerFacts.entry_state.
Proof.
  refine (proj1 (LoweringFacts.undefined_name 0 (LStr "y")
                   CompilerFacts.entry_state _)).
  vm_compute. reflexivity.
Defined.

(** [2 < 1.5]: the integer is converted and the comparison is an i1. *)
Lemma infix_value_has_handle_type_mixed :
  exists v c3,
    Compiler.visit_infix_expression (Compiler.resolve_value 5)
      (CompilerFacts.int_lit 2) (LStr "<") (CompilerFacts.float_lit "1.5")
      CompilerFacts.entry_state
    = Ok (Some v, Some Compiler.i1) c3
    /\ IR.type_of v = Compiler.i1.
Proof.
  exists (value_after
            (Compiler.visit_infix_expression (Compiler.resolve_value 5)
               (CompilerFacts.int_lit 2) (LStr "<")
               (CompilerFacts.float_lit "1.5"))
            CompilerFacts.entry_state),
         (CompilerFacts.state_after
            (Compiler.visit_infix_expression (Compiler.resolve_value 5)
               (CompilerFacts.int_lit 2) (LStr "<")
               (CompilerFacts.float_lit "1.5"))
            CompilerFacts.entry_state).
  match goal with |- ?R /\ _ =>
    assert (Hrun : R) by (vm_compute; reflexivity) end.
  split; [exact Hrun|].
  refine (proj1 (LoweringFacts.infix_value_has_handle_type
                   (Compiler.resolve_value 5) (CompilerFacts.int_lit 2)
                   (CompilerFacts.float_lit "1.5") (LStr "<")
                   CompilerFacts.entry_state CompilerFacts.entry_state
                   CompilerFacts.entry_state _
                   (IR.Constant Compiler.i64 (LInt 2))
                   (IR.Constant Compiler.f64 (LFloat "1.5")) _ Compiler.i1
                   _ _ _ _ _ Hrun)).
  - vm_compute. reflexivity.
  - vm_compute. reflexivity.
  - left. reflexivity.
  - right. reflexivity.
  - reflexivity.
Defined.

(** [not 2]: the value is an i1, the handle is the one of the integer. *)
Lemma prefix_value_and_handle_not :
  exists v c2,
    Compiler.visit_prefix_expression (Compiler.resolve_value 5) (LStr "not")
      (CompilerFacts.int_lit 2) CompilerFacts.entry_state
    = Ok (Some v, Some Compiler.i64) c2
    /\ IR.type_of v = Compiler.i1.
Proof.
  exists (value_after
            (Compiler.visit_prefix_expression (Compiler.resolve_value 5)
               (LStr "not") (CompilerFacts.int_lit 2))
            CompilerFacts.entry_state),
         (CompilerFacts.state_after
            (Compiler.visit_prefix_expression (Compiler.resolve_value 5)
               (LStr "not") (CompilerFacts.int_lit 2))
            CompilerFacts.entry_state).
  match goal with |- ?R /\ _ =>
    assert (Hrun : R) by (vm_compute; reflexivity) end.
  split; [exact Hrun|].
  destruct (LoweringFacts.prefix_value_and_handle
              (Compiler.resolve_value 5) (CompilerFacts.int_lit 2) (LStr "not")
              CompilerFacts.entry_state CompilerFacts.entry_state _
              (IR.Constant Compiler.i64 (LInt 2)) _ Compiler.i64
              ltac:(vm_compute; reflexivity) ltac:(left; reflexivity) Hrun)
    as [_ [[E _]|[_ E]]]; [discriminate E | exact E].
Defined.

(** The literal [hi]: three bytes. *)
Lemma string_memory_fits_hi :
  exists ptr c' n rty alloc,
    Compiler.convert_string (LStr "hi") CompilerFacts.entry_state
    = Ok (Some ptr, Some Compiler.i8ptr) c'
    /\ ptr = IR.Instruction n IR.Call rty
               [alloc; IR.Constant (IR.IntType 64) (LInt 3)].
Proof.
  exists (value_after (Compiler.convert_string (LStr "hi"))
            CompilerFacts.entry_state),
         (CompilerFacts.state_after (Compiler.convert_string (LStr "hi"))
            CompilerFacts.entry_state).
  assert (Hrun :
    Compiler.convert_string (LStr "hi") CompilerFacts.entry_state
    = Ok (Some (value_after (Compiler.convert_string (LStr "hi"))
                  CompilerFacts.entry_state), Some Compiler.i8ptr)
         (CompilerFacts.state_after (Compiler.convert_string (LStr "hi"))
            CompilerFacts.entry_state))
    by (vm_compute; reflexivity).
  destruct (LoweringFacts.string_memory_fits "hi" CompilerFacts.entry_state
              _ _ Compiler.i8ptr Hrun)
    as (_ & _ & (n & rty & alloc & E) & _).
  exists n, rty, alloc. split; [exact Hrun | exact E].
Defined.

(** [break] at the start of [.main], and inside one loop whose exit block
    is [while_loop_otherwise_1]. *)
Definition loop_exit : IR.Block := IR.mkBlock ".main" "while_loop_otherwise_1".

Definition in_loop : Compiler.t :=
  Compiler.set_breakpoints [loop_exit] CompilerFacts.entry_state.

Lemma break_and_continue_targets_one_loop :
  Compiler.visit_break_statement CompilerFacts.entry_state
  = Raise (RuntimeError "Break statement outside of loop.")
      CompilerFacts.entry_state
  /\ exists blk,
       IR.position (Compiler.ir in_loop) = Some blk
       /\ IR.code (IR.module_ (Compiler.ir
            (CompilerFacts.state_after Compiler.visit_break_statement in_loop)))
          = IR.code (IR.module_ (Compiler.ir in_loop))
            ++ [(blk, IR.Instruction
                        (length (IR.code (IR.module_ (Compiler.ir in_loop))))
                        IR.Br IR.VoidType [IR.BlockRef loop_exit])].
Proof.
  destruct (LoweringFacts.break_and_continue_targets CompilerFacts.entry_state)
    as (H1 & _).
  destruct (LoweringFacts.break_and_continue_targets in_loop)
    as (_ & _ & H3 & _).
  split.
  - apply H1. vm_compute. reflexivity.
  - apply (H3 [] loop_exit
             (CompilerFacts.state_after Compiler.visit_break_statement in_loop)).
    + reflexivity.
    + vm_compute. reflexivity.
Defined.
